(** * Interactive simplex method: problems, dictionaries and their transformations

    A shallow embedding of [sage/numerical/interactive_simplex_method.py]
    (classes [InteractiveLPProblem], [InteractiveLPProblemStandardForm],
    [LPDictionary] and [LPRevisedDictionary]) over exact rationals.

    Rationals are Stdlib's canonical rationals [Qc], vectors are lists
    of rationals, matrices are lists of rows.  Python exceptions are
    values of [exn] carried by the [result] monad; attribute assignment
    on [self] is explicit state passing; the mutable matrix and vector
    objects a dictionary holds live in a [store] addressed by
    references. *)

From Stdlib Require Import QArith Qcanon.
From stdpp Require Import base option list strings numbers pretty gmap.

Local Open Scope Qc_scope.
Local Open Scope string_scope.
Local Open Scope list_scope.

(** ** Exceptions and the result monad *)

(** The error taxonomy of the specification. *)
Inductive error_kind :=
  | ShapeError | DomainError | AlreadyExistsError
  | InvalidPartitionError | UnboundedError | StyleError
  | Unclassified.      (* raised by the code, absent from the taxonomy *)

(** One constructor for each [raise] site of the module; all of them
    are [ValueError] in Python except the two lookup failures. *)
Inductive exn :=
  | Style_must_be_None_or_vanderbei
      (* ValueError("Style must be one of None (the default) or 'vanderbei'") *)
  | Auxiliary_variable_already_among_decision_ones
      (* ValueError("auxiliary variable is already among decision ones") *)
  | Auxiliary_variable_must_be_nonbasic
      (* ValueError("the auxiliary variable must be non-basic") *)
  | Auxiliary_dictionary_must_be_feasible
      (* ValueError("the auxiliary dictionary must be feasible") *)
  | Revised_style_must_be_vanderbei
      (* ValueError("For educational purposes, style must be initialized to vanderbei") *)
  | Revised_not_for_auxiliary_problems
      (* ValueError("revised dictionaries should not be constructed for auxiliary problems") *)
  | Incompatible_dimensions       (* shape checks of the constructors *)
  | Degenerate_standard_form      (* no variable or no constraint left *)
  | Wrong_partition               (* basic variables do not fit the problem *)
  | Incompatible_entering_leaving (* zero pivot element *)
  | Unbounded                     (* no leaving candidate *)
  | Min_of_empty_sequence         (* ValueError of min([]) *)
  | Not_in_list                   (* ValueError of list.index *)
  | Index_out_of_range.           (* IndexError *)

Definition kind (e : exn) : error_kind :=
  match e with
  | Style_must_be_None_or_vanderbei | Revised_style_must_be_vanderbei => StyleError
  | Auxiliary_variable_already_among_decision_ones => AlreadyExistsError
  | Auxiliary_variable_must_be_nonbasic
  | Auxiliary_dictionary_must_be_feasible
  | Wrong_partition => InvalidPartitionError
  | Incompatible_dimensions => ShapeError
  | Degenerate_standard_form => DomainError
  | Unbounded => UnboundedError
  | Revised_not_for_auxiliary_problems
  | Incompatible_entering_leaving
  | Min_of_empty_sequence | Not_in_list | Index_out_of_range => Unclassified
  end.

Inductive result (A : Type) :=
  | Ok (a : A)
  | Raise (e : exn).
Arguments Ok {A} a.
Arguments Raise {A} e.

Global Instance result_ret : MRet result := λ A a, Ok a.
Global Instance result_bind : MBind result := λ A B k r,
  match r with
  | Ok a => k a
  | Raise e => Raise e
  end.

(** [check b e]: go on when [b] holds, raise [e] otherwise. *)
Definition check (b : bool) (e : exn) : result unit :=
  if b then Ok tt else Raise e.

Definition is_Ok {A} (r : result A) : bool :=
  match r with Ok _ => true | Raise _ => false end.

Definition from_option {A} (o : option A) (e : exn) : result A :=
  match o with Some a => Ok a | None => Raise e end.

(** ** Exact rationals *)

Definition Qcleb (x y : Qc) : bool := Qle_bool x y.
Definition Qcltb (x y : Qc) : bool := negb (Qle_bool y x).
Definition Qceqb (x y : Qc) : bool := bool_decide (x = y).

(** ** Python sequences *)

(** [l[i]] and [M[i, j]]; a read out of range, which the shapes of
    well-formed problems and dictionaries exclude, gives zero. *)
Definition get (l : list Qc) (i : nat) : Qc := default 0 (l !! i).
Definition entry (M : list (list Qc)) (i j : nat) : Qc :=
  get (default [] (M !! i)) j.

(** [l.index(x)]: position of the first occurrence. *)
Fixpoint index {A} `{EqDecision A} (x : A) (l : list A) : option nat :=
  match l with
  | [] => None
  | y :: l' => if decide (x = y) then Some O else S <$> index x l'
  end.

(** [X[-m:]], [X[:-m]] and [X[-m-n:-m]]; Python reads [-0] as [0]. *)
Definition slice_last {A} (m : nat) (X : list A) : list A :=
  match m with
  | O => X
  | _ => drop (length X - m) X
  end.

Definition slice_but_last {A} (m : nat) (X : list A) : list A :=
  match m with
  | O => []
  | _ => take (length X - m) X
  end.

Definition slice_mid {A} (n m : nat) (X : list A) : list A :=
  match m with
  | O => []
  | _ => drop (length X - m - n) (take (length X - m) X)
  end.

(** [min(l)] for a non-empty sequence. *)
Definition Qcmin2 (x y : Qc) : Qc := if Qcltb y x then y else x.

Definition py_min (l : list Qc) : result Qc :=
  match l with
  | [] => Raise Min_of_empty_sequence
  | x :: l' => Ok (foldl Qcmin2 x l')
  end.

(** ["{}{:d}".format(prefix, i)] *)
Definition format_name (prefix : string) (i : nat) : string :=
  prefix +:+ pretty i.

(** ** Vectors and matrices over the rationals *)

Fixpoint dot (u v : list Qc) : Qc :=
  match u, v with
  | a :: u', b :: v' => a * b + dot u' v'
  | _, _ => 0
  end.

Definition scale (k : Qc) (u : list Qc) : list Qc := (Qcmult k) <$> u.
Definition vdiv (u : list Qc) (k : Qc) : list Qc := (λ a, a / k) <$> u.
Definition vneg (u : list Qc) : list Qc := Qcopp <$> u.
Definition vadd (u v : list Qc) : list Qc := zip_with Qcplus u v.
Definition vsub (u v : list Qc) : list Qc := zip_with Qcminus u v.
Definition zeros (n : nat) : list Qc := replicate n 0.
Definition unit_vector (m i : nat) : list Qc := <[i := 1]> (zeros m).

Definition col (j : nat) (M : list (list Qc)) : list Qc := (λ r, get r j) <$> M.
Definition transpose (n : nat) (M : list (list Qc)) : list (list Qc) :=
  (λ j, col j M) <$> seq 0 n.
Definition mat_vec (M : list (list Qc)) (v : list Qc) : list Qc :=
  (λ r, dot r v) <$> M.
(** Row vector times matrix with [k] columns. *)
Definition vec_mat (k : nat) (v : list Qc) (M : list (list Qc)) : list Qc :=
  (λ j, dot v (col j M)) <$> seq 0 k.
Definition identity (m : nat) : list (list Qc) :=
  (λ i, unit_vector m i) <$> seq 0 m.
Definition mat_mul (k : nat) (M N : list (list Qc)) : list (list Qc) :=
  (λ r, vec_mat k r N) <$> M.
Definition rectangular (m n : nat) (M : list (list Qc)) : Prop :=
  length M = m ∧ Forall (λ r, length r = n) M.
Definition rectangularb (m n : nat) (M : list (list Qc)) : bool :=
  bool_decide (length M = m) && forallb (λ r, bool_decide (length r = n)) M.

(** ** LP problems in general form *)

(** Constraint relations ["<="], [">="], ["=="]. *)
Inductive constraint_type := CLe | CGe | CEq.
(** Variable domains [">="], ["<="], [""] (free). *)
Inductive variable_type := VGe | VLe | VFree.
(** ["max"] or ["min"]; a leading ["-"] is kept in [_is_negative]. *)
Inductive direction := Max | Min.

Global Instance constraint_type_eq_dec : EqDecision constraint_type.
Proof. solve_decision. Defined.
Global Instance variable_type_eq_dec : EqDecision variable_type.
Proof. solve_decision. Defined.
Global Instance direction_eq_dec : EqDecision direction.
Proof. solve_decision. Defined.

(** The [objective] argument and attribute: [None], a string, or a
    sequence turned into strings by [map(str, objective)]. *)
Inductive objective_name :=
  | ObjNone
  | ObjStr (s : string)
  | ObjSeq (l : list string).

Global Instance objective_name_eq_dec : EqDecision objective_name.
Proof. solve_decision. Defined.

(** The [x] / [y] / [slack_variables] argument: a base name or a list. *)
Inductive names_arg :=
  | BaseName (s : string)
  | Names (l : list string).

Record problem_type := { pt_negative : bool; pt_direction : direction }.

Record InteractiveLPProblem := {
  _A : list (list Qc);          (* self._Abcx[0] *)
  _b : list Qc;                 (* self._Abcx[1] *)
  _c : list Qc;                 (* self._Abcx[2] *)
  _x : list string;             (* self._Abcx[3] *)
  _constraint_types : list constraint_type;
  _variable_types : list variable_type;
  _direction : direction;
  _is_negative : bool;
  _prefix : string;
  _style : option string;
  _problem_type_pda : option string;
  _objective : objective_name
}.

Definition set_prefix (p : string) (self : InteractiveLPProblem) : InteractiveLPProblem :=
  {| _A := _A self; _b := _b self; _c := _c self; _x := _x self;
     _constraint_types := _constraint_types self;
     _variable_types := _variable_types self;
     _direction := _direction self; _is_negative := _is_negative self;
     _prefix := p;
     _style := _style self; _problem_type_pda := _problem_type_pda self;
     _objective := _objective self |}.

Definition vanderbei : option string := Some "vanderbei".

Definition m (self : InteractiveLPProblem) : nat := length (_b self).
Definition n (self : InteractiveLPProblem) : nat := length (_c self).

Definition gen_names (base : string) (first count : nat) : list string :=
  format_name base <$> seq first count.

(** A base name stands for numbered names, a list for itself. *)
Definition names_of (x : names_arg) (first count : nat) : list string :=
  match x with
  | BaseName s => gen_names s first count
  | Names l => l
  end.

(** Modelled from the spec: the body of [InteractiveLPProblem.__init__]
    is elided from the source apart from the assignments of [_style],
    [_problem_type_pda] and [_objective].  Shape validation follows the
    invariant of section 3 ([len(b) = m], [len(c) = len(x) = n], one
    relation per row, one domain per column; [ShapeError] otherwise); a
    base name yields the numbered names [base1 .. basen]. *)
Definition InteractiveLPProblem__init__
    (A : list (list Qc)) (b c : list Qc) (x : names_arg)
    (constraint_type : list constraint_type)
    (variable_type : list variable_type)
    (problem_type : problem_type) (prefix : string)
    (style : option string) (problem_type_pda : option string)
    (objective : objective_name) : result InteractiveLPProblem :=
  let names := names_of x 1 (length c) in
  _ ← check (rectangularb (length b) (length c) A) Incompatible_dimensions;
  _ ← check (bool_decide (length names = length c)) Incompatible_dimensions;
  _ ← check (bool_decide (length constraint_type = length b)) Incompatible_dimensions;
  _ ← check (bool_decide (length variable_type = length c)) Incompatible_dimensions;
  mret {| _A := A; _b := b; _c := c; _x := names;
          _constraint_types := constraint_type;
          _variable_types := variable_type;
          _direction := pt_direction problem_type;
          _is_negative := pt_negative problem_type;
          _prefix := prefix;
          _style := style;
          _problem_type_pda := problem_type_pda;
          _objective := objective |}.

(** The name chosen when [objective] is not a string: shared by [dual]
    and [auxiliary_problem], which spell out the same cascade. *)
Definition default_objective (style : option string)
    (own : objective_name) (objective : objective_name) : result objective_name :=
  match objective with
  | ObjStr s => Ok (ObjStr s)
  | ObjSeq l => Ok (ObjSeq l)                 (* map(str, objective) *)
  | ObjNone =>
      if decide (style = vanderbei) then Ok (ObjStr "xi")
      else if decide (style = None) then Ok own
      else Raise Style_must_be_None_or_vanderbei
  end.

(** Modelled from the spec: the loops of [dual] that build
    [constraint_type] and [variable_type] are elided from the source;
    they follow the LP-duality correspondence of section 4.1: for a
    maximization primal a [<=] row gives a [>= 0] dual variable, a [>=]
    row a [<= 0] one, an equation a free one, and a [>= 0] variable
    gives a [>=] dual row, a [<= 0] variable a [<=] row, a free
    variable an equation; for a minimization primal the inequalities
    are exchanged. *)
Definition dual_variable_type (d : direction) (ct : constraint_type) : variable_type :=
  match ct, d with
  | CLe, Max | CGe, Min => VGe
  | CGe, Max | CLe, Min => VLe
  | CEq, _ => VFree
  end.

Definition dual_constraint_type (d : direction) (vt : variable_type) : constraint_type :=
  match vt, d with
  | VGe, Max | VLe, Min => CGe
  | VLe, Max | VGe, Min => CLe
  | VFree, _ => CEq
  end.

Definition flip (d : direction) : direction :=
  match d with Max => Min | Min => Max end.

(** [InteractiveLPProblem.dual(self, y=None, objective=None)].  The
    tuple [self.Abcx()] is unpacked as [A, c, b, x]: the local [b] is
    the primal [c] and the local [c] the primal [b]. *)
Definition dual (self : InteractiveLPProblem) (y : option names_arg)
    (objective : objective_name) : result InteractiveLPProblem :=
  let A := _A self in
  let c := _b self in
  let b := _c self in
  let style := _style self in
  dual_objective ← default_objective style (_objective self) objective;
  let problem_type_pda := Some "dual" in
  let A := transpose (length b) A in
  let y := match y with
           | None => BaseName (if decide (_prefix self = "y") then "x" else "y")
           | Some y => y
           end in
  let constraint_type := dual_constraint_type (_direction self) <$> _variable_types self in
  let variable_type := dual_variable_type (_direction self) <$> _constraint_types self in
  let problem_type := {| pt_negative := _is_negative self;
                         pt_direction := flip (_direction self) |} in
  InteractiveLPProblem__init__ A b c y constraint_type variable_type
    problem_type "x" style problem_type_pda dual_objective.

(** ** LP problems in standard form *)

(** The subclass adds the coordinate ring, of which only the ordered
    generators matter here: the auxiliary variable (unless it is the
    first decision variable), the decision variables, the slack
    variables. *)
Record InteractiveLPProblemStandardForm := {
  base :> InteractiveLPProblem;
  _R : list string
}.

(** Modelled from the spec: the accessors of the variables are not in
    the source; they are the slices the source itself takes of the
    generators: [X[0]] for the auxiliary variable, [X[-m:]] for the
    slack variables, and the [x] stored in [_Abcx] for the decision
    variables. *)
Definition coordinate_ring_gens (self : InteractiveLPProblemStandardForm) : list string :=
  _R self.
Definition auxiliary_variable (self : InteractiveLPProblemStandardForm) : result string :=
  from_option (_R self !! 0%nat) Index_out_of_range.
Definition decision_variables (self : InteractiveLPProblemStandardForm) : list string :=
  _x self.
Definition slack_variables (self : InteractiveLPProblemStandardForm) : list string :=
  slice_last (m self) (_R self).

(** Modelled from the spec: the lines of the constructor that name the
    generators of the coordinate ring are elided from the source; the
    auxiliary variable comes first, then the decision variables, then
    the slack variables, and the auxiliary variable is not repeated
    when it is the first decision variable (the shape [len(X) == m + n]
    that [auxiliary_problem] tests). *)
Definition ring_names (auxiliary_variable : string) (x slack_variables : list string)
    : list string :=
  let names := auxiliary_variable :: x ++ slack_variables in
  if bool_decide (names !! 0%nat = names !! 1%nat) then drop 1 names else names.

(** [InteractiveLPProblemStandardForm.__init__].  From the source: the
    [else: raise] arm of the style cascade, the default slack base name
    of the "vanderbei" style (["w"]), the format of generated slack
    names, the replacement of [x] in [_Abcx], and the objective
    cascade.
    Modelled from the spec: the lines elided from the source, namely
    the call of the parent constructor with all rows [<=] and all
    variables [>= 0], the first two arms of the style cascade
    (recognized tags are kept), the default slack base name of the
    default style (the prefix), the index range of generated slack
    names (sequential after the decision variables), the default
    auxiliary variable (prefix followed by 0), the generators of the
    coordinate ring (the auxiliary variable is not repeated when it is
    the first decision variable), and the objective symbol of the
    default style (["z"]). *)
Definition InteractiveLPProblemStandardForm__init__
    (A : list (list Qc)) (b c : list Qc) (x : names_arg)
    (problem_type : problem_type)
    (slack_variables : option names_arg) (auxiliary_variable : option string)
    (style : option string) (problem_type_pda : option string)
    (objective : objective_name) : result InteractiveLPProblemStandardForm :=
  self ← InteractiveLPProblem__init__ A b c x
            (replicate (length b) CLe) (replicate (length c) VGe)
            problem_type "x" style problem_type_pda objective;
  self_style ←
    (if decide (style = vanderbei) then Ok vanderbei
     else if decide (style = None) then Ok None
     else Raise Style_must_be_None_or_vanderbei);
  slack_variables ←
    match slack_variables with
    | Some s => Ok s
    | None =>
        if decide (self_style = None) then Ok (BaseName (_prefix self))
        else if decide (self_style = vanderbei) then Ok (BaseName "w")
        else Raise Style_must_be_None_or_vanderbei
    end;
  let slack_variables := names_of slack_variables (S (n self)) (m self) in
  _ ← check (bool_decide (length slack_variables = m self)) Incompatible_dimensions;
  let auxiliary_variable :=
    match auxiliary_variable with
    | Some a => a
    | None => _prefix self +:+ "0"
    end in
  let names := ring_names auxiliary_variable (_x self) slack_variables in
  let x := slice_mid (n self) (m self) names in
  objective ←
    match objective with
    | ObjNone =>
        if decide (self_style = vanderbei) then
          if bool_decide (problem_type_pda = Some "dual")
             || bool_decide (problem_type_pda = Some "auxiliary")
          then Ok (ObjStr "xi") else Ok (ObjStr "zeta")
        else if decide (self_style = None) then Ok (ObjStr "z")
        else Raise Style_must_be_None_or_vanderbei
    | _ => Ok objective
    end;
  mret {| base := {| _A := _A self; _b := _b self; _c := _c self; _x := x;
                     _constraint_types := _constraint_types self;
                     _variable_types := _variable_types self;
                     _direction := _direction self;
                     _is_negative := _is_negative self;
                     _prefix := _prefix self;
                     _style := self_style;
                     _problem_type_pda := problem_type_pda;
                     _objective := objective |};
          _R := names |}.

(** Modelled from the spec: the two loops of [standard_form] are
    elided from the source after their first lines.  Rows (section
    4.1): a [>=] row is multiplied by -1, an equation is replaced by
    two [<=] rows of opposite sign. *)
Definition standardize_row (ct : constraint_type) (Ai : list Qc) (bi : Qc)
    : list (list Qc * Qc) :=
  match ct with
  | CLe => [(Ai, bi)]
  | CGe => [(vneg Ai, - bi)]
  | CEq => [(Ai, bi); (vneg Ai, - bi)]
  end.

Definition standardize_rows (cts : list constraint_type)
    (A : list (list Qc)) (b : list Qc) : list (list Qc) * list Qc :=
  let rows := mjoin (zip_with (λ ct Ab, standardize_row ct Ab.1 Ab.2) cts (zip A b)) in
  (rows.*1, rows.*2).

(** Modelled from the spec: the column loop of [standard_form]
    (section 4.1); a [<= 0] variable is replaced by its opposite, a
    free variable by the difference of two non-negative ones. *)
Definition standardize_coefficient (vt : variable_type) (a : Qc) : list Qc :=
  match vt with
  | VGe => [a]
  | VLe => [- a]
  | VFree => [a; - a]
  end.

Definition standardize_name (vt : variable_type) (xj : string) : list string :=
  match vt with
  | VGe => [xj]
  | VLe => [xj +:+ "_n"]
  | VFree => [xj +:+ "_p"; xj +:+ "_n"]
  end.

Definition standardize_vector (vts : list variable_type) (r : list Qc) : list Qc :=
  mjoin (zip_with standardize_coefficient vts r).

(** [InteractiveLPProblem.standard_form(self)], as a function from the
    receiver to the receiver after the call and the returned value.
    From the source: the reads of [_style], [_problem_type_pda] and
    [_objective], the two guards [if not all(...)], the assignment
    [self._prefix = "z"] under the "vanderbei" style, and the
    constructor call with slack base name [self._prefix] and auxiliary
    variable [self._prefix + "0"].
    Modelled from the spec: the loop bodies (above), the change of a
    minimization into a negated maximization, and the [DomainError]
    when no variable or no constraint is left. *)
Definition standard_form (self : InteractiveLPProblem)
    : InteractiveLPProblem * result InteractiveLPProblemStandardForm :=
  let '(A, b, c, x) := (_A self, _b self, _c self, _x self) in
  let style := _style self in
  let problem_type_pda := _problem_type_pda self in
  let objective := _objective self in
  let '(A, b) :=
    if forallb (λ ct, bool_decide (ct = CLe)) (_constraint_types self) then (A, b)
    else standardize_rows (_constraint_types self) A b in
  let '(A, c, x) :=
    if forallb (λ vt, bool_decide (vt = VGe)) (_variable_types self) then (A, c, x)
    else (standardize_vector (_variable_types self) <$> A,
          standardize_vector (_variable_types self) c,
          mjoin (zip_with standardize_name (_variable_types self) x)) in
  let '(c, is_negative) :=
    match _direction self with
    | Max => (c, _is_negative self)
    | Min => (vneg c, negb (_is_negative self))
    end in
  let problem_type := {| pt_negative := is_negative; pt_direction := Max |} in
  if bool_decide (length c = 0%nat) || bool_decide (length b = 0%nat)
  then (self, Raise Degenerate_standard_form)
  else
    let self := if decide (style = vanderbei) then set_prefix "z" self else self in
    (self,
     InteractiveLPProblemStandardForm__init__ A b c (Names x) problem_type
       (Some (BaseName (_prefix self))) (Some (_prefix self +:+ "0"))
       style problem_type_pda objective).

(** [InteractiveLPProblemStandardForm.auxiliary_problem(self, objective=None)].
    From the source: the objective cascade, the test [len(X) == m + n],
    and the two constructor calls (the one of the default style passes
    neither [style] nor [problem_type_pda]; its assignment
    [objective = "w"] is dead, the call passes [aux_objective]).
    Modelled from the spec: the elided lines that build the data of the
    auxiliary problem, a column of -1 in front of [A] and the objective
    [-x0] (section 4.1). *)
Definition auxiliary_problem (self : InteractiveLPProblemStandardForm)
    (objective : objective_name) : result InteractiveLPProblemStandardForm :=
  let X := coordinate_ring_gens self in
  let '(m, n) := (m self, n self) in
  let style := _style self in
  let problem_type_pda := Some "auxiliary" in
  aux_objective ← default_objective style (_objective self) objective;
  _ ← check (negb (bool_decide (length X = (m + n)%nat)))
        Auxiliary_variable_already_among_decision_ones;
  let A := (λ r, (-1) :: r) <$> _A self in
  let c := (-1) :: zeros n in
  let max := {| pt_negative := false; pt_direction := Max |} in
  X0 ← from_option (X !! 0%nat) Index_out_of_range;
  if decide (style = vanderbei) then
    InteractiveLPProblemStandardForm__init__ A (_b self) c
      (Names (slice_but_last m X)) max
      (Some (Names (slice_last m X))) (Some X0)
      style problem_type_pda aux_objective
  else
    InteractiveLPProblemStandardForm__init__ A (_b self) c
      (Names (slice_but_last m X)) max
      (Some (Names (slice_last m X))) (Some X0)
      None None aux_objective.

(** ** Dictionaries *)

(** Modelled from the spec: the interface of [LPAbstractDictionary],
    what both kinds of dictionary report (sections 3 and 4.2); the
    class is not in the source. *)
Class LPAbstractDictionary (D : Type) := {
  basic_variables : D → list string;
  nonbasic_variables : D → list string;
  constant_terms : D → list Qc;
  objective_coefficients : D → list Qc;
  objective_value : D → Qc;
  (* the column of a nonbasic variable *)
  entering_coefficients : D → string → list Qc
}.

Section abstract_dictionary.
Context {D : Type} `{LPAbstractDictionary D}.

(** Modelled from the spec: the methods of the abstract dictionary
    are not in the source; they follow section 4.2.  A dictionary is
    feasible iff every entry of the constant column is [>= 0]. *)
Definition is_feasible (d : D) : bool :=
  forallb (λ bi, Qcleb 0 bi) (constant_terms d).

(** Modelled from the spec: optimal iff every objective coefficient
    is [<= 0]. *)
Definition is_optimal (d : D) : bool :=
  forallb (λ cj, Qcleb cj 0) (objective_coefficients d).

(** The objective coefficient attached to a nonbasic variable. *)
Definition coefficient_of (d : D) (x : string) : option Qc :=
  j ← index x (nonbasic_variables d);
  objective_coefficients d !! j.

(** The constant term attached to a basic variable. *)
Definition constant_of (d : D) (x : string) : option Qc :=
  i ← index x (basic_variables d);
  constant_terms d !! i.

(** Modelled from the spec: the nonbasic variables with strictly
    positive objective coefficient. *)
Definition entering_variable_candidates (d : D) : list string :=
  (filter (λ xc : string * Qc, Is_true (Qcltb 0 xc.2))
     (zip (nonbasic_variables d) (objective_coefficients d))).*1.

(** Modelled from the spec: the minimum-ratio test of section 4.2.
    The row of a basic variable reads
    [x_i = b[i] - sum_j A[i, j] x_j]: the coefficient of the entering
    variable in it is the opposite of the entry of the entering
    column.  The test runs over the rows where that coefficient is
    negative; the ratio of row [i] is [b[i]] over the opposite of the
    coefficient; among equal ratios the lowest row wins; no such row:
    the entering variable is unbounded. *)
Definition ratios (d : D) (entering : string) : list (Qc * string) :=
  omap (λ '(x, bi, a), let coefficient := - a in
                       if Qcltb coefficient 0 then Some (bi / (- coefficient), x)
                       else None)
    (zip (zip (basic_variables d) (constant_terms d))
         (entering_coefficients d entering)).

Definition better (best cand : Qc * string) : Qc * string :=
  if Qcltb cand.1 best.1 then cand else best.

Definition leaving_variable_for (d : D) (entering : string) : result (string * Qc) :=
  match ratios d entering with
  | [] => Raise Unbounded
  | r :: rs => let best := foldl better r rs in Ok (best.2, best.1)
  end.
End abstract_dictionary.

(** *** Explicit dictionaries *)

(** The contents of [self._AbcvBNz] of an [LPDictionary], with its two
    presentation attributes. *)
Record LPDictionary := {
  dict_A : list (list Qc);
  dict_b : list Qc;
  dict_c : list Qc;
  dict_v : Qc;
  dict_B : list string;
  dict_N : list string;
  dict_z : objective_name;
  dict_style : option string;
  dict_problem_type_pda : option string
}.

Global Instance LPDictionary_abstract : LPAbstractDictionary LPDictionary := {|
  basic_variables := dict_B;
  nonbasic_variables := dict_N;
  constant_terms := dict_b;
  objective_coefficients := dict_c;
  objective_value := dict_v;
  entering_coefficients d x :=
    match index x (dict_N d) with
    | Some e => col e (dict_A d)
    | None => []
    end
|}.

(** Modelled from the spec: the row of the entering variable is the
    pivot row divided by the pivot element (section 4.2); at the place
    of the entering variable stands the coefficient of the leaving
    one. *)
Definition pivot_row (e : nat) (row_l : list Qc) : list Qc :=
  <[e := 1 / get row_l e]> (vdiv row_l (get row_l e)).

(** Modelled from the spec: every other row, and the objective row,
    eliminates the entering column by a row combination with the new
    row (section 4.2). *)
Definition eliminate (e : nat) (new_row r : list Qc) : list Qc :=
  vsub (<[e := 0]> r) (scale (get r e) new_row).

(** Modelled from the spec: the pivot of an explicit dictionary is not
    in the source; it recomputes the tableau as section 4.2 says and
    puts the entering variable at the place of the leaving one in the
    basic list, the leaving variable at the place of the entering one
    in the nonbasic list.  A zero pivot element is refused. *)
Definition pivot (d : LPDictionary) (entering leaving : string) : result LPDictionary :=
  l ← from_option (index leaving (dict_B d)) Not_in_list;
  e ← from_option (index entering (dict_N d)) Not_in_list;
  row_l ← from_option (dict_A d !! l) Index_out_of_range;
  let Ale := get row_l e in
  _ ← check (negb (Qceqb Ale 0)) Incompatible_entering_leaving;
  let new_row := pivot_row e row_l in
  let new_bl := get (dict_b d) l / Ale in
  let A := imap (λ i r, if decide (i = l) then new_row else eliminate e new_row r)
                (dict_A d) in
  let b := imap (λ i bi, if decide (i = l) then new_bl
                         else bi - entry (dict_A d) i e * new_bl)
                (dict_b d) in
  let c_e := get (dict_c d) e in
  let c := eliminate e new_row (dict_c d) in
  let v := dict_v d + c_e * new_bl in
  mret {| dict_A := A; dict_b := b; dict_c := c; dict_v := v;
          dict_B := <[l := entering]> (dict_B d);
          dict_N := <[e := leaving]> (dict_N d);
          dict_z := dict_z d;
          dict_style := dict_style d;
          dict_problem_type_pda := dict_problem_type_pda d |}.

(** A sequence of pivots, each given by its entering and its leaving
    variable. *)
Fixpoint pivots (d : LPDictionary) (steps : list (string * string)) : result LPDictionary :=
  match steps with
  | [] => Ok d
  | (entering, leaving) :: steps => d' ← pivot d entering leaving; pivots d' steps
  end.

(** [InteractiveLPProblemStandardForm.initial_dictionary(self)]: the
    call [LPDictionary(A, b, c, 0, x[-m:], x[-m-n:-m], ...)] with [x]
    the generators of the coordinate ring. *)
Definition initial_dictionary (self : InteractiveLPProblemStandardForm) : LPDictionary :=
  let '(A, b, c) := (_A self, _b self, _c self) in
  let style := _style self in
  let problem_type_pda := _problem_type_pda self in
  let objective := _objective self in
  let x := _R self in
  let '(m, n) := (m self, n self) in
  {| dict_A := A; dict_b := b; dict_c := c; dict_v := 0;
     dict_B := slice_last m x; dict_N := slice_mid n m x;
     dict_z := objective; dict_style := style;
     dict_problem_type_pda := problem_type_pda |}.

(** *** Dictionaries as objects *)

(** The matrix and the vectors of a dictionary are mutable objects; a
    dictionary object refers to them. *)
Inductive pyobj :=
  | PyMatrix (M : list (list Qc))
  | PyVector (v : list Qc)
  | PyNames (l : list string)
  | PyLPDictionary (A b c : nat) (v : Qc) (B N : nat)
      (z : objective_name) (style problem_type_pda : option string).

Definition store := list pyobj.

Definition alloc (o : pyobj) (σ : store) : nat * store := (length σ, σ ++ [o]).

Definition read_matrix (σ : store) (r : nat) : option (list (list Qc)) :=
  match σ !! r with Some (PyMatrix M) => Some M | _ => None end.
Definition read_vector (σ : store) (r : nat) : option (list Qc) :=
  match σ !! r with Some (PyVector v) => Some v | _ => None end.
Definition read_names (σ : store) (r : nat) : option (list string) :=
  match σ !! r with Some (PyNames l) => Some l | _ => None end.

(** The contents of the dictionary object at [r]. *)
Definition snapshot (σ : store) (r : nat) : option LPDictionary :=
  match σ !! r with
  | Some (PyLPDictionary A b c v B N z style pda) =>
      A ← read_matrix σ A; b ← read_vector σ b; c ← read_vector σ c;
      B ← read_names σ B; N ← read_names σ N;
      Some {| dict_A := A; dict_b := b; dict_c := c; dict_v := v;
              dict_B := B; dict_N := N; dict_z := z; dict_style := style;
              dict_problem_type_pda := pda |}
  | _ => None
  end.

(** Modelled from the spec: the body of [LPDictionary.__init__] is not
    in the source; a dictionary owns its coefficient storage (section
    5), so the constructor stores copies of its arguments. *)
Definition LPDictionary__init__ (d : LPDictionary) (σ : store) : nat * store :=
  let '(A, σ) := alloc (PyMatrix (dict_A d)) σ in
  let '(b, σ) := alloc (PyVector (dict_b d)) σ in
  let '(c, σ) := alloc (PyVector (dict_c d)) σ in
  let '(B, σ) := alloc (PyNames (dict_B d)) σ in
  let '(N, σ) := alloc (PyNames (dict_N d)) σ in
  alloc (PyLPDictionary A b c (dict_v d) B N (dict_z d) (dict_style d)
           (dict_problem_type_pda d)) σ.

(** Modelled from the spec: the auxiliary variable and its column are
    removed (section 4.4): entry [k] of a list, column [k] of every
    row. *)
Definition remove_at {A} (k : nat) (l : list A) : list A := take k l ++ drop (S k) l.

(** Modelled from the spec: the loop that rewrites the objective of
    the problem over the nonbasic variables, of which the source shows
    the last line [v += cj * b[i]]; a nonbasic decision variable adds
    its coefficient, a basic one is replaced by its row. *)
Fixpoint substitute_objective (A : list (list Qc)) (b : list Qc)
    (B N : list string) (cx : list (Qc * string)) (c : list Qc) (v : Qc)
    : result (list Qc * Qc) :=
  match cx with
  | [] => Ok (c, v)
  | (cj, xj) :: cx =>
      match index xj N with
      | Some k => substitute_objective A b B N cx (<[k := get c k + cj]> c) v
      | None =>
          i ← from_option (index xj B) Not_in_list;
          Ai ← from_option (A !! i) Index_out_of_range;
          substitute_objective A b B N cx (vsub c (scale cj Ai)) (v + cj * get b i)
      end
  end.

(** [InteractiveLPProblemStandardForm.feasible_dictionary(self, auxiliary_dictionary)].
    From the source: the two tests and their errors, the reads of
    [_style] and [_objective], the unpacking of [_AbcvBNz], the update
    [v += cj * b[i]] that ends the loop, and the constructor call.
    Modelled from the spec: the elided lines; the auxiliary variable
    and its column are removed from a copy of the coefficients (section
    4.4) and the objective of the problem is rewritten over the
    remaining nonbasic variables; nothing is written to the auxiliary
    dictionary (section 9). *)
Definition feasible_dictionary_data (self : InteractiveLPProblemStandardForm)
    (auxiliary_dictionary : LPDictionary) : result LPDictionary :=
  x0 ← auxiliary_variable self;
  _ ← check (bool_decide (x0 ∈ nonbasic_variables auxiliary_dictionary))
        Auxiliary_variable_must_be_nonbasic;
  _ ← check (is_feasible auxiliary_dictionary) Auxiliary_dictionary_must_be_feasible;
  let style := _style self in
  let problem_type_pda := Some "ordinary primal dictionary" in
  let objective := _objective self in
  let '(A, b, c, v, B, N) :=
    (dict_A auxiliary_dictionary, dict_b auxiliary_dictionary,
     dict_c auxiliary_dictionary, dict_v auxiliary_dictionary,
     dict_B auxiliary_dictionary, dict_N auxiliary_dictionary) in
  k ← from_option (index x0 N) Not_in_list;
  let N := remove_at k N in
  let n := length c in
  let A := remove_at k <$> A in
  let c := zeros (n - 1) in
  '(c, v) ← substitute_objective A b B N (zip (_c self) (_x self)) c v;
  mret {| dict_A := A; dict_b := b; dict_c := c; dict_v := v;
          dict_B := B; dict_N := N; dict_z := objective;
          dict_style := style; dict_problem_type_pda := problem_type_pda |}.

Definition feasible_dictionary (self : InteractiveLPProblemStandardForm)
    (auxiliary_dictionary : nat) (σ : store) : result nat * store :=
  match snapshot σ auxiliary_dictionary with
  | None => (Raise Index_out_of_range, σ)
  | Some d =>
      match feasible_dictionary_data self d with
      | Raise e => (Raise e, σ)
      | Ok d' => let '(r, σ') := LPDictionary__init__ d' σ in (Ok r, σ')
      end
  end.

(** *** Revised dictionaries *)

(** Modelled from the spec: a revised dictionary keeps its problem,
    the ordered list of basic variables and the cached inverse of the
    basis matrix (section 4.3); the source shows the assignments of
    [_problem_type_pda] and [_objective] only. *)
Record LPRevisedDictionary := {
  _problem : InteractiveLPProblemStandardForm;
  _x_B : list string;
  _B_inverse : list (list Qc);
  rev_style : option string;
  rev_problem_type_pda : option string;
  rev_objective : objective_name
}.

(** Modelled from the spec: the column of a variable in the full
    coefficient matrix [A | I] of the problem (section 4.3).  A name
    that is neither a decision nor a slack variable of the problem has
    a zero column. *)
Definition column (P : InteractiveLPProblemStandardForm) (x : string) : list Qc :=
  match index x (decision_variables P) with
  | Some j => col j (_A P)
  | None =>
      match index x (slack_variables P) with
      | Some i => unit_vector (m P) i
      | None => zeros (m P)
      end
  end.

(** Modelled from the spec: the coefficient of a variable in the full
    objective [c | 0]. *)
Definition c_full (P : InteractiveLPProblemStandardForm) (x : string) : Qc :=
  match index x (decision_variables P) with
  | Some j => get (_c P) j
  | None => 0
  end.

(** Modelled from the spec: the basis matrix, one column of [A | I]
    for each basic variable, as a list of rows. *)
Definition basis_matrix (P : InteractiveLPProblemStandardForm) (x_B : list string)
    : list (list Qc) :=
  (λ i, (λ x, get (column P x) i) <$> x_B) <$> seq 0 (m P).

Definition is_inverse (k : nat) (X M : list (list Qc)) : Prop :=
  mat_mul k X M = identity k ∧ mat_mul k M X = identity k.

Definition is_inverseb (k : nat) (X M : list (list Qc)) : bool :=
  bool_decide (mat_mul k X M = identity k) && bool_decide (mat_mul k M X = identity k).

(** The representation invariant of a revised dictionary: the cache
    holds the inverse of the basis matrix. *)
Definition consistent (d : LPRevisedDictionary) : Prop :=
  rectangular (m (_problem d)) (m (_problem d)) (_B_inverse d)
  ∧ is_inverse (m (_problem d)) (_B_inverse d) (basis_matrix (_problem d) (_x_B d)).

Definition consistentb (d : LPRevisedDictionary) : bool :=
  rectangularb (m (_problem d)) (m (_problem d)) (_B_inverse d)
  && is_inverseb (m (_problem d)) (_B_inverse d) (basis_matrix (_problem d) (_x_B d)).

(** Modelled from the spec: the quantities a revised dictionary derives
    on demand (section 4.3), [B^-1], [c_B], [y = c_B * B^-1], the
    nonbasic variables in the order of the problem, the objective
    coefficient [c_full[x] - c_B * B^-1 * A[:, x]]. *)
Definition B_inverse (d : LPRevisedDictionary) : list (list Qc) := _B_inverse d.
Definition c_B (d : LPRevisedDictionary) : list Qc := c_full (_problem d) <$> _x_B d.
Definition y (d : LPRevisedDictionary) : list Qc :=
  vec_mat (m (_problem d)) (c_B d) (B_inverse d).

Definition x_N (d : LPRevisedDictionary) : list string :=
  filter (λ x, x ∉ _x_B d)
    (decision_variables (_problem d) ++ slack_variables (_problem d)).

Definition objective_coefficient (d : LPRevisedDictionary) (x : string) : Qc :=
  c_full (_problem d) x - dot (y d) (column (_problem d) x).

Global Instance LPRevisedDictionary_abstract : LPAbstractDictionary LPRevisedDictionary := {|
  basic_variables := _x_B;
  nonbasic_variables := x_N;
  (* b_B = B^-1 * b *)
  constant_terms d := mat_vec (B_inverse d) (_b (_problem d));
  objective_coefficients d := objective_coefficient d <$> x_N d;
  objective_value d := dot (y d) (_b (_problem d));
  (* B^-1 * A[:, x] *)
  entering_coefficients d x := mat_vec (B_inverse d) (column (_problem d) x)
|}.

(** Modelled from the spec: the pivot of a revised dictionary (section
    4.3) updates the cached inverse by the rank-one formula, the
    row operations of a Gauss-Jordan step on the entering column, and
    puts the entering variable at the place of the leaving one. *)
Definition revised_pivot (d : LPRevisedDictionary) (entering leaving : string)
    : result LPRevisedDictionary :=
  l ← from_option (index leaving (_x_B d)) Not_in_list;
  _ ← from_option (index entering (x_N d)) Not_in_list;
  row_l ← from_option (B_inverse d !! l) Index_out_of_range;
  let column := entering_coefficients d entering in
  let pivot_element := get column l in
  _ ← check (negb (Qceqb pivot_element 0)) Incompatible_entering_leaving;
  let new_row := vdiv row_l pivot_element in
  let Binv := imap (λ i r, if decide (i = l) then new_row
                           else vsub r (scale (get column i) new_row))
                   (B_inverse d) in
  mret {| _problem := _problem d;
          _x_B := <[l := entering]> (_x_B d);
          _B_inverse := Binv;
          rev_style := rev_style d;
          rev_problem_type_pda := rev_problem_type_pda d;
          rev_objective := rev_objective d |}.

Fixpoint revised_pivots (d : LPRevisedDictionary) (steps : list (string * string))
    : result LPRevisedDictionary :=
  match steps with
  | [] => Ok d
  | (entering, leaving) :: steps =>
      d' ← revised_pivot d entering leaving; revised_pivots d' steps
  end.

Section construction.
(** Two parts of the library and of the source that are not
    available: the exact inverse of a matrix, [Matrix.inverse()] of
    the linear algebra library, and the condition of the style test
    of [LPRevisedDictionary.__init__], of which the source shows the
    [raise] only. *)
Variable inverse : list (list Qc) → list (list Qc).
Variable revised_style_accepted : option string → bool.

(** [LPRevisedDictionary.__init__(self, problem, basic_variables,
    style, problem_type_pda, objective)].  From the source: the style
    error, the two assignments and the refusal of auxiliary problems.
    Modelled from the spec: the check of the partition against the
    dimensions of the problem (section 7) and the cache. *)
Definition LPRevisedDictionary__init__
    (problem : InteractiveLPProblemStandardForm) (basic_variables : list string)
    (style problem_type_pda : option string) (objective : objective_name)
    : result LPRevisedDictionary :=
  _ ← check (revised_style_accepted style) Revised_style_must_be_vanderbei;
  x0 ← auxiliary_variable problem;
  x1 ← from_option (decision_variables problem !! 0%nat) Index_out_of_range;
  _ ← check (negb (bool_decide (x0 = x1))) Revised_not_for_auxiliary_problems;
  _ ← check (bool_decide (length basic_variables = m problem)) Wrong_partition;
  mret {| _problem := problem;
          _x_B := basic_variables;
          _B_inverse := inverse (basis_matrix problem basic_variables);
          rev_style := style;
          rev_problem_type_pda := problem_type_pda;
          rev_objective := objective |}.

(** The default basis of [revised_dictionary]: the slack variables,
    with the auxiliary variable at the first row where [b] is
    minimal when that minimum is negative. *)
Definition default_basis (self : InteractiveLPProblemStandardForm) : result (list string) :=
  let x_B := slack_variables self in
  bm ← py_min (_b self);
  if Qcltb bm 0 then
    i ← from_option (index bm (_b self)) Not_in_list;
    x0 ← auxiliary_variable self;
    _ ← check (bool_decide (i < length x_B)%nat) Index_out_of_range;
    mret (<[i := x0]> x_B)
  else mret x_B.

(** [InteractiveLPProblemStandardForm.revised_dictionary(self, *x_B)] *)
Definition revised_dictionary (self : InteractiveLPProblemStandardForm)
    (x_B : list string) : result LPRevisedDictionary :=
  let style := _style self in
  let problem_type_pda := _problem_type_pda self in
  let objective := _objective self in
  x_B ← (match x_B with
         | [] => default_basis self
         | _ => Ok x_B
         end);
  LPRevisedDictionary__init__ self x_B style problem_type_pda objective.
End construction.

(** The revised dictionary of the slack basis, whose basis matrix is
    the identity. *)
Definition initial_revised_dictionary (P : InteractiveLPProblemStandardForm)
    : LPRevisedDictionary :=
  {| _problem := P;
     _x_B := slack_variables P;
     _B_inverse := identity (m P);
     rev_style := _style P;
     rev_problem_type_pda := _problem_type_pda P;
     rev_objective := _objective P |}.

(** ** Well-formedness predicates *)

Definition recognized (style : option string) : Prop :=
  style = None ∨ style = vanderbei.

Definition well_shaped (P : InteractiveLPProblem) : Prop :=
  rectangular (m P) (n P) (_A P)
  ∧ length (_x P) = n P
  ∧ length (_constraint_types P) = m P
  ∧ length (_variable_types P) = n P.


(** The slack names and the objective symbol a standard-form problem
    ends up with, for a recognized style. *)
Definition slack_names (style : option string) (slack_variables : option names_arg)
    (first count : nat) : list string :=
  names_of (match slack_variables with
            | Some s => s
            | None => BaseName (if decide (style = None) then "x" else "w")
            end) first count.

Definition objective_symbol (style pda : option string) (objective : objective_name)
    : objective_name :=
  match objective with
  | ObjNone =>
      if decide (style = vanderbei) then
        if bool_decide (pda = Some "dual") || bool_decide (pda = Some "auxiliary")
        then ObjStr "xi" else ObjStr "zeta"
      else ObjStr "z"
  | _ => objective
  end.

(** The names [dual] gives to the dual variables and the objective name
    it passes on. *)
Definition dual_names (self : InteractiveLPProblem) (y : option names_arg) : list string :=
  names_of (default (BaseName (if decide (_prefix self = "y") then "x" else "y")) y)
    1 (m self).

Definition dual_objective_name (self : InteractiveLPProblem) (objective : objective_name)
    : objective_name :=
  match objective with
  | ObjNone => if decide (_style self = vanderbei) then ObjStr "xi" else _objective self
  | _ => objective
  end.

(** A standard-form problem as its constructor builds it from distinct
    names, with at least one constraint and one variable: the
    generators of its ring are its decision variables followed by its
    slack variables, after the auxiliary variable unless that is the
    first decision variable. *)
Definition well_formed (P : InteractiveLPProblemStandardForm) : Prop :=
  rectangular (m P) (n P) (_A P)
  ∧ (0 < m P)%nat ∧ (0 < n P)%nat
  ∧ recognized (_style P)
  ∧ NoDup (_R P)
  ∧ ∃ x0 slack,
      length (_x P) = n P ∧ length slack = m P
      ∧ (_R P = x0 :: _x P ++ slack
         ∨ (_R P = _x P ++ slack ∧ _x P !! 0%nat = Some x0)).

(** ** Sample problems *)

Definition Qc_of_Z (z : Z) : Qc := Q2Qc (inject_Z z).

(** maximize 10 x1 + 5 x2 subject to x1 + x2 <= 1000, 3 x1 + x2 <= 1500 *)
Definition sample_problem (style : option string) : InteractiveLPProblem :=
  {| _A := [[Qc_of_Z 1; Qc_of_Z 1]; [Qc_of_Z 3; Qc_of_Z 1]];
     _b := [Qc_of_Z 1000; Qc_of_Z 1500];
     _c := [Qc_of_Z 10; Qc_of_Z 5];
     _x := ["x1"; "x2"];
     _constraint_types := [CLe; CLe];
     _variable_types := [VGe; VGe];
     _direction := Max;
     _is_negative := false;
     _prefix := "x";
     _style := style;
     _problem_type_pda := None;
     _objective := ObjNone |}.



(** minimize x1 - 2 x2 + x3 subject to x1 + x3 >= 2, x2 - x3 == -1,
    with x1 >= 0, x2 <= 0 and x3 free *)
Definition sample_general : InteractiveLPProblem :=
  {| _A := [[Qc_of_Z 1; Qc_of_Z 0; Qc_of_Z 1]; [Qc_of_Z 0; Qc_of_Z 1; Qc_of_Z (-1)]];
     _b := [Qc_of_Z 2; Qc_of_Z (-1)];
     _c := [Qc_of_Z 1; Qc_of_Z (-2); Qc_of_Z 1];
     _x := ["x1"; "x2"; "x3"];
     _constraint_types := [CGe; CEq];
     _variable_types := [VGe; VLe; VFree];
     _direction := Min;
     _is_negative := false;
     _prefix := "x";
     _style := None;
     _problem_type_pda := None;
     _objective := ObjNone |}.

(** The standard form of [sample_problem], with auxiliary variable
    [x0], decision variables [x1, x2] and slack variables [x3, x4]. *)
Definition sample_standard_form (style : option string) : InteractiveLPProblemStandardForm :=
  {| base := {| _A := [[Qc_of_Z 1; Qc_of_Z 1]; [Qc_of_Z 3; Qc_of_Z 1]];
                _b := [Qc_of_Z 1000; Qc_of_Z 1500];
                _c := [Qc_of_Z 10; Qc_of_Z 5];
                _x := ["x1"; "x2"];
                _constraint_types := [CLe; CLe];
                _variable_types := [VGe; VGe];
                _direction := Max;
                _is_negative := false;
                _prefix := "x";
                _style := style;
                _problem_type_pda := None;
                _objective := ObjStr "z" |};
     _R := ["x0"; "x1"; "x2"; "x3"; "x4"] |}.

(** ** Presentation style and numeric content *)




(** What a problem and a dictionary hold apart from names and labels. *)
Definition numeric (P : InteractiveLPProblem) :=
  (_A P, _b P, _c P, _constraint_types P, _variable_types P, _direction P, _is_negative P).




(** Everything a dictionary holds except its labels. *)
Definition dict_content (d : LPDictionary) :=
  (dict_A d, dict_b d, dict_c d, dict_v d, dict_B d, dict_N d).


(** maximize x1 + x2 subject to -x1 - x2 <= -6, 2 x1 - x2 <= -8,
    x1 + x2 <= 20: the origin is infeasible, the second row is the most
    violated one. *)
Definition sample_infeasible : InteractiveLPProblemStandardForm :=
  {| base := {| _A := [[Qc_of_Z (-1); Qc_of_Z (-1)]; [Qc_of_Z 2; Qc_of_Z (-1)];
                       [Qc_of_Z 1; Qc_of_Z 1]];
                _b := [Qc_of_Z (-6); Qc_of_Z (-8); Qc_of_Z 20];
                _c := [Qc_of_Z 1; Qc_of_Z 1];
                _x := ["x1"; "x2"];
                _constraint_types := [CLe; CLe; CLe];
                _variable_types := [VGe; VGe];
                _direction := Max;
                _is_negative := false;
                _prefix := "x";
                _style := None;
                _problem_type_pda := None;
                _objective := ObjStr "z" |};
     _R := ["x0"; "x1"; "x2"; "x3"; "x4"; "x5"] |}.

(** Every decision variable of the problem occurs in the dictionary,
    as a nonbasic variable or as a basic variable with its row, and
    none is the auxiliary variable [x0]. *)
Definition covers (P : InteractiveLPProblemStandardForm) (d : LPDictionary)
    (x0 : string) : Prop :=
  Forall (λ xj, xj ≠ x0
                ∧ (xj ∈ dict_N d
                   ∨ ∃ i, index xj (dict_B d) = Some i ∧ (i < length (dict_A d))%nat))
         (_x P).

(** The objects [LPDictionary.__init__] adds to a store of size [k]. *)
Definition new_objects (k : nat) (d : LPDictionary) : list pyobj :=
  [PyMatrix (dict_A d); PyVector (dict_b d); PyVector (dict_c d);
   PyNames (dict_B d); PyNames (dict_N d);
   PyLPDictionary k (k + 1) (k + 2) (dict_v d) (k + 3) (k + 4)
     (dict_z d) (dict_style d) (dict_problem_type_pda d)].

(** A store holding the final dictionary of the auxiliary problem of
    maximize x1 subject to x1 <= 4, after x0 has left the basis. *)
Definition sample_one_variable : InteractiveLPProblemStandardForm :=
  {| base := {| _A := [[Qc_of_Z 1]];
                _b := [Qc_of_Z 4];
                _c := [Qc_of_Z 1];
                _x := ["x1"];
                _constraint_types := [CLe];
                _variable_types := [VGe];
                _direction := Max;
                _is_negative := false;
                _prefix := "x";
                _style := None;
                _problem_type_pda := None;
                _objective := ObjStr "z" |};
     _R := ["x0"; "x1"; "x2"] |}.

Definition sample_store : store :=
  [PyMatrix [[Qc_of_Z (-1); Qc_of_Z 1]];
   PyVector [Qc_of_Z 4];
   PyVector [Qc_of_Z (-1); Qc_of_Z 0];
   PyNames ["x2"];
   PyNames ["x0"; "x1"];
   PyLPDictionary 0 1 2 0 3 4 (ObjStr "w") None (Some "auxiliary")].

(** ** The Gauss-Jordan step on one column *)

(** What a pivot on row [l] with entering column [d] does to any other
    column [t] of the tableau: the entry of row [l] is divided by the
    pivot element [d[l]] and the other rows eliminate the entering
    column. *)
Definition pivot_column (l : nat) (d t : list Qc) : list Qc :=
  let q := get t l / get d l in
  <[l := q]> (vsub t (scale q d)).

(** ** The invariant that ties an explicit dictionary to the basis inverse *)

Definition variables (P : InteractiveLPProblemStandardForm) : list string :=
  decision_variables P ++ slack_variables P.

(** [Y] is the inverse of the basis matrix of [D], on both sides, and
    the entries of [D] are the products of [Y] with the columns and the
    right-hand side of the problem, its objective row and value those
    of the objective rewritten over the nonbasic variables. *)
Definition tableau_invariant (P : InteractiveLPProblemStandardForm)
    (D : LPDictionary) (Y : list (list Qc)) : Prop :=
  length (dict_B D) = m P ∧ length (dict_N D) = n P
  ∧ dict_B D ++ dict_N D ≡ₚ variables P
  ∧ rectangular (m P) (n P) (dict_A D)
  ∧ length (dict_c D) = n P
  ∧ rectangular (m P) (m P) Y
  ∧ (∀ i x, dict_B D !! i = Some x → mat_vec Y (column P x) = unit_vector (m P) i)
  ∧ (∀ j x, dict_N D !! j = Some x → col j (dict_A D) = mat_vec Y (column P x))
  ∧ dict_b D = mat_vec Y (_b P)
  ∧ (∀ j x, dict_N D !! j = Some x →
       get (dict_c D) j
       = c_full P x - dot (c_full P <$> dict_B D) (col j (dict_A D)))
  ∧ dict_v D = dot (c_full P <$> dict_B D) (dict_b D)
  ∧ (∀ u, length u = m P → mat_vec (basis_matrix P (dict_B D)) (mat_vec Y u) = u).

(** ** Two dictionaries that report the same *)

(** The same basic variables, the same nonbasic variables up to their
    order, the same constant terms, objective value and objective
    coefficient of every variable, the same candidates for entering,
    and for every nonbasic variable the same column and the same
    leaving variable and ratio, or the same unboundedness. *)
Definition same_reports (R : LPRevisedDictionary) (D : LPDictionary) : Prop :=
  basic_variables R = basic_variables D
  ∧ nonbasic_variables R ≡ₚ nonbasic_variables D
  ∧ constant_terms R = constant_terms D
  ∧ objective_value R = objective_value D
  ∧ (∀ x, coefficient_of R x = coefficient_of D x)
  ∧ (∀ x, constant_of R x = constant_of D x)
  ∧ (∀ x, x ∈ nonbasic_variables D →
          entering_coefficients R x = entering_coefficients D x)
  ∧ (∀ x, x ∈ entering_variable_candidates R ↔ x ∈ entering_variable_candidates D)
  ∧ (∀ x, x ∈ nonbasic_variables D →
          leaving_variable_for R x = leaving_variable_for D x)
  ∧ is_feasible R = is_feasible D.

(** ** The call [standard_form] makes to the constructor *)

(** The matrix, the vectors, the names and the problem type that
    [standard_form] has computed when it reaches the constructor call. *)
Definition standardized (self : InteractiveLPProblem)
    : list (list Qc) * list Qc * list Qc * list string * problem_type :=
  let '(A, b) :=
    if forallb (λ ct, bool_decide (ct = CLe)) (_constraint_types self)
    then (_A self, _b self)
    else standardize_rows (_constraint_types self) (_A self) (_b self) in
  let '(A, c, x) :=
    if forallb (λ vt, bool_decide (vt = VGe)) (_variable_types self)
    then (A, _c self, _x self)
    else (standardize_vector (_variable_types self) <$> A,
          standardize_vector (_variable_types self) (_c self),
          mjoin (zip_with standardize_name (_variable_types self) (_x self))) in
  let '(c, is_negative) :=
    match _direction self with
    | Max => (c, _is_negative self)
    | Min => (vneg c, negb (_is_negative self))
    end in
  (A, b, c, x, {| pt_negative := is_negative; pt_direction := Max |}).

(** The value of [self._prefix] when the constructor call reads it. *)
Definition standard_prefix (self : InteractiveLPProblem) : string :=
  if decide (_style self = vanderbei) then "z" else _prefix self.

(** The sample problem with prefix ["y"], in the "vanderbei" style. *)
Definition sample_prefix_y : InteractiveLPProblem :=
  set_prefix "y" (sample_problem vanderbei).

(** * Mixed integer linear programs

    A shallow embedding of [sage/numerical/mip.pyx]: the class
    [MixedIntegerLinearProgram], which collects the variables, the
    objective and the constraints of a program before a solver is
    called, and the class [MIPVariable], the dictionaries that create
    the variables of a program on first access.

    A program and the [MIPVariable] objects linked to it are mutable
    and shared: they live in a [world], the program itself and a heap
    of [MIPVariable] objects addressed by references.  Methods are
    computations in the monad [M] of state and exceptions; an
    exception leaves the state as it was when it was raised.  Numbers
    are exact rationals. *)


Module mip.

(** ** Exceptions *)

Inductive exn :=
  | KeyError
  | IndexError
  | AttributeError
  | TypeError
  | UnboundLocalError
  | OverflowError
  | ValueError_not_a_variable
      (* ValueError("e must be an instance of MIPVariable or one of its elements.") *)
  | ValueError_no_objective
      (* ValueError("No objective function has been defined.") *)
  | ValueError_no_solver
      (* ValueError("There does not seem to be any Linear Program solver installed. ...") *)
  | NotImplementedError_Coin     (* "Coin/CBC is not installed ..." *)
  | NotImplementedError_GLPK     (* "GLPK is not installed ..." *)
  | NotImplementedError_CPLEX    (* "The support for CPLEX is not implemented yet." *)
  | NotImplementedError_solver   (* "'solver' should be set to 'GLPK', 'Coin', 'CPLEX' or None ..." *)
  | NotImplementedError_write    (* "You need GLPK installed to use this function. ..." *)
  | RecursionLimit               (* RuntimeError: maximum recursion depth exceeded *)
  | MIPSolverException (value : string)
  | DanglingReference.           (* a reference to no object; cannot happen in Python *)

Inductive result (A : Type) :=
  | Ok (a : A)
  | Raise (e : exn).
Arguments Ok {A} a.
Arguments Raise {A} e.

Definition is_Ok {A} (r : result A) : bool :=
  match r with Ok _ => true | Raise _ => false end.

(** ** Values *)

(** The keys of a [MIPVariable]: integers and strings, with [str]. *)
Inductive key := KInt (z : Z) | KStr (s : string).

Global Instance key_eq_dec : EqDecision key.
Proof. solve_decision. Defined.

Global Instance key_countable : Countable key.
Proof.
  refine (inj_countable' (λ k, match k with KInt z => inl z | KStr s => inr s end)
                         (λ x, match x with inl z => KInt z | inr s => KStr s end) _).
  by intros [].
Defined.

Definition str (k : key) : string :=
  match k with KInt z => pretty z | KStr s => s end.

(** What a [MIPVariable] holds under a key, and what the methods
    [set_binary], [set_integer] and [set_real] accept: a symbolic
    variable, known by its name, or a [MIPVariable] object. *)
Inductive value :=
  | Symbol (v : string)
  | Object (r : nat).

Global Instance value_eq_dec : EqDecision value.
Proof. solve_decision. Defined.

(** [var('x' + str(i))] *)
Definition symbol (i : nat) : string := "x" +:+ pretty i.

(** [float(x)], kept as the rational it converts. *)
Inductive pyfloat := float (x : Qc).

(** The numbers that [float] refuses.  Numbers are exact here, as the
    integers and fractions of Python are, and [float] raises
    [OverflowError] for one that rounds beyond the largest double,
    [2^1024 - 2^971]: in absolute value, from [2^1024 - 2^970] on. *)
Definition float_overflows (x : Qc) : bool :=
  ((2 ^ 1024 - 2 ^ 970) * Z.pos (Qden x) <=? Z.abs (Qnum x))%Z.

(** The argument of [set_objective] and [add_constraint]: [None], a
    Python number, or a symbolic expression, of which the module uses
    [variables()], the variables that occur in it, [coefficient(v)]
    and the difference with its linear part, its constant term. *)
Inductive linear_function :=
  | PyNone
  | PyNumber (c : Qc)
  | Expression (terms : gmap string Qc) (constant : Qc).

(** The constants [__BINARY], [__REAL] and [__INTEGER] of a program. *)
Definition __BINARY : Z := 1%Z.
Definition __REAL : Z := (-1)%Z.
Definition __INTEGER : Z := 0%Z.

(** ** Objects *)

(** A [MIPVariable]; the program [_p] it is linked to is the program
    of the world.  [vtype] is the attribute that [set_binary],
    [set_integer] and [set_real] assign, which the constructor does
    not define. *)
Record MIPVariable := {
  _dim : Z;
  _dict : gmap key value;
  _vtype : Z;
  _mipvariable_name : option string;     (* self._name *)
  vtype : option Z
}.

Definition with_dict (d : gmap key value) (o : MIPVariable) : MIPVariable :=
  {| _dim := _dim o; _dict := d; _vtype := _vtype o;
     _mipvariable_name := _mipvariable_name o; vtype := vtype o |}.

Definition with_vtype (t : option Z) (o : MIPVariable) : MIPVariable :=
  {| _dim := _dim o; _dict := _dict o; _vtype := _vtype o;
     _mipvariable_name := _mipvariable_name o; vtype := t |}.

Record MixedIntegerLinearProgram := {
  _default_solver : option string;   (* the solver found at construction *)
  _mipvariables : list nat;   (* references to MIPVariable objects *)
  _variables : gmap string nat;   (* the index of every symbolic variable *)
  _values : gmap string Qc;   (* values of the variables, written by the solvers *)
  _name : option string;
  _maximization : bool;
  _objective_i : option (list nat);
  _objective_values : option (list Qc);
  _objective_name : option string;
  _variables_name : list string;
  _variables_type : list Z;
  _variables_bounds_min : list (option Qc);
  _variables_bounds_max : list (option Qc);
  _constraints_name : list (option string);
  _constraints_matrix_i : list nat;
  _constraints_matrix_j : list nat;
  _constraints_matrix_values : list Qc;
  _constraints_bounds_max : list (option Qc);
  _constraints_bounds_min : list (option Qc);
  _default_mipvariable : option nat   (* absent until first used *)
}.

(** Assignment to one attribute of the program. *)
Definition with_mipvariables (x : list nat) (p : MixedIntegerLinearProgram)
    : MixedIntegerLinearProgram :=
  {| _default_solver := _default_solver p; _mipvariables := x;
     _variables := _variables p; _values := _values p; _name := _name p;
     _maximization := _maximization p; _objective_i := _objective_i p;
     _objective_values := _objective_values p; _objective_name := _objective_name p;
     _variables_name := _variables_name p; _variables_type := _variables_type p;
     _variables_bounds_min := _variables_bounds_min p;
     _variables_bounds_max := _variables_bounds_max p;
     _constraints_name := _constraints_name p;
     _constraints_matrix_i := _constraints_matrix_i p;
     _constraints_matrix_j := _constraints_matrix_j p;
     _constraints_matrix_values := _constraints_matrix_values p;
     _constraints_bounds_max := _constraints_bounds_max p;
     _constraints_bounds_min := _constraints_bounds_min p;
     _default_mipvariable := _default_mipvariable p |}.

Definition with_variables (x : gmap string nat) (p : MixedIntegerLinearProgram)
    : MixedIntegerLinearProgram :=
  {| _default_solver := _default_solver p; _mipvariables := _mipvariables p;
     _variables := x; _values := _values p; _name := _name p;
     _maximization := _maximization p; _objective_i := _objective_i p;
     _objective_values := _objective_values p; _objective_name := _objective_name p;
     _variables_name := _variables_name p; _variables_type := _variables_type p;
     _variables_bounds_min := _variables_bounds_min p;
     _variables_bounds_max := _variables_bounds_max p;
     _constraints_name := _constraints_name p;
     _constraints_matrix_i := _constraints_matrix_i p;
     _constraints_matrix_j := _constraints_matrix_j p;
     _constraints_matrix_values := _constraints_matrix_values p;
     _constraints_bounds_max := _constraints_bounds_max p;
     _constraints_bounds_min := _constraints_bounds_min p;
     _default_mipvariable := _default_mipvariable p |}.

Definition with_name (x : option string) (p : MixedIntegerLinearProgram)
    : MixedIntegerLinearProgram :=
  {| _default_solver := _default_solver p; _mipvariables := _mipvariables p;
     _variables := _variables p; _values := _values p; _name := x;
     _maximization := _maximization p; _objective_i := _objective_i p;
     _objective_values := _objective_values p; _objective_name := _objective_name p;
     _variables_name := _variables_name p; _variables_type := _variables_type p;
     _variables_bounds_min := _variables_bounds_min p;
     _variables_bounds_max := _variables_bounds_max p;
     _constraints_name := _constraints_name p;
     _constraints_matrix_i := _constraints_matrix_i p;
     _constraints_matrix_j := _constraints_matrix_j p;
     _constraints_matrix_values := _constraints_matrix_values p;
     _constraints_bounds_max := _constraints_bounds_max p;
     _constraints_bounds_min := _constraints_bounds_min p;
     _default_mipvariable := _default_mipvariable p |}.

Definition with_objective_i (x : option (list nat)) (p : MixedIntegerLinearProgram)
    : MixedIntegerLinearProgram :=
  {| _default_solver := _default_solver p; _mipvariables := _mipvariables p;
     _variables := _variables p; _values := _values p; _name := _name p;
     _maximization := _maximization p; _objective_i := x;
     _objective_values := _objective_values p; _objective_name := _objective_name p;
     _variables_name := _variables_name p; _variables_type := _variables_type p;
     _variables_bounds_min := _variables_bounds_min p;
     _variables_bounds_max := _variables_bounds_max p;
     _constraints_name := _constraints_name p;
     _constraints_matrix_i := _constraints_matrix_i p;
     _constraints_matrix_j := _constraints_matrix_j p;
     _constraints_matrix_values := _constraints_matrix_values p;
     _constraints_bounds_max := _constraints_bounds_max p;
     _constraints_bounds_min := _constraints_bounds_min p;
     _default_mipvariable := _default_mipvariable p |}.

Definition with_objective_values (x : option (list Qc)) (p : MixedIntegerLinearProgram)
    : MixedIntegerLinearProgram :=
  {| _default_solver := _default_solver p; _mipvariables := _mipvariables p;
     _variables := _variables p; _values := _values p; _name := _name p;
     _maximization := _maximization p; _objective_i := _objective_i p;
     _objective_values := x; _objective_name := _objective_name p;
     _variables_name := _variables_name p; _variables_type := _variables_type p;
     _variables_bounds_min := _variables_bounds_min p;
     _variables_bounds_max := _variables_bounds_max p;
     _constraints_name := _constraints_name p;
     _constraints_matrix_i := _constraints_matrix_i p;
     _constraints_matrix_j := _constraints_matrix_j p;
     _constraints_matrix_values := _constraints_matrix_values p;
     _constraints_bounds_max := _constraints_bounds_max p;
     _constraints_bounds_min := _constraints_bounds_min p;
     _default_mipvariable := _default_mipvariable p |}.

Definition with_objective_name (x : option string) (p : MixedIntegerLinearProgram)
    : MixedIntegerLinearProgram :=
  {| _default_solver := _default_solver p; _mipvariables := _mipvariables p;
     _variables := _variables p; _values := _values p; _name := _name p;
     _maximization := _maximization p; _objective_i := _objective_i p;
     _objective_values := _objective_values p; _objective_name := x;
     _variables_name := _variables_name p; _variables_type := _variables_type p;
     _variables_bounds_min := _variables_bounds_min p;
     _variables_bounds_max := _variables_bounds_max p;
     _constraints_name := _constraints_name p;
     _constraints_matrix_i := _constraints_matrix_i p;
     _constraints_matrix_j := _constraints_matrix_j p;
     _constraints_matrix_values := _constraints_matrix_values p;
     _constraints_bounds_max := _constraints_bounds_max p;
     _constraints_bounds_min := _constraints_bounds_min p;
     _default_mipvariable := _default_mipvariable p |}.

Definition with_variables_name (x : list string) (p : MixedIntegerLinearProgram)
    : MixedIntegerLinearProgram :=
  {| _default_solver := _default_solver p; _mipvariables := _mipvariables p;
     _variables := _variables p; _values := _values p; _name := _name p;
     _maximization := _maximization p; _objective_i := _objective_i p;
     _objective_values := _objective_values p; _objective_name := _objective_name p;
     _variables_name := x; _variables_type := _variables_type p;
     _variables_bounds_min := _variables_bounds_min p;
     _variables_bounds_max := _variables_bounds_max p;
     _constraints_name := _constraints_name p;
     _constraints_matrix_i := _constraints_matrix_i p;
     _constraints_matrix_j := _constraints_matrix_j p;
     _constraints_matrix_values := _constraints_matrix_values p;
     _constraints_bounds_max := _constraints_bounds_max p;
     _constraints_bounds_min := _constraints_bounds_min p;
     _default_mipvariable := _default_mipvariable p |}.

Definition with_variables_type (x : list Z) (p : MixedIntegerLinearProgram)
    : MixedIntegerLinearProgram :=
  {| _default_solver := _default_solver p; _mipvariables := _mipvariables p;
     _variables := _variables p; _values := _values p; _name := _name p;
     _maximization := _maximization p; _objective_i := _objective_i p;
     _objective_values := _objective_values p; _objective_name := _objective_name p;
     _variables_name := _variables_name p; _variables_type := x;
     _variables_bounds_min := _variables_bounds_min p;
     _variables_bounds_max := _variables_bounds_max p;
     _constraints_name := _constraints_name p;
     _constraints_matrix_i := _constraints_matrix_i p;
     _constraints_matrix_j := _constraints_matrix_j p;
     _constraints_matrix_values := _constraints_matrix_values p;
     _constraints_bounds_max := _constraints_bounds_max p;
     _constraints_bounds_min := _constraints_bounds_min p;
     _default_mipvariable := _default_mipvariable p |}.

Definition with_variables_bounds_min (x : list (option Qc)) (p : MixedIntegerLinearProgram)
    : MixedIntegerLinearProgram :=
  {| _default_solver := _default_solver p; _mipvariables := _mipvariables p;
     _variables := _variables p; _values := _values p; _name := _name p;
     _maximization := _maximization p; _objective_i := _objective_i p;
     _objective_values := _objective_values p; _objective_name := _objective_name p;
     _variables_name := _variables_name p; _variables_type := _variables_type p;
     _variables_bounds_min := x; _variables_bounds_max := _variables_bounds_max p;
     _constraints_name := _constraints_name p;
     _constraints_matrix_i := _constraints_matrix_i p;
     _constraints_matrix_j := _constraints_matrix_j p;
     _constraints_matrix_values := _constraints_matrix_values p;
     _constraints_bounds_max := _constraints_bounds_max p;
     _constraints_bounds_min := _constraints_bounds_min p;
     _default_mipvariable := _default_mipvariable p |}.

Definition with_variables_bounds_max (x : list (option Qc)) (p : MixedIntegerLinearProgram)
    : MixedIntegerLinearProgram :=
  {| _default_solver := _default_solver p; _mipvariables := _mipvariables p;
     _variables := _variables p; _values := _values p; _name := _name p;
     _maximization := _maximization p; _objective_i := _objective_i p;
     _objective_values := _objective_values p; _objective_name := _objective_name p;
     _variables_name := _variables_name p; _variables_type := _variables_type p;
     _variables_bounds_min := _variables_bounds_min p; _variables_bounds_max := x;
     _constraints_name := _constraints_name p;
     _constraints_matrix_i := _constraints_matrix_i p;
     _constraints_matrix_j := _constraints_matrix_j p;
     _constraints_matrix_values := _constraints_matrix_values p;
     _constraints_bounds_max := _constraints_bounds_max p;
     _constraints_bounds_min := _constraints_bounds_min p;
     _default_mipvariable := _default_mipvariable p |}.

Definition with_constraints_name (x : list (option string)) (p : MixedIntegerLinearProgram)
    : MixedIntegerLinearProgram :=
  {| _default_solver := _default_solver p; _mipvariables := _mipvariables p;
     _variables := _variables p; _values := _values p; _name := _name p;
     _maximization := _maximization p; _objective_i := _objective_i p;
     _objective_values := _objective_values p; _objective_name := _objective_name p;
     _variables_name := _variables_name p; _variables_type := _variables_type p;
     _variables_bounds_min := _variables_bounds_min p;
     _variables_bounds_max := _variables_bounds_max p; _constraints_name := x;
     _constraints_matrix_i := _constraints_matrix_i p;
     _constraints_matrix_j := _constraints_matrix_j p;
     _constraints_matrix_values := _constraints_matrix_values p;
     _constraints_bounds_max := _constraints_bounds_max p;
     _constraints_bounds_min := _constraints_bounds_min p;
     _default_mipvariable := _default_mipvariable p |}.

Definition with_constraints_matrix_i (x : list nat) (p : MixedIntegerLinearProgram)
    : MixedIntegerLinearProgram :=
  {| _default_solver := _default_solver p; _mipvariables := _mipvariables p;
     _variables := _variables p; _values := _values p; _name := _name p;
     _maximization := _maximization p; _objective_i := _objective_i p;
     _objective_values := _objective_values p; _objective_name := _objective_name p;
     _variables_name := _variables_name p; _variables_type := _variables_type p;
     _variables_bounds_min := _variables_bounds_min p;
     _variables_bounds_max := _variables_bounds_max p;
     _constraints_name := _constraints_name p; _constraints_matrix_i := x;
     _constraints_matrix_j := _constraints_matrix_j p;
     _constraints_matrix_values := _constraints_matrix_values p;
     _constraints_bounds_max := _constraints_bounds_max p;
     _constraints_bounds_min := _constraints_bounds_min p;
     _default_mipvariable := _default_mipvariable p |}.

Definition with_constraints_matrix_j (x : list nat) (p : MixedIntegerLinearProgram)
    : MixedIntegerLinearProgram :=
  {| _default_solver := _default_solver p; _mipvariables := _mipvariables p;
     _variables := _variables p; _values := _values p; _name := _name p;
     _maximization := _maximization p; _objective_i := _objective_i p;
     _objective_values := _objective_values p; _objective_name := _objective_name p;
     _variables_name := _variables_name p; _variables_type := _variables_type p;
     _variables_bounds_min := _variables_bounds_min p;
     _variables_bounds_max := _variables_bounds_max p;
     _constraints_name := _constraints_name p;
     _constraints_matrix_i := _constraints_matrix_i p; _constraints_matrix_j := x;
     _constraints_matrix_values := _constraints_matrix_values p;
     _constraints_bounds_max := _constraints_bounds_max p;
     _constraints_bounds_min := _constraints_bounds_min p;
     _default_mipvariable := _default_mipvariable p |}.

Definition with_constraints_matrix_values (x : list Qc) (p : MixedIntegerLinearProgram)
    : MixedIntegerLinearProgram :=
  {| _default_solver := _default_solver p; _mipvariables := _mipvariables p;
     _variables := _variables p; _values := _values p; _name := _name p;
     _maximization := _maximization p; _objective_i := _objective_i p;
     _objective_values := _objective_values p; _objective_name := _objective_name p;
     _variables_name := _variables_name p; _variables_type := _variables_type p;
     _variables_bounds_min := _variables_bounds_min p;
     _variables_bounds_max := _variables_bounds_max p;
     _constraints_name := _constraints_name p;
     _constraints_matrix_i := _constraints_matrix_i p;
     _constraints_matrix_j := _constraints_matrix_j p; _constraints_matrix_values := x;
     _constraints_bounds_max := _constraints_bounds_max p;
     _constraints_bounds_min := _constraints_bounds_min p;
     _default_mipvariable := _default_mipvariable p |}.

Definition with_constraints_bounds_max (x : list (option Qc)) (p : MixedIntegerLinearProgram)
    : MixedIntegerLinearProgram :=
  {| _default_solver := _default_solver p; _mipvariables := _mipvariables p;
     _variables := _variables p; _values := _values p; _name := _name p;
     _maximization := _maximization p; _objective_i := _objective_i p;
     _objective_values := _objective_values p; _objective_name := _objective_name p;
     _variables_name := _variables_name p; _variables_type := _variables_type p;
     _variables_bounds_min := _variables_bounds_min p;
     _variables_bounds_max := _variables_bounds_max p;
     _constraints_name := _constraints_name p;
     _constraints_matrix_i := _constraints_matrix_i p;
     _constraints_matrix_j := _constraints_matrix_j p;
     _constraints_matrix_values := _constraints_matrix_values p;
     _constraints_bounds_max := x;
     _constraints_bounds_min := _constraints_bounds_min p;
     _default_mipvariable := _default_mipvariable p |}.

Definition with_constraints_bounds_min (x : list (option Qc)) (p : MixedIntegerLinearProgram)
    : MixedIntegerLinearProgram :=
  {| _default_solver := _default_solver p; _mipvariables := _mipvariables p;
     _variables := _variables p; _values := _values p; _name := _name p;
     _maximization := _maximization p; _objective_i := _objective_i p;
     _objective_values := _objective_values p; _objective_name := _objective_name p;
     _variables_name := _variables_name p; _variables_type := _variables_type p;
     _variables_bounds_min := _variables_bounds_min p;
     _variables_bounds_max := _variables_bounds_max p;
     _constraints_name := _constraints_name p;
     _constraints_matrix_i := _constraints_matrix_i p;
     _constraints_matrix_j := _constraints_matrix_j p;
     _constraints_matrix_values := _constraints_matrix_values p;
     _constraints_bounds_max := _constraints_bounds_max p;
     _constraints_bounds_min := x; _default_mipvariable := _default_mipvariable p |}.

Definition with_default_mipvariable (x : option nat) (p : MixedIntegerLinearProgram)
    : MixedIntegerLinearProgram :=
  {| _default_solver := _default_solver p; _mipvariables := _mipvariables p;
     _variables := _variables p; _values := _values p; _name := _name p;
     _maximization := _maximization p; _objective_i := _objective_i p;
     _objective_values := _objective_values p; _objective_name := _objective_name p;
     _variables_name := _variables_name p; _variables_type := _variables_type p;
     _variables_bounds_min := _variables_bounds_min p;
     _variables_bounds_max := _variables_bounds_max p;
     _constraints_name := _constraints_name p;
     _constraints_matrix_i := _constraints_matrix_i p;
     _constraints_matrix_j := _constraints_matrix_j p;
     _constraints_matrix_values := _constraints_matrix_values p;
     _constraints_bounds_max := _constraints_bounds_max p;
     _constraints_bounds_min := _constraints_bounds_min p;
     _default_mipvariable := x |}.
Record world := {
  program : MixedIntegerLinearProgram;
  heap : list MIPVariable
}.

(** ** The monad of state and exceptions *)

Definition M (A : Type) : Type := world → result A * world.

Global Instance M_ret : MRet M := λ A a w, (Ok a, w).
Global Instance M_bind : MBind M := λ A B k c w,
  match c w with
  | (Ok a, w') => k a w'
  | (Raise e, w') => (Raise e, w')
  end.

Definition raise {A} (e : exn) : M A := λ w, (Raise e, w).

Definition from_option {A} (o : option A) (e : exn) : M A :=
  match o with Some a => mret a | None => raise e end.

(** [self] *)
Definition self : M MixedIntegerLinearProgram := λ w, (Ok (program w), w).

(** Assignment to attributes of [self]. *)
Definition assign (f : MixedIntegerLinearProgram → MixedIntegerLinearProgram) : M unit :=
  λ w, (Ok tt, {| program := f (program w); heap := heap w |}).

(** The [MIPVariable] object behind a reference. *)
Definition object (r : nat) : M MIPVariable :=
  λ w, match heap w !! r with
       | Some o => (Ok o, w)
       | None => (Raise DanglingReference, w)
       end.

(** Assignment to attributes of the object behind a reference. *)
Definition assign_object (r : nat) (f : MIPVariable → MIPVariable) : M unit :=
  λ w, match heap w !! r with
       | Some o => (Ok tt, {| program := program w; heap := <[r := f o]> (heap w) |})
       | None => (Raise DanglingReference, w)
       end.

(** A new object. *)
Definition new (o : MIPVariable) : M nat :=
  λ w, (Ok (length (heap w)), {| program := program w; heap := heap w ++ [o] |}).

(** [l[i]] and [l[i] = x] on a Python list. *)
Definition getitem {A} (l : list A) (i : nat) : M A :=
  from_option (l !! i) IndexError.

Definition setitem {A} (l : list A) (i : nat) (x : A) : M (list A) :=
  if decide (i < length l)%nat then mret (<[i := x]> l) else raise IndexError.

(** [for a in l: body] *)
Fixpoint for_each {A} (l : list A) (body : A → M unit) : M unit :=
  match l with
  | [] => mret tt
  | a :: l => body a;; for_each l body
  end.

(** ** MixedIntegerLinearProgram *)

(** The dictionary [self._variables] read at any value: its keys are
    symbolic variables. *)
Definition variables_lookup (p : MixedIntegerLinearProgram) (v : value) : option nat :=
  match v with
  | Symbol v => _variables p !! v
  | Object _ => None
  end.

Section solvers.
(** Whether [sage.numerical.mipCoin] and [sage.numerical.mipGlpk] can
    be imported, and the functions they provide. *)
Variables coin_importable glpk_importable : bool.
Variables solveCoin solve_glpk : bool → bool → M Qc.
Variable glpk_write_mps : string → bool → M unit.
Variable glpk_write_lp : string → M unit.

(** [MixedIntegerLinearProgram.__init__(self, maximization=True)] *)
Definition MixedIntegerLinearProgram__init__ (maximization : bool) : world :=
  {| program :=
       {| _default_solver :=
            if coin_importable then Some "Coin"
            else if glpk_importable then Some "GLPK"
            else None;
          _mipvariables := [];
          _variables := ∅;
          _values := ∅;
          _name := None;
          _maximization := maximization;
          _objective_i := None;
          _objective_values := None;
          _objective_name := None;
          _variables_name := [];
          _variables_type := [];
          _variables_bounds_min := [];
          _variables_bounds_max := [];
          _constraints_name := [];
          _constraints_matrix_i := [];
          _constraints_matrix_j := [];
          _constraints_matrix_values := [];
          _constraints_bounds_max := [];
          _constraints_bounds_min := [];
          _default_mipvariable := None |};
     heap := [] |}.

(** [MixedIntegerLinearProgram.solve(self, solver=None, log=False,
    objective_only=False)] *)
Definition solve (solver : option string) (log objective_only : bool) : M Qc :=
  p ← self;
  if decide (_objective_i p = None) then raise ValueError_no_objective
  else
    let solver := match solver with None => _default_solver p | Some s => Some s end in
    match solver with
    | None => raise ValueError_no_solver
    | Some solver =>
        if decide (solver = "Coin") then
          if coin_importable then solveCoin log objective_only
          else raise NotImplementedError_Coin
        else if decide (solver = "GLPK") then
          if glpk_importable then solve_glpk log objective_only
          else raise NotImplementedError_GLPK
        else if decide (solver = "CPLEX") then raise NotImplementedError_CPLEX
        else raise NotImplementedError_solver
    end.

(** [MIPVariable._update_variables_name(self, prefix=None)].  In the
    branch of the dimensions other than 1 the argument of the
    recursive call reads [k], a local variable of the function that
    only the loop of the other branch assigns: as Python reads the
    function, the argument raises [UnboundLocalError] before the call
    is made. *)
Definition MIPVariable_update_variables_name (r : nat) (prefix : option string) : M unit :=
  o ← object r;
  let prefix := match prefix with None => _mipvariable_name o | Some s => Some s end in
  if decide (_dim o = 1%Z) then
    for_each (map_to_list (_dict o)) (λ '(k, v),
      name ← from_option ((λ prefix, prefix +:+ "[" +:+ str k +:+ "]") <$> prefix) TypeError;
      p ← self;
      i ← from_option (variables_lookup p v) KeyError;
      l ← setitem (_variables_name p) i name;
      assign (with_variables_name l))
  else
    for_each (map_to_list (_dict o)).*2 (λ v,
      match v with
      | Symbol _ => raise AttributeError
      | Object _ =>
          _ ← from_option ((λ prefix, prefix +:+ "[") <$> prefix) TypeError;
          raise UnboundLocalError
      end).

(** [MixedIntegerLinearProgram._update_variables_name(self)] *)
Definition _update_variables_name : M unit :=
  p ← self;
  assign (with_variables_name (replicate (size (_variables p)) ""));;
  for_each (_mipvariables p) (λ v, MIPVariable_update_variables_name v None).

(** [MixedIntegerLinearProgram.write_mps(self, filename, modern=True)] *)
Definition write_mps (filename : string) (modern : bool) : M unit :=
  if glpk_importable then
    _update_variables_name;;
    glpk_write_mps filename modern
  else raise NotImplementedError_write.

(** [MixedIntegerLinearProgram.write_lp(self, filename)] *)
Definition write_lp (filename : string) : M unit :=
  if glpk_importable then
    _update_variables_name;;
    glpk_write_lp filename
  else raise NotImplementedError_write.
End solvers.

(** [MixedIntegerLinearProgram.__eq__(self, p)] *)
Definition MixedIntegerLinearProgram__eq__ (self p : MixedIntegerLinearProgram) : bool :=
  bool_decide (_name self = _name p)
  && bool_decide (_maximization self = _maximization p)
  && bool_decide (_objective_i self = _objective_i p)
  && bool_decide (_objective_values self = _objective_values p)
  && bool_decide (_objective_name self = _objective_name p)
  && bool_decide (_variables_name self = _variables_name p)
  && bool_decide (_variables_type self = _variables_type p)
  && bool_decide (_variables_bounds_min self = _variables_bounds_min p)
  && bool_decide (_variables_bounds_max self = _variables_bounds_max p)
  && bool_decide (_constraints_name self = _constraints_name p)
  && bool_decide (_constraints_matrix_i self = _constraints_matrix_i p)
  && bool_decide (_constraints_matrix_j self = _constraints_matrix_j p)
  && bool_decide (_constraints_matrix_values self = _constraints_matrix_values p)
  && bool_decide (_constraints_bounds_max self = _constraints_bounds_max p).

(** [MixedIntegerLinearProgram.set_problem_name(self, name)] *)
Definition set_problem_name (name : option string) : M unit :=
  assign (with_name name).

(** [MixedIntegerLinearProgram.set_objective_name(self, name)] *)
Definition set_objective_name (name : option string) : M unit :=
  assign (with_objective_name name).

(** [MIPVariable.__init__(self, p, vtype, dim=1, name=None)] *)
Definition MIPVariable__init__ (vtype : Z) (dim : Z) (name : option string) : MIPVariable :=
  {| _dim := dim; _dict := ∅; _vtype := vtype; _mipvariable_name := name; vtype := None |}.

(** [MixedIntegerLinearProgram.new_variable(self, vtype=-1, dim=1, name=None)] *)
Definition new_variable (vtype : Z) (dim : Z) (name : option string) : M nat :=
  p ← self;
  let name := match name with
              | None => "V" +:+ pretty (length (_mipvariables p))
              | Some name => name
              end in
  v ← new (MIPVariable__init__ vtype dim (Some name));
  p ← self;
  assign (with_mipvariables (_mipvariables p ++ [v]));;
  mret v.

(** [MixedIntegerLinearProgram._add_element_to_ring(self, vtype)] *)
Definition _add_element_to_ring (vtype : Z) : M string :=
  p ← self;
  let v := symbol (size (_variables p)) in
  assign (with_variables (<[v := size (_variables p)]> (_variables p)));;
  p ← self;
  assign (with_variables_type (_variables_type p ++ [vtype]));;
  p ← self;
  assign (with_variables_bounds_min (_variables_bounds_min p ++ [Some 0]));;
  p ← self;
  assign (with_variables_bounds_max (_variables_bounds_max p ++ [None]));;
  mret v.

(** [MIPVariable.__getitem__(self, i)] *)
Definition MIPVariable__getitem__ (r : nat) (i : key) : M value :=
  o ← object r;
  match _dict o !! i with
  | Some v => mret v
  | None =>
      if decide (_dim o = 1%Z) then
        v ← _add_element_to_ring (_vtype o);
        assign_object r (λ o, with_dict (<[i := Symbol v]> (_dict o)) o);;
        mret (Symbol v)
      else
        v ← new (MIPVariable__init__ (_vtype o) (_dim o - 1)%Z None);
        assign_object r (λ o, with_dict (<[i := Object v]> (_dict o)) o);;
        mret (Object v)
  end.

(** [MIPVariable.keys], [items], [values] and [depth] *)
Definition keys (r : nat) : M (list key) :=
  o ← object r; mret (map_to_list (_dict o)).*1.
Definition items (r : nat) : M (list (key * value)) :=
  o ← object r; mret (map_to_list (_dict o)).
Definition values (r : nat) : M (list value) :=
  o ← object r; mret (map_to_list (_dict o)).*2.
Definition depth (r : nat) : M Z :=
  o ← object r; mret (_dim o).

(** [MixedIntegerLinearProgram.__getitem__(self, v)] *)
Definition MixedIntegerLinearProgram__getitem__ (v : key) : M value :=
  p ← self;
  match _default_mipvariable p with
  | Some d => MIPVariable__getitem__ d v
  | None =>
      d ← new_variable (-1)%Z 1%Z None;
      assign (with_default_mipvariable (Some d));;
      MIPVariable__getitem__ d v
  end.

(** [self._variables[v]] for anything used as a variable. *)
Definition variable_index (v : value) : M nat :=
  p ← self;
  from_option (variables_lookup p v) KeyError.

(** [MixedIntegerLinearProgram.set_min(self, v, min)] *)
Definition set_min (v : value) (min : option Qc) : M unit :=
  p ← self;
  i ← variable_index v;
  l ← setitem (_variables_bounds_min p) i min;
  assign (with_variables_bounds_min l).

(** [MixedIntegerLinearProgram.set_max(self, v, max)] *)
Definition set_max (v : value) (max : option Qc) : M unit :=
  p ← self;
  i ← variable_index v;
  l ← setitem (_variables_bounds_max p) i max;
  assign (with_variables_bounds_max l).

(** [float(x)] as a call: it returns the float or raises. *)
Definition float_of (x : Qc) : M pyfloat :=
  if float_overflows x then raise OverflowError else mret (float x).

(** What [float(bound) if bound != None else None] gives for a bound
    that is stored. *)
Definition float_bound (bound : option Qc) : result (option pyfloat) :=
  match bound with
  | Some x => if float_overflows x then Raise OverflowError else Ok (Some (float x))
  | None => Ok None
  end.

(** [MixedIntegerLinearProgram.get_min(self, v)]:
    [float(bound) if bound != None else None] *)
Definition get_min (v : value) : M (option pyfloat) :=
  p ← self;
  i ← variable_index v;
  x ← getitem (_variables_bounds_min p) i;
  match x with
  | Some x => x ← float_of x; mret (Some x)
  | None => mret None
  end.

(** [MixedIntegerLinearProgram.get_max(self, v)] *)
Definition get_max (v : value) : M (option pyfloat) :=
  p ← self;
  i ← variable_index v;
  x ← getitem (_variables_bounds_max p) i;
  match x with
  | Some x => x ← float_of x; mret (Some x)
  | None => mret None
  end.

(** [MixedIntegerLinearProgram.is_binary(self, e)], [is_integer] and
    [is_real] *)
Definition is_binary (e : value) : M bool :=
  p ← self;
  i ← variable_index e;
  t ← getitem (_variables_type p) i;
  mret (bool_decide (t = __BINARY)).

Definition is_integer (e : value) : M bool :=
  p ← self;
  i ← variable_index e;
  t ← getitem (_variables_type p) i;
  mret (bool_decide (t = __INTEGER)).

Definition is_real (e : value) : M bool :=
  p ← self;
  i ← variable_index e;
  t ← getitem (_variables_type p) i;
  mret (bool_decide (t = __REAL)).

(** [self._variables_type[self._variables[v]] = t] *)
Definition set_variable_type (v : value) (t : Z) : M unit :=
  p ← self;
  i ← variable_index v;
  l ← setitem (_variables_type p) i t;
  assign (with_variables_type l).

(** The common body of [set_binary], [set_integer] and [set_real],
    which differ by the constant they assign.  The nesting of the
    calls is bounded by the recursion limit of the interpreter. *)
Fixpoint set_type (limit : nat) (t : Z) (e : value) : M unit :=
  match limit with
  | O => raise RecursionLimit
  | S limit =>
      match e with
      | Object r =>
          assign_object r (with_vtype (Some t));;
          d ← depth r;
          if decide (d = 1%Z) then
            vs ← values r;
            for_each vs (λ v, set_variable_type v t)
          else
            ks ← keys r;
            for_each ks (λ v, ev ← MIPVariable__getitem__ r v; set_type limit t ev)
      | Symbol _ =>
          p ← self;
          if decide (is_Some (variables_lookup p e)) then set_variable_type e t
          else raise ValueError_not_a_variable
      end
  end.

(** [MixedIntegerLinearProgram.set_binary(self, e)] *)
Definition set_binary (limit : nat) (e : value) : M unit := set_type limit __BINARY e.

(** [MixedIntegerLinearProgram.set_integer(self, e)] *)
Definition set_integer (limit : nat) (e : value) : M unit := set_type limit __INTEGER e.

(** [MixedIntegerLinearProgram.set_real(self, e)] *)
Definition set_real (limit : nat) (e : value) : M unit := set_type limit __REAL e.

(** [exp == 0] *)
Definition is_zero (exp : linear_function) : bool :=
  match exp with
  | PyNone => false
  | PyNumber c => bool_decide (c = 0)
  | Expression terms constant => bool_decide (terms = ∅) && bool_decide (constant = 0)
  end.

(** [MixedIntegerLinearProgram._NormalForm(self, exp)]: the
    coefficients of the variables of [exp], and under the key [0] its
    constant term, here the second component.  [None] and the numbers
    of Python have no method [variables]. *)
Definition _NormalForm (exp : linear_function) : M (gmap string Qc * Qc) :=
  match exp with
  | PyNone | PyNumber _ => raise AttributeError
  | Expression terms constant => mret (terms, constant)
  end.

(** [try: f = self._NormalForm(exp)  except: return None] *)
Definition try_NormalForm (exp : linear_function) : M (option (gmap string Qc * Qc)) :=
  λ w, match _NormalForm exp w with
       | (Ok f, w') => (Ok (Some f), w')
       | (Raise _, w') => (Ok None, w')
       end.

(** The body of the loop of [set_objective], for one variable of the
    normal form and its coefficient. *)
Definition set_objective_term (term : string * Qc) : M unit :=
  let '(v, coeff) := term in
  i ← variable_index (Symbol v);
  p ← self;
  assign (with_objective_i ((λ l, l ++ [i]) <$> _objective_i p));;
  p ← self;
  assign (with_objective_values ((λ l, l ++ [coeff]) <$> _objective_values p)).

(** [MixedIntegerLinearProgram.set_objective(self, obj)] *)
Definition set_objective (obj : linear_function) : M unit :=
  assign (with_objective_i (Some []));;
  assign (with_objective_values (Some []));;
  f ← try_NormalForm obj;
  match f with
  | None => mret tt
  | Some (f, _) => for_each (map_to_list f) set_objective_term
  end.

(** The body of the loop of [add_constraint], for the constraint of
    index [c]. *)
Definition add_constraint_term (c : nat) (term : string * Qc) : M unit :=
  let '(v, coeff) := term in
  p ← self;
  assign (with_constraints_matrix_i (_constraints_matrix_i p ++ [c]));;
  j ← variable_index (Symbol v);
  p ← self;
  assign (with_constraints_matrix_j (_constraints_matrix_j p ++ [j]));;
  p ← self;
  assign (with_constraints_matrix_values (_constraints_matrix_values p ++ [coeff])).

(** [MixedIntegerLinearProgram.add_constraint(self, linear_function,
    max=None, min=None, name=None)] *)
Definition add_constraint (linear_function : linear_function)
    (max min : option Qc) (name : option string) : M unit :=
  if is_zero linear_function then mret tt
  else
    f ← try_NormalForm linear_function;
    match f with
    | None => mret tt
    | Some (f, constant_coefficient) =>
        p ← self;
        assign (with_constraints_name (_constraints_name p ++ [name]));;
        let max := (λ max, max - constant_coefficient) <$> max in
        let min := (λ min, min - constant_coefficient) <$> min in
        p ← self;
        let c := length (_constraints_bounds_min p) in
        for_each (map_to_list f) (add_constraint_term c);;
        p ← self;
        assign (with_constraints_bounds_max (_constraints_bounds_max p ++ [max]));;
        p ← self;
        assign (with_constraints_bounds_min (_constraints_bounds_min p ++ [min]))
    end.

(** Modelled on the symbolic ring of the library, restricted to the
    values [constraints] computes: the product of a coefficient with
    an entry of the list [d], a variable or the integer 0 the list is
    filled with, and the sum of two such values.  A product with the
    coefficient 0 and a sum that cancels a variable have lost that
    variable. *)
Definition symbolic_mul (value : Qc) (d : option string) : linear_function :=
  match d with
  | None => PyNumber 0
  | Some v => Expression (if decide (value = 0) then ∅ else {[v := value]}) 0
  end.

Definition symbolic_add (a b : linear_function) : option linear_function :=
  match a, b with
  | PyNumber a, PyNumber b => Some (PyNumber (a + b))
  | PyNumber a, Expression t c => Some (Expression t (a + c))
  | Expression t c, PyNumber b => Some (Expression t (c + b))
  | Expression t1 c1, Expression t2 c2 =>
      Some (Expression
              (union_with (λ x y, if decide (x + y = 0) then None else Some (x + y)) t1 t2)
              (c1 + c2))
  | _, _ => None
  end.

(** [for a in l: body], where the body updates a local variable. *)
Fixpoint fold_each {A S} (l : list A) (s : S) (body : S → A → M S) : M S :=
  match l with
  | [] => mret s
  | a :: l => s ← body s a; fold_each l s body
  end.

(** The body of the second loop of [constraints]:
    [constraints[i] += value*d[j]]. *)
Definition constraints_entry (d : list (option string))
    (constraints : list linear_function) (entry : nat * (nat * Qc))
    : M (list linear_function) :=
  let '(i, (j, value)) := entry in
  ci ← getitem constraints i;
  dj ← getitem d j;
  sum ← from_option (symbolic_add ci (symbolic_mul value dj)) TypeError;
  setitem constraints i sum.

(** [MixedIntegerLinearProgram.constraints(self)]: the constraints as
    triples of a linear function, the lower and the upper bound.  The
    list [d] holds the variable of every index, [None] standing for
    the integer 0 it is filled with at first. *)
Definition constraints : M (list (linear_function * (option Qc * option Qc))) :=
  p ← self;
  d ← fold_each (map_to_list (_variables p)) (replicate (size (_variables p)) None)
        (λ d '(v, id), setitem d id (Some v));
  constraints ←
    fold_each
      (zip (_constraints_matrix_i p)
           (zip (_constraints_matrix_j p) (_constraints_matrix_values p)))
      (replicate (length (_constraints_bounds_min p)) (PyNumber 0))
      (constraints_entry d);
  mret (zip constraints (zip (_constraints_bounds_min p) (_constraints_bounds_max p))).

(** The value of a row of [constraints] whose entries are the terms
    [f]: the integer 0 the list is filled with when there is no entry,
    else the sum of the products. *)
Definition row_value (f : gmap string Qc) : linear_function :=
  if decide (f = ∅) then PyNumber 0 else Expression f 0.

(** ** The invariant of a program *)

(** What the methods keep true of a program and its [MIPVariable]
    objects: the symbolic variable of index [i] is [x] followed by
    [i], and the lists of types and bounds have one entry for each
    variable; a [MIPVariable] of dimension 1 holds variables of the
    program, one of another dimension holds [MIPVariable] objects
    created after it, and nothing is held twice; the objects of the
    program are named; the constraints are stored as a sparse matrix
    with one pair of bounds and one name for each row. *)
Record wf (w : world) : Prop := {
  wf_variables : ∀ v i, _variables (program w) !! v = Some i →
    v = symbol i ∧ (i < size (_variables (program w)))%nat;
  wf_type : length (_variables_type (program w)) = size (_variables (program w));
  wf_min : length (_variables_bounds_min (program w)) = size (_variables (program w));
  wf_max : length (_variables_bounds_max (program w)) = size (_variables (program w));
  wf_symbol : ∀ r o k v, heap w !! r = Some o → _dict o !! k = Some (Symbol v) →
    _dim o = 1%Z ∧ is_Some (_variables (program w) !! v);
  wf_object : ∀ r o k r', heap w !! r = Some o → _dict o !! k = Some (Object r') →
    _dim o ≠ 1%Z ∧ (r < r' < length (heap w))%nat;
  wf_unique : ∀ r1 o1 k1 r2 o2 k2 v,
    heap w !! r1 = Some o1 → _dict o1 !! k1 = Some v →
    heap w !! r2 = Some o2 → _dict o2 !! k2 = Some v →
    r1 = r2 ∧ k1 = k2;
  wf_mipvariables : ∀ r, r ∈ _mipvariables (program w) →
    ∃ o, heap w !! r = Some o ∧ is_Some (_mipvariable_name o);
  wf_default : ∀ d, _default_mipvariable (program w) = Some d →
    d ∈ _mipvariables (program w);
  wf_constraints :
    length (_constraints_name (program w)) = length (_constraints_bounds_min (program w))
    ∧ length (_constraints_bounds_max (program w))
      = length (_constraints_bounds_min (program w));
  wf_matrix :
    length (_constraints_matrix_i (program w)) = length (_constraints_matrix_j (program w))
    ∧ length (_constraints_matrix_values (program w))
      = length (_constraints_matrix_j (program w))
    ∧ Forall (λ i, (i < length (_constraints_bounds_min (program w)))%nat)
        (_constraints_matrix_i (program w))
    ∧ Forall (λ j, (j < size (_variables (program w)))%nat)
        (_constraints_matrix_j (program w));
  wf_objective :
    match _objective_i (program w), _objective_values (program w) with
    | None, None => True
    | Some i, Some values =>
        length i = length values
        ∧ Forall (λ j, (j < size (_variables (program w)))%nat) i
    | _, _ => False
    end
}.

(** A computation keeps [I] true, whether it returns or raises. *)
Definition preserves (I : world → Prop) {A} (c : M A) : Prop :=
  ∀ w, I w → I (c w).2.

(** ** Sample programs *)

(** A maximization program, with GLPK installed and Coin not, and one
    [MIPVariable] of real variables, of dimension 1. *)
Definition sample_program : world :=
  (new_variable __REAL 1 None (MixedIntegerLinearProgram__init__ false true true)).2.

(** The same after [v[0]] and [v[1]]. *)
Definition sample_program_2 : world :=
  (MIPVariable__getitem__ 0 (KInt 1) (MIPVariable__getitem__ 0 (KInt 0) sample_program).2).2.

(** A program with one [MIPVariable] of dimension 2, after [v[0][0]]. *)
Definition sample_program_dim2 : world :=
  let w := (new_variable __REAL 2 None
              (MixedIntegerLinearProgram__init__ false true true)).2 in
  let w := (MIPVariable__getitem__ 0 (KInt 0) w).2 in
  (MIPVariable__getitem__ 1 (KInt 0) w).2.

End mip.

(** * Properties *)

(** ** The result monad and rational comparisons *)

Lemma bind_Ok {A B} (r : result A) (k : A → result B) (b : B) :
  r ≫= k = Ok b ↔ ∃ a, r = Ok a ∧ k a = Ok b.
Proof.
  destruct r as [a|e]; simpl.
  - split; [eauto | intros (a' & [= ->] & ?); done].
  - split; [done | intros (a' & ? & ?); done].
Qed.

Lemma check_Ok (b : bool) (e : exn) : check b e = Ok tt ↔ b = true.
Proof. destruct b; simpl; split; done. Qed.

Lemma check_true {B} (b : bool) (e : exn) (k : unit → result B) :
  b = true → check b e ≫= k = k tt.
Proof. by intros ->. Qed.

Lemma check_false {B} (b : bool) (e : exn) (k : unit → result B) :
  b = false → check b e ≫= k = Raise e.
Proof. by intros ->. Qed.

Lemma Qcleb_le (x y : Qc) : Qcleb x y = true ↔ (x ≤ y)%Qc.
Proof. unfold Qcleb, Qcle. apply Qle_bool_iff. Qed.

Lemma Qcltb_lt (x y : Qc) : Qcltb x y = true ↔ (x < y)%Qc.
Proof.
  unfold Qcltb. rewrite negb_true_iff, <- not_true_iff_false.
  rewrite (Qcleb_le y x). split.
  - apply Qcnot_le_lt.
  - apply Qclt_not_le.
Qed.

Lemma Qcltb_ge (x y : Qc) : Qcltb x y = false ↔ (y ≤ x)%Qc.
Proof.
  unfold Qcltb. rewrite negb_false_iff. apply Qcleb_le.
Qed.

Lemma rectangularb_spec (k l : nat) (M : list (list Qc)) :
  rectangularb k l M = true ↔ rectangular k l M.
Proof.
  unfold rectangularb, rectangular.
  rewrite andb_true_iff, bool_decide_eq_true, forallb_forall, Forall_forall.
  split; intros [? HM]; split; try done; intros r Hr.
  - apply list_elem_of_In, HM in Hr. by apply bool_decide_eq_true in Hr.
  - apply bool_decide_eq_true, HM, list_elem_of_In, Hr.
Qed.

(** ** Shapes *)

Lemma length_gen_names (s : string) (first count : nat) :
  length (gen_names s first count) = count.
Proof. unfold gen_names. by rewrite length_fmap, length_seq. Qed.

Lemma InteractiveLPProblem__init__Ok A b c x cts vts pt prefix style pda objective :
  rectangular (length b) (length c) A →
  length (names_of x 1 (length c)) = length c →
  length cts = length b →
  length vts = length c →
  InteractiveLPProblem__init__ A b c x cts vts pt prefix style pda objective
  = Ok {| _A := A; _b := b; _c := c; _x := names_of x 1 (length c);
          _constraint_types := cts; _variable_types := vts;
          _direction := pt_direction pt; _is_negative := pt_negative pt;
          _prefix := prefix; _style := style; _problem_type_pda := pda;
          _objective := objective |}.
Proof.
  intros HA Hx Hc Hv. unfold InteractiveLPProblem__init__.
  rewrite check_true by (by apply rectangularb_spec).
  rewrite check_true by (by apply bool_decide_eq_true).
  rewrite check_true by (by apply bool_decide_eq_true).
  rewrite check_true by (by apply bool_decide_eq_true).
  done.
Qed.

Lemma InteractiveLPProblem__init__raises A b c x cts vts pt prefix style pda objective e :
  InteractiveLPProblem__init__ A b c x cts vts pt prefix style pda objective = Raise e →
  e = Incompatible_dimensions.
Proof.
  unfold InteractiveLPProblem__init__.
  repeat (match goal with
          | |- context [check ?b ?e] => destruct b; simpl; [| congruence]
          end).
  done.
Qed.

(** ** The constructor of standard-form problems *)

Lemma StandardForm__init__Ok A b c x pt slack aux style pda objective :
  rectangular (length b) (length c) A →
  length (names_of x 1 (length c)) = length c →
  length (slack_names style slack (S (length c)) (length b)) = length b →
  recognized style →
  let xs := names_of x 1 (length c) in
  let names := ring_names (default ("x" +:+ "0") aux) xs
                 (slack_names style slack (S (length c)) (length b)) in
  InteractiveLPProblemStandardForm__init__ A b c x pt slack aux style pda objective
  = Ok {| base := {| _A := A; _b := b; _c := c;
                     _x := slice_mid (length c) (length b) names;
                     _constraint_types := replicate (length b) CLe;
                     _variable_types := replicate (length c) VGe;
                     _direction := pt_direction pt;
                     _is_negative := pt_negative pt;
                     _prefix := "x";
                     _style := style;
                     _problem_type_pda := pda;
                     _objective := objective_symbol style pda objective |};
          _R := names |}.
Proof.
  intros HA Hx Hs Hst xs names.
  unfold InteractiveLPProblemStandardForm__init__.
  rewrite InteractiveLPProblem__init__Ok; [| done | done | by rewrite length_replicate ..].
  simpl. unfold recognized, vanderbei in *.
  destruct Hst as [-> | ->]; simpl;
    (destruct slack as [s|]; unfold slack_names, m, n in *; simpl in *;
     (rewrite check_true by (by apply bool_decide_eq_true)); simpl;
     destruct aux, objective; try done;
     unfold objective_symbol; simpl;
     by destruct (bool_decide (pda = Some "dual") || bool_decide (pda = Some "auxiliary"))).
Qed.

(** ** Duality *)

Lemma length_col (j : nat) (M : list (list Qc)) : length (col j M) = length M.
Proof. unfold col. by rewrite length_fmap. Qed.

Lemma length_transpose (k : nat) (M : list (list Qc)) : length (transpose k M) = k.
Proof. unfold transpose. by rewrite length_fmap, length_seq. Qed.

Lemma rectangular_transpose (k l : nat) (M : list (list Qc)) :
  length M = l → rectangular k l (transpose k M).
Proof.
  intros HM. split; [apply length_transpose |].
  unfold transpose. apply Forall_fmap, Forall_forall. intros j _. simpl.
  by rewrite length_col.
Qed.

Lemma get_col (j i : nat) (M : list (list Qc)) : get (col j M) i = entry M i j.
Proof.
  unfold get, entry, col. rewrite list_lookup_fmap.
  by destruct (M !! i).
Qed.

Lemma entry_transpose (k : nat) (M : list (list Qc)) (i j : nat) :
  (j < k)%nat → entry (transpose k M) j i = entry M i j.
Proof.
  intros Hj. unfold entry at 1, transpose.
  rewrite list_lookup_fmap, lookup_seq_lt by done. simpl.
  apply get_col.
Qed.

Lemma default_objective_Ok (self : InteractiveLPProblem) (objective : objective_name) :
  recognized (_style self) ∨ objective ≠ ObjNone →
  default_objective (_style self) (_objective self) objective
  = Ok (dual_objective_name self objective).
Proof.
  unfold default_objective, dual_objective_name, recognized.
  intros [[Hs | Hs] | Hs]; destruct objective; try done; rewrite Hs; done.
Qed.

Lemma dual_Ok (self : InteractiveLPProblem) (y : option names_arg) (objective : objective_name) :
  well_shaped self →
  recognized (_style self) ∨ objective ≠ ObjNone →
  length (dual_names self y) = m self →
  dual self y objective
  = Ok {| _A := transpose (n self) (_A self);
          _b := _c self;
          _c := _b self;
          _x := dual_names self y;
          _constraint_types := dual_constraint_type (_direction self) <$> _variable_types self;
          _variable_types := dual_variable_type (_direction self) <$> _constraint_types self;
          _direction := flip (_direction self);
          _is_negative := _is_negative self;
          _prefix := "x";
          _style := _style self;
          _problem_type_pda := Some "dual";
          _objective := dual_objective_name self objective |}.
Proof.
  intros (HA & Hx & Hc & Hv) Hst Hy. unfold dual.
  rewrite default_objective_Ok by done. simpl.
  rewrite InteractiveLPProblem__init__Ok.
  - unfold dual_names, m in *. by destruct y.
  - apply rectangular_transpose, HA.
  - unfold dual_names, m in *. by destruct y.
  - by rewrite length_fmap.
  - by rewrite length_fmap.
Qed.

Lemma sample_general_well_shaped : well_shaped sample_general.
Proof. repeat split; repeat constructor. Qed.

Lemma sample_problem_well_shaped style : well_shaped (sample_problem style).
Proof. repeat split; repeat constructor. Qed.



(** C7: a style tag other than [None] and "vanderbei" makes the
    constructor of standard-form problems raise, with the style error
    whenever the shapes of its arguments are consistent, and makes
    [dual] with a defaulted objective name raise the style error; for
    the two recognized tags neither raises the style error. *)
Theorem style_tag_checked A b c x pt slack aux style pda objective
    (self : InteractiveLPProblem) (y : option names_arg) :
  (¬ recognized style →
     is_Ok (InteractiveLPProblemStandardForm__init__ A b c x pt slack aux style pda objective)
     = false
     ∧ (rectangular (length b) (length c) A →
        length (names_of x 1 (length c)) = length c →
        InteractiveLPProblemStandardForm__init__ A b c x pt slack aux style pda objective
        = Raise Style_must_be_None_or_vanderbei)
     ∧ (_style self = style →
        dual self y ObjNone = Raise Style_must_be_None_or_vanderbei)
     ∧ kind Style_must_be_None_or_vanderbei = StyleError)
  ∧ (recognized style →
     InteractiveLPProblemStandardForm__init__ A b c x pt slack aux style pda objective
     ≠ Raise Style_must_be_None_or_vanderbei
     ∧ (_style self = style →
        ∀ objective, dual self y objective ≠ Raise Style_must_be_None_or_vanderbei)).
Proof.
  split.
  - intros Hst.
    assert (style ≠ vanderbei ∧ style ≠ None) as [Hv Hn]
      by (split; intros ->; apply Hst; [by right | by left]).
    split; [| split; [| split; [| done]]].
    + unfold InteractiveLPProblemStandardForm__init__.
      destruct (InteractiveLPProblem__init__ _ _ _ _ _ _ _ _ _ _ _); [| done]. simpl.
      destruct (decide (style = vanderbei)); [done |].
      destruct (decide (style = None)); [done |]. reflexivity.
    + intros HA Hx. unfold InteractiveLPProblemStandardForm__init__.
      rewrite InteractiveLPProblem__init__Ok; [| done | done | by rewrite length_replicate ..].
      simpl. destruct (decide (style = vanderbei)); [done |].
      destruct (decide (style = None)); [done |]. reflexivity.
    + intros Hs. unfold dual, default_objective. rewrite Hs.
      destruct (decide (style = vanderbei)); [done |].
      destruct (decide (style = None)); [done |]. reflexivity.
  - intros Hst. split.
    + unfold InteractiveLPProblemStandardForm__init__.
      destruct (InteractiveLPProblem__init__ _ _ _ _ _ _ _ _ _ _ _) as [self0|e] eqn:E.
      * simpl. destruct Hst as [-> | ->]; simpl;
          destruct slack; simpl;
          (match goal with |- context [check ?b ?e] => destruct b end); simpl;
          try done; destruct objective; simpl; try done;
          by destruct (bool_decide (pda = Some "dual") || bool_decide (pda = Some "auxiliary")).
      * apply InteractiveLPProblem__init__raises in E as ->. done.
    + intros Hs objective' Hd. unfold dual in Hd.
      rewrite default_objective_Ok in Hd
        by (left; by rewrite Hs).
      simpl in Hd. by apply InteractiveLPProblem__init__raises in Hd.
Qed.

Lemma style_tag_checked_witness :
  InteractiveLPProblemStandardForm__init__
    (_A (sample_problem None)) (_b (sample_problem None)) (_c (sample_problem None))
    (Names ["x1"; "x2"]) {| pt_negative := false; pt_direction := Max |}
    None None (Some "chvatal") None ObjNone
  = Raise Style_must_be_None_or_vanderbei
  ∧ dual (sample_problem (Some "chvatal")) None ObjNone
    = Raise Style_must_be_None_or_vanderbei
  ∧ dual (sample_problem vanderbei) None ObjNone ≠ Raise Style_must_be_None_or_vanderbei.
Proof.
  split; [| split].
  - apply (style_tag_checked _ _ _ _ _ _ _ (Some "chvatal") _ _ (sample_problem None) None).
    + by intros [|].
    + repeat split; repeat constructor.
    + reflexivity.
  - apply (style_tag_checked [] [] [] (Names []) {| pt_negative := false; pt_direction := Max |}
             None None (Some "chvatal") None ObjNone (sample_problem (Some "chvatal")) None).
    + by intros [|].
    + reflexivity.
  - apply (style_tag_checked [] [] [] (Names []) {| pt_negative := false; pt_direction := Max |}
             None None vanderbei None ObjNone (sample_problem vanderbei) None).
    + by right.
    + reflexivity.
Defined.

(** ** Slices *)

Lemma slice_last_app {A} (l s : list A) :
  s ≠ [] → slice_last (length s) (l ++ s) = s.
Proof.
  intros Hs. unfold slice_last. destruct (length s) eqn:E.
  - by destruct s.
  - rewrite <- E, length_app.
    replace (length l + length s - length s)%nat with (length l) by lia.
    apply drop_app_length.
Qed.

Lemma slice_but_last_app {A} (l s : list A) :
  s ≠ [] → slice_but_last (length s) (l ++ s) = l.
Proof.
  intros Hs. unfold slice_but_last. destruct (length s) eqn:E.
  - by destruct s.
  - rewrite <- E, length_app.
    replace (length l + length s - length s)%nat with (length l) by lia.
    apply take_app_length.
Qed.

Lemma slice_mid_app {A} (a l s : list A) :
  s ≠ [] → slice_mid (length l) (length s) (a ++ l ++ s) = l.
Proof.
  intros Hs. unfold slice_mid. destruct (length s) eqn:E.
  - by destruct s.
  - rewrite <- E, !length_app.
    replace (length a + (length l + length s) - length s - length l)%nat
      with (length a) by lia.
    replace (length a + (length l + length s) - length s)%nat
      with (length (a ++ l)) by (rewrite length_app; lia).
    rewrite (assoc_L (++)), take_app_length. apply drop_app_length.
Qed.

Lemma nonempty_length {A} (l : list A) : (0 < length l)%nat → l ≠ [].
Proof. destruct l; simpl; [lia | done]. Qed.

(** ** The constructor builds well-formed problems *)

Lemma InteractiveLPProblem__init__shapes A b c x cts vts pt prefix style pda objective P :
  InteractiveLPProblem__init__ A b c x cts vts pt prefix style pda objective = Ok P →
  rectangular (length b) (length c) A
  ∧ length (names_of x 1 (length c)) = length c.
Proof.
  unfold InteractiveLPProblem__init__.
  destruct (rectangularb _ _ _) eqn:E1; simpl; [| done].
  destruct (bool_decide (length (names_of _ _ _) = _)) eqn:E2; simpl; [| done].
  intros _. split; [by apply rectangularb_spec | by apply bool_decide_eq_true in E2].
Qed.

Lemma StandardForm__init__well_formed A b c x pt slack aux style pda objective P :
  InteractiveLPProblemStandardForm__init__ A b c x pt slack aux style pda objective = Ok P →
  (0 < length b)%nat → (0 < length c)%nat →
  NoDup (_R P) →
  well_formed P.
Proof.
  intros Hinit Hb Hc Hnd.
  assert (recognized style) as Hst.
  { destruct (decide (style = None)) as [-> | Hn]; [by left |].
    destruct (decide (style = vanderbei)) as [-> | Hv]; [by right |].
    exfalso. revert Hinit. unfold InteractiveLPProblemStandardForm__init__.
    destruct (InteractiveLPProblem__init__ _ _ _ _ _ _ _ _ _ _ _); simpl; [| done].
    rewrite (decide_False (P := style = vanderbei)) by done.
    rewrite (decide_False (P := style = None)) by done. done. }
  assert (rectangular (length b) (length c) A
          ∧ length (names_of x 1 (length c)) = length c) as [HA Hx].
  { revert Hinit. unfold InteractiveLPProblemStandardForm__init__.
    destruct (InteractiveLPProblem__init__ _ _ _ _ _ _ _ _ _ _ _) as [self |] eqn:E;
      simpl; [| done].
    intros _. by apply InteractiveLPProblem__init__shapes in E. }
  assert (length (slack_names style slack (S (length c)) (length b)) = length b) as Hs.
  { revert Hinit. unfold InteractiveLPProblemStandardForm__init__.
    rewrite InteractiveLPProblem__init__Ok; [| done | done | by rewrite length_replicate ..].
    simpl. unfold slack_names, m, n. simpl.
    destruct Hst as [-> | ->]; simpl; destruct slack; simpl;
      (match goal with |- context [check (bool_decide ?Q) _] =>
         destruct (bool_decide Q) eqn:E; simpl; [| done] end);
      intros _; by apply bool_decide_eq_true in E. }
  rewrite StandardForm__init__Ok in Hinit by done. injection Hinit as <-.
  simpl in Hnd.
  set (xs := names_of x 1 (length c)) in *.
  set (sl := slack_names style slack (S (length c)) (length b)) in *.
  set (x0 := default ("x" +:+ "0") aux) in *.
  assert (sl ≠ []) as Hne by (apply nonempty_length; lia).
  unfold well_formed, m, n. simpl.
  split; [done |]. split; [done |]. split; [done |]. split; [done |]. split; [done |].
  exists x0, sl. unfold ring_names in *.
  destruct (bool_decide _) eqn:E.
  - apply bool_decide_eq_true in E. simpl in E.
    simpl. rewrite drop_0.
    pose proof (slice_mid_app [] xs sl Hne) as Hmid. simpl in Hmid.
    rewrite Hx, Hs in Hmid. rewrite Hmid.
    split; [done |]. split; [done |]. right. split; [done |].
    rewrite lookup_app_l in E by lia. done.
  - pose proof (slice_mid_app [x0] xs sl Hne) as Hmid. simpl in Hmid.
    rewrite Hx, Hs in Hmid. rewrite Hmid.
    split; [done |]. split; [done |]. by left.
Qed.

(** ** The auxiliary problem *)

Lemma well_formed_slack (P : InteractiveLPProblemStandardForm) x0 slack :
  (0 < m P)%nat → length slack = m P →
  _R P = x0 :: _x P ++ slack ∨ (_R P = _x P ++ slack ∧ _x P !! 0%nat = Some x0) →
  slack_variables P = slack.
Proof.
  intros Hm Hs HR. unfold slack_variables. rewrite <- Hs.
  assert (slack ≠ []) by (apply nonempty_length; lia).
  destruct HR as [-> | [-> _]].
  - by apply (slice_last_app (x0 :: _x P) slack).
  - by apply slice_last_app.
Qed.

Lemma well_formed_auxiliary_variable (P : InteractiveLPProblemStandardForm) x0 slack :
  _R P = x0 :: _x P ++ slack ∨ (_R P = _x P ++ slack ∧ _x P !! 0%nat = Some x0) →
  auxiliary_variable P = Ok x0.
Proof.
  unfold auxiliary_variable. intros [-> | [-> Hx]]; [done |].
  rewrite lookup_app_l by (by apply lookup_lt_Some in Hx). by rewrite Hx.
Qed.

Lemma ring_names_repeated x0 (x slack : list string) :
  ring_names x0 (x0 :: x) slack = x0 :: x ++ slack.
Proof. unfold ring_names. simpl. by rewrite bool_decide_eq_true_2. Qed.

Lemma auxiliary_problem_Ok (P : InteractiveLPProblemStandardForm)
    (objective : objective_name) x0 slack :
  well_formed P →
  length (_x P) = n P → length slack = m P →
  _R P = x0 :: _x P ++ slack →
  auxiliary_problem P objective
  = Ok {| base := {| _A := (λ r, (-1) :: r) <$> _A P;
                     _b := _b P;
                     _c := (-1) :: zeros (n P);
                     _x := x0 :: _x P;
                     _constraint_types := replicate (m P) CLe;
                     _variable_types := replicate (S (n P)) VGe;
                     _direction := Max;
                     _is_negative := false;
                     _prefix := "x";
                     _style := _style P;
                     _problem_type_pda :=
                       if decide (_style P = vanderbei) then Some "auxiliary" else None;
                     _objective :=
                       objective_symbol (_style P)
                         (if decide (_style P = vanderbei) then Some "auxiliary" else None)
                         (dual_objective_name P objective) |};
          _R := x0 :: _x P ++ slack |}.
Proof.
  intros (HA & Hm & Hn & Hst & Hnd & _) Hx Hs HR.
  assert (slack ≠ []) as Hne by (apply nonempty_length; lia).
  unfold auxiliary_problem, coordinate_ring_gens.
  rewrite default_objective_Ok by (by left). simpl.
  rewrite check_true; last first.
  { apply negb_true_iff, bool_decide_eq_false. rewrite HR. simpl.
    rewrite length_app. lia. }
  rewrite HR. simpl.
  pose proof (slice_but_last_app (x0 :: _x P) slack Hne) as Hbl.
  pose proof (slice_last_app (x0 :: _x P) slack Hne) as Hl.
  rewrite Hs in Hbl, Hl. simpl in Hbl, Hl. rewrite Hbl, Hl.
  assert (rectangular (length (_b P)) (length ((-1) :: zeros (n P)))
            ((λ r, (-1) :: r) <$> _A P)) as HA'.
  { destruct HA as [HA1 HA2]. split; [by rewrite length_fmap |].
    apply Forall_fmap. eapply Forall_impl; [apply HA2 |].
    intros r Hr. simpl. unfold zeros. by rewrite length_replicate, Hr. }
  assert (length ((-1) :: zeros (n P)) = S (n P)) as Hc
    by (simpl; unfold zeros; by rewrite length_replicate).
  assert (∀ st pda,
    recognized st →
    InteractiveLPProblemStandardForm__init__ ((λ r, (-1) :: r) <$> _A P) (_b P)
      ((-1) :: zeros (n P)) (Names (x0 :: _x P))
      {| pt_negative := false; pt_direction := Max |}
      (Some (Names slack)) (Some x0) st pda (dual_objective_name P objective)
    = Ok {| base := {| _A := (λ r, (-1) :: r) <$> _A P;
                       _b := _b P;
                       _c := (-1) :: zeros (n P);
                       _x := x0 :: _x P;
                       _constraint_types := replicate (m P) CLe;
                       _variable_types := replicate (S (n P)) VGe;
                       _direction := Max;
                       _is_negative := false;
                       _prefix := "x";
                       _style := st;
                       _problem_type_pda := pda;
                       _objective := objective_symbol st pda (dual_objective_name P objective) |};
            _R := x0 :: _x P ++ slack |}) as Hinit.
  { intros st pda Hrec.
    rewrite StandardForm__init__Ok; try done.
    - simpl. rewrite ring_names_repeated. unfold slack_names. simpl.
      assert (length (zeros (n P)) = n P) as ->
        by (unfold zeros; by rewrite length_replicate).
      fold (m P).
      pose proof (slice_mid_app [] (x0 :: _x P) slack Hne) as Hmid.
      simpl in Hmid. rewrite Hx, Hs in Hmid. by rewrite Hmid.
    - simpl. unfold zeros. by rewrite length_replicate, Hx. }
  destruct (decide (_style P = vanderbei)) as [Hv | Hv].
  - rewrite Hinit by done. done.
  - rewrite Hinit by (by left).
    destruct Hst as [-> | ?]; [done | done].
Qed.

Lemma sample_standard_form_well_formed style :
  recognized style → well_formed (sample_standard_form style).
Proof.
  intros Hst. split; [repeat split; repeat constructor |].
  do 3 (split; [simpl; done || (unfold m, n; simpl; lia) |]).
  split.
  - apply (NoDup_ListNoDup ["x0"; "x1"; "x2"; "x3"; "x4"]).
    repeat constructor; simpl; intros H; repeat destruct H as [H | H]; done.
  - exists "x0", ["x3"; "x4"]. repeat split; by left.
Qed.

(** C3: on a well-formed standard-form problem, [auxiliary_problem]
    raises the error of an already existing auxiliary variable exactly
    when the auxiliary variable is among the decision variables, which
    is when the coordinate ring has [m + n] generators; otherwise it
    returns a well-formed standard-form problem with the same rows and
    right-hand side, one more decision variable, the auxiliary one,
    put first, with coefficient -1 in every row and in the
    objective. *)
Theorem auxiliary_problem_spec (P : InteractiveLPProblemStandardForm)
    (objective : objective_name) (x0 : string) :
  well_formed P →
  auxiliary_variable P = Ok x0 →
  (auxiliary_problem P objective = Raise Auxiliary_variable_already_among_decision_ones
   ↔ x0 ∈ decision_variables P)
  ∧ (x0 ∈ decision_variables P ↔ length (coordinate_ring_gens P) = (m P + n P)%nat)
  ∧ kind Auxiliary_variable_already_among_decision_ones = AlreadyExistsError
  ∧ (x0 ∉ decision_variables P →
     ∃ P', auxiliary_problem P objective = Ok P'
       ∧ well_formed P'
       ∧ _A P' = (λ r, (-1) :: r) <$> _A P
       ∧ (∀ i, (i < m P)%nat → entry (_A P') i 0 = -1)
       ∧ (∀ i j, entry (_A P') i (S j) = entry (_A P) i j)
       ∧ _b P' = _b P
       ∧ _c P' = (-1) :: zeros (n P)
       ∧ decision_variables P' = x0 :: decision_variables P
       ∧ slack_variables P' = slack_variables P
       ∧ auxiliary_variable P' = Ok x0).
Proof.
  intros Hwf Hx0.
  pose proof Hwf as (HA & Hm & Hn & Hst & Hnd & x0' & slack & Hx & Hs & HR).
  pose proof (well_formed_auxiliary_variable P x0' slack HR) as Hx0'.
  rewrite Hx0 in Hx0'. injection Hx0' as <-.
  pose proof (well_formed_slack P x0 slack Hm Hs HR) as Hslack.
  unfold decision_variables, coordinate_ring_gens.
  destruct HR as [HR | [HR Hhead]].
  - (* the auxiliary variable is a generator of its own *)
    assert (x0 ∉ _x P) as Hnotin.
    { rewrite HR in Hnd. apply NoDup_cons in Hnd as [Hnd _].
      intros Hin. apply Hnd, elem_of_app. by left. }
    pose proof (auxiliary_problem_Ok P objective x0 slack Hwf Hx Hs HR) as Hok.
    split; [| split; [| split]].
    + rewrite Hok. split; [done | by intros ?].
    + split; [by intros ? |].
      rewrite HR. simpl. rewrite length_app. lia.
    + done.
    + intros _. eexists. split; [exact Hok |]. simpl.
      assert (rectangular (m P) (S (n P)) ((λ r, (-1) :: r) <$> _A P)) as HA'.
      { destruct HA as [HA1 HA2]. split; [by rewrite length_fmap |].
        apply Forall_fmap. eapply Forall_impl; [apply HA2 |].
        intros r Hr. simpl. by rewrite Hr. }
      split.
      { unfold well_formed, m, n. simpl. unfold zeros. rewrite length_replicate.
        split; [exact HA' |]. split; [exact Hm |]. split; [lia |].
        split; [exact Hst |]. split; [by rewrite <- HR |].
        exists x0, slack. split; [simpl; by rewrite Hx |]. split; [exact Hs |].
        right. done. }
      split; [done |].
      split.
      { intros i Hi. unfold entry. rewrite list_lookup_fmap.
        destruct HA as [HA1 _]. destruct (lookup_lt_is_Some_2 (_A P) i) as [r Hr]; [lia |].
        by rewrite Hr. }
      split.
      { intros i j. unfold entry. rewrite list_lookup_fmap.
        by destruct (_A P !! i). }
      do 3 (split; [done |]).
      split.
      { rewrite Hslack. unfold slack_variables, m. simpl. fold (m P).
        rewrite <- Hs. apply (slice_last_app (x0 :: _x P) slack).
        apply nonempty_length. lia. }
      done.
  - (* the auxiliary variable is the first decision variable *)
    assert (x0 ∈ _x P) as Hin by (by apply list_elem_of_lookup_2 in Hhead).
    assert (auxiliary_problem P objective
            = Raise Auxiliary_variable_already_among_decision_ones) as Hraise.
    { unfold auxiliary_problem, coordinate_ring_gens.
      rewrite default_objective_Ok by (by left). simpl.
      rewrite check_false; [done |].
      apply negb_false_iff, bool_decide_eq_true.
      rewrite HR, length_app. lia. }
    split; [| split; [| split]].
    + by rewrite Hraise.
    + split; [| done]. intros _. rewrite HR, length_app. lia.
    + done.
    + by intros ?.
Qed.

Lemma auxiliary_problem_spec_witness :
  ∃ P', auxiliary_problem (sample_standard_form None) ObjNone = Ok P'
    ∧ _A P' = (λ r, (-1) :: r) <$> _A (sample_standard_form None)
    ∧ decision_variables P' = ["x0"; "x1"; "x2"].
Proof.
  destruct (auxiliary_problem_spec (sample_standard_form None) ObjNone "x0")
    as (_ & _ & _ & H).
  - apply sample_standard_form_well_formed. by left.
  - reflexivity.
  - destruct H as (P' & HP' & _ & HA & _ & _ & _ & _ & Hd & _).
    + intros Hin. apply list_elem_of_In in Hin. simpl in Hin.
      repeat destruct Hin as [Hin | Hin]; done.
    + exists P'. by rewrite HA, Hd.
Defined.

(** ** Standardization *)

(** The receiver after [standard_form]: untouched, or with its prefix
    overwritten. *)
Lemma standard_form_receiver (self : InteractiveLPProblem) :
  (standard_form self).1 = self ∨ (standard_form self).1 = set_prefix "z" self.
Proof.
  unfold standard_form.
  repeat (match goal with
          | |- context [let '(_, _) := ?t in _] => destruct t
          | |- context [if ?b then _ else _] => destruct b
          | |- context [match ?d with Max => _ | Min => _ end] => destruct d
          end; simpl); auto.
Qed.

Lemma standard_form_receiver_default (self : InteractiveLPProblem) :
  _style self ≠ vanderbei → (standard_form self).1 = self.
Proof.
  intros Hs. unfold standard_form.
  repeat (match goal with
          | |- context [let '(_, _) := ?t in _] => destruct t
          | |- context [if decide (_style self = vanderbei) then _ else _] =>
              rewrite (decide_False (P := _style self = vanderbei)) by done
          | |- context [if ?b then _ else _] => destruct b
          | |- context [match ?d with Max => _ | Min => _ end] => destruct d
          end; simpl); auto.
Qed.

(** C2: the receiver of [standard_form] does not stay unchanged in
    every field: on the sample problem in the "vanderbei" style the
    call succeeds and leaves the receiver with prefix ["z"] instead of
    ["x"]. *)
Theorem standard_form_overwrites_prefix :
  let self := sample_problem vanderbei in
  is_Ok (standard_form self).2 = true
  ∧ _prefix self = "x"
  ∧ _prefix (standard_form self).1 = "z"
  ∧ (standard_form self).1 ≠ self.
Proof.
  simpl. split; [by vm_compute |]. split; [done |]. split; [by vm_compute |].
  intros H. apply (f_equal _prefix) in H. vm_compute in H. done.
Qed.

(** ** The style tag does not reach the numbers *)












(** C6: in the "vanderbei" style and without an objective name, the
    constructor of standard-form problems sets the objective to ["xi"]
    for dual and auxiliary instances and to ["zeta"] for the others;
    [dual] names the objective of the dual ["xi"], and so does
    [auxiliary_problem] for the auxiliary problem. *)
Theorem vanderbei_objective_symbol A b c x pt slack aux pda
    (self : InteractiveLPProblem) (y : option names_arg)
    (P : InteractiveLPProblemStandardForm) (x0 : string) :
  (rectangular (length b) (length c) A →
   length (names_of x 1 (length c)) = length c →
   length (slack_names vanderbei slack (S (length c)) (length b)) = length b →
   ∃ P', InteractiveLPProblemStandardForm__init__ A b c x pt slack aux vanderbei pda ObjNone
         = Ok P'
     ∧ _objective P' = ObjStr (if bool_decide (pda = Some "dual")
                                  || bool_decide (pda = Some "auxiliary")
                               then "xi" else "zeta"))
  ∧ (well_shaped self → _style self = vanderbei →
     length (dual_names self y) = m self →
     ∃ D, dual self y ObjNone = Ok D
       ∧ _objective D = ObjStr "xi" ∧ _problem_type_pda D = Some "dual")
  ∧ (well_formed P → _style P = vanderbei →
     auxiliary_variable P = Ok x0 → x0 ∉ decision_variables P →
     ∃ P', auxiliary_problem P ObjNone = Ok P'
       ∧ _objective P' = ObjStr "xi" ∧ _problem_type_pda P' = Some "auxiliary").
Proof.
  split; [| split].
  - intros HA Hx Hs. eexists. split.
    + apply StandardForm__init__Ok; try done. by right.
    + simpl. by destruct (bool_decide (pda = Some "dual")
                          || bool_decide (pda = Some "auxiliary")).
  - intros Hw Hst Hy. eexists. split.
    + apply dual_Ok; try done. left. by right.
    + simpl. unfold dual_objective_name. by rewrite Hst.
  - intros Hwf Hst Hx0 Hnotin.
    pose proof Hwf as (_ & Hm & _ & _ & Hnd & x0' & sl & Hx & Hs & HR).
    pose proof (well_formed_auxiliary_variable P x0' sl HR) as Hx0'.
    rewrite Hx0 in Hx0'. injection Hx0' as <-.
    destruct HR as [HR | [_ Hhead]].
    + eexists. split; [by apply (auxiliary_problem_Ok P ObjNone x0 sl) |].
      simpl. unfold dual_objective_name. rewrite Hst. done.
    + exfalso. apply Hnotin. by apply list_elem_of_lookup_2 in Hhead.
Qed.

Lemma vanderbei_objective_symbol_witness :
  (∃ P', InteractiveLPProblemStandardForm__init__
           (_A (sample_problem vanderbei)) (_b (sample_problem vanderbei))
           (_c (sample_problem vanderbei)) (Names ["x1"; "x2"])
           {| pt_negative := false; pt_direction := Max |}
           None None vanderbei None ObjNone = Ok P'
      ∧ _objective P' = ObjStr "zeta")
  ∧ (∃ D, dual (sample_problem vanderbei) None ObjNone = Ok D
       ∧ _objective D = ObjStr "xi" ∧ _problem_type_pda D = Some "dual")
  ∧ (∃ P', auxiliary_problem (sample_standard_form vanderbei) ObjNone = Ok P'
       ∧ _objective P' = ObjStr "xi" ∧ _problem_type_pda P' = Some "auxiliary").
Proof.
  destruct (vanderbei_objective_symbol
              (_A (sample_problem vanderbei)) (_b (sample_problem vanderbei))
              (_c (sample_problem vanderbei)) (Names ["x1"; "x2"])
              {| pt_negative := false; pt_direction := Max |}
              None None None (sample_problem vanderbei) None
              (sample_standard_form vanderbei) "x0") as (H1 & H2 & H3).
  split; [| split].
  - apply H1; [repeat split; repeat constructor | reflexivity | reflexivity].
  - apply H2; [apply sample_problem_well_shaped | reflexivity | reflexivity].
  - apply H3; [apply sample_standard_form_well_formed; by right | reflexivity
               | reflexivity |].
    intros Hin. apply list_elem_of_In in Hin. simpl in Hin.
    repeat destruct Hin as [Hin | Hin]; done.
Defined.

(** ** Revised dictionaries and auxiliary problems *)

(** C10: for a problem whose auxiliary variable is its first decision
    variable, the constructor of revised dictionaries always raises:
    the error of auxiliary problems whenever the style test lets the
    call through; so does [revised_dictionary], whatever basis is
    asked for. *)
Theorem revised_dictionary_refuses_auxiliary_problems
    (inverse : list (list Qc) → list (list Qc))
    (revised_style_accepted : option string → bool)
    (P : InteractiveLPProblemStandardForm) (x_B : list string)
    (style pda : option string) (objective : objective_name) (x0 : string) :
  auxiliary_variable P = Ok x0 →
  decision_variables P !! 0%nat = Some x0 →
  is_Ok (LPRevisedDictionary__init__ inverse revised_style_accepted P x_B style pda objective)
  = false
  ∧ (revised_style_accepted style = true →
     LPRevisedDictionary__init__ inverse revised_style_accepted P x_B style pda objective
     = Raise Revised_not_for_auxiliary_problems)
  ∧ is_Ok (revised_dictionary inverse revised_style_accepted P x_B) = false.
Proof.
  intros Hx0 Hd.
  assert (∀ x_B style pda objective,
    is_Ok (LPRevisedDictionary__init__ inverse revised_style_accepted P x_B style pda
             objective) = false) as Hinit.
  { intros. unfold LPRevisedDictionary__init__.
    destruct (revised_style_accepted _); simpl; [| done].
    rewrite Hx0, Hd. simpl. rewrite (bool_decide_eq_true_2 (x0 = x0)) by done.
    reflexivity. }
  split; [apply Hinit |]. split.
  - intros Hacc. unfold LPRevisedDictionary__init__.
    rewrite Hacc, Hx0, Hd. simpl. rewrite (bool_decide_eq_true_2 (x0 = x0)) by done.
    reflexivity.
  - unfold revised_dictionary.
    destruct (match x_B with [] => default_basis P | _ => Ok x_B end); simpl; [| done].
    apply Hinit.
Qed.

Lemma revised_dictionary_refuses_auxiliary_problems_witness :
  match auxiliary_problem (sample_standard_form None) ObjNone with
  | Ok P' => is_Ok (revised_dictionary (λ M, M) (λ _, true) P' ["x3"; "x4"]) = false
  | Raise _ => False
  end.
Proof.
  rewrite (auxiliary_problem_Ok (sample_standard_form None) ObjNone "x0" ["x3"; "x4"]);
    [| apply sample_standard_form_well_formed; by left | done ..].
  eapply (revised_dictionary_refuses_auxiliary_problems _ _ _ _ None None ObjNone "x0");
    reflexivity.
Defined.

(** ** The default basis of a revised dictionary *)

Lemma index_lookup {A} `{EqDecision A} (x : A) (l : list A) (i : nat) :
  index x l = Some i → l !! i = Some x ∧ ∀ j, (j < i)%nat → l !! j ≠ Some x.
Proof.
  revert i. induction l as [| a l IH]; intros i; simpl; [done |].
  destruct (decide (x = a)) as [-> | Hne].
  - intros [= <-]. split; [done | intros j Hj; lia].
  - destruct (index x l) as [k |]; simpl; [| done].
    intros [= <-]. destruct (IH k eq_refl) as [Hk Hfirst]. split; [done |].
    intros [| j] Hj; simpl; [by intros [= ->] |]. apply Hfirst. lia.
Qed.

Lemma index_first {A} `{EqDecision A} (x : A) (l : list A) (i : nat) :
  l !! i = Some x → (∀ j, (j < i)%nat → l !! j ≠ Some x) → index x l = Some i.
Proof.
  revert i. induction l as [| a l IH]; intros i; simpl; [done |].
  destruct (decide (x = a)) as [-> | Hne].
  - intros _ Hfirst. destruct i as [| i]; [done |].
    exfalso. by apply (Hfirst 0%nat); [lia |].
  - destruct i as [| i]; simpl; [by intros [= ->] |].
    intros Hi Hfirst. rewrite (IH i); [done | done |].
    intros j Hj. apply (Hfirst (S j)). lia.
Qed.

Lemma index_elem_of {A} `{EqDecision A} (x : A) (l : list A) :
  x ∈ l → is_Some (index x l).
Proof.
  induction l as [| a l IH]; simpl.
  - by intros ?%elem_of_nil.
  - intros Hin. destruct (decide (x = a)); [by eexists |].
    apply elem_of_cons in Hin as [? | Hin]; [done |].
    destruct (IH Hin) as [k ->]. by eexists.
Qed.

Lemma index_None {A} `{EqDecision A} (x : A) (l : list A) :
  x ∉ l → index x l = None.
Proof.
  intros Hnotin. destruct (index x l) as [i |] eqn:E; [| done].
  apply index_lookup in E as [E _]. by apply list_elem_of_lookup_2 in E.
Qed.

Lemma index_NoDup {A} `{EqDecision A} (x : A) (l : list A) (i : nat) :
  NoDup l → l !! i = Some x → index x l = Some i.
Proof.
  intros Hnd Hi. apply index_first; [done |].
  intros j Hj Hj'. assert (j = i) by (by eapply NoDup_lookup). lia.
Qed.

Lemma Qcmin2_le_l (x y : Qc) : (Qcmin2 x y ≤ x)%Qc.
Proof.
  unfold Qcmin2. destruct (Qcltb y x) eqn:E.
  - apply Qcltb_lt in E. by apply Qclt_le_weak.
  - apply Qcle_refl.
Qed.

Lemma Qcmin2_le_r (x y : Qc) : (Qcmin2 x y ≤ y)%Qc.
Proof.
  unfold Qcmin2. destruct (Qcltb y x) eqn:E.
  - apply Qcle_refl.
  - by apply Qcltb_ge in E.
Qed.

Lemma foldl_Qcmin2 (l : list Qc) (x : Qc) :
  let bm := foldl Qcmin2 x l in
  bm ∈ x :: l ∧ Forall (λ bj, (bm ≤ bj)%Qc) (x :: l).
Proof.
  revert x. induction l as [| a l IH]; intros x; simpl.
  - split; [by left | constructor; [apply Qcle_refl | constructor]].
  - destruct (IH (Qcmin2 x a)) as [Hin Hle]. simpl in *.
    apply Forall_cons in Hle as [Hle1 Hle2]. split.
    + apply elem_of_cons in Hin as [Hin | Hin].
      * rewrite Hin. unfold Qcmin2. destruct (Qcltb a x).
        -- right. by left.
        -- by left.
      * right. by right.
    + constructor; [| constructor; [| done]].
      * eapply Qcle_trans; [exact Hle1 | apply Qcmin2_le_l].
      * eapply Qcle_trans; [exact Hle1 | apply Qcmin2_le_r].
Qed.

Lemma py_min_spec (l : list Qc) :
  l ≠ [] → ∃ bm, py_min l = Ok bm ∧ bm ∈ l ∧ Forall (λ bj, (bm ≤ bj)%Qc) l.
Proof.
  destruct l as [| x l]; [done |]. intros _. eexists. split; [done |].
  apply foldl_Qcmin2.
Qed.

(** C8: without an explicit basis the basic variables of
    [revised_dictionary] are the slack variables when no entry of [b]
    is negative; otherwise the slack variable of the first row where
    [b] attains its minimum, which is negative, is replaced by the
    auxiliary variable; the dictionary is returned whenever the
    constructor accepts the style and the problem is not an auxiliary
    one. *)
Theorem default_basis_spec
    (inverse : list (list Qc) → list (list Qc))
    (revised_style_accepted : option string → bool)
    (P : InteractiveLPProblemStandardForm) (x0 : string) :
  _b P ≠ [] →
  length (slack_variables P) = m P →
  auxiliary_variable P = Ok x0 →
  (Forall (λ bi, (0 ≤ bi)%Qc) (_b P) → default_basis P = Ok (slack_variables P))
  ∧ (Exists (λ bi, (bi < 0)%Qc) (_b P) →
     ∃ i bm, _b P !! i = Some bm
       ∧ (bm < 0)%Qc
       ∧ Forall (λ bj, (bm ≤ bj)%Qc) (_b P)
       ∧ (∀ j, (j < i)%nat → _b P !! j ≠ Some bm)
       ∧ is_Some (slack_variables P !! i)
       ∧ default_basis P = Ok (<[i := x0]> (slack_variables P)))
  ∧ (∀ d, revised_dictionary inverse revised_style_accepted P [] = Ok d →
          default_basis P = Ok (_x_B d) ∧ _problem d = P)
  ∧ (revised_style_accepted (_style P) = true →
     (∃ x1, decision_variables P !! 0%nat = Some x1 ∧ x1 ≠ x0) →
     ∃ d, revised_dictionary inverse revised_style_accepted P [] = Ok d).
Proof.
  intros Hb Hslack Hx0.
  destruct (py_min_spec (_b P) Hb) as (bm & Hmin & Hin & Hle).
  assert (∀ x_B, default_basis P = Ok x_B → length x_B = m P) as Hlen.
  { unfold default_basis. rewrite Hmin, Hx0. simpl.
    destruct (Qcltb bm 0); simpl; [| by intros x_B [= <-]].
    destruct (index bm (_b P)); simpl; [| done].
    destruct (bool_decide _); simpl; [| done].
    intros x_B [= <-]. by rewrite length_insert. }
  split; [| split; [| split]].
  - intros Hall. unfold default_basis. rewrite Hmin. simpl.
    assert (Qcltb bm 0 = false) as ->; [| done].
    apply Qcltb_ge. rewrite Forall_forall in Hall. by apply Hall.
  - intros Hex. apply Exists_exists in Hex as (bi & Hbi & Hneg).
    assert (bm < 0)%Qc as Hbm.
    { rewrite Forall_forall in Hle. eapply Qcle_lt_trans; [by apply Hle | done]. }
    destruct (index_elem_of bm (_b P) Hin) as [i Hi].
    destruct (index_lookup _ _ _ Hi) as [Hlook Hfirst].
    assert (i < length (slack_variables P))%nat as Hlt.
    { rewrite Hslack. by apply lookup_lt_Some in Hlook. }
    exists i, bm. do 4 (split; [done |]).
    split; [by apply lookup_lt_is_Some_2 |].
    unfold default_basis. rewrite Hmin. simpl.
    apply Qcltb_lt in Hbm. rewrite Hbm, Hi, Hx0. simpl.
    by rewrite bool_decide_eq_true_2.
  - intros d. unfold revised_dictionary.
    destruct (default_basis P) as [x_B |]; simpl; [| done].
    unfold LPRevisedDictionary__init__.
    destruct (revised_style_accepted _); simpl; [| done].
    destruct (auxiliary_variable P); simpl; [| done].
    destruct (decision_variables P !! 0%nat); simpl; [| done].
    destruct (negb _); simpl; [| done].
    destruct (bool_decide _); simpl; [| done].
    by intros [= <-].
  - intros Hacc (x1 & Hx1 & Hne). unfold revised_dictionary.
    destruct (default_basis P) as [x_B |] eqn:E; simpl.
    + unfold LPRevisedDictionary__init__. rewrite Hacc, Hx0, Hx1. simpl.
      rewrite (bool_decide_eq_false_2 (x0 = x1)) by done. simpl.
      rewrite (bool_decide_eq_true_2 (length x_B = m P)) by (by apply Hlen).
      by eexists.
    + exfalso. revert E. unfold default_basis. rewrite Hmin, Hx0. simpl.
      destruct (Qcltb bm 0); simpl; [| done].
      destruct (index_elem_of bm (_b P) Hin) as [i Hi]. rewrite Hi. simpl.
      rewrite bool_decide_eq_true_2; [done |].
      rewrite Hslack. apply index_lookup in Hi as [Hi _].
      by apply lookup_lt_Some in Hi.
Qed.

Lemma default_basis_spec_witness :
  default_basis sample_infeasible = Ok ["x3"; "x0"; "x5"]
  ∧ default_basis (sample_standard_form None) = Ok ["x3"; "x4"].
Proof.
  split.
  - destruct (default_basis_spec (λ M, M) (λ _, true) sample_infeasible "x0")
      as (_ & H & _); [done | reflexivity | reflexivity |].
    destruct H as (i & bm & Hi & Hneg & Hle & _ & _ & ->).
    + apply Exists_cons_hd. by vm_compute.
    + (* the minimum is at row 1 *)
      destruct i as [| [| [| i]]]; simpl in Hi; try done;
        injection Hi as <-; rewrite Forall_forall in Hle.
      * exfalso. assert (Qc_of_Z (-6) ≤ Qc_of_Z (-8))%Qc as Habs
          by (apply Hle; right; by left).
        by vm_compute in Habs.
      * exfalso. by vm_compute in Hneg.
  - destruct (default_basis_spec (λ M, M) (λ _, true) (sample_standard_form None) "x0")
      as (H & _); [done | reflexivity | reflexivity |].
    apply H. repeat constructor; by vm_compute.
Defined.

(** ** Deriving a feasible dictionary from an auxiliary one *)

Lemma LPDictionary__init__alloc (d : LPDictionary) (σ : store) :
  LPDictionary__init__ d σ = ((length σ + 5)%nat, σ ++ new_objects (length σ) d).
Proof.
  unfold LPDictionary__init__, alloc, new_objects. simpl.
  rewrite !length_app. simpl. rewrite <- !(assoc_L (++)). simpl.
  rewrite <- !Nat.add_assoc. simpl. reflexivity.
Qed.

Lemma read_matrix_app (σ new : store) (r : nat) M :
  read_matrix σ r = Some M → read_matrix (σ ++ new) r = Some M.
Proof.
  unfold read_matrix. destruct (σ !! r) as [o |] eqn:E; [| done].
  by rewrite (lookup_app_l_Some _ _ _ _ E).
Qed.

Lemma read_vector_app (σ new : store) (r : nat) v :
  read_vector σ r = Some v → read_vector (σ ++ new) r = Some v.
Proof.
  unfold read_vector. destruct (σ !! r) as [o |] eqn:E; [| done].
  by rewrite (lookup_app_l_Some _ _ _ _ E).
Qed.

Lemma read_names_app (σ new : store) (r : nat) l :
  read_names σ r = Some l → read_names (σ ++ new) r = Some l.
Proof.
  unfold read_names. destruct (σ !! r) as [o |] eqn:E; [| done].
  by rewrite (lookup_app_l_Some _ _ _ _ E).
Qed.

(** Allocation does not change what an existing dictionary holds. *)
Lemma snapshot_app (σ new : store) (r : nat) (d : LPDictionary) :
  snapshot σ r = Some d → snapshot (σ ++ new) r = Some d.
Proof.
  unfold snapshot. destruct (σ !! r) as [o |] eqn:E; [| done].
  rewrite (lookup_app_l_Some _ _ _ _ E).
  destruct o as [| | | A b c v B N z style pda]; try done.
  destruct (read_matrix σ A) as [MA |] eqn:EA; simpl; [| done].
  destruct (read_vector σ b) as [vb |] eqn:Eb; simpl; [| done].
  destruct (read_vector σ c) as [vc |] eqn:Ec; simpl; [| done].
  destruct (read_names σ B) as [lB |] eqn:EB; simpl; [| done].
  destruct (read_names σ N) as [lN |] eqn:EN; simpl; [| done].
  rewrite (read_matrix_app _ new _ _ EA), (read_vector_app _ new _ _ Eb),
    (read_vector_app _ new _ _ Ec), (read_names_app _ new _ _ EB),
    (read_names_app _ new _ _ EN).
  done.
Qed.

Lemma lookup_new (σ new : store) (i : nat) :
  (σ ++ new) !! (length σ + i)%nat = new !! i.
Proof. rewrite lookup_app_r by lia. f_equal. lia. Qed.

Lemma lookup_new_0 (σ new : store) : (σ ++ new) !! length σ = new !! 0%nat.
Proof. rewrite <- (lookup_new σ new 0). f_equal. lia. Qed.

(** The new dictionary object holds what was given to its constructor. *)
Lemma snapshot_new (σ : store) (d : LPDictionary) :
  snapshot (σ ++ new_objects (length σ) d) (length σ + 5) = Some d.
Proof.
  unfold snapshot, read_matrix, read_vector, read_names.
  rewrite !lookup_new. cbn [new_objects lookup list_lookup].
  rewrite !lookup_new, lookup_new_0. simpl. by destruct d.
Qed.

Lemma elem_of_remove_at {A} (k : nat) (l : list A) (x y : A) :
  l !! k = Some y → x ∈ l → x ≠ y → x ∈ remove_at k l.
Proof.
  intros Hk Hin Hne. unfold remove_at.
  rewrite <- (take_drop_middle l k y Hk) in Hin.
  apply elem_of_app in Hin as [Hin | Hin]; apply elem_of_app; [by left |].
  apply elem_of_cons in Hin as [-> | Hin]; [done | by right].
Qed.

Lemma substitute_objective_Ok A b B N (cx : list (Qc * string)) c v :
  Forall (λ cxj, cxj.2 ∈ N
                 ∨ ∃ i, index cxj.2 B = Some i ∧ (i < length A)%nat) cx →
  is_Ok (substitute_objective A b B N cx c v) = true.
Proof.
  revert c v. induction cx as [| [cj xj] cx IH]; intros c v Hall; simpl; [done |].
  apply Forall_cons in Hall as [Hxj Hall]. simpl in Hxj.
  destruct (index xj N) as [k |] eqn:E; [by apply IH |].
  destruct Hxj as [Hin | (i & Hi & Hlt)].
  - apply index_elem_of in Hin as [k Hk]. congruence.
  - rewrite Hi. simpl.
    destruct (lookup_lt_is_Some_2 A i Hlt) as [Ai HAi]. rewrite HAi. simpl.
    by apply IH.
Qed.

Lemma feasible_dictionary_data_Ok (P : InteractiveLPProblemStandardForm)
    (d : LPDictionary) (x0 : string) :
  auxiliary_variable P = Ok x0 →
  x0 ∈ nonbasic_variables d →
  is_feasible d = true →
  covers P d x0 →
  ∃ d' k, feasible_dictionary_data P d = Ok d'
    ∧ index x0 (dict_N d) = Some k
    ∧ dict_N d' = remove_at k (dict_N d)
    ∧ dict_A d' = remove_at k <$> dict_A d
    ∧ dict_B d' = dict_B d
    ∧ dict_b d' = dict_b d
    ∧ dict_z d' = _objective P
    ∧ dict_problem_type_pda d' = Some "ordinary primal dictionary".
Proof.
  intros Hx0 Hin Hfeas Hcov. unfold feasible_dictionary_data.
  rewrite Hx0. simpl.
  rewrite (bool_decide_eq_true_2 (x0 ∈ dict_N d)) by done. simpl.
  rewrite Hfeas. simpl.
  destruct (index_elem_of x0 (dict_N d) Hin) as [k Hk]. rewrite Hk. simpl.
  pose proof (substitute_objective_Ok (remove_at k <$> dict_A d) (dict_b d) (dict_B d)
                (remove_at k (dict_N d)) (zip (_c P) (_x P))
                (zeros (length (dict_c d) - 1)) (dict_v d)) as Hsub.
  destruct (substitute_objective _ _ _ _ _ _ _) as [[c v] |] eqn:E.
  - simpl. eexists _, k. split; [done |]. by repeat split.
  - exfalso. enough (is_Ok (Raise e : result (list Qc * Qc)) = true) by done.
    apply Hsub. apply Forall_forall. intros [cj xj] Hcx. simpl.
    assert (xj ∈ _x P) as Hxj.
    { apply list_elem_of_lookup in Hcx as [i Hi].
      apply lookup_zip_with_Some in Hi as (? & ? & [= <- <-] & _ & Hi).
      by eapply list_elem_of_lookup_2. }
    unfold covers in Hcov. rewrite Forall_forall in Hcov.
    destruct (Hcov xj Hxj) as [Hne [HN | (i & Hi & Hlt)]].
    + left. apply index_lookup in Hk as [Hk _].
      by apply (elem_of_remove_at k (dict_N d) xj x0).
    + right. exists i. split; [done |]. by rewrite length_fmap.
Qed.

(** C4: [feasible_dictionary] raises, and leaves the store as it is,
    when the auxiliary variable is not nonbasic in the auxiliary
    dictionary or when that dictionary is not feasible; when the
    auxiliary variable is nonbasic, the dictionary feasible and every
    decision variable of the problem present in it, the call returns a
    reference to a new dictionary object made of new objects only:
    every object of the old store, the auxiliary dictionary included,
    is unchanged. *)
Theorem feasible_dictionary_spec (P : InteractiveLPProblemStandardForm)
    (auxiliary_dictionary : nat) (σ : store) (d : LPDictionary) (x0 : string) :
  auxiliary_variable P = Ok x0 →
  snapshot σ auxiliary_dictionary = Some d →
  (x0 ∉ nonbasic_variables d →
   feasible_dictionary P auxiliary_dictionary σ
   = (Raise Auxiliary_variable_must_be_nonbasic, σ))
  ∧ (x0 ∈ nonbasic_variables d → is_feasible d = false →
     feasible_dictionary P auxiliary_dictionary σ
     = (Raise Auxiliary_dictionary_must_be_feasible, σ))
  ∧ kind Auxiliary_variable_must_be_nonbasic = InvalidPartitionError
  ∧ kind Auxiliary_dictionary_must_be_feasible = InvalidPartitionError
  ∧ (x0 ∈ nonbasic_variables d → is_feasible d = true → covers P d x0 →
     ∃ r σ' d' k,
       feasible_dictionary P auxiliary_dictionary σ = (Ok r, σ')
       ∧ σ' = σ ++ new_objects (length σ) d'
       ∧ r = (length σ + 5)%nat
       ∧ σ !! r = None
       ∧ (∀ ℓ o, σ !! ℓ = Some o → σ' !! ℓ = Some o)
       ∧ snapshot σ' auxiliary_dictionary = Some d
       ∧ snapshot σ' r = Some d'
       ∧ index x0 (dict_N d) = Some k
       ∧ dict_N d' = remove_at k (dict_N d)
       ∧ dict_A d' = remove_at k <$> dict_A d
       ∧ dict_B d' = dict_B d
       ∧ dict_b d' = dict_b d).
Proof.
  intros Hx0 Hsnap. unfold feasible_dictionary. rewrite Hsnap.
  split; [| split; [| split; [| split]]]; try done.
  - intros Hnotin. unfold feasible_dictionary_data. rewrite Hx0. simpl.
    by rewrite (bool_decide_eq_false_2 (x0 ∈ dict_N d)).
  - intros Hin Hfeas. unfold feasible_dictionary_data. rewrite Hx0. simpl.
    rewrite (bool_decide_eq_true_2 (x0 ∈ dict_N d)) by done. simpl.
    by rewrite Hfeas.
  - intros Hin Hfeas Hcov.
    destruct (feasible_dictionary_data_Ok P d x0 Hx0 Hin Hfeas Hcov)
      as (d' & k & Hd' & Hk & HN & HA & HB & Hb & _).
    rewrite Hd', LPDictionary__init__alloc.
    exists (length σ + 5)%nat, (σ ++ new_objects (length σ) d'), d', k.
    do 3 (split; [done |]).
    split; [apply lookup_ge_None_2; lia |].
    split; [intros ℓ o Hℓ; by apply lookup_app_l_Some |].
    split; [by apply snapshot_app |].
    split; [apply snapshot_new |].
    done.
Qed.

Lemma feasible_dictionary_spec_witness :
  ∃ r σ' d',
    feasible_dictionary sample_one_variable 5 sample_store = (Ok r, σ')
    ∧ snapshot σ' 5 = snapshot sample_store 5
    ∧ snapshot σ' r = Some d'
    ∧ dict_N d' = ["x1"] ∧ dict_B d' = ["x2"].
Proof.
  assert (is_Some (snapshot sample_store 5)) as [d Hd] by (by eexists).
  pose proof Hd as Hd0. injection Hd0 as Hd0.
  destruct (feasible_dictionary_spec sample_one_variable 5 sample_store d "x0")
    as (_ & _ & _ & _ & H); [reflexivity | exact Hd |].
  destruct H as (r & σ' & d' & k & Hcall & _ & _ & _ & _ & Haux & Hnew & Hk & HN & _ & HB & _).
  - rewrite <- Hd0. simpl. by left.
  - rewrite <- Hd0. by vm_compute.
  - rewrite <- Hd0. unfold covers. simpl. constructor; [| constructor].
    split; [done |]. left. apply list_elem_of_In. simpl. auto.
  - exists r, σ', d'. rewrite Hcall, Haux, Hnew, Hd, HN, HB, <- Hd0.
    repeat split. rewrite <- Hd0 in Hk. simpl in Hk. by injection Hk as <-.
Defined.

(** ** Vectors *)

Lemma get_lookup (l : list Qc) (i : nat) (a : Qc) : l !! i = Some a → get l i = a.
Proof. unfold get. by intros ->. Qed.

Lemma get_ge (l : list Qc) (i : nat) : (length l ≤ i)%nat → get l i = 0.
Proof. intros H. unfold get. by rewrite lookup_ge_None_2. Qed.

Lemma get_cons_S (a : Qc) (l : list Qc) (i : nat) : get (a :: l) (S i) = get l i.
Proof. done. Qed.

Lemma list_eq_get (l1 l2 : list Qc) :
  length l1 = length l2 →
  (∀ i, (i < length l1)%nat → get l1 i = get l2 i) →
  l1 = l2.
Proof.
  intros Hlen Hget. apply list_eq. intros i.
  destruct (decide (i < length l1)%nat) as [Hi | Hi].
  - destruct (lookup_lt_is_Some_2 l1 i Hi) as [a Ha].
    destruct (lookup_lt_is_Some_2 l2 i ltac:(lia)) as [b Hb].
    specialize (Hget i Hi). rewrite (get_lookup _ _ _ Ha), (get_lookup _ _ _ Hb) in Hget.
    congruence.
  - rewrite !lookup_ge_None_2 by lia. done.
Qed.

Lemma get_scale (k : Qc) (u : list Qc) (i : nat) : get (scale k u) i = k * get u i.
Proof.
  unfold get, scale. rewrite list_lookup_fmap.
  destruct (u !! i); simpl; [done | ring].
Qed.

Lemma get_vdiv (u : list Qc) (k : Qc) (i : nat) : get (vdiv u k) i = get u i / k.
Proof.
  unfold get, vdiv. rewrite list_lookup_fmap.
  destruct (u !! i); simpl; [done |]. unfold Qcdiv. ring.
Qed.

Lemma get_vsub (u v : list Qc) (i : nat) :
  length u = length v → get (vsub u v) i = get u i - get v i.
Proof.
  intros Hlen. unfold get, vsub. rewrite lookup_zip_with.
  destruct (u !! i) as [a |] eqn:Ea; simpl.
  - destruct (lookup_lt_is_Some_2 v i) as [b Hb].
    { rewrite <- Hlen. by apply lookup_lt_Some in Ea. }
    by rewrite Hb.
  - rewrite (lookup_ge_None_2 v i); [simpl; ring |].
    rewrite <- Hlen. by apply lookup_ge_None.
Qed.

Lemma get_insert (u : list Qc) (e i : nat) (a : Qc) :
  (e < length u)%nat →
  get (<[e := a]> u) i = if decide (i = e) then a else get u i.
Proof.
  intros He. unfold get. destruct (decide (i = e)) as [-> | Hne].
  - by rewrite list_lookup_insert_eq.
  - by rewrite list_lookup_insert_ne.
Qed.

Lemma get_zeros (k i : nat) : get (zeros k) i = 0.
Proof.
  unfold get, zeros. destruct (decide (i < k)%nat).
  - by rewrite lookup_replicate_2.
  - by rewrite lookup_ge_None_2 by (rewrite length_replicate; lia).
Qed.

Lemma get_unit_vector (k i j : nat) :
  get (unit_vector k i) j = if decide (j = i ∧ (i < k)%nat) then 1 else 0.
Proof.
  unfold unit_vector. destruct (decide (i < k)%nat) as [Hi | Hi].
  - rewrite get_insert by (unfold zeros; by rewrite length_replicate).
    destruct (decide (j = i)) as [-> | Hne].
    + by rewrite decide_True.
    + rewrite decide_False by (by intros [? _]). apply get_zeros.
  - rewrite list_insert_ge by (unfold zeros; rewrite length_replicate; lia).
    rewrite decide_False by (by intros [_ ?]). apply get_zeros.
Qed.

Lemma get_unit_vector_eq (k i : nat) : (i < k)%nat → get (unit_vector k i) i = 1.
Proof. intros Hi. by rewrite get_unit_vector, decide_True. Qed.

Lemma get_unit_vector_ne (k i j : nat) : j ≠ i → get (unit_vector k i) j = 0.
Proof. intros Hne. rewrite get_unit_vector, decide_False; [done | by intros [? _]]. Qed.

Lemma length_scale (k : Qc) (u : list Qc) : length (scale k u) = length u.
Proof. unfold scale. by rewrite length_fmap. Qed.

Lemma length_vdiv (u : list Qc) (k : Qc) : length (vdiv u k) = length u.
Proof. unfold vdiv. by rewrite length_fmap. Qed.

Lemma length_vsub (u v : list Qc) : length u = length v → length (vsub u v) = length u.
Proof. intros H. unfold vsub. rewrite length_zip_with. lia. Qed.

Lemma length_unit_vector (k i : nat) : length (unit_vector k i) = k.
Proof. unfold unit_vector, zeros. by rewrite length_insert, length_replicate. Qed.

Lemma length_mat_vec (M : list (list Qc)) (v : list Qc) : length (mat_vec M v) = length M.
Proof. unfold mat_vec. by rewrite length_fmap. Qed.

(** *** The dot product *)

Lemma dot_nil_r (u : list Qc) : dot u [] = 0.
Proof. by destruct u. Qed.

Lemma dot_comm (u v : list Qc) : dot u v = dot v u.
Proof.
  revert v. induction u as [| a u IH]; intros [| b v]; simpl; try done.
  rewrite IH. ring.
Qed.

Lemma dot_scale_l (k : Qc) (u v : list Qc) : dot (scale k u) v = k * dot u v.
Proof.
  revert v. induction u as [| a u IH]; intros [| b v]; simpl; try ring.
  unfold scale in IH. rewrite IH. ring.
Qed.

Lemma dot_vdiv_l (u v : list Qc) (k : Qc) : dot (vdiv u k) v = dot u v / k.
Proof.
  revert v. induction u as [| a u IH]; intros [| b v]; simpl;
    try (unfold Qcdiv; ring).
  unfold vdiv in IH. rewrite IH. unfold Qcdiv. ring.
Qed.

Lemma dot_vsub_l (u w v : list Qc) :
  length u = length w → dot (vsub u w) v = dot u v - dot w v.
Proof.
  revert w v. induction u as [| a u IH]; intros [| c w] [| b v] Hlen; simpl in *;
    try done; try ring.
  unfold vsub in IH. rewrite IH by lia. ring.
Qed.

Lemma dot_scale_r (k : Qc) (u v : list Qc) : dot u (scale k v) = k * dot u v.
Proof. by rewrite dot_comm, dot_scale_l, dot_comm. Qed.

Lemma dot_vsub_r (u v w : list Qc) :
  length v = length w → dot u (vsub v w) = dot u v - dot u w.
Proof. intros H. by rewrite dot_comm, dot_vsub_l, !(dot_comm u). Qed.

Lemma dot_zeros_l (k : nat) (v : list Qc) : dot (zeros k) v = 0.
Proof.
  revert v. induction k as [| k IH]; intros [| b v]; simpl; try done.
  unfold zeros in IH. rewrite IH. ring.
Qed.

Lemma dot_insert_l (u v : list Qc) (l : nat) (a : Qc) :
  (l < length u)%nat →
  dot (<[l := a]> u) v = dot u v + (a - get u l) * get v l.
Proof.
  revert v l. induction u as [| x u IH]; intros [| b v] l Hl; simpl in *;
    try lia.
  - destruct l; simpl; rewrite ?dot_nil_r; unfold get; simpl; ring.
  - destruct l as [| l]; simpl.
    + unfold get. simpl. ring.
    + rewrite IH by lia. rewrite !get_cons_S. ring.
Qed.

Lemma dot_unit_vector_l (k i : nat) (v : list Qc) :
  (i < k)%nat → dot (unit_vector k i) v = get v i.
Proof.
  intros Hi. unfold unit_vector.
  rewrite dot_insert_l by (unfold zeros; by rewrite length_replicate).
  rewrite dot_zeros_l, get_zeros. ring.
Qed.

(** *** Matrices *)

Lemma get_mat_vec (M : list (list Qc)) (v : list Qc) (i : nat) :
  get (mat_vec M v) i = dot (default [] (M !! i)) v.
Proof.
  unfold get, mat_vec. rewrite list_lookup_fmap. by destruct (M !! i).
Qed.

Lemma tabulate_get (u : list Qc) : (λ j, get u j) <$> seq 0 (length u) = u.
Proof.
  apply list_eq_get; [by rewrite length_fmap, length_seq |].
  intros i Hi. rewrite length_fmap, length_seq in Hi.
  unfold get at 1. by rewrite list_lookup_fmap, lookup_seq_lt.
Qed.

Lemma get_tabulate (f : nat → Qc) (k i : nat) :
  (i < k)%nat → get (f <$> seq 0 k) i = f i.
Proof. intros Hi. unfold get. by rewrite list_lookup_fmap, lookup_seq_lt. Qed.

Lemma get_vadd (u v : list Qc) (i : nat) :
  length u = length v → get (vadd u v) i = get u i + get v i.
Proof.
  intros Hlen. unfold get, vadd. rewrite lookup_zip_with.
  destruct (u !! i) as [a |] eqn:Ea; simpl.
  - destruct (lookup_lt_is_Some_2 v i) as [b Hb].
    { rewrite <- Hlen. by apply lookup_lt_Some in Ea. }
    by rewrite Hb.
  - rewrite (lookup_ge_None_2 v i); [simpl; ring |].
    rewrite <- Hlen. by apply lookup_ge_None.
Qed.

Lemma dot_vadd_l (u w v : list Qc) :
  length u = length w → dot (vadd u w) v = dot u v + dot w v.
Proof.
  revert w v. induction u as [| a u IH]; intros [| c w] [| b v] Hlen; simpl in *;
    try done; try ring.
  unfold vadd in IH. rewrite IH by lia. ring.
Qed.

Lemma vec_mat_nil_l (k : nat) (M : list (list Qc)) : vec_mat k [] M = zeros k.
Proof.
  apply list_eq_get.
  - unfold vec_mat, zeros. by rewrite length_fmap, length_seq, length_replicate.
  - intros i Hi. unfold vec_mat in *. rewrite length_fmap, length_seq in Hi.
    by rewrite get_tabulate, get_zeros.
Qed.

Lemma vec_mat_nil_r (k : nat) (v : list Qc) : vec_mat k v [] = zeros k.
Proof.
  apply list_eq_get.
  - unfold vec_mat, zeros. by rewrite length_fmap, length_seq, length_replicate.
  - intros i Hi. unfold vec_mat in *. rewrite length_fmap, length_seq in Hi.
    rewrite get_tabulate, get_zeros by done. apply dot_nil_r.
Qed.

Lemma vec_mat_cons (k : nat) (a : Qc) (v r : list Qc) (M : list (list Qc)) :
  length r = k →
  vec_mat k (a :: v) (r :: M) = vadd (scale a r) (vec_mat k v M).
Proof.
  intros Hr.
  assert (length (vec_mat k v M) = k) as Hlen
    by (unfold vec_mat; by rewrite length_fmap, length_seq).
  apply list_eq_get.
  - unfold vec_mat at 1, vadd. rewrite length_fmap, length_seq, length_zip_with.
    rewrite length_scale. lia.
  - intros i Hi. unfold vec_mat at 1 in Hi. rewrite length_fmap, length_seq in Hi.
    rewrite get_vadd by (rewrite length_scale; lia).
    unfold vec_mat. rewrite !get_tabulate by done.
    rewrite get_scale. done.
Qed.

(** Row vector times matrix, then dot product: the two ways to
    bracket [v * M * u]. *)
Lemma dot_vec_mat (k : nat) (v : list Qc) (M : list (list Qc)) (u : list Qc) :
  Forall (λ r, length r = k) M →
  dot (vec_mat k v M) u = dot v (mat_vec M u).
Proof.
  revert M. induction v as [| a v IH]; intros M HM.
  - by rewrite vec_mat_nil_l, dot_zeros_l.
  - destruct M as [| r M].
    + by rewrite vec_mat_nil_r, dot_zeros_l.
    + apply Forall_cons in HM as [Hr HM].
      rewrite vec_mat_cons by done.
      rewrite dot_vadd_l; last first.
      { rewrite length_scale. unfold vec_mat. by rewrite length_fmap, length_seq. }
      rewrite dot_scale_l, (IH M HM). done.
Qed.

Lemma mat_vec_identity (k : nat) (u : list Qc) :
  length u = k → mat_vec (identity k) u = u.
Proof.
  intros Hu. apply list_eq_get.
  - by rewrite length_mat_vec, Hu; unfold identity; rewrite length_fmap, length_seq.
  - intros i Hi. rewrite length_mat_vec in Hi. unfold identity in *.
    rewrite length_fmap, length_seq in Hi.
    rewrite get_mat_vec, list_lookup_fmap, lookup_seq_lt by done. simpl.
    by apply dot_unit_vector_l.
Qed.

Lemma mat_vec_mat_mul (k : nat) (M N : list (list Qc)) (u : list Qc) :
  Forall (λ r, length r = k) N →
  mat_vec (mat_mul k M N) u = mat_vec M (mat_vec N u).
Proof.
  intros HN. unfold mat_mul, mat_vec at 1 2. rewrite <- list_fmap_compose.
  apply list_fmap_ext. intros _ r _. simpl. by apply dot_vec_mat.
Qed.

(** *** The Gauss-Jordan step *)

Lemma length_pivot_column (l : nat) (d t : list Qc) :
  length d = length t → length (pivot_column l d t) = length t.
Proof.
  intros H. unfold pivot_column.
  rewrite length_insert, length_vsub; [done | by rewrite length_scale].
Qed.

Lemma get_pivot_column (l i : nat) (d t : list Qc) :
  length d = length t → (l < length t)%nat →
  get (pivot_column l d t) i
  = if decide (i = l) then get t l / get d l
    else get t i - get t l / get d l * get d i.
Proof.
  intros Hlen Hl. unfold pivot_column.
  rewrite get_insert by (rewrite length_vsub; [done | by rewrite length_scale]).
  destruct (decide (i = l)); [done |].
  rewrite get_vsub by (by rewrite length_scale). by rewrite get_scale.
Qed.

Lemma pivot_column_unit_vector (k l i : nat) (d : list Qc) :
  length d = k → (l < k)%nat → i ≠ l →
  pivot_column l d (unit_vector k i) = unit_vector k i.
Proof.
  intros Hd Hl Hne. apply list_eq_get.
  - rewrite length_pivot_column; by rewrite length_unit_vector.
  - intros j _. rewrite get_pivot_column by (by rewrite length_unit_vector).
    rewrite !get_unit_vector.
    rewrite (decide_False (P := l = i ∧ _)) by (intros [? _]; done).
    destruct (decide (j = l)) as [-> | Hj].
    + rewrite decide_False by (intros [? _]; done). unfold Qcdiv. ring.
    + unfold Qcdiv. ring.
Qed.

Lemma pivot_column_self (l : nat) (d : list Qc) :
  (l < length d)%nat → get d l ≠ 0 →
  pivot_column l d d = unit_vector (length d) l.
Proof.
  intros Hl Hp. apply list_eq_get.
  - by rewrite length_pivot_column, length_unit_vector.
  - intros j _. rewrite get_pivot_column by done. rewrite get_unit_vector.
    destruct (decide (j = l)) as [-> | Hj].
    + rewrite decide_True by done. by field.
    + rewrite decide_False by (intros [? _]; done). by field.
Qed.

Lemma dot_pivot_column (l : nat) (a : Qc) (w d t : list Qc) :
  length d = length t → length w = length t → (l < length t)%nat →
  get d l ≠ 0 →
  dot (<[l := a]> w) (pivot_column l d t)
  = dot w t - get t l / get d l * (dot w d - a).
Proof.
  intros Hd Hw Hl Hp.
  rewrite dot_insert_l by lia.
  rewrite get_pivot_column, decide_True by done.
  unfold pivot_column. rewrite (dot_comm w), dot_insert_l; last first.
  { rewrite length_vsub; [done | by rewrite length_scale]. }
  rewrite (dot_comm _ w), dot_vsub_r by (by rewrite length_scale).
  rewrite dot_scale_r, get_vsub by (by rewrite length_scale).
  rewrite get_scale. by field.
Qed.

(** ** One pivot, column by column *)

(** The row operations of the revised pivot act on every product
    [B^-1 * u] as the Gauss-Jordan step on the column [d]. *)
Lemma mat_vec_pivot_rows (k l : nat) (Y : list (list Qc)) (row_l d u : list Qc) :
  Forall (λ r, length r = k) Y →
  Y !! l = Some row_l →
  length d = length Y →
  mat_vec (imap (λ i r, if decide (i = l) then vdiv row_l (get d l)
                        else vsub r (scale (get d i) (vdiv row_l (get d l)))) Y) u
  = pivot_column l d (mat_vec Y u).
Proof.
  intros HY Hl Hd.
  assert (l < length Y)%nat as Hlt by (by apply lookup_lt_Some in Hl).
  assert (length row_l = k) as Hrow.
  { rewrite Forall_forall in HY. apply HY. by eapply list_elem_of_lookup_2. }
  apply list_eq_get.
  - rewrite length_pivot_column; rewrite !length_mat_vec; [by rewrite length_imap | done].
  - intros i Hi. rewrite length_mat_vec, length_imap in Hi.
    destruct (lookup_lt_is_Some_2 Y i Hi) as [r Hr].
    assert (length r = k) as Hrk.
    { rewrite Forall_forall in HY. apply HY. by eapply list_elem_of_lookup_2. }
    rewrite get_pivot_column by (by rewrite length_mat_vec).
    rewrite !get_mat_vec, list_lookup_imap, Hr, Hl. simpl.
    destruct (decide (i = l)) as [-> | Hne].
    + by rewrite dot_vdiv_l.
    + rewrite dot_vsub_l by (by rewrite length_scale, length_vdiv, Hrk, Hrow).
      rewrite dot_scale_l, dot_vdiv_l. unfold Qcdiv. ring.
Qed.

Lemma get_pivot_row (e j : nat) (row_l : list Qc) :
  (e < length row_l)%nat →
  get (pivot_row e row_l) j
  = if decide (j = e) then 1 / get row_l e else get row_l j / get row_l e.
Proof.
  intros He. unfold pivot_row. rewrite get_insert by (by rewrite length_vdiv).
  destruct (decide (j = e)); [done | apply get_vdiv].
Qed.

Lemma length_pivot_row (e : nat) (row_l : list Qc) :
  length (pivot_row e row_l) = length row_l.
Proof. unfold pivot_row. by rewrite length_insert, length_vdiv. Qed.

Lemma get_eliminate (e j : nat) (new_row r : list Qc) :
  length new_row = length r → (e < length r)%nat →
  get (eliminate e new_row r) j
  = (if decide (j = e) then 0 else get r j) - get r e * get new_row j.
Proof.
  intros Hlen He. unfold eliminate.
  rewrite get_vsub by (by rewrite length_insert, length_scale).
  rewrite get_insert, get_scale by done. done.
Qed.

Lemma length_eliminate (e : nat) (new_row r : list Qc) :
  length new_row = length r → length (eliminate e new_row r) = length r.
Proof.
  intros H. unfold eliminate.
  rewrite length_vsub; rewrite length_insert; [done | by rewrite length_scale].
Qed.

Lemma entry_lookup (M : list (list Qc)) (i j : nat) (r : list Qc) :
  M !! i = Some r → entry M i j = get r j.
Proof. unfold entry. by intros ->. Qed.

(** The rows of the pivoted tableau, read by columns. *)
Lemma col_pivot (k k' l e j : nat) (A : list (list Qc)) (row_l : list Qc) :
  rectangular k k' A → A !! l = Some row_l → (e < k')%nat → (j < k')%nat →
  col j (imap (λ i r, if decide (i = l) then pivot_row e row_l
                      else eliminate e (pivot_row e row_l) r) A)
  = pivot_column l (col e A)
      (if decide (j = e) then unit_vector k l else col j A).
Proof.
  intros [HA1 HA2] Hl He Hj.
  assert (l < k)%nat as Hlt by (rewrite <- HA1; by apply lookup_lt_Some in Hl).
  assert (∀ i r, A !! i = Some r → length r = k') as Hrows.
  { intros i r Hr. rewrite Forall_forall in HA2. apply HA2.
    by eapply list_elem_of_lookup_2. }
  assert (length (if decide (j = e) then unit_vector k l else col j A) = k) as Ht.
  { destruct (decide (j = e)); [apply length_unit_vector | by rewrite length_col]. }
  apply list_eq_get.
  - rewrite length_col, length_imap, length_pivot_column; rewrite ?length_col; lia.
  - intros i Hi. rewrite length_col, length_imap in Hi.
    destruct (lookup_lt_is_Some_2 A i Hi) as [r Hr].
    rewrite get_col.
    rewrite (entry_lookup _ i j (if decide (i = l) then pivot_row e row_l
                                 else eliminate e (pivot_row e row_l) r))
      by (by rewrite list_lookup_imap, Hr).
    rewrite get_pivot_column by (rewrite ?length_col; lia).
    rewrite !get_col, (entry_lookup A l e row_l Hl), (entry_lookup A i e r Hr).
    pose proof (Hrows l row_l Hl) as Hrl. pose proof (Hrows i r Hr) as Hri.
    destruct (decide (i = l)) as [-> | Hne].
    + rewrite get_pivot_row by lia.
      destruct (decide (j = e)) as [-> | Hje].
      * by rewrite get_unit_vector_eq.
      * by rewrite get_col, (entry_lookup A l j row_l Hl).
    + rewrite get_eliminate by (rewrite ?length_pivot_row; lia).
      rewrite get_pivot_row by lia.
      destruct (decide (j = e)) as [-> | Hje].
      * rewrite get_unit_vector_eq, get_unit_vector_ne by done. unfold Qcdiv. ring.
      * rewrite !get_col, (entry_lookup A l j row_l Hl), (entry_lookup A i j r Hr).
        unfold Qcdiv. ring.
Qed.

Lemma constant_terms_pivot (l e : nat) (A : list (list Qc)) (b row_l : list Qc) :
  length A = length b → A !! l = Some row_l →
  imap (λ i bi, if decide (i = l) then get b l / get row_l e
                else bi - entry A i e * (get b l / get row_l e)) b
  = pivot_column l (col e A) b.
Proof.
  intros Hlen Hl.
  assert (l < length b)%nat as Hlt by (rewrite <- Hlen; by apply lookup_lt_Some in Hl).
  apply list_eq_get.
  - by rewrite length_imap, length_pivot_column by (by rewrite length_col).
  - intros i Hi. rewrite length_imap in Hi.
    destruct (lookup_lt_is_Some_2 b i Hi) as [bi Hbi].
    rewrite get_pivot_column by (rewrite ?length_col; lia).
    rewrite !get_col, (entry_lookup A l e row_l Hl).
    unfold get at 1. rewrite list_lookup_imap, Hbi. simpl.
    rewrite (get_lookup b i bi Hbi).
    destruct (decide (i = l)); [done | ring].
Qed.

(** ** The columns of a well-formed problem *)

Lemma well_formed_variables (P : InteractiveLPProblemStandardForm) :
  well_formed P →
  ∃ slack, slack_variables P = slack
    ∧ length slack = m P
    ∧ length (decision_variables P) = n P
    ∧ NoDup (variables P)
    ∧ slice_last (m P) (_R P) = slack
    ∧ slice_mid (n P) (m P) (_R P) = decision_variables P.
Proof.
  intros (HA & Hm & Hn & Hst & Hnd & x0 & slack & Hx & Hs & HR).
  pose proof (well_formed_slack P x0 slack Hm Hs HR) as Hslack.
  assert (slack ≠ []) as Hne by (apply nonempty_length; lia).
  exists slack. split; [done |]. split; [done |]. split; [done |].
  unfold variables, decision_variables. rewrite Hslack.
  split; [| split; [done |]].
  - destruct HR as [HR | [HR _]]; rewrite HR in Hnd; [| done].
    by apply NoDup_cons in Hnd as [_ Hnd].
  - rewrite <- Hx, <- Hs.
    destruct HR as [-> | [-> _]].
    + apply (slice_mid_app [x0] (_x P) slack Hne).
    + apply (slice_mid_app [] (_x P) slack Hne).
Qed.

Lemma length_column (P : InteractiveLPProblemStandardForm) (x : string) :
  length (_A P) = m P → length (column P x) = m P.
Proof.
  intros HA. unfold column.
  destruct (index x (decision_variables P)); [by rewrite length_col |].
  destruct (index x (slack_variables P)); [apply length_unit_vector |].
  unfold zeros. by rewrite length_replicate.
Qed.

Lemma column_decision (P : InteractiveLPProblemStandardForm) (j : nat) (x : string) :
  NoDup (variables P) → decision_variables P !! j = Some x →
  column P x = col j (_A P) ∧ c_full P x = get (_c P) j.
Proof.
  intros Hnd Hj. apply NoDup_app in Hnd as (Hnd & _ & _).
  unfold column, c_full. by rewrite (index_NoDup x _ j Hnd Hj).
Qed.

Lemma column_slack (P : InteractiveLPProblemStandardForm) (i : nat) (x : string) :
  NoDup (variables P) → slack_variables P !! i = Some x →
  column P x = unit_vector (m P) i ∧ c_full P x = 0.
Proof.
  intros Hnd Hi. apply NoDup_app in Hnd as (_ & Hdisj & Hnd).
  assert (x ∉ decision_variables P) as Hnotin.
  { intros Hin. apply (Hdisj x Hin). by eapply list_elem_of_lookup_2. }
  unfold column, c_full. rewrite (index_None x _ Hnotin).
  by rewrite (index_NoDup x _ i Hnd Hi).
Qed.

Lemma dot_all_zero (u v : list Qc) : Forall (λ a, a = 0) u → dot u v = 0.
Proof.
  revert v. induction u as [| a u IH]; intros [| b v] Hu; simpl; try done.
  apply Forall_cons in Hu as [-> Hu]. rewrite (IH v Hu). ring.
Qed.

(** The initial dictionary and the identity. *)
Lemma tableau_invariant_initial (P : InteractiveLPProblemStandardForm) :
  well_formed P → tableau_invariant P (initial_dictionary P) (identity (m P)).
Proof.
  intros Hwf. pose proof Hwf as (HA & Hm & Hn & _).
  destruct (well_formed_variables P Hwf) as (slack & Hslack & Hs & Hx & Hnd & HB & HN).
  assert (length (_A P) = m P) as HAlen by apply HA.
  assert (∀ x, mat_vec (identity (m P)) (column P x) = column P x) as Hid.
  { intros x. apply mat_vec_identity. by apply length_column. }
  assert (Forall (λ a, a = 0) (c_full P <$> slack)) as Hzero.
  { apply Forall_fmap, Forall_forall. intros x Hin. simpl.
    apply list_elem_of_lookup in Hin as [i Hi]. rewrite <- Hslack in Hi.
    by apply (column_slack P i x Hnd). }
  unfold tableau_invariant, initial_dictionary. simpl. rewrite HB, HN.
  split; [done |]. split; [done |].
  split; [unfold variables; rewrite Hslack; apply Permutation_app_comm |].
  split; [done |]. split; [done |].
  split.
  { split; [unfold identity; by rewrite length_fmap, length_seq |].
    unfold identity. apply Forall_fmap, Forall_forall. intros i _. simpl.
    apply length_unit_vector. }
  split.
  { intros i x Hi. rewrite Hid. rewrite <- Hslack in Hi.
    by apply (column_slack P i x Hnd). }
  split.
  { intros j x Hj. rewrite Hid. symmetry. by apply (column_decision P j x Hnd). }
  split; [symmetry; by apply mat_vec_identity |].
  split.
  { intros j x Hj. rewrite (dot_all_zero _ _ Hzero).
    destruct (column_decision P j x Hnd Hj) as [_ ->]. ring. }
  split; [by rewrite (dot_all_zero _ _ Hzero) |].
  intros u Hu. rewrite mat_vec_identity by done.
  replace (basis_matrix P slack) with (identity (m P)); [by apply mat_vec_identity |].
  unfold basis_matrix, identity. apply list_fmap_ext. intros _ r _.
  apply list_eq_get; [by rewrite length_unit_vector, length_fmap |].
  intros i Hi. rewrite length_unit_vector in Hi.
  destruct (lookup_lt_is_Some_2 slack i) as [x Hx']; [lia |].
  unfold get at 2. rewrite list_lookup_fmap, Hx'. simpl.
  rewrite <- Hslack in Hx'. destruct (column_slack P i x Hnd Hx') as [-> _].
  rewrite !get_unit_vector.
  destruct (decide (i = r)) as [-> | Hne].
  - by rewrite !decide_True.
  - by rewrite !decide_False by (intros [? _]; done).
Qed.

(** ** One pivot preserves the invariant *)

Lemma pivot_Ok (D D' : LPDictionary) (entering leaving : string) :
  pivot D entering leaving = Ok D' →
  ∃ l e row_l,
    index leaving (dict_B D) = Some l
    ∧ index entering (dict_N D) = Some e
    ∧ dict_A D !! l = Some row_l
    ∧ get row_l e ≠ 0
    ∧ D' = {| dict_A := imap (λ i r, if decide (i = l) then pivot_row e row_l
                                     else eliminate e (pivot_row e row_l) r) (dict_A D);
              dict_b := imap (λ i bi, if decide (i = l) then get (dict_b D) l / get row_l e
                                      else bi - entry (dict_A D) i e
                                                * (get (dict_b D) l / get row_l e))
                             (dict_b D);
              dict_c := eliminate e (pivot_row e row_l) (dict_c D);
              dict_v := dict_v D + get (dict_c D) e * (get (dict_b D) l / get row_l e);
              dict_B := <[l := entering]> (dict_B D);
              dict_N := <[e := leaving]> (dict_N D);
              dict_z := dict_z D;
              dict_style := dict_style D;
              dict_problem_type_pda := dict_problem_type_pda D |}.
Proof.
  unfold pivot.
  destruct (index leaving (dict_B D)) as [l |] eqn:El; simpl; [| done].
  destruct (index entering (dict_N D)) as [e |] eqn:Ee; simpl; [| done].
  destruct (dict_A D !! l) as [row_l |] eqn:Erow; simpl; [| done].
  destruct (Qceqb (get row_l e) 0) eqn:E; simpl; [done |].
  intros [= <-]. exists l, e, row_l. split_and!; try done.
  unfold Qceqb in E. by apply bool_decide_eq_false in E.
Qed.

Lemma swap_Permutation {A} (B N : list A) (l e : nat) (leaving entering : A) :
  B !! l = Some leaving → N !! e = Some entering →
  <[l := entering]> B ++ <[e := leaving]> N ≡ₚ B ++ N.
Proof.
  intros Hl He.
  rewrite (insert_take_drop B l entering) by (by apply lookup_lt_Some in Hl).
  rewrite (insert_take_drop N e leaving) by (by apply lookup_lt_Some in He).
  rewrite <- (take_drop_middle B l leaving Hl) at 3.
  rewrite <- (take_drop_middle N e entering He) at 3.
  generalize (take l B) (drop (S l) B) (take e N) (drop (S e) N).
  intros B1 B2 N1 N2. solve_Permutation.
Qed.

Lemma rectangular_lookup (k k' : nat) (M : list (list Qc)) (i : nat) (r : list Qc) :
  rectangular k k' M → M !! i = Some r → length r = k'.
Proof.
  intros [_ HM] Hr. rewrite Forall_forall in HM. apply HM.
  by eapply list_elem_of_lookup_2.
Qed.

Lemma rectangular_imap (k k' : nat) (f : nat → list Qc → list Qc) (M : list (list Qc)) :
  rectangular k k' M →
  (∀ i r, M !! i = Some r → length (f i r) = k') →
  rectangular k k' (imap f M).
Proof.
  intros [HM1 HM2] Hf. split; [by rewrite length_imap |].
  apply Forall_lookup. intros i r Hr.
  rewrite list_lookup_imap in Hr.
  destruct (M !! i) as [r0 |] eqn:E; simpl in Hr; [| done].
  injection Hr as <-. by apply Hf.
Qed.

Lemma elem_of_x_N (R : LPRevisedDictionary) (x : string) :
  x ∈ x_N R ↔ x ∈ variables (_problem R) ∧ x ∉ _x_B R.
Proof. unfold x_N, variables. rewrite list_elem_of_filter. tauto. Qed.

Lemma nonbasic_not_basic (P : InteractiveLPProblemStandardForm) (D : LPDictionary)
    (x : string) :
  NoDup (variables P) → dict_B D ++ dict_N D ≡ₚ variables P →
  x ∈ dict_N D ↔ x ∈ variables P ∧ x ∉ dict_B D.
Proof.
  intros Hnd Hperm. rewrite <- Hperm in Hnd.
  apply NoDup_app in Hnd as (_ & Hdisj & _).
  split.
  - intros Hin. split.
    + rewrite <- Hperm. apply elem_of_app. by right.
    + intros HB. by apply (Hdisj x HB).
  - intros [Hin HB]. rewrite <- Hperm in Hin.
    apply elem_of_app in Hin as [? | ?]; [done | done].
Qed.

Lemma tableau_invariant_pivot (P : InteractiveLPProblemStandardForm)
    (D D' : LPDictionary) (R : LPRevisedDictionary) (entering leaving : string) :
  NoDup (variables P) →
  length (_A P) = m P →
  _problem R = P →
  _x_B R = dict_B D →
  tableau_invariant P D (_B_inverse R) →
  pivot D entering leaving = Ok D' →
  ∃ R', revised_pivot R entering leaving = Ok R'
    ∧ _problem R' = P
    ∧ _x_B R' = dict_B D'
    ∧ tableau_invariant P D' (_B_inverse R').
Proof.
  intros Hnd HAP HP HxB Hinv Hpivot.
  destruct Hinv as (HlenB & HlenN & Hperm & HA & Hlenc & HY & Hbasic & Hcols & Hb & Hc & Hv
                    & Hright).
  destruct (pivot_Ok _ _ _ _ Hpivot) as (l & e & row_l & Hl & He & Hrow & Hp & ->).
  clear Hpivot. simpl.
  set (Y := _B_inverse R) in *.
  destruct (index_lookup _ _ _ Hl) as [HBl _].
  destruct (index_lookup _ _ _ He) as [HNe _].
  assert (l < m P)%nat as Hlm by (rewrite <- HlenB; by apply lookup_lt_Some in HBl).
  assert (e < n P)%nat as Hen by (rewrite <- HlenN; by apply lookup_lt_Some in HNe).
  assert (length Y = m P) as HYlen by apply HY.
  destruct (lookup_lt_is_Some_2 Y l) as [rowY HrowY]; [lia |].
  set (d := col e (dict_A D)).
  assert (d = mat_vec Y (column P entering)) as Hd by (by apply Hcols).
  assert (length d = m P) as Hdlen by (unfold d; rewrite length_col; apply HA).
  assert (get d l = get row_l e) as Hdl
    by (unfold d; by rewrite get_col, (entry_lookup _ _ _ _ Hrow)).
  assert (get d l ≠ 0) as Hdl0 by (by rewrite Hdl).
  set (Y' := imap (λ i r, if decide (i = l) then vdiv rowY (get d l)
                          else vsub r (scale (get d i) (vdiv rowY (get d l)))) Y).
  assert (∀ u, mat_vec Y' u = pivot_column l d (mat_vec Y u)) as HY'.
  { intros u. apply (mat_vec_pivot_rows (m P)); [apply HY | done | lia]. }
  assert (length rowY = m P) as HrowYlen by (by apply (rectangular_lookup _ _ _ _ _ HY HrowY)).
  assert (length row_l = n P) as Hrowlen by (by apply (rectangular_lookup _ _ _ _ _ HA Hrow)).
  (* the revised pivot goes through, with [Y'] as its new cache *)
  exists {| _problem := P; _x_B := <[l := entering]> (dict_B D); _B_inverse := Y';
            rev_style := rev_style R; rev_problem_type_pda := rev_problem_type_pda R;
            rev_objective := rev_objective R |}.
  split.
  { unfold revised_pivot. rewrite HxB, Hl. simpl.
    assert (entering ∈ x_N R) as Hin.
    { apply elem_of_x_N. rewrite HP, HxB.
      apply (nonbasic_not_basic P D entering Hnd Hperm).
      by eapply list_elem_of_lookup_2. }
    destruct (index_elem_of _ _ Hin) as [k ->]. simpl.
    unfold B_inverse. fold Y. rewrite HrowY. simpl. rewrite HP, <- Hd.
    unfold Qceqb. rewrite (bool_decide_eq_false_2 (get d l = 0)) by done. simpl.
    done. }
  split; [done |]. split; [done |]. simpl.
  assert (length (c_full P <$> dict_B D) = m P) as HcBlen by (by rewrite length_fmap).
  assert (∀ j, (j < n P)%nat →
            col j (imap (λ i r, if decide (i = l) then pivot_row e row_l
                                else eliminate e (pivot_row e row_l) r) (dict_A D))
            = pivot_column l d (if decide (j = e) then unit_vector (m P) l
                                else col j (dict_A D))) as HcolA'.
  { intros j Hj. by apply (col_pivot (m P) (n P)). }
  assert (∀ j x, <[e := leaving]> (dict_N D) !! j = Some x →
            (j < n P)%nat
            ∧ (if decide (j = e) then unit_vector (m P) l else col j (dict_A D))
              = mat_vec Y (column P x)) as Hnew.
  { intros j x Hj.
    assert (j < n P)%nat as Hjn
      by (apply lookup_lt_Some in Hj; by rewrite length_insert, HlenN in Hj).
    split; [done |].
    destruct (decide (j = e)) as [-> | Hje].
    - rewrite list_lookup_insert_eq in Hj by lia. injection Hj as <-.
      symmetry. by apply Hbasic.
    - rewrite list_lookup_insert_ne in Hj by done. by apply Hcols. }
  unfold tableau_invariant. simpl.
  split; [by rewrite length_insert |]. split; [by rewrite length_insert |].
  split; [by rewrite swap_Permutation |].
  split.
  { apply rectangular_imap; [done |]. intros i r Hr.
    pose proof (rectangular_lookup _ _ _ _ _ HA Hr) as Hri.
    destruct (decide (i = l)); [by rewrite length_pivot_row |].
    by rewrite length_eliminate; rewrite ?length_pivot_row; lia. }
  split; [rewrite length_eliminate; rewrite ?length_pivot_row; lia |].
  split.
  { apply rectangular_imap; [done |]. intros i r Hr.
    pose proof (rectangular_lookup _ _ _ _ _ HY Hr) as Hri.
    destruct (decide (i = l)); [by rewrite length_vdiv |].
    rewrite length_vsub; [done | by rewrite length_scale, length_vdiv; lia]. }
  split.
  { intros i x Hi. rewrite HY'.
    destruct (decide (i = l)) as [-> | Hil].
    - rewrite list_lookup_insert_eq in Hi by lia. injection Hi as <-.
      rewrite <- Hd, <- Hdlen. by apply pivot_column_self; [lia |].
    - rewrite list_lookup_insert_ne in Hi by done.
      rewrite (Hbasic i x Hi). by apply pivot_column_unit_vector. }
  split.
  { intros j x Hj. destruct (Hnew j x Hj) as [Hjn Ht].
    by rewrite HcolA', HY', Ht. }
  split.
  { rewrite HY', <- Hb. apply (constant_terms_pivot l e (dict_A D) (dict_b D) row_l); [| done].
    destruct HA as [-> _]. by rewrite Hb, length_mat_vec. }
  assert (get (dict_c D) e
          = c_full P entering - dot (c_full P <$> dict_B D) d) as Hce
    by (by apply Hc).
  assert (length (dict_b D) = m P) as Hblen by (by rewrite Hb, length_mat_vec).
  split.
  { intros j x Hj. destruct (Hnew j x Hj) as [Hjn Ht].
    rewrite HcolA' by done. rewrite list_fmap_insert.
    assert (length (if decide (j = e) then unit_vector (m P) l
                    else col j (dict_A D)) = m P) as Htlen.
    { destruct (decide (j = e)); [by rewrite length_unit_vector |].
      rewrite length_col. by destruct HA as [-> _]. }
    rewrite dot_pivot_column by (rewrite ?Htlen, ?HcBlen; done || lia).
    rewrite get_eliminate by (rewrite ?length_pivot_row; lia).
    rewrite get_pivot_row by lia. rewrite Hdl.
    destruct (decide (j = e)) as [-> | Hje].
    - rewrite list_lookup_insert_eq in Hj by lia. injection Hj as <-.
      rewrite get_unit_vector_eq by done.
      rewrite (dot_comm _ (unit_vector _ _)), dot_unit_vector_l by done.
      unfold get at 3. rewrite list_lookup_fmap, HBl. simpl.
      rewrite Hce. by field.
    - rewrite list_lookup_insert_ne in Hj by done.
      rewrite (Hc j x Hj), get_col, (entry_lookup _ _ _ _ Hrow).
      rewrite Hce. by field. }
  split.
  { rewrite list_fmap_insert.
    rewrite (constant_terms_pivot l e (dict_A D) (dict_b D) row_l);
      [| rewrite Hblen; by destruct HA as [-> _] | done].
    fold d. rewrite dot_pivot_column by (rewrite ?Hblen, ?HcBlen; done || lia).
    rewrite Hv, Hce, Hdl. by field. }
  (* the new basis matrix times the new inverse *)
  intros u Hu. rewrite HY'.
  set (t := mat_vec Y u).
  assert (length t = m P) as Htlen by (unfold t; by rewrite length_mat_vec).
  assert (length (column P entering) = m P) as Halen by (by apply length_column).
  apply list_eq_get.
  { rewrite length_mat_vec. unfold basis_matrix. by rewrite length_fmap, length_seq, Hu. }
  intros r Hr. rewrite length_mat_vec in Hr. unfold basis_matrix in Hr.
  rewrite length_fmap, length_seq in Hr.
  rewrite get_mat_vec. unfold basis_matrix.
  rewrite list_lookup_fmap, lookup_seq_lt by done. simpl.
  rewrite list_fmap_insert.
  set (row := (λ x, get (column P x) r) <$> dict_B D).
  assert (length row = m P) as Hrowr by (unfold row; by rewrite length_fmap).
  assert (∀ w, dot row w = get (mat_vec (basis_matrix P (dict_B D)) w) r) as Hrowdot.
  { intros w. rewrite get_mat_vec. unfold basis_matrix.
    by rewrite list_lookup_fmap, lookup_seq_lt. }
  rewrite dot_insert_l by lia.
  rewrite get_pivot_column, decide_True by (done || lia).
  unfold pivot_column. rewrite (dot_comm row), dot_insert_l; last first.
  { rewrite length_vsub; [lia | by rewrite length_scale; lia]. }
  rewrite (dot_comm _ row), dot_vsub_r by (rewrite length_scale; lia).
  rewrite dot_scale_r, get_vsub by (rewrite length_scale; lia).
  rewrite get_scale, !Hrowdot.
  unfold t. rewrite (Hright u Hu), Hd, (Hright _ Halen), <- Hd.
  fold t. by field.
Qed.

(** ** What a dictionary reports, variable by variable *)

Section reports.
Context {D : Type} `{LPAbstractDictionary D}.

Lemma coefficient_of_Some (d : D) (x : string) (c : Qc) :
  NoDup (nonbasic_variables d) →
  coefficient_of d x = Some c
  ↔ ∃ j, nonbasic_variables d !! j = Some x ∧ objective_coefficients d !! j = Some c.
Proof.
  intros Hnd. unfold coefficient_of. split.
  - destruct (index x (nonbasic_variables d)) as [j |] eqn:E; simpl; [| done].
    intros Hc. exists j. split; [by apply index_lookup in E as [E _] | done].
  - intros (j & Hj & Hc). by rewrite (index_NoDup x _ j Hnd Hj).
Qed.

Lemma elem_of_entering_variable_candidates (d : D) (x : string) :
  NoDup (nonbasic_variables d) →
  x ∈ entering_variable_candidates d
  ↔ ∃ c, coefficient_of d x = Some c ∧ (0 < c)%Qc.
Proof.
  intros Hnd. unfold entering_variable_candidates.
  rewrite list_elem_of_fmap. split.
  - intros ([x' c] & -> & Hin). apply list_elem_of_filter in Hin as [Hpos Hin].
    simpl in *. exists c. split.
    + apply coefficient_of_Some; [done |].
      apply list_elem_of_lookup in Hin as [j Hj].
      apply lookup_zip_with_Some in Hj as (? & ? & [= <- <-] & Hx & Hc). eauto.
    + apply Qcltb_lt. by apply Is_true_true.
  - intros (c & Hc & Hpos). exists (x, c). split; [done |].
    apply list_elem_of_filter. split.
    + simpl. apply Is_true_true. by apply Qcltb_lt.
    + apply coefficient_of_Some in Hc as (j & Hx & Hc); [| done].
      apply list_elem_of_lookup. exists j. apply lookup_zip_with_Some. eauto.
Qed.
End reports.

(** ** Explicit and revised dictionaries report the same *)

Lemma views_agree (P : InteractiveLPProblemStandardForm) (D : LPDictionary)
    (Y : list (list Qc)) (R : LPRevisedDictionary) :
  NoDup (variables P) →
  length (_A P) = m P →
  tableau_invariant P D Y →
  _problem R = P →
  _x_B R = dict_B D →
  Forall (λ r, length r = m P) (B_inverse R) →
  (∀ u, length u = m P → mat_vec (B_inverse R) u = mat_vec Y u) →
  same_reports R D.
Proof.
  intros Hnd HAP Hinv HP HxB HX HXY'. unfold same_reports.
  destruct Hinv as (HlenB & HlenN & Hperm & HA & Hlenc & HY & Hbasic & Hcols & Hb & Hc & Hv
                    & _).
  assert (mat_vec (B_inverse R) (_b P) = mat_vec Y (_b P)) as HXb by (by apply HXY').
  assert (∀ x, mat_vec (B_inverse R) (column P x) = mat_vec Y (column P x)) as HXY
    by (intros x; by apply HXY', length_column).
  assert (NoDup (dict_B D ++ dict_N D)) as HndBN by (by rewrite Hperm).
  assert (NoDup (dict_N D)) as HndN by (by apply NoDup_app in HndBN as (_ & _ & ?)).
  assert (NoDup (x_N R)) as HndxN.
  { unfold x_N. apply NoDup_filter. by rewrite HP. }
  assert (∀ x, x ∈ x_N R ↔ x ∈ dict_N D) as HxN.
  { intros x. rewrite elem_of_x_N, HP, HxB.
    symmetry. by apply nonbasic_not_basic. }
  assert (constant_terms R = dict_b D) as Hterms.
  { simpl. by rewrite HP, HXb, Hb. }
  assert (∀ u, length u = m P →
               dot (y R) u = dot (c_full P <$> dict_B D) (mat_vec Y u)) as Hy.
  { intros u Hu. unfold y, c_B. rewrite HP, HxB, dot_vec_mat by done.
    by rewrite HXY'. }
  assert (∀ j x, dict_N D !! j = Some x →
                 objective_coefficient R x = get (dict_c D) j) as Hcoef.
  { intros j x Hj. unfold objective_coefficient.
    rewrite HP, Hy, (Hc j x Hj), (Hcols j x Hj) by (by apply length_column). done. }
  assert (∀ x, coefficient_of R x = coefficient_of D x) as Hcoefs.
  { intros x. unfold coefficient_of. simpl.
    destruct (index x (dict_N D)) as [j |] eqn:Ej; simpl.
    - apply index_lookup in Ej as [Ej _].
      assert (x ∈ x_N R) as Hin by (apply HxN; by eapply list_elem_of_lookup_2).
      destruct (index_elem_of _ _ Hin) as [j' Ej']. rewrite Ej'. simpl.
      apply index_lookup in Ej' as [Ej' _].
      rewrite list_lookup_fmap, Ej'. simpl. rewrite (Hcoef j x Ej).
      destruct (lookup_lt_is_Some_2 (dict_c D) j) as [c Hcj].
      { rewrite Hlenc, <- HlenN. by apply lookup_lt_Some in Ej. }
      by rewrite Hcj, (get_lookup _ _ _ Hcj).
    - rewrite index_None; [done |].
      rewrite HxN. intros Hin. apply index_elem_of in Hin as [? ?]. congruence. }
  assert (∀ x, x ∈ dict_N D →
               entering_coefficients R x = entering_coefficients D x) as Hcolumn.
  { intros x Hin. simpl.
    destruct (index_elem_of _ _ Hin) as [e He]. rewrite He.
    apply index_lookup in He as [He _].
    by rewrite HP, HXY, (Hcols e x He). }
  assert (basic_variables R = basic_variables D) as Hbv by done.
  split; [done |].
  split; [apply NoDup_Permutation; done |].
  split; [done |].
  split; [simpl; by rewrite HP, Hy, <- Hb, Hv |].
  split; [done |].
  split; [intros x; unfold constant_of; by rewrite Hterms, Hbv |].
  split; [done |].
  split.
  { intros x. rewrite !elem_of_entering_variable_candidates by done.
    by setoid_rewrite Hcoefs. }
  split.
  { intros x Hin. unfold leaving_variable_for, ratios.
    by rewrite Hterms, (Hcolumn x Hin), Hbv. }
  unfold is_feasible. by rewrite Hterms.
Qed.

(** ** The cache of a pivoted revised dictionary is the inverse *)

Lemma col_basis_matrix (P : InteractiveLPProblemStandardForm) (B : list string)
    (k : nat) (x : string) :
  length (_A P) = m P → B !! k = Some x →
  col k (basis_matrix P B) = column P x.
Proof.
  intros HA Hk. unfold col, basis_matrix. rewrite <- list_fmap_compose.
  rewrite <- (tabulate_get (column P x)), length_column by done.
  apply list_fmap_ext. intros _ i _. simpl.
  unfold get at 1. by rewrite list_lookup_fmap, Hk.
Qed.

Lemma rectangular_basis_matrix (P : InteractiveLPProblemStandardForm) (B : list string) :
  rectangular (m P) (length B) (basis_matrix P B).
Proof.
  unfold basis_matrix. split; [by rewrite length_fmap, length_seq |].
  apply Forall_fmap, Forall_forall. intros i _. simpl. by rewrite length_fmap.
Qed.

Lemma mat_vec_unit_vector (k s : nat) (Y : list (list Qc)) :
  (s < k)%nat → mat_vec Y (unit_vector k s) = col s Y.
Proof.
  intros Hs. unfold mat_vec, col. apply list_fmap_ext. intros _ r _.
  by rewrite dot_comm, dot_unit_vector_l.
Qed.

Lemma tableau_invariant_consistent (P : InteractiveLPProblemStandardForm)
    (D : LPDictionary) (R : LPRevisedDictionary) :
  length (_A P) = m P →
  _problem R = P → _x_B R = dict_B D →
  tableau_invariant P D (_B_inverse R) →
  consistent R.
Proof.
  intros HAP HP HxB Hinv.
  destruct Hinv as (HlenB & _ & _ & _ & _ & HY & Hbasic & _ & _ & _ & _ & Hright).
  unfold consistent. rewrite HP, HxB. split; [done |].
  set (Y := _B_inverse R) in *.
  assert (length Y = m P) as HYlen by apply HY.
  split.
  - (* Y * B = I *)
    unfold mat_mul, identity. apply list_eq. intros i.
    rewrite !list_lookup_fmap.
    destruct (decide (i < m P)%nat) as [Hi | Hi].
    + destruct (lookup_lt_is_Some_2 Y i) as [r Hr]; [lia |].
      rewrite Hr, lookup_seq_lt by done. simpl. f_equal.
      apply list_eq_get.
      { unfold vec_mat. by rewrite length_fmap, length_seq, length_unit_vector. }
      intros k Hk. unfold vec_mat in Hk. rewrite length_fmap, length_seq in Hk.
      unfold vec_mat. rewrite get_tabulate by done.
      destruct (lookup_lt_is_Some_2 (dict_B D) k) as [x Hx]; [lia |].
      rewrite (col_basis_matrix P _ k x HAP Hx).
      assert (dot r (column P x) = get (mat_vec Y (column P x)) i) as ->
        by (by rewrite get_mat_vec, Hr).
      rewrite (Hbasic k x Hx), !get_unit_vector.
      destruct (decide (i = k)) as [Heq | Hne].
      * by rewrite !decide_True by (split; [congruence | lia]).
      * by rewrite !decide_False by (intros [? _]; congruence).
    + rewrite (lookup_ge_None_2 Y i), (lookup_ge_None_2 (seq 0 (m P)) i);
        [done | rewrite length_seq; lia | lia].
  - (* B * Y = I *)
    unfold mat_mul, identity, basis_matrix. rewrite <- list_fmap_compose.
    apply list_fmap_ext. intros r' r Hr. simpl.
    apply lookup_seq in Hr as [Hrr' Hr]. simpl in Hrr'. subst r'.
    apply list_eq_get.
    { unfold vec_mat. by rewrite length_fmap, length_seq, length_unit_vector. }
    intros s Hs. unfold vec_mat in Hs. rewrite length_fmap, length_seq in Hs.
    unfold vec_mat. rewrite get_tabulate by done.
    rewrite <- (mat_vec_unit_vector (m P)) by done.
    assert (∀ w, dot ((λ x, get (column P x) r) <$> dict_B D) w
                 = get (mat_vec (basis_matrix P (dict_B D)) w) r) as ->.
    { intros w. rewrite get_mat_vec. unfold basis_matrix.
      by rewrite list_lookup_fmap, lookup_seq_lt. }
    rewrite Hright by apply length_unit_vector.
    rewrite !get_unit_vector.
    destruct (decide (r = s)) as [Heq | Hne].
    + by rewrite !decide_True by (split; [congruence | lia]).
    + by rewrite !decide_False by (intros [? _]; congruence).
Qed.

Lemma consistentb_spec (d : LPRevisedDictionary) :
  consistentb d = true ↔ consistent d.
Proof.
  unfold consistentb, consistent, is_inverseb, is_inverse.
  by rewrite !andb_true_iff, rectangularb_spec, !bool_decide_eq_true.
Qed.

(** The inverse is unique: any consistent cache acts as [Y]. *)
Lemma inverse_unique (P : InteractiveLPProblemStandardForm)
    (D : LPDictionary) (Y X : list (list Qc)) :
  length (_A P) = m P →
  tableau_invariant P D Y →
  rectangular (m P) (m P) X →
  mat_mul (m P) (basis_matrix P (dict_B D)) X = identity (m P) →
  ∀ u, length u = m P → mat_vec X u = mat_vec Y u.
Proof.
  intros HAP Hinv HX HBX u Hu.
  pose proof (tableau_invariant_consistent P D
                {| _problem := P; _x_B := dict_B D; _B_inverse := Y;
                   rev_style := None; rev_problem_type_pda := None;
                   rev_objective := ObjNone |} HAP eq_refl eq_refl Hinv)
    as (_ & HYB & _). simpl in HYB.
  destruct Hinv as (HlenB & _).
  set (w := mat_vec X u).
  assert (length w = m P) as Hw by (unfold w; rewrite length_mat_vec; apply HX).
  assert (mat_vec (basis_matrix P (dict_B D)) w = u) as HBw.
  { unfold w. rewrite <- (mat_vec_mat_mul (m P)) by apply HX.
    rewrite HBX. by apply mat_vec_identity. }
  rewrite <- HBw at 1.
  rewrite <- (mat_vec_mat_mul (m P)).
  - rewrite HYB. symmetry. by apply mat_vec_identity.
  - rewrite <- HlenB. apply rectangular_basis_matrix.
Qed.

(** ** Pivoting both dictionaries *)

Lemma pivots_simulation (P : InteractiveLPProblemStandardForm)
    (steps : list (string * string)) (D D' : LPDictionary) (R : LPRevisedDictionary) :
  NoDup (variables P) →
  length (_A P) = m P →
  _problem R = P →
  _x_B R = dict_B D →
  tableau_invariant P D (_B_inverse R) →
  pivots D steps = Ok D' →
  ∃ R', revised_pivots R steps = Ok R'
    ∧ _problem R' = P
    ∧ _x_B R' = dict_B D'
    ∧ tableau_invariant P D' (_B_inverse R').
Proof.
  intros Hnd HAP. revert D R.
  induction steps as [| [entering leaving] steps IH]; intros D R HP HxB Hinv Hpivots.
  - injection Hpivots as <-. by exists R.
  - simpl in Hpivots.
    destruct (pivot D entering leaving) as [D1 |] eqn:E; simpl in Hpivots; [| done].
    destruct (tableau_invariant_pivot P D D1 R entering leaving Hnd HAP HP HxB Hinv E)
      as (R1 & HR1 & HP1 & HxB1 & Hinv1).
    destruct (IH D1 R1 HP1 HxB1 Hinv1 Hpivots) as (R' & HR' & ?).
    exists R'. split; [| done]. simpl. by rewrite HR1.
Qed.

(** C1: for a well-formed standard-form problem and every dictionary
    reached from the initial one by a sequence of pivots, the same
    pivots take the initial revised dictionary to a revised dictionary
    with the same basic variables whose cache is the inverse of the
    basis matrix; every revised dictionary of the problem with these
    basic variables and a consistent cache reports the same as the
    explicit dictionary (constant terms, objective coefficient of every
    variable, objective value, candidates for entering, leaving
    variable and ratio of every nonbasic variable); so does the revised
    dictionary its constructor returns for these basic variables when
    the library inverse it is given inverts the basis matrix. *)
Theorem explicit_and_revised_agree (P : InteractiveLPProblemStandardForm)
    (steps : list (string * string)) (D : LPDictionary) :
  well_formed P →
  pivots (initial_dictionary P) steps = Ok D →
  (∃ R, revised_pivots (initial_revised_dictionary P) steps = Ok R
     ∧ _problem R = P ∧ _x_B R = dict_B D ∧ consistent R ∧ same_reports R D)
  ∧ (∀ R : LPRevisedDictionary,
       _problem R = P → _x_B R = dict_B D → consistent R → same_reports R D)
  ∧ (∀ inverse revised_style_accepted style pda objective R,
       LPRevisedDictionary__init__ inverse revised_style_accepted P (dict_B D)
         style pda objective = Ok R →
       let B := basis_matrix P (dict_B D) in
       rectangular (m P) (m P) (inverse B) → is_inverse (m P) (inverse B) B →
       same_reports R D).
Proof.
  intros Hwf Hpivots.
  destruct (well_formed_variables P Hwf) as (slack & Hslack & _ & _ & Hnd & HB & _).
  assert (length (_A P) = m P) as HAP by apply Hwf.
  destruct (pivots_simulation P steps (initial_dictionary P) D
              (initial_revised_dictionary P) Hnd HAP eq_refl)
    as (R0 & HR0 & HP0 & HxB0 & Hinv); [| by apply tableau_invariant_initial | done |].
  { simpl. by rewrite HB. }
  assert (∀ R : LPRevisedDictionary,
            _problem R = P → _x_B R = dict_B D → consistent R → same_reports R D)
    as Hall.
  { intros R HP HxB (HX & _ & HBX).
    rewrite HP in HX. rewrite HP, HxB in HBX.
    apply (views_agree P D (_B_inverse R0) R); try done.
    - apply HX.
    - by apply (inverse_unique P D). }
  assert (consistent R0) as Hcons by (by apply (tableau_invariant_consistent P D)).
  split; [| split; [done |]].
  - exists R0. split_and!; try done. by apply Hall.
  - intros inverse accepted style pda objective R Hinit B Hrect Hinverse.
    unfold LPRevisedDictionary__init__ in Hinit.
    destruct (accepted style); simpl in Hinit; [| done].
    destruct (auxiliary_variable P); simpl in Hinit; [| done].
    destruct (decision_variables P !! 0%nat); simpl in Hinit; [| done].
    destruct (negb _); simpl in Hinit; [| done].
    destruct (bool_decide _); simpl in Hinit; [| done].
    injection Hinit as <-. by apply Hall.
Qed.

Lemma explicit_and_revised_agree_witness :
  match pivots (initial_dictionary (sample_standard_form None))
          [("x1", "x4"); ("x2", "x3")] with
  | Ok D =>
      ∃ R, revised_pivots (initial_revised_dictionary (sample_standard_form None))
             [("x1", "x4"); ("x2", "x3")] = Ok R
        ∧ constant_terms R = constant_terms D
        ∧ objective_value R = objective_value D
        ∧ coefficient_of R "x3" = coefficient_of D "x3"
        ∧ leaving_variable_for R "x4" = leaving_variable_for D "x4"
  | Raise _ => False
  end.
Proof.
  destruct (pivots (initial_dictionary (sample_standard_form None))
              [("x1", "x4"); ("x2", "x3")]) as [D | e] eqn:E.
  - destruct (explicit_and_revised_agree (sample_standard_form None)
                [("x1", "x4"); ("x2", "x3")] D)
      as [(R & HR & _ & _ & _ & Hsame) _].
    + apply sample_standard_form_well_formed. by left.
    + exact E.
    + destruct Hsame as (_ & _ & Hterms & Hvalue & Hcoef & _ & _ & _ & Hleaving & _).
      exists R. split; [done |]. split; [done |]. split; [done |]. split; [done |].
      apply Hleaving.
      assert (is_Some (index "x4" (dict_N D))) as [j Hj].
      { revert E. vm_compute. intros [= <-]. by eexists. }
      apply index_lookup in Hj as [Hj _]. by eapply list_elem_of_lookup_2.
  - revert E. by vm_compute.
Defined.

(** * Further properties of the transformations *)

(** ** Standardization, step by step *)

Lemma standard_form_unfold (self : InteractiveLPProblem) :
  standard_form self
  = let '(A, b, c, x, pt) := standardized self in
    if bool_decide (length c = 0%nat) || bool_decide (length b = 0%nat)
    then (self, Raise Degenerate_standard_form)
    else (if decide (_style self = vanderbei) then set_prefix "z" self else self,
          InteractiveLPProblemStandardForm__init__ A b c (Names x) pt
            (Some (BaseName (standard_prefix self)))
            (Some (standard_prefix self +:+ "0"))
            (_style self) (_problem_type_pda self) (_objective self)).
Proof.
  unfold standard_form, standardized, standard_prefix.
  destruct (forallb _ (_constraint_types self));
    [| destruct (standardize_rows _ _ _)];
    destruct (forallb _ (_variable_types self));
    destruct (_direction self);
    cbv zeta beta iota;
    (destruct (bool_decide _ || bool_decide _); [reflexivity |]);
    destruct (decide (_style self = vanderbei)); reflexivity.
Qed.

Lemma standardized_set_prefix (p : string) (self : InteractiveLPProblem) :
  standardized (set_prefix p self) = standardized self.
Proof. reflexivity. Qed.

Lemma set_prefix_set_prefix (p q : string) (self : InteractiveLPProblem) :
  set_prefix p (set_prefix q self) = set_prefix p self.
Proof. reflexivity. Qed.

Lemma standard_prefix_set_prefix_vanderbei (p : string) (self : InteractiveLPProblem) :
  _style self = vanderbei → standard_prefix (set_prefix p self) = "z".
Proof. intros Hs. unfold standard_prefix. simpl. by rewrite decide_True. Qed.

Lemma set_prefix_self (self : InteractiveLPProblem) : set_prefix (_prefix self) self = self.
Proof. by destruct self. Qed.

(** X1: a second call of [standard_form], on the receiver as the first
    call left it, returns the same problem and leaves the receiver as
    it is. *)
Theorem standard_form_repeated (self : InteractiveLPProblem) :
  standard_form (standard_form self).1 = standard_form self.
Proof.
  destruct (decide (_style self = vanderbei)) as [Hs | Hs].
  - rewrite (standard_form_unfold self).
    destruct (standardized self) as [[[[A b] c] x] pt] eqn:E.
    destruct (bool_decide _ || bool_decide _) eqn:Ed.
    + simpl. by rewrite standard_form_unfold, E, Ed.
    + rewrite (decide_True (P := _style self = vanderbei)) by done. simpl.
      rewrite standard_form_unfold, standardized_set_prefix, E, Ed.
      rewrite standard_prefix_set_prefix_vanderbei by done. simpl.
      rewrite (decide_True (P := _style self = vanderbei)) by done.
      unfold standard_prefix.
      by rewrite (decide_True (P := _style self = vanderbei)) by done.
  - by rewrite standard_form_receiver_default.
Qed.

(** ** The names of the standard form *)

Lemma ring_names_head (a : string) (x s : list string) :
  ring_names a x s !! 0%nat = Some a.
Proof.
  unfold ring_names. destruct (bool_decide _) eqn:E; [| done].
  apply bool_decide_eq_true in E. rewrite lookup_drop. simpl in *. by rewrite <- E.
Qed.

Lemma ring_names_slack (a : string) (x s : list string) :
  s ≠ [] → slice_last (length s) (ring_names a x s) = s.
Proof.
  intros Hs. unfold ring_names. destruct (bool_decide _).
  - simpl. rewrite drop_0. by apply slice_last_app.
  - by apply (slice_last_app (a :: x) s).
Qed.

Lemma StandardForm__init__inv A b c x pt slack aux style pda objective P :
  InteractiveLPProblemStandardForm__init__ A b c x pt slack aux style pda objective = Ok P →
  recognized style
  ∧ rectangular (length b) (length c) A
  ∧ length (names_of x 1 (length c)) = length c
  ∧ length (slack_names style slack (S (length c)) (length b)) = length b.
Proof.
  intros Hinit.
  assert (recognized style) as Hst.
  { destruct (decide (style = None)) as [-> | Hn]; [by left |].
    destruct (decide (style = vanderbei)) as [-> | Hv]; [by right |].
    exfalso. revert Hinit. unfold InteractiveLPProblemStandardForm__init__.
    destruct (InteractiveLPProblem__init__ _ _ _ _ _ _ _ _ _ _ _); simpl; [| done].
    rewrite (decide_False (P := style = vanderbei)) by done.
    rewrite (decide_False (P := style = None)) by done. done. }
  assert (rectangular (length b) (length c) A
          ∧ length (names_of x 1 (length c)) = length c) as [HA Hx].
  { revert Hinit. unfold InteractiveLPProblemStandardForm__init__.
    destruct (InteractiveLPProblem__init__ _ _ _ _ _ _ _ _ _ _ _) as [self |] eqn:E;
      simpl; [| done].
    intros _. by apply InteractiveLPProblem__init__shapes in E. }
  do 3 (split; [done |]).
  revert Hinit. unfold InteractiveLPProblemStandardForm__init__.
  rewrite InteractiveLPProblem__init__Ok; [| done | done | by rewrite length_replicate ..].
  simpl. unfold slack_names, m, n. simpl.
  destruct Hst as [-> | ->]; simpl; destruct slack; simpl;
    (match goal with |- context [check (bool_decide ?Q) _] =>
       destruct (bool_decide Q) eqn:E; simpl; [| done] end);
    intros _; by apply bool_decide_eq_true in E.
Qed.

(** What the constructor makes of a base name for the slack variables
    and a name for the auxiliary variable. *)
Lemma StandardForm__init__names A b c xs pt base aux style pda objective P :
  InteractiveLPProblemStandardForm__init__ A b c (Names xs) pt
    (Some (BaseName base)) (Some aux) style pda objective = Ok P →
  (0 < length b)%nat →
  auxiliary_variable P = Ok aux
  ∧ m P = length b
  ∧ n P = length c
  ∧ slack_variables P = gen_names base (S (length c)) (length b)
  ∧ _style P = style
  ∧ _problem_type_pda P = pda
  ∧ _objective P = objective_symbol style pda objective.
Proof.
  intros Hinit Hb.
  destruct (StandardForm__init__inv _ _ _ _ _ _ _ _ _ _ _ Hinit) as (Hst & HA & Hx & Hs).
  rewrite StandardForm__init__Ok in Hinit by done. injection Hinit as <-.
  unfold auxiliary_variable, slack_variables, m, n. simpl.
  rewrite ring_names_head.
  do 3 (split; [done |]).
  split; [| done].
  unfold slack_names in *. simpl in *.
  rewrite <- (length_gen_names base (S (length c)) (length b)) at 1.
  apply ring_names_slack, nonempty_length. rewrite length_gen_names. lia.
Qed.

(** X2: the problem [standard_form] returns has the auxiliary variable
    [prefix0] and slack variables named [prefix] followed by a number,
    where [prefix] is ["z"] in the "vanderbei" style and the prefix of
    the receiver otherwise: in the "vanderbei" style the result does
    not depend on the prefix of the receiver. *)
Theorem standard_form_names (self : InteractiveLPProblem)
    (P' : InteractiveLPProblemStandardForm) :
  (standard_form self).2 = Ok P' →
  auxiliary_variable P' = Ok (standard_prefix self +:+ "0")
  ∧ length (slack_variables P') = m P'
  ∧ (0 < m P')%nat
  ∧ (∀ s, s ∈ slack_variables P' → ∃ i, s = format_name (standard_prefix self) i)
  ∧ (_style self = vanderbei →
     standard_prefix self = "z"
     ∧ ∀ p, (standard_form (set_prefix p self)).2 = Ok P').
Proof.
  intros Hcall. pose proof Hcall as Hcall'. revert Hcall'.
  rewrite standard_form_unfold.
  destruct (standardized self) as [[[[A b] c] x] pt] eqn:E.
  destruct (bool_decide _ || bool_decide _) eqn:Ed; simpl; [done |].
  apply orb_false_iff in Ed as [_ Hb]. apply bool_decide_eq_false in Hb.
  intros Hinit.
  destruct (StandardForm__init__names _ _ _ _ _ _ _ _ _ _ _ Hinit)
    as (Hx0 & Hm & _ & Hslack & _); [lia |].
  split; [done |].
  split; [by rewrite Hslack, length_gen_names |].
  split; [lia |].
  split.
  - intros s. rewrite Hslack. unfold gen_names.
    intros (i & -> & _)%list_elem_of_fmap. by exists i.
  - intros Hs. split; [unfold standard_prefix; by rewrite decide_True |].
    intros p. rewrite <- Hcall.
    rewrite !standard_form_unfold, standardized_set_prefix, E.
    destruct (bool_decide _ || bool_decide _); simpl; [done |].
    rewrite standard_prefix_set_prefix_vanderbei by done.
    unfold standard_prefix. by rewrite (decide_True (P := _style self = vanderbei)).
Qed.

Lemma standard_form_names_witness :
  ∃ P', (standard_form sample_prefix_y).2 = Ok P'
    ∧ auxiliary_variable P' = Ok "z0"
    ∧ (standard_form (sample_problem vanderbei)).2 = Ok P'.
Proof.
  destruct ((standard_form sample_prefix_y).2) as [P' | e] eqn:E;
    [| by vm_compute in E].
  exists P'. split; [done |].
  destruct (standard_form_names sample_prefix_y P' E) as (Hx0 & _ & _ & _ & H).
  split; [exact Hx0 |].
  destruct H as [_ H]; [done |]. exact (H "x").
Defined.

(** ** Duality and the style tag *)

Lemma StandardForm__init__unrecognized A b c x pt slack aux style pda objective :
  ¬ recognized style →
  is_Ok (InteractiveLPProblemStandardForm__init__ A b c x pt slack aux style pda objective)
  = false.
Proof.
  intros Hst.
  destruct (InteractiveLPProblemStandardForm__init__ _ _ _ _ _ _ _ _ _ _) eqn:E; [| done].
  by apply StandardForm__init__inv in E as [Hrec _].
Qed.

Lemma standard_form_unrecognized (self : InteractiveLPProblem) :
  ¬ recognized (_style self) → is_Ok (standard_form self).2 = false.
Proof.
  intros Hst. rewrite standard_form_unfold.
  destruct (standardized self) as [[[[A b] c] x] pt].
  destruct (bool_decide _ || bool_decide _); simpl; [done |].
  by apply StandardForm__init__unrecognized.
Qed.

(** X3: [dual] checks the style tag only when it has to choose the
    objective name itself.  Given a name it builds the dual of a
    well-shaped problem whatever the tag is, with that name, the tag of
    the primal and the label "dual"; an unrecognized tag, which makes
    the call without a name raise the style error, is then refused
    only when the dual is put in standard form. *)
Theorem dual_with_objective_name_skips_style_check (self : InteractiveLPProblem)
    (y : option names_arg) (s : string) :
  well_shaped self →
  length (dual_names self y) = m self →
  ∃ D, dual self y (ObjStr s) = Ok D
    ∧ _objective D = ObjStr s
    ∧ _style D = _style self
    ∧ _problem_type_pda D = Some "dual"
    ∧ (¬ recognized (_style self) →
       dual self y ObjNone = Raise Style_must_be_None_or_vanderbei
       ∧ is_Ok (standard_form D).2 = false).
Proof.
  intros Hw Hy. eexists. split; [apply dual_Ok; [done | by right | done] |].
  simpl. do 3 (split; [done |]).
  intros Hst. split.
  - unfold dual, default_objective.
    rewrite (decide_False (P := _style self = vanderbei)) by (intros ?; apply Hst; by right).
    by rewrite (decide_False (P := _style self = None)) by (intros ?; apply Hst; by left).
  - by apply standard_form_unrecognized.
Qed.

Lemma dual_with_objective_name_skips_style_check_witness :
  ∃ D, dual (sample_problem (Some "dantzig")) None (ObjStr "w") = Ok D
    ∧ _style D = Some "dantzig"
    ∧ dual (sample_problem (Some "dantzig")) None ObjNone
      = Raise Style_must_be_None_or_vanderbei
    ∧ is_Ok (standard_form D).2 = false.
Proof.
  destruct (dual_with_objective_name_skips_style_check
              (sample_problem (Some "dantzig")) None "w")
    as (D & HD & _ & Hs & _ & H).
  - apply sample_problem_well_shaped.
  - reflexivity.
  - exists D. split; [done |]. split; [done |]. apply H.
    intros [? | ?]; done.
Defined.

Lemma gen_names_base_ne (k : nat) :
  (0 < k)%nat → gen_names "x" 1 k ≠ gen_names "y" 1 k.
Proof.
  destruct k as [| k]; [lia |]. intros _ H. unfold gen_names in H. simpl in H.
  injection H as H _. unfold format_name in H. simpl in H. done.
Qed.

(** X4: the names [dual] gives by default to the dual variables depend
    on the prefix of the problem, which [standard_form] overwrites in
    the "vanderbei" style: for a problem with prefix ["y"] the dual
    variables are [x1 .. xm] before a successful call of
    [standard_form] and [y1 .. ym] after it, with the same numbers in
    both duals. *)
Theorem dual_default_names_after_standard_form (self : InteractiveLPProblem)
    (objective : objective_name) :
  _style self = vanderbei →
  _prefix self = "y" →
  well_shaped self →
  (0 < m self)%nat →
  is_Ok (standard_form self).2 = true →
  ∃ D1 D2, dual self None objective = Ok D1
    ∧ dual (standard_form self).1 None objective = Ok D2
    ∧ _x D1 = gen_names "x" 1 (m self)
    ∧ _x D2 = gen_names "y" 1 (m self)
    ∧ _x D1 ≠ _x D2
    ∧ numeric D1 = numeric D2.
Proof.
  intros Hs Hp Hw Hm Hok.
  assert ((standard_form self).1 = set_prefix "z" self) as ->.
  { revert Hok. rewrite standard_form_unfold.
    destruct (standardized self) as [[[[A b] c] x] pt].
    destruct (bool_decide _ || bool_decide _); simpl; [done |].
    by rewrite (decide_True (P := _style self = vanderbei)). }
  assert (recognized (_style self)) as Hrec by (by right).
  do 2 eexists.
  split; [apply dual_Ok; [done | by left |];
          unfold dual_names; simpl; by rewrite length_gen_names |].
  split; [apply dual_Ok; [done | by left |];
          unfold dual_names; simpl; by rewrite length_gen_names |].
  simpl. unfold dual_names. simpl. rewrite Hp. simpl.
  split; [done |]. split; [done |].
  split; [by apply gen_names_base_ne |]. done.
Qed.

Lemma dual_default_names_after_standard_form_witness :
  ∃ D1 D2, dual sample_prefix_y None ObjNone = Ok D1
    ∧ dual (standard_form sample_prefix_y).1 None ObjNone = Ok D2
    ∧ _x D1 = ["x1"; "x2"]
    ∧ _x D2 = ["y1"; "y2"].
Proof.
  destruct (dual_default_names_after_standard_form sample_prefix_y ObjNone)
    as (D1 & D2 & H1 & H2 & Hx1 & Hx2 & _).
  - reflexivity.
  - reflexivity.
  - repeat split; repeat constructor.
  - unfold m. simpl. lia.
  - by vm_compute.
  - exists D1, D2. rewrite Hx1, Hx2. done.
Defined.

(** ** The labels of the auxiliary problem *)

Lemma well_formed_generic (P : InteractiveLPProblemStandardForm) (x0 : string) :
  well_formed P →
  auxiliary_variable P = Ok x0 →
  x0 ∉ decision_variables P →
  ∃ slack, length (_x P) = n P ∧ length slack = m P ∧ _R P = x0 :: _x P ++ slack.
Proof.
  intros (HA & Hm & Hn & Hst & Hnd & x0' & slack & Hx & Hs & HR) Hx0 Hnotin.
  pose proof (well_formed_auxiliary_variable P x0' slack HR) as Hx0'.
  rewrite Hx0 in Hx0'. injection Hx0' as <-.
  exists slack. do 2 (split; [done |]).
  destruct HR as [HR | [_ Hhead]]; [done |].
  exfalso. apply Hnotin. by apply list_elem_of_lookup_2 in Hhead.
Qed.

(** X5: the labels of the auxiliary problem of a well-formed problem.
    It has the style of the problem; it is labelled "auxiliary" in the
    "vanderbei" style and not labelled in the default style; a given
    objective name is kept; without one the name is ["xi"] in the
    "vanderbei" style and the objective name of the problem itself in
    the default style, where the name ["w"] is never chosen. *)
Theorem auxiliary_problem_labels (P : InteractiveLPProblemStandardForm)
    (objective : objective_name) (x0 : string) :
  well_formed P →
  auxiliary_variable P = Ok x0 →
  x0 ∉ decision_variables P →
  ∃ P', auxiliary_problem P objective = Ok P'
    ∧ _style P' = _style P
    ∧ (_style P = vanderbei → _problem_type_pda P' = Some "auxiliary")
    ∧ (_style P = None → _problem_type_pda P' = None)
    ∧ (∀ s, objective = ObjStr s → _objective P' = ObjStr s)
    ∧ (∀ l, objective = ObjSeq l → _objective P' = ObjSeq l)
    ∧ (objective = ObjNone → _style P = vanderbei → _objective P' = ObjStr "xi")
    ∧ (objective = ObjNone → _style P = None → _objective P ≠ ObjNone →
       _objective P' = _objective P).
Proof.
  intros Hwf Hx0 Hnotin.
  destruct (well_formed_generic P x0 Hwf Hx0 Hnotin) as (slack & Hx & Hs & HR).
  eexists. split; [by apply (auxiliary_problem_Ok P objective x0 slack) |]. simpl.
  split; [done |].
  split; [intros Hv; by rewrite decide_True |].
  split; [intros Hn; rewrite decide_False; [done | by rewrite Hn] |].
  split; [by intros s -> |].
  split; [by intros l -> |].
  split.
  - intros -> Hv. unfold dual_objective_name. by rewrite !decide_True.
  - intros -> Hn Hobj. unfold dual_objective_name.
    rewrite !decide_False by (by rewrite Hn). simpl.
    by destruct (_objective P).
Qed.

Lemma auxiliary_problem_labels_witness :
  ∃ P', auxiliary_problem (sample_standard_form None) ObjNone = Ok P'
    ∧ _objective P' = ObjStr "z"
    ∧ _problem_type_pda P' = None.
Proof.
  destruct (auxiliary_problem_labels (sample_standard_form None) ObjNone "x0")
    as (P' & HP' & _ & _ & Hpda & _ & _ & _ & Hobj).
  - apply sample_standard_form_well_formed. by left.
  - reflexivity.
  - intros Hin. apply list_elem_of_In in Hin. simpl in Hin.
    repeat destruct Hin as [Hin | Hin]; done.
  - exists P'. split; [done |]. split; [by apply Hobj | by apply Hpda].
Defined.

(** X6: the auxiliary problem of a well-formed problem is itself an
    auxiliary problem: a second call of [auxiliary_problem], on the
    result of the first, raises the error of an auxiliary variable
    that is already among the decision variables, whatever objective
    name is asked for. *)
Theorem auxiliary_problem_twice (P : InteractiveLPProblemStandardForm)
    (objective : objective_name) (x0 : string) :
  well_formed P →
  auxiliary_variable P = Ok x0 →
  x0 ∉ decision_variables P →
  ∃ P', auxiliary_problem P objective = Ok P'
    ∧ ∀ objective',
        auxiliary_problem P' objective'
        = Raise Auxiliary_variable_already_among_decision_ones.
Proof.
  intros Hwf Hx0 Hnotin.
  destruct (well_formed_generic P x0 Hwf Hx0 Hnotin) as (slack & Hx & Hs & HR).
  eexists. split; [by apply (auxiliary_problem_Ok P objective x0 slack) |].
  intros objective'. unfold auxiliary_problem, coordinate_ring_gens.
  rewrite default_objective_Ok by (left; apply Hwf).
  cbn [mbind result_bind].
  rewrite check_false; [done |].
  apply negb_false_iff, bool_decide_eq_true.
  unfold m, n. simpl. unfold zeros. rewrite length_app, length_replicate.
  unfold m, n in *. lia.
Qed.

Lemma auxiliary_problem_twice_witness :
  ∃ P', auxiliary_problem (sample_standard_form vanderbei) ObjNone = Ok P'
    ∧ auxiliary_problem P' (ObjStr "w")
      = Raise Auxiliary_variable_already_among_decision_ones.
Proof.
  destruct (auxiliary_problem_twice (sample_standard_form vanderbei) ObjNone "x0")
    as (P' & HP' & H).
  - apply sample_standard_form_well_formed. by right.
  - reflexivity.
  - intros Hin. apply list_elem_of_In in Hin. simpl in Hin.
    repeat destruct Hin as [Hin | Hin]; done.
  - exists P'. split; [done | apply H].
Defined.

Lemma StandardForm__init__no_style_error A b c x pt s aux style pda objective :
  recognized style →
  InteractiveLPProblemStandardForm__init__ A b c x pt (Some s) aux style pda objective
  ≠ Raise Style_must_be_None_or_vanderbei.
Proof.
  intros Hst. unfold InteractiveLPProblemStandardForm__init__.
  destruct (InteractiveLPProblem__init__ _ _ _ _ _ _ _ _ _ _ _) as [self | e] eqn:E.
  - cbn [mbind result_bind].
    destruct Hst as [-> | ->]; simpl;
      (destruct (bool_decide (length _ = _)); simpl; [| discriminate]);
      destruct objective; simpl; try discriminate;
      destruct (bool_decide _ || bool_decide _); discriminate.
  - apply InteractiveLPProblem__init__raises in E as ->. discriminate.
Qed.

(** X7: the style error of [auxiliary_problem] cannot be reached from
    a problem the constructor has returned: the constructor keeps
    recognized style tags only, and [auxiliary_problem] passes the tag
    on, or none. *)
Theorem auxiliary_problem_never_style_error A b c x pt slack aux style pda objective
    (P : InteractiveLPProblemStandardForm) (objective' : objective_name) :
  InteractiveLPProblemStandardForm__init__ A b c x pt slack aux style pda objective = Ok P →
  recognized (_style P)
  ∧ auxiliary_problem P objective' ≠ Raise Style_must_be_None_or_vanderbei.
Proof.
  intros Hinit.
  assert (recognized (_style P)) as Hst.
  { destruct (StandardForm__init__inv _ _ _ _ _ _ _ _ _ _ _ Hinit) as (Hst & HA & Hx & Hs).
    rewrite StandardForm__init__Ok in Hinit by done. by injection Hinit as <-. }
  split; [done |].
  unfold auxiliary_problem.
  rewrite default_objective_Ok by (by left). cbn [mbind result_bind].
  destruct (negb _); cbn [check mbind result_bind]; [| discriminate].
  destruct (_ !! 0%nat); cbn [from_option mbind result_bind]; [| discriminate].
  destruct (decide (_style P = vanderbei)).
  - by apply StandardForm__init__no_style_error.
  - apply StandardForm__init__no_style_error. by left.
Qed.

Lemma auxiliary_problem_never_style_error_witness :
  auxiliary_problem (sample_standard_form vanderbei) ObjNone
  ≠ Raise Style_must_be_None_or_vanderbei.
Proof.
  refine (proj2 (auxiliary_problem_never_style_error
            [[Qc_of_Z 1; Qc_of_Z 1]; [Qc_of_Z 3; Qc_of_Z 1]]
            [Qc_of_Z 1000; Qc_of_Z 1500] [Qc_of_Z 10; Qc_of_Z 5]
            (Names ["x1"; "x2"]) {| pt_negative := false; pt_direction := Max |}
            (Some (BaseName "x")) None vanderbei None (ObjStr "z")
            (sample_standard_form vanderbei) ObjNone _)).
  by vm_compute.
Defined.

(** ** The initial dictionary *)

(** X8: the initial dictionary of a well-formed problem has the slack
    variables as basic variables and the decision variables as
    nonbasic ones, without repetition, and objective value 0.  The
    auxiliary variable is never basic in it, and nonbasic exactly when
    the problem is an auxiliary one: handed to [feasible_dictionary] of
    a problem that is not auxiliary, the initial dictionary of that
    problem is refused, with the store unchanged. *)
Theorem initial_dictionary_partition (P : InteractiveLPProblemStandardForm) (x0 : string) :
  well_formed P →
  auxiliary_variable P = Ok x0 →
  let d := initial_dictionary P in
  basic_variables d = slack_variables P
  ∧ nonbasic_variables d = decision_variables P
  ∧ length (basic_variables d) = m P
  ∧ length (nonbasic_variables d) = n P
  ∧ NoDup (basic_variables d ++ nonbasic_variables d)
  ∧ objective_value d = 0
  ∧ (x0 ∉ basic_variables d)
  ∧ (x0 ∈ nonbasic_variables d ↔ (decision_variables P !! 0%nat) = Some x0)
  ∧ (decision_variables P !! 0%nat ≠ Some x0 →
     ∀ σ r, snapshot σ r = Some d →
       feasible_dictionary P r σ = (Raise Auxiliary_variable_must_be_nonbasic, σ)).
Proof.
  intros Hwf Hx0 d.
  destruct (well_formed_variables P Hwf) as (slack & Hslack & Hs & Hx & Hnd & HB & HN).
  pose proof Hwf as (_ & _ & _ & _ & HndR & x0' & slack' & _ & Hs' & HR).
  pose proof (well_formed_auxiliary_variable P x0' slack' HR) as Hx0'.
  rewrite Hx0 in Hx0'. injection Hx0' as <-.
  assert (slack' = slack) as ->.
  { rewrite <- Hslack. symmetry. apply (well_formed_slack P x0); [apply Hwf | done ..]. }
  assert (basic_variables d = slack_variables P) as HdB by (simpl; by rewrite HB).
  assert (nonbasic_variables d = decision_variables P) as HdN by (simpl; by rewrite HN).
  assert (x0 ∉ slack) as Hnotslack.
  { destruct HR as [HR | [HR Hhead]]; rewrite HR in HndR.
    - apply NoDup_cons in HndR as [Hnotin _]. intros Hin. apply Hnotin, elem_of_app. by right.
    - apply NoDup_app in HndR as (_ & Hdisj & _). apply Hdisj.
      by apply list_elem_of_lookup_2 in Hhead. }
  assert (x0 ∈ decision_variables P ↔ (decision_variables P !! 0%nat) = Some x0) as Hiff.
  { unfold decision_variables. destruct HR as [HR | [HR Hhead]].
    - rewrite HR in HndR. apply NoDup_cons in HndR as [Hnotin _].
      split.
      + intros Hin. exfalso. apply Hnotin, elem_of_app. by left.
      + by intros ?%list_elem_of_lookup_2.
    - split; [done |]. by intros ?%list_elem_of_lookup_2. }
  rewrite HdB, HdN, Hslack.
  do 2 (split; [done |]). split; [done |]. split; [done |].
  split.
  { unfold variables in Hnd. rewrite Hslack in Hnd.
    by rewrite (Permutation_app_comm slack (decision_variables P)). }
  split; [done |]. split; [done |]. split; [done |].
  intros Hne σ r Hsnap. unfold feasible_dictionary. rewrite Hsnap.
  unfold feasible_dictionary_data. rewrite Hx0. cbn [mbind result_bind].
  rewrite check_false; [done |].
  apply bool_decide_eq_false. rewrite HdN, Hiff. done.
Qed.

Lemma initial_dictionary_partition_witness :
  basic_variables (initial_dictionary (sample_standard_form None)) = ["x3"; "x4"]
  ∧ nonbasic_variables (initial_dictionary (sample_standard_form None)) = ["x1"; "x2"]
  ∧ "x0" ∉ nonbasic_variables (initial_dictionary (sample_standard_form None)).
Proof.
  destruct (initial_dictionary_partition (sample_standard_form None) "x0")
    as (HB & HN & _ & _ & _ & _ & _ & Hiff & _).
  - apply sample_standard_form_well_formed. by left.
  - reflexivity.
  - split; [by rewrite HB |]. split; [by rewrite HN |].
    rewrite Hiff. done.
Defined.

(** ** From the initial dictionary of the auxiliary problem back to the problem *)

Lemma vadd_zeros_l (cs : list Qc) : vadd (zeros (length cs)) cs = cs.
Proof.
  unfold vadd, zeros. induction cs as [| a cs IH]; simpl; [done |].
  f_equal; [ring | done].
Qed.

(** Rewriting an objective whose variables are all nonbasic adds its
    coefficients to the objective row and leaves the value as it is. *)
Lemma substitute_objective_nonbasic A b B (pre suf : list string)
    (cs c_pre c_suf : list Qc) (v : Qc) :
  NoDup (pre ++ suf) →
  length c_pre = length pre → length cs = length suf → length c_suf = length suf →
  substitute_objective A b B (pre ++ suf) (zip cs suf) (c_pre ++ c_suf) v
  = Ok (c_pre ++ vadd c_suf cs, v).
Proof.
  revert pre cs c_pre c_suf.
  induction suf as [| x suf IH]; intros pre cs c_pre c_suf Hnd Hpre Hcs Hsuf.
  - destruct cs; [| done]. by destruct c_suf.
  - destruct cs as [| a cs]; [done |]. destruct c_suf as [| ck c_suf]; [done |].
    cbn [zip zip_with substitute_objective].
    assert (index x (pre ++ x :: suf) = Some (length pre)) as ->.
    { apply index_NoDup; [done |]. by rewrite list_lookup_middle. }
    assert (get (c_pre ++ ck :: c_suf) (length pre) = ck) as ->.
    { unfold get. by rewrite list_lookup_middle. }
    rewrite <- Hpre, insert_app_r_alt, Nat.sub_diag by lia. cbn [insert list_insert].
    rewrite (cons_middle x pre suf), (cons_middle (ck + a) c_pre c_suf), !(assoc_L (++)).
    rewrite (IH (pre ++ [x]) cs (c_pre ++ [ck + a]) c_suf).
    + by rewrite <- !(assoc_L (++)).
    + by rewrite <- (assoc_L (++)).
    + rewrite !length_app. simpl. lia.
    + simpl in Hcs. lia.
    + simpl in Hsuf. lia.
Qed.

Lemma is_feasible_Forall (d : LPDictionary) :
  is_feasible d = true ↔ Forall (λ bi, (0 ≤ bi)%Qc) (dict_b d).
Proof.
  unfold is_feasible. simpl. rewrite forallb_forall, Forall_forall.
  split; intros H bi Hbi.
  - by apply Qcleb_le, H, list_elem_of_In.
  - by apply Qcleb_le, H, list_elem_of_In.
Qed.

Lemma feasible_dictionary_data_initial_auxiliary (P : InteractiveLPProblemStandardForm)
    (x0 : string) (slack : list string) z st pda :
  well_formed P →
  length (_x P) = n P → length slack = m P →
  _R P = x0 :: _x P ++ slack →
  Forall (λ bi, (0 ≤ bi)%Qc) (_b P) →
  feasible_dictionary_data P
    {| dict_A := (λ r, (-1) :: r) <$> _A P; dict_b := _b P;
       dict_c := (-1) :: zeros (n P); dict_v := 0;
       dict_B := slack; dict_N := x0 :: _x P;
       dict_z := z; dict_style := st; dict_problem_type_pda := pda |}
  = Ok {| dict_A := _A P; dict_b := _b P; dict_c := _c P; dict_v := 0;
          dict_B := slack; dict_N := _x P;
          dict_z := _objective P; dict_style := _style P;
          dict_problem_type_pda := Some "ordinary primal dictionary" |}.
Proof.
  intros Hwf Hx Hs HR Hb.
  pose proof Hwf as (_ & _ & _ & _ & Hnd & _).
  assert (NoDup (_x P)) as Hndx.
  { rewrite HR in Hnd. apply NoDup_cons in Hnd as [_ Hnd].
    by apply NoDup_app in Hnd as [Hnd _]. }
  unfold feasible_dictionary_data, auxiliary_variable. rewrite HR.
  cbn [lookup list_lookup from_option mbind result_bind nonbasic_variables
       LPDictionary_abstract dict_N dict_A dict_b dict_c dict_v dict_B].
  rewrite check_true by (apply bool_decide_eq_true; by left).
  rewrite check_true by (by apply is_feasible_Forall).
  cbn [index]. rewrite (decide_True (P := x0 = x0)) by done.
  cbn [from_option mbind result_bind].
  assert (remove_at 0 (x0 :: _x P) = _x P) as -> by reflexivity.
  assert (remove_at 0 <$> ((λ r, (-1) :: r) <$> _A P) = _A P) as ->.
  { rewrite <- list_fmap_compose. rewrite <- (list_fmap_id (_A P)) at 2.
    apply list_fmap_ext. intros i r _. reflexivity. }
  assert ((length ((-1)%Qc :: zeros (n P)) - 1)%nat = n P) as ->.
  { simpl. unfold zeros. rewrite length_replicate. lia. }
  pose proof (substitute_objective_nonbasic (_A P) (_b P) slack [] (_x P) (_c P) []
                (zeros (n P)) 0) as Hsub.
  simpl in Hsub. rewrite Hsub; [| done | done | by rewrite Hx
                                | unfold zeros; by rewrite length_replicate, Hx].
  cbn [mbind result_bind]. unfold n. by rewrite vadd_zeros_l.
Qed.


Lemma initial_dictionary_auxiliary (P : InteractiveLPProblemStandardForm)
    (x0 : string) (slack : list string) st pda z :
  (0 < m P)%nat → length (_x P) = n P → length slack = m P →
  initial_dictionary
    {| base := {| _A := (λ r, (-1) :: r) <$> _A P;
                  _b := _b P;
                  _c := (-1) :: zeros (n P);
                  _x := x0 :: _x P;
                  _constraint_types := replicate (m P) CLe;
                  _variable_types := replicate (S (n P)) VGe;
                  _direction := Max;
                  _is_negative := false;
                  _prefix := "x";
                  _style := st;
                  _problem_type_pda := pda;
                  _objective := z |};
       _R := x0 :: _x P ++ slack |}
  = {| dict_A := (λ r, (-1) :: r) <$> _A P; dict_b := _b P;
       dict_c := (-1) :: zeros (n P); dict_v := 0;
       dict_B := slack; dict_N := x0 :: _x P;
       dict_z := z; dict_style := st; dict_problem_type_pda := pda |}.
Proof.
  intros Hm Hx Hs.
  assert (slack ≠ []) as Hne by (apply nonempty_length; lia).
  unfold initial_dictionary, m, n.
  cbn [base _A _b _c _R _style _problem_type_pda _objective].
  pose proof (slice_last_app (x0 :: _x P) slack Hne) as Hl.
  pose proof (slice_mid_app [] (x0 :: _x P) slack Hne) as Hmid.
  unfold m, n in *.
  rewrite Hs in Hl, Hmid. cbn [length app] in Hl, Hmid. rewrite Hx in Hmid.
  cbn [length]. unfold zeros at 2 3. rewrite length_replicate.
  cbn [app] in *.
  rewrite Hl, Hmid. done.
Qed.

(** X9: deriving a feasible dictionary from the untouched initial
    dictionary of the auxiliary problem.  For a well-formed problem
    with no negative right-hand side, [feasible_dictionary] applied to
    the initial dictionary of [auxiliary_problem] returns a new
    dictionary with the matrix, vectors, value and variables of the
    initial dictionary of the problem itself, labelled with the style
    and objective name of the problem and as an "ordinary primal
    dictionary"; with a negative right-hand side it raises the error of
    an infeasible auxiliary dictionary and leaves the store as it
    is. *)
Theorem feasible_dictionary_of_initial_auxiliary (P : InteractiveLPProblemStandardForm)
    (objective : objective_name) (x0 : string) :
  well_formed P →
  auxiliary_variable P = Ok x0 →
  x0 ∉ decision_variables P →
  ∃ P', auxiliary_problem P objective = Ok P'
    ∧ ∀ σ r, snapshot σ r = Some (initial_dictionary P') →
        (Forall (λ bi, (0 ≤ bi)%Qc) (_b P) →
         ∃ r' σ' d, feasible_dictionary P r σ = (Ok r', σ')
           ∧ snapshot σ' r' = Some d
           ∧ snapshot σ' r = Some (initial_dictionary P')
           ∧ dict_content d = dict_content (initial_dictionary P)
           ∧ dict_z d = _objective P
           ∧ dict_style d = _style P
           ∧ dict_problem_type_pda d = Some "ordinary primal dictionary")
        ∧ (Exists (λ bi, (bi < 0)%Qc) (_b P) →
           feasible_dictionary P r σ = (Raise Auxiliary_dictionary_must_be_feasible, σ)).
Proof.
  intros Hwf Hx0 Hnotin.
  destruct (well_formed_generic P x0 Hwf Hx0 Hnotin) as (slack & Hx & Hs & HR).
  destruct (well_formed_variables P Hwf) as (slack' & Hslack & _ & _ & _ & HB & HN).
  assert (slack' = slack) as ->.
  { rewrite <- Hslack. apply (well_formed_slack P x0); [apply Hwf | done | by left]. }
  eexists. split; [by apply (auxiliary_problem_Ok P objective x0 slack) |].
  intros σ r.
  rewrite initial_dictionary_auxiliary; [| apply Hwf | done | done].
  intros Hsnap. unfold feasible_dictionary. rewrite Hsnap.
  split.
  - intros Hb.
    rewrite (feasible_dictionary_data_initial_auxiliary P x0 slack) by done.
    rewrite LPDictionary__init__alloc.
    do 3 eexists. split; [done |].
    split; [apply snapshot_new |].
    split; [by apply snapshot_app |].
    unfold dict_content, initial_dictionary. simpl. by rewrite HB, HN.
  - intros Hex. unfold feasible_dictionary_data. rewrite Hx0.
    cbn [mbind result_bind nonbasic_variables LPDictionary_abstract dict_N].
    rewrite check_true by (apply bool_decide_eq_true; by left).
    rewrite check_false; [done |].
    apply not_true_is_false. rewrite is_feasible_Forall. simpl.
    intros Hall. apply Exists_exists in Hex as (bi & Hbi & Hneg).
    rewrite Forall_forall in Hall. apply Hall in Hbi.
    by apply Qclt_not_le in Hneg.
Qed.

Lemma feasible_dictionary_of_initial_auxiliary_witness :
  ∃ P', auxiliary_problem (sample_standard_form None) ObjNone = Ok P'
    ∧ ∃ r' σ' d,
        feasible_dictionary (sample_standard_form None) 5
          (LPDictionary__init__ (initial_dictionary P') []).2 = (Ok r', σ')
        ∧ snapshot σ' r' = Some d
        ∧ dict_content d = dict_content (initial_dictionary (sample_standard_form None)).
Proof.
  destruct (feasible_dictionary_of_initial_auxiliary (sample_standard_form None)
              ObjNone "x0") as (P' & HP' & H).
  - apply sample_standard_form_well_formed. by left.
  - reflexivity.
  - intros Hin. apply list_elem_of_In in Hin. simpl in Hin.
    repeat destruct Hin as [Hin | Hin]; done.
  - exists P'. split; [done |].
    destruct (H (LPDictionary__init__ (initial_dictionary P') []).2 5%nat) as [Hok _].
    + rewrite LPDictionary__init__alloc. apply (snapshot_new []).
    + destruct Hok as (r' & σ' & d & Hcall & Hsnap & _ & Hcontent & _).
      * repeat constructor; by vm_compute.
      * by exists r', σ', d.
Defined.

(** ** The default basis and the auxiliary variable *)

(** X10: the default basis of [revised_dictionary] has one variable
    for each constraint; the auxiliary variable is in it exactly when
    some entry of [b] is negative, and then at one place only; at
    every other place stands the slack variable of that row. *)
Theorem default_basis_auxiliary_variable (P : InteractiveLPProblemStandardForm)
    (x0 : string) :
  _b P ≠ [] →
  length (slack_variables P) = m P →
  auxiliary_variable P = Ok x0 →
  x0 ∉ slack_variables P →
  ∃ x_B, default_basis P = Ok x_B
    ∧ length x_B = m P
    ∧ (x0 ∈ x_B ↔ Exists (λ bi, (bi < 0)%Qc) (_b P))
    ∧ (∀ i x, x_B !! i = Some x → x ≠ x0 → slack_variables P !! i = Some x)
    ∧ (∀ i j, x_B !! i = Some x0 → x_B !! j = Some x0 → i = j).
Proof.
  intros Hb Hslack Hx0 Hnotin.
  destruct (py_min_spec (_b P) Hb) as (bm & Hmin & Hin & Hle).
  unfold default_basis. rewrite Hmin. cbn [mbind result_bind].
  destruct (Qcltb bm 0) eqn:Hneg.
  - apply Qcltb_lt in Hneg.
    destruct (index_elem_of bm (_b P) Hin) as [i Hi]. rewrite Hi, Hx0.
    cbn [from_option mbind result_bind].
    assert (i < length (slack_variables P))%nat as Hlt.
    { rewrite Hslack. apply index_lookup in Hi as [Hi _]. by apply lookup_lt_Some in Hi. }
    rewrite check_true by (by apply bool_decide_eq_true).
    eexists. split; [done |].
    split; [by rewrite length_insert |].
    split.
    { split; [intros _ | intros _; by apply list_elem_of_insert].
      apply Exists_exists. by exists bm. }
    split.
    + intros j x Hj Hne. apply list_lookup_insert_Some in Hj as [(_ & <- & _) | [_ Hj]]; done.
    + intros j k Hj Hk.
      apply list_lookup_insert_Some in Hj as [(<- & _) | [_ Hj]];
        [| exfalso; apply Hnotin; by apply list_elem_of_lookup_2 in Hj].
      apply list_lookup_insert_Some in Hk as [(<- & _) | [_ Hk]];
        [done | exfalso; apply Hnotin; by apply list_elem_of_lookup_2 in Hk].
  - apply Qcltb_ge in Hneg. eexists. split; [done |].
    split; [done |].
    split.
    { split; [done |]. intros (bi & Hbi & Hlt)%Exists_exists. exfalso.
      rewrite Forall_forall in Hle. apply Hle in Hbi.
      apply (Qclt_not_le _ _ Hlt). by apply (Qcle_trans _ bm). }
    split; [done |].
    intros i j Hi. exfalso. apply Hnotin. by apply list_elem_of_lookup_2 in Hi.
Qed.

Lemma default_basis_auxiliary_variable_witness :
  ∃ x_B, default_basis sample_infeasible = Ok x_B
    ∧ length x_B = 3%nat
    ∧ "x0" ∈ x_B.
Proof.
  destruct (default_basis_auxiliary_variable sample_infeasible "x0")
    as (x_B & HxB & Hlen & Hiff & _).
  - done.
  - reflexivity.
  - reflexivity.
  - intros Hin. apply list_elem_of_In in Hin. simpl in Hin.
    repeat destruct Hin as [Hin | Hin]; done.
  - exists x_B. split; [done |]. split; [done |].
    apply Hiff. apply Exists_cons_hd. by vm_compute.
Defined.

(** X11: the order in which [revised_dictionary] fails when the
    constructor refuses the style of the problem.  With a basis the
    style error is raised, for auxiliary problems too and whatever the
    basis is; without a basis the default basis is computed first, so
    a problem without constraints fails on the minimum of the empty
    [b], and the style error is raised once the default basis has been
    found. *)
Theorem revised_dictionary_error_order
    (inverse : list (list Qc) → list (list Qc))
    (revised_style_accepted : option string → bool)
    (P : InteractiveLPProblemStandardForm) (x_B : list string) :
  revised_style_accepted (_style P) = false →
  (x_B ≠ [] →
   revised_dictionary inverse revised_style_accepted P x_B
   = Raise Revised_style_must_be_vanderbei)
  ∧ (_b P = [] →
     revised_dictionary inverse revised_style_accepted P [] = Raise Min_of_empty_sequence)
  ∧ (is_Ok (default_basis P) = true →
     revised_dictionary inverse revised_style_accepted P []
     = Raise Revised_style_must_be_vanderbei).
Proof.
  intros Hacc. split; [| split].
  - intros Hne. unfold revised_dictionary.
    destruct x_B as [| x x_B]; [done |]. cbn [mbind result_bind].
    unfold LPRevisedDictionary__init__. by rewrite Hacc.
  - intros Hb. unfold revised_dictionary, default_basis. by rewrite Hb.
  - intros Hok. unfold revised_dictionary.
    destruct (default_basis P) as [x_B' |]; [| done]. cbn [mbind result_bind].
    unfold LPRevisedDictionary__init__. by rewrite Hacc.
Qed.

Lemma revised_dictionary_error_order_witness :
  revised_dictionary (λ M, M) (λ _, false) (sample_standard_form None) ["x3"; "x4"]
  = Raise Revised_style_must_be_vanderbei
  ∧ revised_dictionary (λ M, M) (λ _, false) (sample_standard_form None) []
    = Raise Revised_style_must_be_vanderbei.
Proof.
  destruct (revised_dictionary_error_order (λ M, M) (λ _, false)
              (sample_standard_form None) ["x3"; "x4"]) as (H1 & _ & H3).
  - reflexivity.
  - split; [by apply H1 | by apply H3].
Defined.

(** ** The dual of the dual *)

Lemma transpose_transpose (k l : nat) (M : list (list Qc)) :
  rectangular k l M → transpose k (transpose l M) = M.
Proof.
  intros HM. pose proof HM as [Hlen _]. apply list_eq. intros i.
  unfold transpose at 1. rewrite list_lookup_fmap.
  destruct (decide (i < k)%nat) as [Hi | Hi].
  - rewrite lookup_seq_lt by done. simpl.
    destruct (lookup_lt_is_Some_2 M i) as [r Hr]; [lia |]. rewrite Hr. f_equal.
    pose proof (rectangular_lookup _ _ _ _ _ HM Hr) as Hlr.
    apply list_eq_get; [by rewrite length_col, length_transpose |].
    intros j Hj. rewrite length_col, length_transpose in Hj.
    rewrite get_col, entry_transpose by done. by apply entry_lookup.
  - rewrite lookup_seq_ge by lia. simpl. symmetry. apply lookup_ge_None_2. lia.
Qed.

Lemma dual_types_twice (d : direction) :
  (∀ ct, dual_constraint_type (flip d) (dual_variable_type d ct) = ct)
  ∧ (∀ vt, dual_variable_type (flip d) (dual_constraint_type d vt) = vt).
Proof. split; intros []; by destruct d. Qed.

(** X12: the dual of the dual of a well-shaped problem has the numbers
    of the problem, its matrix, vectors, relations, domains, direction
    and sign; it does not have its names and label: by default its
    variables are [y1 .. yn], and it is labelled "dual". *)
Theorem dual_dual (self : InteractiveLPProblem) (objective objective' : objective_name) :
  well_shaped self →
  recognized (_style self) →
  ∃ D DD, dual self None objective = Ok D
    ∧ dual D None objective' = Ok DD
    ∧ numeric DD = numeric self
    ∧ _x DD = gen_names "y" 1 (n self)
    ∧ _problem_type_pda DD = Some "dual"
    ∧ _style DD = _style self.
Proof.
  intros Hw Hst. pose proof Hw as (HA & Hx & Hc & Hv).
  do 2 eexists.
  split; [apply dual_Ok; [done | by left |];
          unfold dual_names; simpl; by rewrite length_gen_names |].
  split.
  { apply dual_Ok.
    - unfold well_shaped, m, n. simpl. rewrite !length_fmap.
      split; [apply rectangular_transpose, HA |].
      unfold dual_names. simpl. by rewrite length_gen_names.
    - by left.
    - unfold dual_names. simpl. by rewrite length_gen_names. }
  simpl. unfold numeric, dual_names, m, n. simpl.
  split; [| done].
  pose proof (transpose_transpose _ _ _ HA) as Htt. unfold m, n in Htt. rewrite Htt.
  rewrite <- !list_fmap_compose.
  destruct (dual_types_twice (_direction self)) as [Hct Hvt].
  rewrite (list_fmap_ext _ id (_variable_types self)) by (intros; apply Hvt).
  rewrite (list_fmap_ext _ id (_constraint_types self)) by (intros; apply Hct).
  rewrite !list_fmap_id. by destruct (_direction self).
Qed.

Lemma dual_dual_witness :
  ∃ D DD, dual sample_general None ObjNone = Ok D
    ∧ dual D None ObjNone = Ok DD
    ∧ numeric DD = numeric sample_general
    ∧ _x DD = ["y1"; "y2"; "y3"].
Proof.
  destruct (dual_dual sample_general ObjNone ObjNone)
    as (D & DD & HD & HDD & Hnum & Hx & _).
  - apply sample_general_well_shaped.
  - by left.
  - exists D, DD. by rewrite Hx.
Defined.

(** ** The style tag across a chain of operations *)















(** * Properties of mixed integer linear programs *)

Import mip.

(** ** Running a computation *)

Lemma run_bind {A B} (c : M A) (k : A → M B) (w : world) :
  (c ≫= k) w = match c w with
               | (Ok a, w') => k a w'
               | (Raise e, w') => (Raise e, w')
               end.
Proof. reflexivity. Qed.

Lemma run_bind_Ok {A B} (c : M A) (k : A → M B) (w w' : world) (a : A) :
  c w = (Ok a, w') → (c ≫= k) w = k a w'.
Proof. intros H. by rewrite run_bind, H. Qed.

Lemma run_bind_Raise {A B} (c : M A) (k : A → M B) (w w' : world) (e : exn) :
  c w = (Raise e, w') → (c ≫= k) w = (Raise e, w').
Proof. intros H. by rewrite run_bind, H. Qed.

(** A loop keeps what each of its rounds keeps. *)
Lemma for_each_invariant {A} (I : world → Prop) (l : list A) (body : A → M unit) :
  (∀ a w, a ∈ l → I w → I (body a w).2) →
  ∀ w, I w → I (for_each l body w).2.
Proof.
  induction l as [| a l IH]; intros Hbody w Hw; [done |].
  cbn [for_each]. rewrite run_bind.
  pose proof (Hbody a w ltac:(by left) Hw) as Ha.
  destruct (body a w) as [[[] | e] w1]; [| done].
  apply IH; [| done]. intros a' w' Hin. apply Hbody. by right.
Qed.

(** The same for what the rounds keep when they return. *)
Lemma for_each_invariant_Ok {A} (I : world → Prop) (l : list A) (body : A → M unit) :
  (∀ a w, a ∈ l → I w → is_Ok (body a w).1 = true → I (body a w).2) →
  ∀ w, I w → is_Ok (for_each l body w).1 = true → I (for_each l body w).2.
Proof.
  induction l as [| a l IH]; intros Hbody w Hw; [done |].
  cbn [for_each]. rewrite run_bind.
  pose proof (Hbody a w ltac:(by left) Hw) as Ha.
  destruct (body a w) as [[[] | e] w1]; simpl in *; [| done].
  apply IH; [| by apply Ha]. intros a' w' Hin. apply Hbody. by right.
Qed.

Lemma symbol_inj (i j : nat) : symbol i = symbol j → i = j.
Proof.
  unfold symbol. intros H. simpl in H. injection H as H.
  exact (pretty_nat_inj _ _ H).
Qed.

(** The name of the next variable is not in use. *)
Lemma symbol_fresh (w : world) :
  wf w → _variables (program w) !! symbol (size (_variables (program w))) = None.
Proof.
  intros Hwf. destruct (_ !! _) as [i |] eqn:E; [| done].
  apply (wf_variables w Hwf) in E as [E Hlt].
  apply symbol_inj in E. lia.
Qed.
Lemma add_element_run (t : Z) (w : world) :
  _add_element_to_ring t w
  = (Ok (symbol (size (_variables (program w)))),
     {| program :=
          with_variables_bounds_max (_variables_bounds_max (program w) ++ [None])
            (with_variables_bounds_min (_variables_bounds_min (program w) ++ [Some 0])
               (with_variables_type (_variables_type (program w) ++ [t])
                  (with_variables
                     (<[symbol (size (_variables (program w)))
                        := size (_variables (program w))]> (_variables (program w)))
                     (program w))));
        heap := heap w |}).
Proof. reflexivity. Qed.

Lemma wf_add_element (t : Z) (w : world) :
  wf w → wf (_add_element_to_ring t w).2.
Proof.
  intros Hwf. rewrite add_element_run. cbn [snd].
  pose proof (symbol_fresh w Hwf) as Hfresh.
  destruct Hwf as [Hv Ht Hmin Hmax Hs Ho Hu Hm Hd Hc Hmat Hobj].
  constructor; simpl; rewrite ?map_size_insert_None by done; rewrite ?length_app; simpl.
  - intros v i [[<- <-] | [Hne Hvi]]%lookup_insert_Some; [split; [done | lia] |].
    destruct (Hv v i Hvi). split; [done | lia].
  - lia.
  - lia.
  - lia.
  - intros r o k v Hr Hk. destruct (Hs r o k v Hr Hk) as [Hdim [i Hi]].
    split; [done |].
    destruct (decide (v = symbol (size (_variables (program w))))) as [-> | Hne].
    + rewrite lookup_insert_eq. by eexists.
    + rewrite lookup_insert_ne by done. by eexists.
  - done.
  - done.
  - done.
  - done.
  - done.
  - destruct Hmat as (? & ? & ? & HJ). do 3 (split; [done |]).
    eapply Forall_impl; [exact HJ |]. simpl. intros; lia.
  - destruct (_objective_i (program w)), (_objective_values (program w)); try done.
    destruct Hobj as [? HI]. split; [done |].
    eapply Forall_impl; [exact HI |]. simpl. intros; lia.
Qed.
Lemma new_variable_run (t dim : Z) (name : option string) (w : world) :
  new_variable t dim name w
  = (Ok (length (heap w)),
     {| program := with_mipvariables (_mipvariables (program w) ++ [length (heap w)])
                     (program w);
        heap := heap w
                ++ [MIPVariable__init__ t dim
                      (Some (default ("V" +:+ pretty (length (_mipvariables (program w))))
                               name))] |}).
Proof. by destruct name. Qed.

Lemma wf_new_variable (t dim : Z) (name : option string) (w : world) :
  wf w → wf (new_variable t dim name w).2.
Proof.
  intros Hwf. rewrite new_variable_run. cbn [snd].
  destruct Hwf as [Hv Ht Hmin Hmax Hs Ho Hu Hm Hd Hc Hmat Hobj].
  assert (∀ r o k, (heap w ++ [MIPVariable__init__ t dim
            (Some (default ("V" +:+ pretty (length (_mipvariables (program w)))) name))])
            !! r = Some o → is_Some (_dict o !! k) → heap w !! r = Some o) as Hold.
  { intros r o k [Hr | [_ Hr]]%lookup_app_Some Hk; [done |].
    apply list_lookup_singleton_Some in Hr as [_ <-]. simpl in Hk.
    rewrite lookup_empty in Hk. by destruct Hk. }
  constructor; simpl; try done.
  - intros r o k v Hr Hk. apply (Hs r o k v); [| done]. by eapply Hold.
  - intros r o k r' Hr Hk. rewrite length_app. simpl.
    destruct (Ho r o k r'); [by eapply Hold | done |]. split; [done | lia].
  - intros r1 o1 k1 r2 o2 k2 v H1 Hk1 H2 Hk2.
    apply (Hu r1 o1 k1 r2 o2 k2 v); try done; by eapply Hold.
  - intros r [Hr | ->%list_elem_of_singleton]%elem_of_app.
    + destruct (Hm r Hr) as (o & Hro & Hname). exists o. split; [| done].
      by apply lookup_app_l_Some.
    + eexists. split; [apply list_lookup_middle; done |]. by eexists.
  - intros d Hdef. apply elem_of_app. left. by apply Hd.
Qed.

Lemma MIPVariable__getitem__run (r : nat) (i : key) (w : world) :
  MIPVariable__getitem__ r i w
  = match heap w !! r with
    | None => (Raise DanglingReference, w)
    | Some o =>
        match _dict o !! i with
        | Some v => (Ok v, w)
        | None =>
            if decide (_dim o = 1%Z) then
              let v := symbol (size (_variables (program w))) in
              (Ok (Symbol v),
               {| program := program (_add_element_to_ring (_vtype o) w).2;
                  heap := <[r := with_dict (<[i := Symbol v]> (_dict o)) o]> (heap w) |})
            else
              let v := length (heap w) in
              (Ok (Object v),
               {| program := program w;
                  heap := <[r := with_dict (<[i := Object v]> (_dict o)) o]>
                            (heap w ++ [MIPVariable__init__ (_vtype o) (_dim o - 1) None]) |})
        end
    end.
Proof.
  unfold MIPVariable__getitem__. rewrite run_bind. unfold object at 1.
  destruct (heap w !! r) as [o |] eqn:Hr; [| done].
  destruct (_dict o !! i) as [v |]; [done |].
  destruct (decide (_dim o = 1%Z)).
  - rewrite run_bind, add_element_run. rewrite run_bind. unfold assign_object.
    cbn [heap]. rewrite Hr. done.
  - rewrite run_bind. unfold new at 1. rewrite run_bind. unfold assign_object.
    cbn [heap]. rewrite (lookup_app_l_Some _ _ _ _ Hr). done.
Qed.
(** Reading the dictionary of an object after one entry of one object
    has been written. *)
Lemma lookup_written (h : list MIPVariable) (r : nat) (o : MIPVariable) (i : key)
    (x : value) (r' : nat) (o' : MIPVariable) (k : key) (v : value) :
  h !! r = Some o →
  <[r := with_dict (<[i := x]> (_dict o)) o]> h !! r' = Some o' →
  _dict o' !! k = Some v →
  (r' = r ∧ k = i ∧ v = x ∧ _dim o' = _dim o)
  ∨ (∃ o'', h !! r' = Some o'' ∧ _dict o'' !! k = Some v ∧ _dim o'' = _dim o'
            ∧ _mipvariable_name o'' = _mipvariable_name o').
Proof.
  intros Hr Hr' Hk.
  apply list_lookup_insert_Some in Hr' as [(<- & <- & _) | [Hne Hr']].
  - simpl in Hk. apply lookup_insert_Some in Hk as [[<- <-] | [_ Hk]].
    + by left.
    + right. by exists o.
  - right. by exists o'.
Qed.

Lemma wf_MIPVariable__getitem__ (r : nat) (i : key) (w : world) :
  wf w → wf (MIPVariable__getitem__ r i w).2.
Proof.
  intros Hwf. rewrite MIPVariable__getitem__run.
  destruct (heap w !! r) as [o |] eqn:Hr; [| done].
  destruct (_dict o !! i) as [v |] eqn:Hi; [done |].
  pose proof (symbol_fresh w Hwf) as Hfresh.
  destruct (decide (_dim o = 1%Z)) as [Hdim | Hdim]; cbn [snd].
  - pose proof (wf_add_element (_vtype o) w Hwf) as Hwf'.
    rewrite add_element_run in Hwf' |- *. cbn [snd] in *.
    destruct Hwf as [_ _ _ _ Hs0 Ho0 Hu0 _ _ _ _ _].
    destruct Hwf' as [Hv Ht Hmin Hmax Hs Ho Hu Hm Hd Hc Hmat Hobj].
    cbn [program heap] in *.
    constructor; cbn [program heap]; try done.
    + intros r' o' k v Hr' Hk.
      destruct (lookup_written _ _ _ _ _ _ _ _ _ Hr Hr' Hk)
        as [(-> & -> & [= ->] & Hd') | (o'' & Hr'' & Hk' & Hd' & _)].
      * split; [congruence |]. simpl. rewrite lookup_insert_eq. by eexists.
      * rewrite <- Hd'. by apply (Hs r' o'' k v).
    + intros r' o' k v Hr' Hk. rewrite length_insert.
      destruct (lookup_written _ _ _ _ _ _ _ _ _ Hr Hr' Hk)
        as [(-> & -> & [=] & _) | (o'' & Hr'' & Hk' & Hd' & _)].
      rewrite <- Hd'. by apply (Ho r' o'' k v).
    + intros r1 o1 k1 r2 o2 k2 v H1 Hk1 H2 Hk2.
      destruct (lookup_written _ _ _ _ _ _ _ _ _ Hr H1 Hk1)
        as [(-> & -> & -> & _) | (o1' & H1' & Hk1' & _)];
        destruct (lookup_written _ _ _ _ _ _ _ _ _ Hr H2 Hk2)
        as [(-> & -> & Hv2 & _) | (o2' & H2' & Hk2' & _)].
      * done.
      * exfalso. destruct (Hs0 r2 o2' k2 _ H2' Hk2') as [_ [j Hj]]. congruence.
      * exfalso. subst v. destruct (Hs0 r1 o1' k1 _ H1' Hk1') as [_ [j Hj]]. congruence.
      * by apply (Hu0 r1 o1' k1 r2 o2' k2 v).
    + intros r' Hin. destruct (Hm r' Hin) as (o' & Hr' & Hname).
      destruct (decide (r' = r)) as [-> | Hne].
      * eexists. split; [apply list_lookup_insert_eq; by eapply lookup_lt_Some |].
        simpl. congruence.
      * exists o'. split; [by rewrite list_lookup_insert_ne |]. done.
  - destruct Hwf as [Hv Ht Hmin Hmax Hs Ho Hu Hm Hd Hc Hmat Hobj].
    set (new := MIPVariable__init__ (_vtype o) (_dim o - 1) None).
    assert ((heap w ++ [new]) !! r = Some o) as Hr2 by (by apply lookup_app_l_Some).
    assert (∀ r' o' k v, (heap w ++ [new]) !! r' = Some o' → _dict o' !! k = Some v →
                         heap w !! r' = Some o') as Hold.
    { intros r' o' k v [H' | [_ H']]%lookup_app_Some Hk; [done |].
      apply list_lookup_singleton_Some in H' as [_ <-]. simpl in Hk.
      by rewrite lookup_empty in Hk. }
    constructor; cbn [program heap]; try done.
    + intros r' o' k v Hr' Hk.
      destruct (lookup_written _ _ _ _ _ _ _ _ _ Hr2 Hr' Hk)
        as [(-> & -> & [=] & _) | (o'' & Hr'' & Hk' & Hd' & _)].
      rewrite <- Hd'. apply (Hs r' o'' k v); [by eapply Hold | done].
    + intros r' o' k v Hr' Hk. rewrite length_insert, length_app. simpl.
      destruct (lookup_written _ _ _ _ _ _ _ _ _ Hr2 Hr' Hk)
        as [(-> & -> & [= ->] & Hd') | (o'' & Hr'' & Hk' & Hd' & _)].
      * split; [congruence |]. apply lookup_lt_Some in Hr. lia.
      * rewrite <- Hd'. destruct (Ho r' o'' k v); [by eapply Hold | done |].
        split; [done | lia].
    + intros r1 o1 k1 r2 o2 k2 v H1 Hk1 H2 Hk2.
      destruct (lookup_written _ _ _ _ _ _ _ _ _ Hr2 H1 Hk1)
        as [(-> & -> & -> & _) | (o1' & H1' & Hk1' & _)];
        destruct (lookup_written _ _ _ _ _ _ _ _ _ Hr2 H2 Hk2)
        as [(-> & -> & Hv2 & _) | (o2' & H2' & Hk2' & _)].
      * done.
      * exfalso. destruct (Ho r2 o2' k2 _ (Hold _ _ _ _ H2' Hk2') Hk2'). lia.
      * exfalso. subst v. destruct (Ho r1 o1' k1 _ (Hold _ _ _ _ H1' Hk1') Hk1'). lia.
      * apply (Hu r1 o1' k1 r2 o2' k2 v); try done; by eapply Hold.
    + intros r' Hin. destruct (Hm r' Hin) as (o' & Hr' & Hname).
      destruct (decide (r' = r)) as [-> | Hne].
      * eexists. split; [apply list_lookup_insert_eq; by eapply lookup_lt_Some |].
        simpl. congruence.
      * exists o'. split; [| done].
        rewrite list_lookup_insert_ne by done. by apply lookup_app_l_Some.
Qed.

Lemma variable_index_run (v : value) (w : world) :
  variable_index v w
  = match variables_lookup (program w) v with
    | Some i => (Ok i, w)
    | None => (Raise KeyError, w)
    end.
Proof. unfold variable_index. rewrite run_bind. simpl. by destruct (variables_lookup _ _). Qed.

Lemma set_min_run (v : value) (x : option Qc) (w : world) :
  set_min v x w
  = match variables_lookup (program w) v with
    | None => (Raise KeyError, w)
    | Some i =>
        if decide (i < length (_variables_bounds_min (program w)))%nat then
          (Ok tt, {| program := with_variables_bounds_min
                                  (<[i := x]> (_variables_bounds_min (program w)))
                                  (program w);
                     heap := heap w |})
        else (Raise IndexError, w)
    end.
Proof.
  unfold set_min. rewrite run_bind. cbn [self]. rewrite run_bind, variable_index_run.
  destruct (variables_lookup _ _) as [i |]; [| done].
  rewrite run_bind. unfold setitem.
  by destruct (decide (i < length _)%nat).
Qed.

Lemma set_max_run (v : value) (x : option Qc) (w : world) :
  set_max v x w
  = match variables_lookup (program w) v with
    | None => (Raise KeyError, w)
    | Some i =>
        if decide (i < length (_variables_bounds_max (program w)))%nat then
          (Ok tt, {| program := with_variables_bounds_max
                                  (<[i := x]> (_variables_bounds_max (program w)))
                                  (program w);
                     heap := heap w |})
        else (Raise IndexError, w)
    end.
Proof.
  unfold set_max. rewrite run_bind. cbn [self]. rewrite run_bind, variable_index_run.
  destruct (variables_lookup _ _) as [i |]; [| done].
  rewrite run_bind. unfold setitem.
  by destruct (decide (i < length _)%nat).
Qed.

Lemma set_variable_type_run (v : value) (t : Z) (w : world) :
  set_variable_type v t w
  = match variables_lookup (program w) v with
    | None => (Raise KeyError, w)
    | Some i =>
        if decide (i < length (_variables_type (program w)))%nat then
          (Ok tt, {| program := with_variables_type
                                  (<[i := t]> (_variables_type (program w)))
                                  (program w);
                     heap := heap w |})
        else (Raise IndexError, w)
    end.
Proof.
  unfold set_variable_type. rewrite run_bind. cbn [self]. rewrite run_bind, variable_index_run.
  destruct (variables_lookup _ _) as [i |]; [| done].
  rewrite run_bind. unfold setitem.
  by destruct (decide (i < length _)%nat).
Qed.

Lemma float_overflows_0 : float_overflows 0 = false.
Proof. by vm_compute. Qed.

Lemma get_min_run (v : value) (w : world) :
  get_min v w
  = match variables_lookup (program w) v with
    | None => (Raise KeyError, w)
    | Some i =>
        match _variables_bounds_min (program w) !! i with
        | Some x => (float_bound x, w)
        | None => (Raise IndexError, w)
        end
    end.
Proof.
  unfold get_min. rewrite run_bind. cbn [self]. rewrite run_bind, variable_index_run.
  destruct (variables_lookup _ _) as [i |]; [| done].
  rewrite run_bind. unfold getitem.
  destruct (_ !! i) as [[x |] |]; [| done ..].
  cbn [from_option mret M_ret float_bound]. rewrite run_bind. unfold float_of.
  by destruct (float_overflows x).
Qed.

Lemma get_max_run (v : value) (w : world) :
  get_max v w
  = match variables_lookup (program w) v with
    | None => (Raise KeyError, w)
    | Some i =>
        match _variables_bounds_max (program w) !! i with
        | Some x => (float_bound x, w)
        | None => (Raise IndexError, w)
        end
    end.
Proof.
  unfold get_max. rewrite run_bind. cbn [self]. rewrite run_bind, variable_index_run.
  destruct (variables_lookup _ _) as [i |]; [| done].
  rewrite run_bind. unfold getitem.
  destruct (_ !! i) as [[x |] |]; [| done ..].
  cbn [from_option mret M_ret float_bound]. rewrite run_bind. unfold float_of.
  by destruct (float_overflows x).
Qed.

Lemma is_type_run (w : world) (e : value) :
  let type_is (t : Z) :=
    match variables_lookup (program w) e with
    | None => (Raise KeyError, w)
    | Some i =>
        match _variables_type (program w) !! i with
        | Some t' => (Ok (bool_decide (t' = t)), w)
        | None => (Raise IndexError, w)
        end
    end in
  is_binary e w = type_is __BINARY
  ∧ is_integer e w = type_is __INTEGER
  ∧ is_real e w = type_is __REAL.
Proof.
  unfold is_binary, is_integer, is_real. rewrite !run_bind. cbn [self].
  rewrite !run_bind, variable_index_run.
  destruct (variables_lookup _ _) as [i |]; [| done].
  rewrite !run_bind. unfold getitem.
  by destruct (_ !! i).
Qed.

(** Writing one entry of a list of types or bounds, or renaming,
    keeps the invariant. *)
Lemma wf_lists (w : world) (p' : MixedIntegerLinearProgram) :
  wf w →
  _variables p' = _variables (program w) →
  length (_variables_type p') = length (_variables_type (program w)) →
  length (_variables_bounds_min p') = length (_variables_bounds_min (program w)) →
  length (_variables_bounds_max p') = length (_variables_bounds_max (program w)) →
  _mipvariables p' = _mipvariables (program w) →
  _default_mipvariable p' = _default_mipvariable (program w) →
  _objective_i p' = _objective_i (program w) →
  _objective_values p' = _objective_values (program w) →
  _constraints_name p' = _constraints_name (program w) →
  _constraints_matrix_i p' = _constraints_matrix_i (program w) →
  _constraints_matrix_j p' = _constraints_matrix_j (program w) →
  _constraints_matrix_values p' = _constraints_matrix_values (program w) →
  _constraints_bounds_max p' = _constraints_bounds_max (program w) →
  _constraints_bounds_min p' = _constraints_bounds_min (program w) →
  wf {| program := p'; heap := heap w |}.
Proof.
  intros [Hv Ht Hmin Hmax Hs Ho Hu Hm Hd Hc Hmat Hobj] E1 E2 E3 E4 E5 E6 E7 E8 E9 E10 E11
    E12 E13 E14.
  constructor; cbn [program heap];
    rewrite ?E1, ?E2, ?E3, ?E4, ?E5, ?E6, ?E7, ?E8, ?E9, ?E10, ?E11, ?E12, ?E13, ?E14;
    done.
Qed.

Lemma wf_set_min (v : value) (x : option Qc) (w : world) : wf w → wf (set_min v x w).2.
Proof.
  intros Hwf. rewrite set_min_run.
  destruct (variables_lookup _ _) as [i |]; [| done].
  destruct (decide _); [| done].
  apply wf_lists; try done. simpl. by rewrite length_insert.
Qed.

Lemma wf_set_max (v : value) (x : option Qc) (w : world) : wf w → wf (set_max v x w).2.
Proof.
  intros Hwf. rewrite set_max_run.
  destruct (variables_lookup _ _) as [i |]; [| done].
  destruct (decide _); [| done].
  apply wf_lists; try done. simpl. by rewrite length_insert.
Qed.

Lemma wf_set_variable_type (v : value) (t : Z) (w : world) :
  wf w → wf (set_variable_type v t w).2.
Proof.
  intros Hwf. rewrite set_variable_type_run.
  destruct (variables_lookup _ _) as [i |]; [| done].
  destruct (decide _); [| done].
  apply wf_lists; try done. simpl. by rewrite length_insert.
Qed.

Lemma wf_set_problem_name (name : option string) (w : world) :
  wf w → wf (set_problem_name name w).2.
Proof. intros Hwf. by apply wf_lists. Qed.

Lemma wf_set_objective_name (name : option string) (w : world) :
  wf w → wf (set_objective_name name w).2.
Proof. intros Hwf. by apply wf_lists. Qed.

(** ** Computations that keep an invariant *)

Lemma preserves_bind (I : world → Prop) {A B} (c : M A) (k : A → M B) :
  preserves I c → (∀ a, preserves I (k a)) → preserves I (c ≫= k).
Proof.
  intros Hc Hk w Hw. rewrite run_bind. specialize (Hc w Hw).
  destruct (c w) as [[a | e] w']; [by apply Hk | done].
Qed.

Lemma preserves_ret (I : world → Prop) {A} (a : A) : preserves I (mret a).
Proof. by intros w Hw. Qed.

Lemma preserves_raise (I : world → Prop) {A} (e : exn) : preserves I (raise e : M A).
Proof. by intros w Hw. Qed.

Lemma preserves_from_option (I : world → Prop) {A} (o : option A) (e : exn) :
  preserves I (from_option o e).
Proof. destruct o; [apply preserves_ret | apply preserves_raise]. Qed.

Lemma preserves_self (I : world → Prop) : preserves I self.
Proof. by intros w Hw. Qed.

Lemma preserves_object (I : world → Prop) (r : nat) : preserves I (object r).
Proof. intros w Hw. unfold object. by destruct (heap w !! r). Qed.

Lemma preserves_reads (I : world → Prop) (r : nat) :
  preserves I (keys r) ∧ preserves I (items r) ∧ preserves I (values r)
  ∧ preserves I (depth r).
Proof.
  repeat split; (apply preserves_bind; [apply preserves_object |]);
    intros o; apply preserves_ret.
Qed.

Lemma preserves_getitem (I : world → Prop) {A} (l : list A) (i : nat) :
  preserves I (getitem l i).
Proof. apply preserves_from_option. Qed.

Lemma preserves_setitem (I : world → Prop) {A} (l : list A) (i : nat) (x : A) :
  preserves I (setitem l i x).
Proof. unfold setitem. destruct (decide _); [apply preserves_ret | apply preserves_raise]. Qed.

Lemma preserves_variable_index (I : world → Prop) (v : value) :
  preserves I (variable_index v).
Proof.
  apply preserves_bind; [apply preserves_self |]. intros p. apply preserves_from_option.
Qed.

Lemma preserves_for_each (I : world → Prop) {A} (l : list A) (body : A → M unit) :
  (∀ a, a ∈ l → preserves I (body a)) → preserves I (for_each l body).
Proof.
  intros Hbody w Hw. apply for_each_invariant; [| done].
  intros a w' Hin. by apply Hbody.
Qed.

(** ** The invariant is kept *)

Lemma wf_program (w : world) (p' : MixedIntegerLinearProgram) :
  wf w →
  _variables p' = _variables (program w) →
  length (_variables_type p') = length (_variables_type (program w)) →
  length (_variables_bounds_min p') = length (_variables_bounds_min (program w)) →
  length (_variables_bounds_max p') = length (_variables_bounds_max (program w)) →
  _mipvariables p' = _mipvariables (program w) →
  _default_mipvariable p' = _default_mipvariable (program w) →
  (length (_constraints_name p') = length (_constraints_bounds_min p')
   ∧ length (_constraints_bounds_max p') = length (_constraints_bounds_min p')) →
  (length (_constraints_matrix_i p') = length (_constraints_matrix_j p')
   ∧ length (_constraints_matrix_values p') = length (_constraints_matrix_j p')
   ∧ Forall (λ i, (i < length (_constraints_bounds_min p'))%nat) (_constraints_matrix_i p')
   ∧ Forall (λ j, (j < size (_variables (program w)))%nat) (_constraints_matrix_j p')) →
  match _objective_i p', _objective_values p' with
  | None, None => True
  | Some i, Some values =>
      length i = length values
      ∧ Forall (λ j, (j < size (_variables (program w)))%nat) i
  | _, _ => False
  end →
  wf {| program := p'; heap := heap w |}.
Proof.
  intros [Hv Ht Hmin Hmax Hs Ho Hu Hm Hd _ _ _] E1 E2 E3 E4 E5 E6 Hc Hmat Hobj.
  constructor; cbn [program heap]; rewrite ?E1, ?E2, ?E3, ?E4, ?E5, ?E6; done.
Qed.

Lemma wf_assign_vtype (r : nat) (t : option Z) :
  preserves wf (assign_object r (with_vtype t)).
Proof.
  intros w Hwf. unfold assign_object.
  destruct (heap w !! r) as [o |] eqn:Hr; [| done]. cbn [snd].
  assert (∀ r' o', <[r := with_vtype t o]> (heap w) !! r' = Some o' →
            ∃ o'', heap w !! r' = Some o'' ∧ _dict o'' = _dict o' ∧ _dim o'' = _dim o'
                   ∧ _mipvariable_name o'' = _mipvariable_name o') as Hold.
  { intros r' o' [(<- & <- & _) | [_ H]]%list_lookup_insert_Some; [by exists o | by exists o']. }
  destruct Hwf as [Hv Ht Hmin Hmax Hs Ho Hu Hm Hd Hc Hmat Hobj].
  constructor; cbn [program heap]; try done.
  - intros r' o' k v Hr' Hk. destruct (Hold r' o' Hr') as (o'' & H'' & Hdict & Hdim & _).
    rewrite <- Hdim. apply (Hs r' o'' k v); [done | by rewrite Hdict].
  - intros r' o' k v Hr' Hk. destruct (Hold r' o' Hr') as (o'' & H'' & Hdict & Hdim & _).
    rewrite <- Hdim, length_insert. apply (Ho r' o'' k v); [done | by rewrite Hdict].
  - intros r1 o1 k1 r2 o2 k2 v H1 Hk1 H2 Hk2.
    destruct (Hold r1 o1 H1) as (o1' & H1' & Hdict1 & _).
    destruct (Hold r2 o2 H2) as (o2' & H2' & Hdict2 & _).
    apply (Hu r1 o1' k1 r2 o2' k2 v); try done; [by rewrite Hdict1 | by rewrite Hdict2].
  - intros r' Hin. destruct (Hm r' Hin) as (o' & Hr' & Hname).
    destruct (decide (r' = r)) as [-> | Hne].
    + eexists. split; [apply list_lookup_insert_eq; by eapply lookup_lt_Some |].
      simpl. congruence.
    + exists o'. by rewrite list_lookup_insert_ne.
Qed.

Lemma wf_set_type (limit : nat) (t : Z) (e : value) : preserves wf (set_type limit t e).
Proof.
  revert e. induction limit as [| limit IH]; intros e; cbn [set_type];
    [apply preserves_raise |].
  destruct e as [v | r].
  - apply preserves_bind; [apply preserves_self |]. intros p.
    destruct (decide _); [| apply preserves_raise].
    intros w Hwf. by apply wf_set_variable_type.
  - apply preserves_bind; [apply wf_assign_vtype |]. intros _.
    apply preserves_bind; [apply preserves_reads |]. intros d.
    destruct (decide (d = 1%Z)).
    + apply preserves_bind; [apply preserves_reads |]. intros vs.
      apply preserves_for_each. intros v _ w Hwf. by apply wf_set_variable_type.
    + apply preserves_bind; [apply preserves_reads |]. intros ks.
      apply preserves_for_each. intros k _.
      apply preserves_bind; [| apply IH].
      intros w Hwf. by apply wf_MIPVariable__getitem__.
Qed.

Lemma wf_MixedIntegerLinearProgram__getitem__ (v : key) :
  preserves wf (MixedIntegerLinearProgram__getitem__ v).
Proof.
  unfold MixedIntegerLinearProgram__getitem__.
  apply preserves_bind; [apply preserves_self |]. intros p.
  destruct (_default_mipvariable p) as [d |].
  - intros w Hwf. by apply wf_MIPVariable__getitem__.
  - intros w Hwf. rewrite run_bind, new_variable_run, run_bind.
    unfold assign at 1. cbn [program heap].
    apply wf_MIPVariable__getitem__.
    pose proof (wf_new_variable (-1) 1 None w Hwf) as Hwf'.
    rewrite new_variable_run in Hwf'. cbn [snd] in Hwf'.
    destruct Hwf' as [Hv Ht Hmin Hmax Hs Ho Hu Hm Hd Hc Hmat Hobj].
    constructor; cbn [program heap] in *; try done.
    intros d [= <-]. apply elem_of_app. right. by left.
Qed.

(** ** The objective *)

Lemma set_objective_term_run (v : string) (coeff : Qc) (w : world) :
  set_objective_term (v, coeff) w
  = match _variables (program w) !! v with
    | None => (Raise KeyError, w)
    | Some i =>
        (Ok tt,
         {| program :=
              with_objective_values ((λ l, l ++ [coeff]) <$> _objective_values (program w))
                (with_objective_i ((λ l, l ++ [i]) <$> _objective_i (program w))
                   (program w));
            heap := heap w |})
    end.
Proof.
  unfold set_objective_term. rewrite run_bind, variable_index_run. simpl.
  by destruct (_variables (program w) !! v).
Qed.

Lemma wf_set_objective_term (term : string * Qc) : preserves wf (set_objective_term term).
Proof.
  destruct term as [v coeff]. intros w Hwf. rewrite set_objective_term_run.
  destruct (_variables (program w) !! v) as [i |] eqn:Hv; [| done]. cbn [snd].
  apply wf_program; try done; try apply Hwf.
  pose proof (wf_objective w Hwf) as Hobj. simpl.
  destruct (_objective_i (program w)) as [I |], (_objective_values (program w)) as [V |];
    try done.
  simpl. destruct Hobj as [Hlen HI]. rewrite !length_app. split; [simpl; lia |].
  apply Forall_app. split; [done |]. constructor; [| done].
  by apply (wf_variables w Hwf v i).
Qed.

Lemma set_objective_run (obj : linear_function) (w : world) :
  set_objective obj w
  = match obj with
    | Expression f _ => for_each (map_to_list f) set_objective_term
    | _ => mret tt
    end {| program := with_objective_values (Some [])
                        (with_objective_i (Some []) (program w));
           heap := heap w |}.
Proof. by destruct obj. Qed.

Lemma wf_set_objective (obj : linear_function) : preserves wf (set_objective obj).
Proof.
  intros w Hwf. rewrite set_objective_run.
  set (w0 := {| program := _; heap := heap w |}).
  assert (wf w0) as Hwf0.
  { apply wf_program; try done; try apply Hwf. }
  destruct obj as [| c | f c]; try done.
  by apply preserves_for_each; [intros; apply wf_set_objective_term |].
Qed.

(** ** Constraints *)

Lemma for_each_app {A} (l1 l2 : list A) (body : A → M unit) (w : world) :
  for_each (l1 ++ l2) body w = (for_each l1 body;; for_each l2 body) w.
Proof.
  revert w. induction l1 as [| a l1 IH]; intros w; simpl; [done |].
  rewrite !run_bind. destruct (body a w) as [[[] | e] w']; [| done].
  rewrite IH. by rewrite run_bind.
Qed.

Lemma add_constraint_term_run (c : nat) (v : string) (coeff : Qc) (w : world) :
  add_constraint_term c (v, coeff) w
  = match _variables (program w) !! v with
    | None =>
        (Raise KeyError,
         {| program := with_constraints_matrix_i (_constraints_matrix_i (program w) ++ [c])
                         (program w);
            heap := heap w |})
    | Some j =>
        (Ok tt,
         {| program :=
              with_constraints_matrix_values
                (_constraints_matrix_values (program w) ++ [coeff])
                (with_constraints_matrix_j (_constraints_matrix_j (program w) ++ [j])
                   (with_constraints_matrix_i (_constraints_matrix_i (program w) ++ [c])
                      (program w)));
            heap := heap w |})
    end.
Proof.
  unfold add_constraint_term. rewrite run_bind. cbn [self]. rewrite run_bind.
  unfold assign at 1. rewrite run_bind, variable_index_run. simpl.
  by destruct (_variables (program w) !! v).
Qed.

(** The rounds of the loop of [add_constraint] over registered
    variables. *)
Lemma add_constraint_loop_run (c : nat) (l : list (string * Qc)) (w : world) :
  Forall (λ term, is_Some (_variables (program w) !! term.1)) l →
  for_each l (add_constraint_term c) w
  = (Ok tt,
     {| program :=
          with_constraints_matrix_values (_constraints_matrix_values (program w) ++ l.*2)
            (with_constraints_matrix_j
               (_constraints_matrix_j (program w)
                ++ ((λ term, default 0%nat (_variables (program w) !! term.1)) <$> l))
               (with_constraints_matrix_i
                  (_constraints_matrix_i (program w) ++ replicate (length l) c)
                  (program w)));
        heap := heap w |}).
Proof.
  revert w. induction l as [| [v coeff] l IH]; intros w Hall.
  - simpl. rewrite !app_nil_r. by destruct w as [[] ?].
  - apply Forall_cons in Hall as [[j Hj] Hall]. simpl in Hj.
    cbn [for_each]. rewrite run_bind, add_constraint_term_run, Hj.
    rewrite IH by done. cbn [program heap fmap list_fmap length replicate fst snd].
    rewrite Hj. simpl. rewrite <- !(assoc_L (++)). done.
Qed.

Lemma add_constraint_run (f : gmap string Qc) (c : Qc) (max min : option Qc)
    (name : option string) (w : world) :
  is_zero (Expression f c) = false →
  add_constraint (Expression f c) max min name w
  = match for_each (map_to_list f)
            (add_constraint_term (length (_constraints_bounds_min (program w))))
            {| program := with_constraints_name (_constraints_name (program w) ++ [name])
                            (program w);
               heap := heap w |} with
    | (Ok _, w') =>
        (Ok tt,
         {| program :=
              with_constraints_bounds_min
                (_constraints_bounds_min (program w') ++ [(λ min, min - c) <$> min])
                (with_constraints_bounds_max
                   (_constraints_bounds_max (program w') ++ [(λ max, max - c) <$> max])
                   (program w'));
            heap := heap w' |})
    | (Raise e, w') => (Raise e, w')
    end.
Proof.
  intros Hz. unfold add_constraint. rewrite Hz.
  rewrite run_bind. cbn [try_NormalForm _NormalForm mret M_ret].
  rewrite run_bind. cbn [self]. rewrite run_bind. unfold assign at 1.
  rewrite run_bind. cbn [self program heap]. rewrite run_bind.
  cbn [with_constraints_name _constraints_bounds_min].
  by destruct (for_each _ _ _) as [[[] | e] w'].
Qed.

(** [add_constraint] with a non-zero expression over registered
    variables. *)
Lemma add_constraint_registered (f : gmap string Qc) (c : Qc) (max min : option Qc)
    (name : option string) (w : world) :
  is_zero (Expression f c) = false →
  (∀ v, is_Some (f !! v) → is_Some (_variables (program w) !! v)) →
  add_constraint (Expression f c) max min name w
  = (Ok tt,
     {| program :=
          with_constraints_bounds_min
            (_constraints_bounds_min (program w) ++ [(λ min, min - c) <$> min])
            (with_constraints_bounds_max
               (_constraints_bounds_max (program w) ++ [(λ max, max - c) <$> max])
               (with_constraints_matrix_values
                  (_constraints_matrix_values (program w) ++ (map_to_list f).*2)
                  (with_constraints_matrix_j
                     (_constraints_matrix_j (program w)
                      ++ ((λ term, default 0%nat (_variables (program w) !! term.1))
                            <$> map_to_list f))
                     (with_constraints_matrix_i
                        (_constraints_matrix_i (program w)
                         ++ replicate (length (map_to_list f))
                              (length (_constraints_bounds_min (program w))))
                        (with_constraints_name (_constraints_name (program w) ++ [name])
                           (program w))))));
        heap := heap w |}).
Proof.
  intros Hz Hreg. rewrite add_constraint_run by done.
  rewrite add_constraint_loop_run; [done |].
  apply Forall_forall. intros [v q] Hin. simpl. apply Hreg.
  apply elem_of_map_to_list in Hin. by eexists.
Qed.

Lemma wf_add_constraint (lf : linear_function) (max min : option Qc)
    (name : option string) (w : world) :
  wf w →
  is_Ok (add_constraint lf max min name w).1 = true →
  wf (add_constraint lf max min name w).2.
Proof.
  intros Hwf. destruct (is_zero lf) eqn:Hz.
  { unfold add_constraint. by rewrite Hz. }
  destruct lf as [| q | f c]; [by unfold add_constraint; rewrite Hz ..|].
  destruct (decide (Forall (λ term : string * Qc,
                      is_Some (_variables (program w) !! term.1)) (map_to_list f)))
    as [Hreg | Hreg].
  - intros _. rewrite add_constraint_registered; [| done |]; last first.
    { intros v [q Hq]. rewrite Forall_forall in Hreg.
      apply (Hreg (v, q)). by apply elem_of_map_to_list. }
    cbn [snd]. apply wf_program; try done; cbn; rewrite ?length_app; simpl.
    + destruct (wf_constraints w Hwf) as [-> ->]. done.
    + destruct (wf_matrix w Hwf) as (HI & HV & HFI & HFJ).
      rewrite !length_fmap, length_replicate, HI, HV.
      split; [done |]. split; [done |]. split.
      * apply Forall_app. split.
        -- eapply Forall_impl; [exact HFI |]. simpl. intros; lia.
        -- apply Forall_replicate. lia.
      * apply Forall_app. split; [done |].
        apply Forall_fmap, Forall_forall. intros [v q] Hin. simpl.
        rewrite Forall_forall in Hreg. destruct (Hreg _ Hin) as [j Hj]. simpl in Hj.
        rewrite Hj. simpl. by apply (wf_variables w Hwf v j).
    + apply Hwf.
  - (* an unregistered variable raises *)
    rewrite add_constraint_run by done.
    apply not_Forall_Exists in Hreg; [| intros ?; apply _].
    apply Exists_exists in Hreg as ([v q] & Hin & Hnot). simpl in Hnot.
    apply list_elem_of_split in Hin as (l1 & l2 & Hl).
    rewrite Hl.
    set (w1 := {| program := _; heap := heap w |}).
    assert (∀ l w', _variables (program w') = _variables (program w) →
              is_Ok (for_each (l ++ (v, q) :: l2)
                       (add_constraint_term (length (_constraints_bounds_min (program w))))
                       w').1 = false) as Hfail.
    { induction l as [| [v' q'] l IH]; intros w' Hvars.
      - cbn [app for_each]. rewrite run_bind, add_constraint_term_run, Hvars.
        destruct (_variables (program w) !! v) as [j |] eqn:Hj; [| done].
        exfalso. apply Hnot. by eexists.
      - cbn [app for_each]. rewrite run_bind, add_constraint_term_run, Hvars.
        destruct (_variables (program w) !! v'); [| done]. by apply IH. }
    specialize (Hfail l1 w1 eq_refl).
    destruct (for_each _ _ w1) as [[[] | e] w']; [done | done].
Qed.

Lemma wf_init (coin glpk maximization : bool) :
  wf (MixedIntegerLinearProgram__init__ coin glpk maximization).
Proof.
  constructor; cbn; try done.
  intros r Hr. by apply elem_of_nil in Hr.
Qed.

(** X13: the invariant of a program and of the [MIPVariable] objects
    linked to it.  It holds of a new program and every method that
    builds the program keeps it, whether the method returns or raises,
    except that [add_constraint] keeps it when it returns: the
    variable of index [i] is named [x] followed by [i]; the lists of
    types and of bounds have one entry for each variable; the entries
    of a [MIPVariable] of dimension 1 are variables of the program,
    those of another dimension are [MIPVariable] objects created
    later, and no value is an entry twice; the constraints are a
    sparse matrix whose row and column indices are in range, with one
    name and one pair of bounds for each row. *)
Theorem program_invariant (coin glpk maximization : bool) :
  wf (MixedIntegerLinearProgram__init__ coin glpk maximization)
  ∧ (∀ t dim name, preserves wf (new_variable t dim name))
  ∧ (∀ r i, preserves wf (MIPVariable__getitem__ r i))
  ∧ (∀ v, preserves wf (MixedIntegerLinearProgram__getitem__ v))
  ∧ (∀ v x, preserves wf (set_min v x) ∧ preserves wf (set_max v x))
  ∧ (∀ limit e, preserves wf (set_binary limit e)
                ∧ preserves wf (set_integer limit e)
                ∧ preserves wf (set_real limit e))
  ∧ (∀ obj, preserves wf (set_objective obj))
  ∧ (∀ name, preserves wf (set_problem_name name)
             ∧ preserves wf (set_objective_name name))
  ∧ (∀ linear_function max min name w,
       wf w →
       is_Ok (add_constraint linear_function max min name w).1 = true →
       wf (add_constraint linear_function max min name w).2).
Proof.
  split; [apply wf_init |].
  split; [intros t dim name w; apply wf_new_variable |].
  split; [intros r i w; apply wf_MIPVariable__getitem__ |].
  split; [apply wf_MixedIntegerLinearProgram__getitem__ |].
  split; [intros v x; split; intros w; [apply wf_set_min | apply wf_set_max] |].
  split; [intros limit e; split; [| split]; apply wf_set_type |].
  split; [apply wf_set_objective |].
  split; [intros name; split; intros w;
          [apply wf_set_problem_name | apply wf_set_objective_name] |].
  intros lf max min name w. apply wf_add_constraint.
Qed.

Lemma wf_sample_program : wf sample_program.
Proof. apply wf_new_variable, wf_init. Qed.

Lemma wf_sample_program_2 : wf sample_program_2.
Proof. do 2 apply wf_MIPVariable__getitem__. apply wf_sample_program. Qed.

Lemma wf_sample_program_dim2 : wf sample_program_dim2.
Proof. do 2 apply wf_MIPVariable__getitem__. apply wf_new_variable, wf_init. Qed.

(** ** Variables are created once *)

Lemma MIPVariable__getitem__stored (r : nat) (i : key) (w w' : world) (v : value) :
  MIPVariable__getitem__ r i w = (Ok v, w') →
  ∃ o', heap w' !! r = Some o' ∧ _dict o' !! i = Some v.
Proof.
  rewrite MIPVariable__getitem__run.
  destruct (heap w !! r) as [o |] eqn:Hr; [| done].
  destruct (_dict o !! i) as [x |] eqn:Hi.
  { intros [= <- <-]. by exists o. }
  destruct (decide (_dim o = 1%Z)); intros [= <- <-]; cbn [heap].
  - eexists. split; [apply list_lookup_insert_eq; by eapply lookup_lt_Some |].
    simpl. apply lookup_insert_eq.
  - eexists. split.
    + apply list_lookup_insert_eq. rewrite length_app. apply lookup_lt_Some in Hr. lia.
    + simpl. apply lookup_insert_eq.
Qed.

Lemma MIPVariable__getitem__persists (r : nat) (i : key) (w : world)
    (r0 : nat) (o0 : MIPVariable) (k : key) (x : value) :
  heap w !! r0 = Some o0 → _dict o0 !! k = Some x →
  ∃ o0', heap (MIPVariable__getitem__ r i w).2 !! r0 = Some o0' ∧ _dict o0' !! k = Some x.
Proof.
  intros Hr0 Hk. rewrite MIPVariable__getitem__run.
  destruct (heap w !! r) as [o |] eqn:Hr; [| by exists o0].
  destruct (_dict o !! i) as [y |] eqn:Hi; [by exists o0 |].
  assert (∀ (h : list MIPVariable) (y : value), h !! r0 = Some o0 → h !! r = Some o →
            ∃ o0', <[r := with_dict (<[i := y]> (_dict o)) o]> h !! r0 = Some o0'
                   ∧ _dict o0' !! k = Some x) as Hins.
  { intros h y Hh0 Hh. destruct (decide (r0 = r)) as [-> | Hne].
    - eexists. split; [apply list_lookup_insert_eq; by eapply lookup_lt_Some |].
      simpl. assert (o0 = o) as -> by congruence.
      rewrite lookup_insert_ne; [done |]. intros <-. congruence.
    - exists o0. by rewrite list_lookup_insert_ne. }
  destruct (decide (_dim o = 1%Z)); cbn [snd heap].
  - by apply Hins.
  - apply Hins; by apply lookup_app_l_Some.
Qed.

Lemma MIPVariable__getitem__again (r : nat) (i : key) (w w1 : world) (v : value) :
  MIPVariable__getitem__ r i w = (Ok v, w1) →
  MIPVariable__getitem__ r i w1 = (Ok v, w1).
Proof.
  intros H. destruct (MIPVariable__getitem__stored _ _ _ _ _ H) as (o1 & Hr1 & Hi1).
  rewrite MIPVariable__getitem__run. by rewrite Hr1, Hi1.
Qed.

Lemma MIPVariable__getitem__distinct (r1 r2 : nat) (i1 i2 : key) (w w1 w2 : world)
    (v1 v2 : value) :
  wf w →
  MIPVariable__getitem__ r1 i1 w = (Ok v1, w1) →
  MIPVariable__getitem__ r2 i2 w1 = (Ok v2, w2) →
  v1 = v2 ↔ r1 = r2 ∧ i1 = i2.
Proof.
  intros Hwf H1 H2.
  destruct (MIPVariable__getitem__stored _ _ _ _ _ H1) as (o1 & Hr1 & Hi1).
  pose proof (MIPVariable__getitem__again _ _ _ _ _ H1) as Hagain.
  assert (wf w1) as Hwf1.
  { pose proof (wf_MIPVariable__getitem__ r1 i1 w Hwf) as H. by rewrite H1 in H. }
  assert (wf w2) as Hwf2.
  { pose proof (wf_MIPVariable__getitem__ r2 i2 w1 Hwf1) as H. by rewrite H2 in H. }
  destruct (MIPVariable__getitem__stored _ _ _ _ _ H2) as (o2 & Hr2 & Hi2).
  destruct (MIPVariable__getitem__persists r2 i2 w1 r1 o1 i1 v1 Hr1 Hi1) as (o1' & Hr1' & Hi1').
  rewrite H2 in Hr1'. cbn [snd] in Hr1'.
  split.
  - intros <-. by apply (wf_unique w2 Hwf2 r1 o1' i1 r2 o2 i2 v1).
  - intros [<- <-]. rewrite Hagain in H2. by injection H2.
Qed.

(** X14: the entries of a [MIPVariable] are created once and are
    unique.  After an access has returned, the same access returns the
    same value and changes nothing; an access to another key, or to
    another [MIPVariable], returns another value. *)
Theorem MIPVariable__getitem__unique (r1 r2 : nat) (i1 i2 : key) (w w1 : world)
    (v1 : value) :
  wf w →
  MIPVariable__getitem__ r1 i1 w = (Ok v1, w1) →
  MIPVariable__getitem__ r1 i1 w1 = (Ok v1, w1)
  ∧ ∀ v2 w2, MIPVariable__getitem__ r2 i2 w1 = (Ok v2, w2) →
      (v1 = v2 ↔ r1 = r2 ∧ i1 = i2).
Proof.
  intros Hwf H1. split; [by eapply MIPVariable__getitem__again |].
  intros v2 w2 H2. by eapply MIPVariable__getitem__distinct.
Qed.

Lemma MIPVariable__getitem__unique_witness :
  ∃ v1 w1, MIPVariable__getitem__ 0 (KInt 0) sample_program = (Ok v1, w1)
    ∧ MIPVariable__getitem__ 0 (KInt 0) w1 = (Ok v1, w1)
    ∧ ∀ v2 w2, MIPVariable__getitem__ 0 (KInt 1) w1 = (Ok v2, w2) → v1 ≠ v2.
Proof.
  destruct (MIPVariable__getitem__ 0 (KInt 0) sample_program) as [[v1 | e] w1] eqn:E;
    [| by vm_compute in E].
  exists v1, w1. split; [done |].
  destruct (MIPVariable__getitem__unique 0 0 (KInt 0) (KInt 1) sample_program w1 v1
              wf_sample_program E) as [Hagain Hother].
  split; [done |].
  intros v2 w2 H2 Heq. by apply (Hother v2 w2 H2) in Heq as [_ [=]].
Defined.

(** ** New variables *)

Lemma variables_lookup_registered (w : world) (v : value) (j : nat) :
  wf w → variables_lookup (program w) v = Some j →
  v = Symbol (symbol j) ∧ (j < size (_variables (program w)))%nat.
Proof.
  intros Hwf Hv. destruct v as [s | r]; [| done]. simpl in Hv.
  destruct (wf_variables w Hwf s j Hv) as [-> Hlt]. done.
Qed.

(** What is read of the older variables after a variable has been
    added. *)
Lemma add_element_frame (t : Z) (w : world) (v : value) (j : nat) :
  wf w → variables_lookup (program w) v = Some j →
  let p' := program (_add_element_to_ring t w).2 in
  variables_lookup p' v = Some j
  ∧ _variables_type p' !! j = _variables_type (program w) !! j
  ∧ _variables_bounds_min p' !! j = _variables_bounds_min (program w) !! j
  ∧ _variables_bounds_max p' !! j = _variables_bounds_max (program w) !! j.
Proof.
  intros Hwf Hv. destruct (variables_lookup_registered w v j Hwf Hv) as [-> Hlt].
  rewrite add_element_run. cbn [snd program]. simpl.
  split.
  - rewrite lookup_insert_ne; [done |]. intros ?%symbol_inj. lia.
  - rewrite !lookup_app_l; [done | | |].
    + by rewrite (wf_max w Hwf).
    + by rewrite (wf_min w Hwf).
    + by rewrite (wf_type w Hwf).
Qed.

(** What is read of a variable depends on its index and on the entries
    of the lists at that index. *)
Lemma reads_determined (w w' : world) (v : value) (j : nat) :
  variables_lookup (program w) v = Some j →
  variables_lookup (program w') v = Some j →
  _variables_type (program w') !! j = _variables_type (program w) !! j →
  _variables_bounds_min (program w') !! j = _variables_bounds_min (program w) !! j →
  _variables_bounds_max (program w') !! j = _variables_bounds_max (program w) !! j →
  (get_min v w').1 = (get_min v w).1
  ∧ (get_max v w').1 = (get_max v w).1
  ∧ (is_binary v w').1 = (is_binary v w).1
  ∧ (is_integer v w').1 = (is_integer v w).1
  ∧ (is_real v w').1 = (is_real v w).1.
Proof.
  intros Hv Hv' Ht Hmin Hmax.
  destruct (is_type_run w' v) as (Hb' & Hint' & Hreal').
  destruct (is_type_run w v) as (Hb & Hint & Hreal).
  rewrite !get_min_run, !get_max_run, Hb', Hint', Hreal', Hb, Hint, Hreal.
  rewrite Hv, Hv', Ht, Hmin, Hmax.
  split; [by destruct (_variables_bounds_min (program w) !! j) |].
  split; [by destruct (_variables_bounds_max (program w) !! j) |].
  by destruct (_variables_type (program w) !! j).
Qed.

(** The variable that the first access to a key of a [MIPVariable] of
    dimension 1 adds to the program. *)
Lemma MIPVariable__getitem__fresh (r : nat) (i : key) (w : world) (o : MIPVariable) :
  wf w →
  heap w !! r = Some o →
  _dim o = 1%Z →
  _dict o !! i = None →
  let n := size (_variables (program w)) in
  ∃ w', MIPVariable__getitem__ r i w = (Ok (Symbol (symbol n)), w')
    ∧ program w' = program (_add_element_to_ring (_vtype o) w).2
    ∧ variables_lookup (program w') (Symbol (symbol n)) = Some n
    ∧ _variables_type (program w') !! n = Some (_vtype o)
    ∧ _variables_bounds_min (program w') !! n = Some (Some 0)
    ∧ _variables_bounds_max (program w') !! n = Some None.
Proof.
  intros Hwf Hr Hdim Hi n.
  eexists. split.
  { rewrite MIPVariable__getitem__run, Hr, Hi. by rewrite decide_True. }
  split; [done |].
  split; [simpl; apply lookup_insert_eq |].
  simpl. split; [| split]; apply list_lookup_middle; symmetry; apply Hwf.
Qed.

(** X15: the first access to a key of a [MIPVariable] of dimension 1
    adds a variable to the program: it is named [x] followed by the
    number of variables there were, its bounds are 0 and none, its type
    is the type given to the [MIPVariable], and reading its bounds and
    type does not raise; what is read of the older variables is
    unchanged. *)
Theorem MIPVariable__getitem__new_variable (r : nat) (i : key) (w : world)
    (o : MIPVariable) :
  wf w →
  heap w !! r = Some o →
  _dim o = 1%Z →
  _dict o !! i = None →
  let x := Symbol (symbol (size (_variables (program w)))) in
  ∃ w', MIPVariable__getitem__ r i w = (Ok x, w')
    ∧ size (_variables (program w')) = S (size (_variables (program w)))
    ∧ get_min x w' = (Ok (Some (float 0)), w')
    ∧ get_max x w' = (Ok None, w')
    ∧ is_binary x w' = (Ok (bool_decide (_vtype o = __BINARY)), w')
    ∧ is_integer x w' = (Ok (bool_decide (_vtype o = __INTEGER)), w')
    ∧ is_real x w' = (Ok (bool_decide (_vtype o = __REAL)), w')
    ∧ ∀ v, is_Some (variables_lookup (program w) v) →
        (get_min v w').1 = (get_min v w).1
        ∧ (get_max v w').1 = (get_max v w).1
        ∧ (is_binary v w').1 = (is_binary v w).1
        ∧ (is_integer v w').1 = (is_integer v w).1
        ∧ (is_real v w').1 = (is_real v w).1.
Proof.
  intros Hwf Hr Hdim Hi x. subst x.
  pose proof (symbol_fresh w Hwf) as Hfresh.
  destruct (MIPVariable__getitem__fresh r i w o Hwf Hr Hdim Hi)
    as (w' & Hget & Hp & Hx & Ht & Hmin & Hmax).
  exists w'. split; [done |].
  split; [rewrite Hp; simpl; by rewrite map_size_insert_None |].
  split; [by rewrite get_min_run, Hx, Hmin; cbn [float_bound]; rewrite float_overflows_0 |].
  split; [by rewrite get_max_run, Hx, Hmax |].
  destruct (is_type_run w' (Symbol (symbol (size (_variables (program w))))))
    as (Hb & Hint & Hreal).
  split; [by rewrite Hb, Hx, Ht |].
  split; [by rewrite Hint, Hx, Ht |].
  split; [by rewrite Hreal, Hx, Ht |].
  intros v [j Hj].
  destruct (add_element_frame (_vtype o) w v j Hwf Hj) as (Hv' & Ht' & Hmin' & Hmax').
  rewrite <- Hp in Hv', Ht', Hmin', Hmax'.
  by apply (reads_determined w w' v j).
Qed.

Lemma MIPVariable__getitem__new_variable_witness :
  ∃ w', MIPVariable__getitem__ 0 (KInt 0) sample_program = (Ok (Symbol "x0"), w')
    ∧ get_min (Symbol "x0") w' = (Ok (Some (float 0)), w')
    ∧ get_max (Symbol "x0") w' = (Ok None, w')
    ∧ is_real (Symbol "x0") w' = (Ok true, w').
Proof.
  destruct (MIPVariable__getitem__new_variable 0 (KInt 0) sample_program
              (MIPVariable__init__ __REAL 1 (Some "V0")))
    as (w' & Hget & _ & Hmin & Hmax & _ & _ & Hreal & _).
  - apply wf_sample_program.
  - reflexivity.
  - reflexivity.
  - reflexivity.
  - exists w'. done.
Defined.

(** ** Bounds *)

(** Two registered variables with the same index are the same. *)
Lemma variables_lookup_inj (w : world) (v v' : value) (j : nat) :
  wf w →
  variables_lookup (program w) v = Some j →
  variables_lookup (program w) v' = Some j →
  v = v'.
Proof.
  intros Hwf Hv Hv'.
  destruct (variables_lookup_registered w v j Hwf Hv) as [-> _].
  by destruct (variables_lookup_registered w v' j Hwf Hv') as [-> _].
Qed.

Lemma variables_lookup_same (p p' : MixedIntegerLinearProgram) (v : value) :
  _variables p' = _variables p → variables_lookup p' v = variables_lookup p v.
Proof. intros H. destruct v; simpl; by rewrite ?H. Qed.

(** X16: the bounds of a variable of the program can be written and
    read back.  [set_min] returns; [get_min] then gives the float of
    the bound that was set, none for none, and raises [OverflowError]
    when the bound is too large for a float.  The upper bound of the
    variable, its type, and what is read of every other variable are
    unchanged.  The same holds of [set_max] and [get_max]. *)
Theorem set_min_get_min (v : value) (x : option Qc) (w : world) :
  wf w →
  is_Some (variables_lookup (program w) v) →
  (∃ w', set_min v x w = (Ok tt, w')
     ∧ get_min v w'
       = (match x with
          | Some q => if float_overflows q then Raise OverflowError
                      else Ok (Some (float q))
          | None => Ok None
          end, w')
     ∧ (get_max v w').1 = (get_max v w).1
     ∧ (is_binary v w').1 = (is_binary v w).1
     ∧ ∀ v', v' ≠ v →
         (get_min v' w').1 = (get_min v' w).1 ∧ (get_max v' w').1 = (get_max v' w).1)
  ∧ (∃ w', set_max v x w = (Ok tt, w')
       ∧ get_max v w'
         = (match x with
            | Some q => if float_overflows q then Raise OverflowError
                        else Ok (Some (float q))
            | None => Ok None
            end, w')
       ∧ (get_min v w').1 = (get_min v w).1
       ∧ (is_binary v w').1 = (is_binary v w).1
       ∧ ∀ v', v' ≠ v →
           (get_min v' w').1 = (get_min v' w).1 ∧ (get_max v' w').1 = (get_max v' w).1).
Proof.
  intros Hwf [j Hj].
  destruct (variables_lookup_registered w v j Hwf Hj) as [_ Hlt].
  assert (∀ w' v',
    (∀ v', variables_lookup (program w') v' = variables_lookup (program w) v') →
    _variables_type (program w') = _variables_type (program w) →
    (∀ j', j' ≠ j → _variables_bounds_min (program w') !! j'
                    = _variables_bounds_min (program w) !! j') →
    (∀ j', j' ≠ j → _variables_bounds_max (program w') !! j'
                    = _variables_bounds_max (program w) !! j') →
    v' ≠ v →
    (get_min v' w').1 = (get_min v' w).1 ∧ (get_max v' w').1 = (get_max v' w).1)
    as Hframe.
  { intros w' v' Hvars Ht Hmin Hmax Hne.
    rewrite !get_min_run, !get_max_run, Hvars.
    destruct (variables_lookup (program w) v') as [j' |] eqn:Hj'; [| done].
    assert (j' ≠ j) as Hnej.
    { intros ->. apply Hne. by apply (variables_lookup_inj w v' v j). }
    rewrite Hmin, Hmax by done.
    split; [by destruct (_variables_bounds_min (program w) !! j')
           | by destruct (_variables_bounds_max (program w) !! j')]. }
  split.
  - eexists. split.
    { rewrite set_min_run, Hj. rewrite decide_True; [done |].
      by rewrite (wf_min w Hwf). }
    set (w' := {| program := _; heap := _ |}).
    split.
    { rewrite get_min_run.
      rewrite (variables_lookup_same (program w) (program w')), Hj by done. simpl.
      rewrite list_lookup_insert_eq; [done |]. by rewrite (wf_min w Hwf). }
    split.
    { rewrite !get_max_run.
      rewrite (variables_lookup_same (program w) (program w')), Hj by done. simpl.
      by destruct (_variables_bounds_max (program w) !! j). }
    split.
    { destruct (is_type_run w' v) as (-> & _). destruct (is_type_run w v) as (-> & _).
      rewrite (variables_lookup_same (program w) (program w')), Hj by done. simpl.
      by destruct (_variables_type (program w) !! j). }
    intros v' Hne. apply (Hframe w' v'); try done.
    intros j' Hnej. simpl. by rewrite list_lookup_insert_ne.
  - eexists. split.
    { rewrite set_max_run, Hj. rewrite decide_True; [done |].
      by rewrite (wf_max w Hwf). }
    set (w' := {| program := _; heap := _ |}).
    split.
    { rewrite get_max_run.
      rewrite (variables_lookup_same (program w) (program w')), Hj by done. simpl.
      rewrite list_lookup_insert_eq; [done |]. by rewrite (wf_max w Hwf). }
    split.
    { rewrite !get_min_run.
      rewrite (variables_lookup_same (program w) (program w')), Hj by done. simpl.
      by destruct (_variables_bounds_min (program w) !! j). }
    split.
    { destruct (is_type_run w' v) as (-> & _). destruct (is_type_run w v) as (-> & _).
      rewrite (variables_lookup_same (program w) (program w')), Hj by done. simpl.
      by destruct (_variables_type (program w) !! j). }
    intros v' Hne. apply (Hframe w' v'); try done.
    intros j' Hnej. simpl. by rewrite list_lookup_insert_ne.
Qed.

Lemma set_min_get_min_witness :
  (∃ w', set_min (Symbol "x1") (Some (Qc_of_Z 6)) sample_program_2 = (Ok tt, w')
     ∧ get_min (Symbol "x1") w' = (Ok (Some (float (Qc_of_Z 6))), w')
     ∧ (get_min (Symbol "x0") w').1 = Ok (Some (float 0)))
  ∧ (∃ w', set_max (Symbol "x1") (Some (Qc_of_Z (10 ^ 400))) sample_program_2 = (Ok tt, w')
       ∧ get_max (Symbol "x1") w' = (Raise OverflowError, w')).
Proof.
  split.
  - destruct (set_min_get_min (Symbol "x1") (Some (Qc_of_Z 6)) sample_program_2)
      as [(w' & Hset & Hget & _ & _ & Hframe) _].
    + apply wf_sample_program_2.
    + by eexists.
    + exists w'. split; [done |]. split; [done |].
      destruct (Hframe (Symbol "x0")) as [-> _]; done.
  - destruct (set_min_get_min (Symbol "x1") (Some (Qc_of_Z (10 ^ 400))) sample_program_2)
      as [_ (w' & Hset & Hget & _)].
    + apply wf_sample_program_2.
    + by eexists.
    + exists w'. split; [done |]. by rewrite Hget.
Defined.

Lemma set_type_symbol_run (limit : nat) (t : Z) (s : string) (w : world) :
  set_type (S limit) t (Symbol s) w
  = if decide (is_Some (variables_lookup (program w) (Symbol s)))
    then set_variable_type (Symbol s) t w
    else (Raise ValueError_not_a_variable, w).
Proof.
  cbn [set_type]. rewrite run_bind. cbn [self].
  by destruct (decide (is_Some (variables_lookup (program w) (Symbol s)))).
Qed.

(** X17: what is not a variable of the program.  Reading or writing
    the bounds of it, or reading its type, raises [KeyError]; setting
    its type raises the [ValueError] of [set_binary], [set_integer]
    and [set_real] when it is not a [MIPVariable]; the program is left
    as it is. *)
Theorem not_a_variable (v : value) (x : option Qc) (limit : nat) (w : world) :
  variables_lookup (program w) v = None →
  set_min v x w = (Raise KeyError, w)
  ∧ set_max v x w = (Raise KeyError, w)
  ∧ get_min v w = (Raise KeyError, w)
  ∧ get_max v w = (Raise KeyError, w)
  ∧ is_binary v w = (Raise KeyError, w)
  ∧ is_integer v w = (Raise KeyError, w)
  ∧ is_real v w = (Raise KeyError, w)
  ∧ ∀ s, v = Symbol s →
      set_binary (S limit) v w = (Raise ValueError_not_a_variable, w)
      ∧ set_integer (S limit) v w = (Raise ValueError_not_a_variable, w)
      ∧ set_real (S limit) v w = (Raise ValueError_not_a_variable, w).
Proof.
  intros Hv.
  destruct (is_type_run w v) as (Hb & Hint & Hreal).
  rewrite set_min_run, set_max_run, get_min_run, get_max_run, Hb, Hint, Hreal, Hv.
  do 7 (split; [done |]).
  intros s ->. unfold set_binary, set_integer, set_real.
  rewrite !set_type_symbol_run, !decide_False; [done | rewrite Hv; by intros [? ?] ..].
Qed.

Lemma not_a_variable_witness :
  get_min (Symbol "y") sample_program_2 = (Raise KeyError, sample_program_2)
  ∧ set_binary 1000 (Symbol "y") sample_program_2
    = (Raise ValueError_not_a_variable, sample_program_2).
Proof.
  destruct (not_a_variable (Symbol "y") None 999 sample_program_2)
    as (_ & _ & Hget & _ & _ & _ & _ & Hset).
  - reflexivity.
  - split; [done |]. by destruct (Hset "y") as [-> _].
Defined.

(** ** Types *)

Lemma set_type_object_run (limit : nat) (t : Z) (r : nat) (w : world) :
  set_type (S limit) t (Object r) w
  = match heap w !! r with
    | None => (Raise DanglingReference, w)
    | Some o =>
        let w1 := {| program := program w;
                     heap := <[r := with_vtype (Some t) o]> (heap w) |} in
        if decide (_dim o = 1%Z) then
          for_each (map_to_list (_dict o)).*2 (λ v, set_variable_type v t) w1
        else
          for_each (map_to_list (_dict o)).*1
            (λ k, ev ← MIPVariable__getitem__ r k; set_type limit t ev) w1
    end.
Proof.
  cbn [set_type]. rewrite run_bind. unfold assign_object at 1.
  destruct (heap w !! r) as [o |] eqn:Hr; [| done].
  rewrite run_bind. unfold depth at 1. rewrite run_bind. unfold object at 1.
  cbn [heap]. rewrite list_lookup_insert_eq by (by eapply lookup_lt_Some).
  cbn [mret M_ret with_vtype _dim].
  destruct (decide (_dim o = 1%Z)).
  - rewrite run_bind. unfold values at 1. rewrite run_bind. unfold object at 1.
    cbn [heap]. rewrite list_lookup_insert_eq by (by eapply lookup_lt_Some). done.
  - rewrite run_bind. unfold keys at 1. rewrite run_bind. unfold object at 1.
    cbn [heap]. rewrite list_lookup_insert_eq by (by eapply lookup_lt_Some). done.
Qed.

(** The loop that sets the type of the variables of a list. *)
Lemma set_types_loop (vs : list value) (t : Z) (p : MixedIntegerLinearProgram)
    (h : list MIPVariable) (types : list Z) :
  Forall (λ v, ∃ j, variables_lookup p v = Some j ∧ (j < length types)%nat) vs →
  ∃ types',
    for_each vs (λ v, set_variable_type v t)
      {| program := with_variables_type types p; heap := h |}
    = (Ok tt, {| program := with_variables_type types' p; heap := h |})
    ∧ length types' = length types
    ∧ (∀ v j, v ∈ vs → variables_lookup p v = Some j → types' !! j = Some t)
    ∧ (∀ j, (∀ v, v ∈ vs → variables_lookup p v ≠ Some j) → types' !! j = types !! j).
Proof.
  revert types. induction vs as [| v vs IH]; intros types Hall.
  - exists types. split; [done |]. split; [done |].
    split; [by intros v j ?%elem_of_nil | done].
  - apply Forall_cons in Hall as [(j & Hj & Hlt) Hall].
    destruct (IH (<[j := t]> types)) as (types' & Hrun & Hlen & Hset & Hother).
    { eapply Forall_impl; [exact Hall |]. simpl. intros v' (j' & ? & ?).
      exists j'. by rewrite length_insert. }
    exists types'. split.
    { cbn [for_each]. rewrite run_bind, set_variable_type_run.
      rewrite (variables_lookup_same p) by done. rewrite Hj.
      cbn [program _variables_type with_variables_type].
      rewrite decide_True by done. exact Hrun. }
    split; [by rewrite Hlen, length_insert |].
    split.
    + intros v' j' [-> | Hin]%elem_of_cons Hj'; [| by apply (Hset v' j')].
      assert (j' = j) as -> by congruence.
      destruct (decide (Exists (λ v'', variables_lookup p v'' = Some j) vs))
        as [(v'' & Hin & Hv'')%Exists_exists | Hnot].
      * by apply (Hset v'' j).
      * rewrite Hother; [by apply list_lookup_insert_eq |].
        intros v'' Hin Hv''. apply Hnot, Exists_exists. by exists v''.
    + intros j' Hj'. rewrite Hother.
      * apply list_lookup_insert_ne. intros <-. apply (Hj' v); [by left | done].
      * intros v' Hin. apply Hj'. by right.
Qed.

Lemma set_type_element (limit : nat) (t : Z) (v : value) (w : world) (j : nat) :
  wf w →
  variables_lookup (program w) v = Some j →
  ∃ w', set_type (S limit) t v w = (Ok tt, w')
    ∧ is_binary v w' = (Ok (bool_decide (t = __BINARY)), w')
    ∧ is_integer v w' = (Ok (bool_decide (t = __INTEGER)), w')
    ∧ is_real v w' = (Ok (bool_decide (t = __REAL)), w')
    ∧ ∀ v', v' ≠ v →
        (is_binary v' w').1 = (is_binary v' w).1
        ∧ (is_integer v' w').1 = (is_integer v' w).1
        ∧ (is_real v' w').1 = (is_real v' w).1.
Proof.
  intros Hwf Hj.
  destruct (variables_lookup_registered w v j Hwf Hj) as [-> Hlt].
  rewrite <- (wf_type w Hwf) in Hlt.
  eexists. split.
  { rewrite set_type_symbol_run, decide_True by (by eexists).
    rewrite set_variable_type_run, Hj. by rewrite decide_True. }
  set (w' := {| program := _; heap := _ |}).
  assert (∀ v', variables_lookup (program w') v' = variables_lookup (program w) v')
    as Hvars by (intros v'; by apply variables_lookup_same).
  destruct (is_type_run w' (Symbol (symbol j))) as (-> & -> & ->).
  rewrite Hvars, Hj. simpl. rewrite list_lookup_insert_eq by done.
  do 3 (split; [done |]).
  intros v' Hne.
  destruct (is_type_run w' v') as (-> & -> & ->).
  destruct (is_type_run w v') as (-> & -> & ->).
  rewrite Hvars.
  destruct (variables_lookup (program w) v') as [j' |] eqn:Hj'; [| done].
  simpl. rewrite list_lookup_insert_ne.
  - by destruct (_variables_type (program w) !! j').
  - intros <-. apply Hne. by apply (variables_lookup_inj w v' (Symbol (symbol j)) j).
Qed.

(** X18: the three types of a variable exclude each other.  On a
    variable of the program [set_binary], [set_integer] and [set_real]
    return, and afterwards exactly the matching one of [is_binary],
    [is_integer] and [is_real] is true; the types of the other
    variables are unchanged. *)
Theorem set_binary_set_integer_set_real (limit : nat) (v : value) (w : world) :
  wf w →
  is_Some (variables_lookup (program w) v) →
  (∃ w', set_binary (S limit) v w = (Ok tt, w')
     ∧ is_binary v w' = (Ok true, w')
     ∧ is_integer v w' = (Ok false, w')
     ∧ is_real v w' = (Ok false, w')
     ∧ ∀ v', v' ≠ v →
         (is_binary v' w').1 = (is_binary v' w).1
         ∧ (is_integer v' w').1 = (is_integer v' w).1
         ∧ (is_real v' w').1 = (is_real v' w).1)
  ∧ (∃ w', set_integer (S limit) v w = (Ok tt, w')
       ∧ is_binary v w' = (Ok false, w')
       ∧ is_integer v w' = (Ok true, w')
       ∧ is_real v w' = (Ok false, w')
       ∧ ∀ v', v' ≠ v →
           (is_binary v' w').1 = (is_binary v' w).1
           ∧ (is_integer v' w').1 = (is_integer v' w).1
           ∧ (is_real v' w').1 = (is_real v' w).1)
  ∧ (∃ w', set_real (S limit) v w = (Ok tt, w')
       ∧ is_binary v w' = (Ok false, w')
       ∧ is_integer v w' = (Ok false, w')
       ∧ is_real v w' = (Ok true, w')
       ∧ ∀ v', v' ≠ v →
           (is_binary v' w').1 = (is_binary v' w).1
           ∧ (is_integer v' w').1 = (is_integer v' w).1
           ∧ (is_real v' w').1 = (is_real v' w).1).
Proof.
  intros Hwf [j Hj]. unfold set_binary, set_integer, set_real.
  split; [| split].
  - destruct (set_type_element limit __BINARY v w j Hwf Hj) as (w' & H). by exists w'.
  - destruct (set_type_element limit __INTEGER v w j Hwf Hj) as (w' & H). by exists w'.
  - destruct (set_type_element limit __REAL v w j Hwf Hj) as (w' & H). by exists w'.
Qed.

Lemma set_binary_set_integer_set_real_witness :
  ∃ w', set_binary 1000 (Symbol "x0") sample_program_2 = (Ok tt, w')
    ∧ is_binary (Symbol "x0") w' = (Ok true, w')
    ∧ is_real (Symbol "x0") w' = (Ok false, w')
    ∧ (is_real (Symbol "x1") w').1 = Ok true.
Proof.
  destruct (set_binary_set_integer_set_real 999 (Symbol "x0") sample_program_2)
    as [(w' & Hset & Hb & _ & Hr & Hframe) _].
  - apply wf_sample_program_2.
  - by eexists.
  - exists w'. do 3 (split; [done |]).
    destruct (Hframe (Symbol "x1")) as (_ & _ & ->); done.
Defined.

(** X19: [set_binary] on a [MIPVariable] of dimension 1 changes the
    type of the variables it holds, not the type of the variables it
    will create.  After the call every variable held is binary, and
    the object has the attribute [vtype] set; a variable created
    afterwards by an access to a new key has the type that was given
    to the [MIPVariable] when it was made: it is binary only if that
    type was. *)
Theorem set_binary_MIPVariable (limit : nat) (r : nat) (w : world) (o : MIPVariable) :
  wf w →
  heap w !! r = Some o →
  _dim o = 1%Z →
  ∃ w' o', set_binary (S limit) (Object r) w = (Ok tt, w')
    ∧ heap w' !! r = Some o'
    ∧ vtype o' = Some __BINARY
    ∧ _vtype o' = _vtype o
    ∧ (∀ k v, _dict o !! k = Some v → is_binary v w' = (Ok true, w'))
    ∧ (∀ k, _dict o !! k = None →
         ∃ v w'', MIPVariable__getitem__ r k w' = (Ok v, w'')
           ∧ is_binary v w'' = (Ok (bool_decide (_vtype o = __BINARY)), w'')).
Proof.
  intros Hwf Hr Hdim.
  pose proof (wf_set_type (S limit) __BINARY (Object r) w Hwf) as Hwf'.
  revert Hwf'. unfold set_binary. rewrite set_type_object_run, Hr.
  cbv zeta. rewrite decide_True by done.
  assert (Forall (λ v, ∃ j, variables_lookup (program w) v = Some j
                            ∧ (j < length (_variables_type (program w)))%nat)
            (map_to_list (_dict o)).*2) as Hreg.
  { apply Forall_fmap, Forall_forall. intros [k v] Hin. simpl.
    apply elem_of_map_to_list in Hin.
    destruct v as [s | r'].
    - destruct (wf_symbol w Hwf r o k s Hr Hin) as [_ [j Hj]].
      exists j. split; [done |]. rewrite (wf_type w Hwf).
      by apply (wf_variables w Hwf s j).
    - by destruct (wf_object w Hwf r o k r' Hr Hin). }
  destruct (set_types_loop _ __BINARY (program w)
              (<[r := with_vtype (Some __BINARY) o]> (heap w))
              (_variables_type (program w)) Hreg)
    as (types' & Hrun & Hlen & Hset & _).
  replace (with_variables_type (_variables_type (program w)) (program w))
    with (program w) in Hrun by (by destruct (program w)).
  rewrite Hrun. cbn [snd]. intros Hwf'.
  set (w' := {| program := with_variables_type types' (program w);
                heap := <[r := with_vtype (Some __BINARY) o]> (heap w) |}) in *.
  assert (heap w' !! r = Some (with_vtype (Some __BINARY) o)) as Hr'.
  { simpl. apply list_lookup_insert_eq. by eapply lookup_lt_Some. }
  exists w', (with_vtype (Some __BINARY) o).
  do 4 (split; [done |]).
  split.
  - intros k v Hk.
    assert (v ∈ (map_to_list (_dict o)).*2) as Hin.
    { apply list_elem_of_fmap. exists (k, v). split; [done |].
      by apply elem_of_map_to_list. }
    rewrite Forall_forall in Hreg. destruct (Hreg v Hin) as (j & Hj & _).
    destruct (is_type_run w' v) as (-> & _).
    rewrite (variables_lookup_same (program w)) by done. rewrite Hj.
    simpl. by rewrite (Hset v j Hin Hj).
  - intros k Hk.
    destruct (MIPVariable__getitem__fresh r k w' (with_vtype (Some __BINARY) o))
      as (w'' & Hget & _ & Hx & Ht & _); [done ..|].
    do 2 eexists. split; [exact Hget |].
    destruct (is_type_run w'' (Symbol (symbol (size (_variables (program w'))))))
      as (-> & _).
    by rewrite Hx, Ht.
Qed.

Lemma set_binary_MIPVariable_witness :
  ∃ w' v w'', set_binary 1000 (Object 0) sample_program_2 = (Ok tt, w')
    ∧ is_binary (Symbol "x0") w' = (Ok true, w')
    ∧ MIPVariable__getitem__ 0 (KInt 2) w' = (Ok v, w'')
    ∧ is_binary v w'' = (Ok false, w'').
Proof.
  assert (is_Some (heap sample_program_2 !! 0%nat)) as [o Ho] by (by eexists).
  pose proof Ho as Ho'. vm_compute in Ho'. injection Ho' as Ho'.
  destruct (set_binary_MIPVariable 999 0 sample_program_2 o)
    as (w' & o' & Hset & _ & _ & _ & Hold & Hnew).
  - apply wf_sample_program_2.
  - exact Ho.
  - by rewrite <- Ho'.
  - destruct (Hnew (KInt 2)) as (v & w'' & Hget & Hbin); [by rewrite <- Ho' |].
    exists w', v, w''. split; [done |].
    split; [apply (Hold (KInt 0)); by rewrite <- Ho' |].
    split; [done |]. rewrite Hbin. by rewrite <- Ho'.
Defined.

(** ** Constraints and equality *)

Lemma MixedIntegerLinearProgram__eq__bounds_min (p : MixedIntegerLinearProgram)
    (l : list (option Qc)) :
  MixedIntegerLinearProgram__eq__ (with_constraints_bounds_min l p) p = true
  ∧ MixedIntegerLinearProgram__eq__ p p = true.
Proof.
  unfold MixedIntegerLinearProgram__eq__. simpl.
  by rewrite !bool_decide_eq_true_2.
Qed.

(** X20: [__eq__] does not compare the lower bounds of the
    constraints.  Two programs obtained from the same program by
    adding the same constraint with different lower bounds are equal
    for [__eq__], although their lists of lower bounds differ
    whenever the constraint was added. *)
Theorem eq_ignores_lower_bounds (linear_function : linear_function)
    (max min1 min2 : option Qc) (name : option string) (w : world) :
  let w1 := (add_constraint linear_function max min1 name w).2 in
  let w2 := (add_constraint linear_function max min2 name w).2 in
  MixedIntegerLinearProgram__eq__ (program w1) (program w2) = true
  ∧ (min1 ≠ min2 →
     length (_constraints_bounds_min (program w1))
     = S (length (_constraints_bounds_min (program w))) →
     _constraints_bounds_min (program w1) ≠ _constraints_bounds_min (program w2)).
Proof.
  destruct (is_zero linear_function) eqn:Hz.
  { unfold add_constraint. rewrite Hz. simpl.
    split; [apply (MixedIntegerLinearProgram__eq__bounds_min _ []) | lia]. }
  destruct linear_function as [| q | f c].
  1, 2: unfold add_constraint; rewrite Hz; simpl;
    (split; [apply (MixedIntegerLinearProgram__eq__bounds_min _ []) | lia]).
  rewrite !add_constraint_run by done.
  destruct (for_each _ _ _) as [[[] | e] w'] eqn:Hloop; cbn [snd program].
  - split.
    + unfold MixedIntegerLinearProgram__eq__. simpl.
      by rewrite !bool_decide_eq_true_2.
    + intros Hne _. simpl. intros Heq. apply app_inj_tail in Heq as [_ Heq].
      apply Hne. destruct min1 as [q1 |], min2 as [q2 |]; simpl in Heq; try done.
      apply (inj Some) in Heq. f_equal.
      replace q1 with ((q1 - c) + c) by ring. rewrite Heq. ring.
  - split; [apply (MixedIntegerLinearProgram__eq__bounds_min _ []) |].
    intros _ Hlen. exfalso. revert Hlen.
    assert (∀ l w0, _constraints_bounds_min
                      (program (for_each l (add_constraint_term
                         (length (_constraints_bounds_min (program w)))) w0).2)
                    = _constraints_bounds_min (program w0)) as Hsame.
    { induction l as [| [v q] l IH]; intros w0; [done |].
      cbn [for_each]. rewrite run_bind, add_constraint_term_run.
      destruct (_variables (program w0) !! v); [by rewrite IH | done]. }
    specialize (Hsame (map_to_list f)
                  {| program := with_constraints_name
                                  (_constraints_name (program w) ++ [name]) (program w);
                     heap := heap w |}).
    rewrite Hloop in Hsame. cbn [snd] in Hsame. rewrite Hsame. simpl. lia.
Qed.

(** X21: what [add_constraint] adds.  For an expression that is not
    zero and whose variables are variables of the program, the call
    returns; the program has one more constraint, with the given name
    and with the bounds that were given minus the constant term of the
    expression, and as many more entries in its matrix as the
    expression has variables, all in the new row; the variables are
    untouched.  For zero, for [None] and for a number the call returns
    and changes nothing. *)
Theorem add_constraint_adds_a_row (f : gmap string Qc) (c : Qc) (max min : option Qc)
    (name : option string) (w : world) :
  wf w →
  is_zero (Expression f c) = false →
  (∀ v, is_Some (f !! v) → is_Some (_variables (program w) !! v)) →
  ∃ w', add_constraint (Expression f c) max min name w = (Ok tt, w')
    ∧ _constraints_bounds_min (program w')
      = _constraints_bounds_min (program w) ++ [(λ min, min - c) <$> min]
    ∧ _constraints_bounds_max (program w')
      = _constraints_bounds_max (program w) ++ [(λ max, max - c) <$> max]
    ∧ _constraints_name (program w') = _constraints_name (program w) ++ [name]
    ∧ _constraints_matrix_i (program w')
      = _constraints_matrix_i (program w)
        ++ replicate (size f) (length (_constraints_bounds_min (program w)))
    ∧ length (_constraints_matrix_j (program w'))
      = (length (_constraints_matrix_j (program w)) + size f)%nat
    ∧ _variables (program w') = _variables (program w)
    ∧ heap w' = heap w
    ∧ add_constraint PyNone max min name w = (Ok tt, w)
    ∧ (∀ q, add_constraint (PyNumber q) max min name w = (Ok tt, w))
    ∧ add_constraint (Expression ∅ 0) max min name w = (Ok tt, w).
Proof.
  intros Hwf Hz Hreg. eexists.
  split; [by apply add_constraint_registered |]. simpl.
  rewrite length_app, !length_fmap, length_map_to_list.
  do 7 (split; [done |]).
  split; [done |].
  split; [| done].
  intros q. unfold add_constraint. simpl. by destruct (bool_decide (q = 0)).
Qed.

Lemma add_constraint_adds_a_row_witness :
  ∃ w', add_constraint (Expression {["x0" := Qc_of_Z 1]} (Qc_of_Z 2))
          (Some (Qc_of_Z 5)) None None sample_program_2 = (Ok tt, w')
    ∧ _constraints_bounds_max (program w') = [Some (Qc_of_Z 3)]
    ∧ _constraints_bounds_min (program w') = [None]
    ∧ _constraints_matrix_i (program w') = [0%nat].
Proof.
  destruct (add_constraint_adds_a_row {["x0" := Qc_of_Z 1]} (Qc_of_Z 2)
              (Some (Qc_of_Z 5)) None None sample_program_2)
    as (w' & Hadd & Hmin & Hmax & _ & HI & _).
  - apply wf_sample_program_2.
  - by vm_compute.
  - intros v [q Hq]. apply lookup_singleton_Some in Hq as [<- _]. by eexists.
  - exists w'. rewrite Hmin, Hmax, HI. split; [done |].
    split; [| split; [done |]].
    + assert (Qc_of_Z 5 - Qc_of_Z 2 = Qc_of_Z 3) as E by (by apply Qc_is_canon).
      simpl. by rewrite E.
    + by rewrite map_size_singleton.
Defined.

(** The loop of [add_constraint] stops at the first variable that is
    not a variable of the program, after the row index of its entry
    has been stored. *)
Lemma add_constraint_loop_fails (c : nat) (l : list (string * Qc)) (w : world) :
  Exists (λ term, _variables (program w) !! term.1 = None) l →
  length (_constraints_matrix_i (program w)) = length (_constraints_matrix_j (program w)) →
  ∃ w', for_each l (add_constraint_term c) w = (Raise KeyError, w')
    ∧ length (_constraints_matrix_i (program w'))
      = S (length (_constraints_matrix_j (program w')))
    ∧ _constraints_name (program w') = _constraints_name (program w)
    ∧ _constraints_bounds_min (program w') = _constraints_bounds_min (program w).
Proof.
  revert w. induction l as [| [v q] l IH]; intros w Hex Hlen.
  - by apply Exists_nil in Hex.
  - cbn [for_each]. rewrite run_bind, add_constraint_term_run.
    destruct (_variables (program w) !! v) as [j |] eqn:Hv.
    + apply Exists_cons in Hex as [Hex | Hex]; [simpl in Hex; congruence |].
      destruct (IH {| program := with_constraints_matrix_values
                       (_constraints_matrix_values (program w) ++ [q])
                       (with_constraints_matrix_j (_constraints_matrix_j (program w) ++ [j])
                          (with_constraints_matrix_i
                             (_constraints_matrix_i (program w) ++ [c]) (program w)));
                      heap := heap w |}) as (w' & Hrun & H1 & H2 & H3).
      * done.
      * simpl. rewrite !length_app. simpl. lia.
      * exists w'. by rewrite Hrun.
    + eexists. split; [done |]. simpl. rewrite length_app. simpl.
      split; [lia | done].
Qed.

(** X22: [add_constraint] with a variable that is not a variable of
    the program.  The call raises [KeyError] after it has stored the
    name of the constraint and the row index of the entry: the program
    it leaves has one more name than it has bounds and one more row
    index than it has column indices, and does not satisfy the
    invariant of programs. *)
Theorem add_constraint_unknown_variable (f : gmap string Qc) (c : Qc)
    (max min : option Qc) (name : option string) (w : world) (v : string) :
  wf w →
  is_zero (Expression f c) = false →
  is_Some (f !! v) →
  _variables (program w) !! v = None →
  ∃ w', add_constraint (Expression f c) max min name w = (Raise KeyError, w')
    ∧ length (_constraints_name (program w'))
      = S (length (_constraints_bounds_min (program w')))
    ∧ length (_constraints_matrix_i (program w'))
      = S (length (_constraints_matrix_j (program w')))
    ∧ ¬ wf w'.
Proof.
  intros Hwf Hz [q Hq] Hv. rewrite add_constraint_run by done.
  destruct (add_constraint_loop_fails (length (_constraints_bounds_min (program w)))
              (map_to_list f)
              {| program := with_constraints_name (_constraints_name (program w) ++ [name])
                              (program w);
                 heap := heap w |}) as (w' & Hrun & HI & Hname & Hmin).
  - apply Exists_exists. exists (v, q). split; [by apply elem_of_map_to_list | done].
  - apply Hwf.
  - rewrite Hrun. exists w'. split; [done |].
    assert (length (_constraints_name (program w'))
            = S (length (_constraints_bounds_min (program w')))) as Hlen.
    { rewrite Hname, Hmin. simpl. rewrite length_app. simpl.
      destruct (wf_constraints w Hwf) as [-> _]. lia. }
    do 2 (split; [done |]).
    intros Hwf'. destruct (wf_constraints w' Hwf') as [Heq _]. lia.
Qed.

Lemma add_constraint_unknown_variable_witness :
  ∃ w', add_constraint (Expression {["y" := Qc_of_Z 1]} 0) None None None sample_program_2
        = (Raise KeyError, w')
    ∧ length (_constraints_name (program w')) = 1%nat
    ∧ length (_constraints_bounds_min (program w')) = 0%nat.
Proof.
  destruct (add_constraint_unknown_variable {["y" := Qc_of_Z 1]} 0 None None None
              sample_program_2 "y") as (w' & Hadd & Hlen & _).
  - apply wf_sample_program_2.
  - by vm_compute.
  - by eexists.
  - reflexivity.
  - exists w'. split; [done |]. revert Hadd Hlen. vm_compute.
    intros [= <-]. done.
Defined.

(** ** Solving *)

(** X23: the errors of [solve], in order.  A program whose objective
    was never set raises the error of the missing objective, whatever
    solver is asked for; once [set_objective] has been called, with
    any argument, this error is not raised again.  Then "CPLEX" and
    unknown solvers are refused; without a solver given, a program
    that found no solver when it was made raises the error of the
    missing solver, and a program that found one calls that solver:
    the solver chosen at construction can always be imported. *)
Theorem solve_errors (coin_importable glpk_importable : bool)
    (solveCoin solve_glpk : bool → bool → M Qc) (solver : option string)
    (log objective_only : bool) (w : world) :
  let solve := solve coin_importable glpk_importable solveCoin solve_glpk in
  (_objective_i (program w) = None →
   solve solver log objective_only w = (Raise ValueError_no_objective, w))
  ∧ (∀ obj, _objective_i (program (set_objective obj w).2) ≠ None)
  ∧ (_objective_i (program w) ≠ None →
     solve (Some "CPLEX") log objective_only w = (Raise NotImplementedError_CPLEX, w)
     ∧ (∀ s, s ≠ "Coin" → s ≠ "GLPK" → s ≠ "CPLEX" →
          solve (Some s) log objective_only w = (Raise NotImplementedError_solver, w))
     ∧ (∀ maximization,
          _default_solver (program w)
          = _default_solver
              (program (MixedIntegerLinearProgram__init__ coin_importable glpk_importable
                          maximization)) →
          solve None log objective_only w
          = if coin_importable then solveCoin log objective_only w
            else if glpk_importable then solve_glpk log objective_only w
            else (Raise ValueError_no_solver, w))).
Proof.
  intros solve'. subst solve'. unfold solve.
  split; [| split].
  - intros Hobj. rewrite run_bind. cbn [self]. by rewrite decide_True.
  - intros obj. rewrite set_objective_run.
    set (w0 := {| program := _; heap := heap w |}).
    assert (∀ l w1, _objective_i (program w1) ≠ None →
              _objective_i (program (for_each l set_objective_term w1).2) ≠ None) as Hloop.
    { induction l as [| [v q] l IH]; intros w1 H1; [done |].
      cbn [for_each]. rewrite run_bind, set_objective_term_run.
      destruct (_variables (program w1) !! v); [| done].
      apply IH. simpl. by destruct (_objective_i (program w1)). }
    destruct obj as [| q | f c]; try done.
    by apply Hloop.
  - intros Hobj. split; [| split].
    + rewrite run_bind. cbn [self]. by rewrite decide_False.
    + intros s H1 H2 H3. rewrite run_bind. cbn [self].
      rewrite decide_False by done. by rewrite !decide_False.
    + intros maximization Hdef. rewrite run_bind. cbn [self].
      rewrite decide_False by done. rewrite Hdef. simpl.
      destruct coin_importable; [done |]. by destruct glpk_importable.
Qed.

(** ** Names for the files of a solver *)

Lemma preserves_assign_heap (h : list MIPVariable)
    (f : MixedIntegerLinearProgram → MixedIntegerLinearProgram) :
  preserves (λ w, heap w = h) (assign f).
Proof. by intros w Hw. Qed.

Lemma MIPVariable_update_variables_name_heap (h : list MIPVariable) (r : nat)
    (prefix : option string) :
  preserves (λ w, heap w = h) (MIPVariable_update_variables_name r prefix).
Proof.
  unfold MIPVariable_update_variables_name.
  apply preserves_bind; [apply preserves_object |]. intros o.
  destruct (decide (_dim o = 1%Z)).
  - apply preserves_for_each. intros [k v] _.
    apply preserves_bind; [apply preserves_from_option |]. intros name.
    apply preserves_bind; [apply preserves_self |]. intros p.
    apply preserves_bind; [apply preserves_from_option |]. intros i.
    apply preserves_bind; [apply preserves_setitem |]. intros l.
    apply preserves_assign_heap.
  - apply preserves_for_each. intros v _. destruct v as [s | r'].
    + apply preserves_raise.
    + apply preserves_bind; [apply preserves_from_option | intros; apply preserves_raise].
Qed.

(** The names of a [MIPVariable] of another dimension than 1 that
    holds something cannot be computed. *)
Lemma MIPVariable_update_variables_name_nested (r : nat) (w : world) (o : MIPVariable) :
  heap w !! r = Some o →
  _dim o ≠ 1%Z →
  _dict o ≠ ∅ →
  is_Some (_mipvariable_name o) →
  (∀ k v, _dict o !! k = Some v → ∃ r', v = Object r') →
  MIPVariable_update_variables_name r None w = (Raise UnboundLocalError, w).
Proof.
  intros Hr Hdim Hne [name Hname] Hobj.
  unfold MIPVariable_update_variables_name. rewrite run_bind. unfold object at 1.
  rewrite Hr, Hname, decide_False by done.
  destruct (map_to_list (_dict o)) as [| [k v] l] eqn:Hl.
  { by apply map_to_list_empty_iff in Hl. }
  destruct (Hobj k v) as [r' ->].
  { apply elem_of_map_to_list. rewrite Hl. by left. }
  done.
Qed.

Lemma for_each_fails {A} (I : world → Prop) (l : list A) (body : A → M unit) (a : A) :
  (∀ a', preserves I (body a')) →
  (∀ w, I w → is_Ok (body a w).1 = false) →
  a ∈ l →
  ∀ w, I w → is_Ok (for_each l body w).1 = false.
Proof.
  intros Hpres Hfail. induction l as [| a' l IH]; intros Hin w Hw.
  - by apply elem_of_nil in Hin.
  - cbn [for_each]. rewrite run_bind.
    pose proof (Hpres a' w Hw) as Hw'.
    apply elem_of_cons in Hin as [<- | Hin].
    + specialize (Hfail w Hw). by destruct (body a w) as [[[] | e] w'].
    + destruct (body a' w) as [[[] | e] w']; [| done]. by apply IH.
Qed.

(** X24: the names of the variables cannot be computed for a program
    with a [MIPVariable] of another dimension than 1 that holds
    something: [_update_variables_name] raises, with the error of the
    unassigned local variable [k] when that [MIPVariable] is the first
    of the program, so that [write_mps] and [write_lp] never write
    such a program. *)
Theorem update_variables_name_nested (glpk_importable : bool)
    (glpk_write_mps : string → bool → M unit) (glpk_write_lp : string → M unit)
    (r : nat) (w : world) (o : MIPVariable) :
  wf w →
  r ∈ _mipvariables (program w) →
  heap w !! r = Some o →
  _dim o ≠ 1%Z →
  _dict o ≠ ∅ →
  is_Ok (_update_variables_name w).1 = false
  ∧ (∀ filename modern,
       is_Ok (write_mps glpk_importable glpk_write_mps filename modern w).1 = false)
  ∧ (∀ filename, is_Ok (write_lp glpk_importable glpk_write_lp filename w).1 = false)
  ∧ (∀ rs, _mipvariables (program w) = r :: rs →
       (_update_variables_name w).1 = Raise UnboundLocalError).
Proof.
  intros Hwf Hin Hr Hdim Hne.
  assert (is_Some (_mipvariable_name o)) as Hname.
  { destruct (wf_mipvariables w Hwf r Hin) as (o' & Hr' & Hname). congruence. }
  assert (∀ k v, _dict o !! k = Some v → ∃ r', v = Object r') as Hobj.
  { intros k [s | r'] Hk; [| by eexists].
    by destruct (wf_symbol w Hwf r o k s Hr Hk). }
  assert (∀ w', heap w' = heap w →
            MIPVariable_update_variables_name r None w' = (Raise UnboundLocalError, w'))
    as Hfail.
  { intros w' Hh. apply (MIPVariable_update_variables_name_nested r w' o); try done.
    by rewrite Hh. }
  assert (is_Ok (_update_variables_name w).1 = false) as Hupd.
  { unfold _update_variables_name. rewrite run_bind. cbn [self]. rewrite run_bind.
    unfold assign at 1.
    apply (for_each_fails (λ w', heap w' = heap w) _ _ r); try done.
    - intros r'. apply MIPVariable_update_variables_name_heap.
    - intros w' Hw'. by rewrite Hfail. }
  split; [done |].
  split; [| split].
  - intros filename modern. unfold write_mps. destruct glpk_importable; [| done].
    rewrite run_bind. by destruct (_update_variables_name w) as [[[] | e] w'].
  - intros filename. unfold write_lp. destruct glpk_importable; [| done].
    rewrite run_bind. by destruct (_update_variables_name w) as [[[] | e] w'].
  - intros rs Hrs. unfold _update_variables_name. rewrite run_bind. cbn [self].
    rewrite run_bind. unfold assign at 1. rewrite Hrs. cbn [for_each].
    rewrite run_bind, Hfail by done. done.
Qed.

Lemma update_variables_name_nested_witness :
  (_update_variables_name sample_program_dim2).1 = Raise UnboundLocalError
  ∧ is_Ok (write_lp true (λ _, mret tt) "program.lp" sample_program_dim2).1 = false.
Proof.
  assert (is_Some (heap sample_program_dim2 !! 0%nat)) as [o Ho] by (by eexists).
  pose proof Ho as Ho'. vm_compute in Ho'. injection Ho' as Ho'.
  destruct (update_variables_name_nested true (λ _ _, mret tt) (λ _, mret tt)
              0 sample_program_dim2 o) as (_ & _ & Hlp & Hfirst).
  - apply wf_sample_program_dim2.
  - by left.
  - exact Ho.
  - by rewrite <- Ho'.
  - rewrite <- Ho'. simpl. intros H. apply (f_equal (λ d, d !! KInt 0)) in H.
    by vm_compute in H.
  - split; [by apply (Hfirst []) | apply Hlp].
Defined.

(** ** The default dictionary of a program *)

Lemma MIPVariable__getitem__program (r : nat) (i : key) (w : world) :
  _default_mipvariable (program (MIPVariable__getitem__ r i w).2)
  = _default_mipvariable (program w)
  ∧ _mipvariables (program (MIPVariable__getitem__ r i w).2) = _mipvariables (program w).
Proof.
  rewrite MIPVariable__getitem__run.
  destruct (heap w !! r) as [o |]; [| done].
  destruct (_dict o !! i); [done |].
  by destruct (decide (_dim o = 1%Z)).
Qed.

Lemma MIPVariable__getitem__Ok (r : nat) (i : key) (w : world) :
  is_Some (heap w !! r) → is_Ok (MIPVariable__getitem__ r i w).1 = true.
Proof.
  intros [o Hr]. rewrite MIPVariable__getitem__run, Hr.
  destruct (_dict o !! i); [done |].
  by destruct (decide (_dim o = 1%Z)).
Qed.

Lemma MixedIntegerLinearProgram__getitem__run (k : key) (w : world) :
  MixedIntegerLinearProgram__getitem__ k w
  = match _default_mipvariable (program w) with
    | Some d => MIPVariable__getitem__ d k w
    | None =>
        MIPVariable__getitem__ (length (heap w)) k
          {| program := with_default_mipvariable (Some (length (heap w)))
                          (program (new_variable (-1) 1 None w).2);
             heap := heap (new_variable (-1) 1 None w).2 |}
    end.
Proof.
  unfold MixedIntegerLinearProgram__getitem__. rewrite run_bind. cbn [self].
  destruct (_default_mipvariable (program w)); [done |].
  by rewrite run_bind, new_variable_run, run_bind.
Qed.

(** X25: the default dictionary of a program.  An access to a key of
    the program itself returns; the first one makes a [MIPVariable]
    for the program, the later ones use it: afterwards the same access
    returns the same value and changes nothing, an access to another
    key returns another value, and neither adds a [MIPVariable] to the
    program. *)
Theorem MixedIntegerLinearProgram__getitem__default (k : key) (w : world) :
  wf w →
  ∃ v w1, MixedIntegerLinearProgram__getitem__ k w = (Ok v, w1)
    ∧ MixedIntegerLinearProgram__getitem__ k w1 = (Ok v, w1)
    ∧ is_Some (_default_mipvariable (program w1))
    ∧ (_default_mipvariable (program w) = None →
       _mipvariables (program w1) = _mipvariables (program w) ++ [length (heap w)])
    ∧ (is_Some (_default_mipvariable (program w)) →
       _mipvariables (program w1) = _mipvariables (program w))
    ∧ ∀ k', ∃ v' w2, MixedIntegerLinearProgram__getitem__ k' w1 = (Ok v', w2)
        ∧ _mipvariables (program w2) = _mipvariables (program w1)
        ∧ (v = v' ↔ k = k').
Proof.
  intros Hwf.
  assert (∀ w0 d, wf w0 → _default_mipvariable (program w0) = Some d →
    ∃ v w1, MIPVariable__getitem__ d k w0 = (Ok v, w1)
      ∧ MixedIntegerLinearProgram__getitem__ k w1 = (Ok v, w1)
      ∧ _default_mipvariable (program w1) = Some d
      ∧ _mipvariables (program w1) = _mipvariables (program w0)
      ∧ ∀ k', ∃ v' w2, MixedIntegerLinearProgram__getitem__ k' w1 = (Ok v', w2)
          ∧ _mipvariables (program w2) = _mipvariables (program w1)
          ∧ (v = v' ↔ k = k')) as Hdefault.
  { intros w0 d Hwf0 Hd.
    assert (is_Some (heap w0 !! d)) as Hobj.
    { destruct (wf_mipvariables w0 Hwf0 d (wf_default w0 Hwf0 d Hd)) as (o & Ho & _).
      by eexists. }
    pose proof (MIPVariable__getitem__Ok d k w0 Hobj) as Hok.
    destruct (MIPVariable__getitem__program d k w0) as [Hd1 Hm1].
    destruct (MIPVariable__getitem__ d k w0) as [[v | e] w1] eqn:H1; [| done].
    cbn [snd] in Hd1, Hm1. rewrite Hd in Hd1.
    pose proof (MIPVariable__getitem__again _ _ _ _ _ H1) as Hagain.
    exists v, w1. split; [done |].
    split; [by rewrite MixedIntegerLinearProgram__getitem__run, Hd1 |].
    do 2 (split; [done |]).
    intros k'. rewrite MixedIntegerLinearProgram__getitem__run, Hd1.
    assert (is_Some (heap w1 !! d)) as Hobj1.
    { destruct (MIPVariable__getitem__stored _ _ _ _ _ H1) as (o1 & Ho1 & _). by eexists. }
    pose proof (MIPVariable__getitem__Ok d k' w1 Hobj1) as Hok'.
    destruct (MIPVariable__getitem__program d k' w1) as [_ Hm2].
    destruct (MIPVariable__getitem__ d k' w1) as [[v' | e] w2] eqn:H2; [| done].
    exists v', w2. split; [done |]. split; [done |].
    rewrite (MIPVariable__getitem__distinct d d k k' w0 w1 w2 v v' Hwf0 H1 H2).
    split; [by intros [_ ?] | done]. }
  destruct (_default_mipvariable (program w)) as [d |] eqn:Hd.
  - destruct (Hdefault w d Hwf Hd) as (v & w1 & H1 & Hagain & Hd1 & Hm1 & Hother).
    exists v, w1. rewrite MixedIntegerLinearProgram__getitem__run, Hd.
    split; [done |]. split; [done |]. split; [by eexists |].
    split; [done |]. split; [done |]. exact Hother.
  - set (w0 := {| program := with_default_mipvariable (Some (length (heap w)))
                               (program (new_variable (-1) 1 None w).2);
                  heap := heap (new_variable (-1) 1 None w).2 |}).
    assert (wf w0) as Hwf0.
    { pose proof (wf_new_variable (-1) 1 None w Hwf) as Hwf'.
      rewrite new_variable_run in Hwf'. cbn [snd] in Hwf'.
      unfold w0. rewrite new_variable_run. cbn [snd program heap].
      destruct Hwf' as [Hv Ht Hmin Hmax Hs Ho Hu Hm Hd' Hc Hmat Hobj].
      constructor; cbn [program heap] in *; try done.
      intros d [= <-]. apply elem_of_app. right. by left. }
    destruct (Hdefault w0 (length (heap w)) Hwf0) as (v & w1 & H1 & Hagain & Hd1 & Hm1 & Hother).
    { unfold w0. by rewrite new_variable_run. }
    exists v, w1. rewrite MixedIntegerLinearProgram__getitem__run, Hd.
    split; [done |]. split; [done |]. split; [by eexists |].
    split.
    + intros _. rewrite Hm1. unfold w0. by rewrite new_variable_run.
    + split; [by intros [? ?] |]. exact Hother.
Qed.

Lemma MixedIntegerLinearProgram__getitem__default_witness :
  ∃ v w1, MixedIntegerLinearProgram__getitem__ (KStr "x") sample_program = (Ok v, w1)
    ∧ MixedIntegerLinearProgram__getitem__ (KStr "x") w1 = (Ok v, w1)
    ∧ length (_mipvariables (program w1)) = 2%nat.
Proof.
  destruct (MixedIntegerLinearProgram__getitem__default (KStr "x") sample_program)
    as (v & w1 & H1 & Hagain & _ & Hnew & _).
  - apply wf_sample_program.
  - exists v, w1. split; [done |]. split; [done |]. by rewrite Hnew.
Defined.

(** ** [constraints] *)

Lemma fold_each_app {A S} (l1 l2 : list A) (s : S) (body : S → A → M S) (w : world) :
  fold_each (l1 ++ l2) s body w
  = (s' ← fold_each l1 s body; fold_each l2 s' body) w.
Proof.
  revert s w. induction l1 as [| a l1 IH]; intros s w; [done |].
  cbn [app fold_each]. rewrite !run_bind.
  destruct (body s a w) as [[s1 | e] w1]; [| done].
  by rewrite IH, run_bind.
Qed.

(** The first loop of [constraints]: the list of the variables by index. *)
Lemma constraints_variables_run (l : list (string * nat)) (d0 : list (option string))
    (w : world) :
  Forall (λ x, (x.2 < length d0)%nat) l →
  NoDup l.*2 →
  ∃ d, fold_each l d0 (λ d '(v, id), setitem d id (Some v)) w = (Ok d, w)
       ∧ length d = length d0
       ∧ ∀ v id, (v, id) ∈ l → d !! id = Some (Some v).
Proof.
  revert d0. induction l as [| [v id] l IH]; intros d0 Hlt Hnd.
  { exists d0. split; [done |]. split; [done |]. intros v id Hin. by apply elem_of_nil in Hin. }
  apply Forall_cons in Hlt as [Hid Hlt]. simpl in Hid.
  rewrite fmap_cons in Hnd. apply NoDup_cons in Hnd as [Hnotin Hnd]. simpl in Hnotin.
  assert (∀ (l' : list (string * nat)) (d1 : list (option string)),
            id ∉ l'.*2 → Forall (λ x, (x.2 < length d1)%nat) l' →
            d1 !! id = Some (Some v) →
            ∃ d, fold_each l' d1 (λ d '(v, id), setitem d id (Some v)) w = (Ok d, w)
                 ∧ d !! id = Some (Some v)) as Hkeep.
  { clear. induction l' as [| [v' id'] l' IH]; intros d1 Hnotin Hlt Hd1.
    - by exists d1.
    - apply Forall_cons in Hlt as [Hid' Hlt]. simpl in Hid'.
      rewrite fmap_cons in Hnotin. apply not_elem_of_cons in Hnotin as [Hne Hnotin].
      simpl in Hne. cbn [fold_each]. rewrite run_bind. unfold setitem.
      rewrite decide_True by done. cbn [mret M_ret].
      apply IH; [done | by rewrite length_insert |].
      by rewrite list_lookup_insert_ne. }
  cbn [fold_each]. rewrite run_bind. unfold setitem at 1.
  rewrite decide_True by done. cbn [mret M_ret].
  destruct (IH (<[id := Some v]> d0)) as (d & Hrun & Hlen & Hd).
  { by rewrite length_insert. }
  { done. }
  exists d. split; [done |]. split; [by rewrite Hlen, length_insert |].
  intros v' id' Hin. apply elem_of_cons in Hin as [[= -> ->] | Hin]; [| by apply Hd].
  destruct (Hkeep l (<[id := Some v]> d0)) as (d' & Hrun' & Hd'); [done | | |].
  - by rewrite length_insert.
  - by apply list_lookup_insert_eq.
  - rewrite Hrun in Hrun'. by injection Hrun' as ->.
Qed.

Lemma wf_variables_NoDup (w : world) :
  wf w → NoDup (map_to_list (_variables (program w))).*2.
Proof.
  intros Hwf. apply NoDup_fmap_2_strong; [| apply NoDup_map_to_list].
  intros [v i] [v' i'] Hin Hin' Heq. simpl in Heq. subst i'.
  apply elem_of_map_to_list in Hin, Hin'.
  apply (wf_variables w Hwf) in Hin as [-> _], Hin' as [-> _]. done.
Qed.

Lemma constraints_variables_wf (w : world) :
  wf w →
  ∃ d, fold_each (map_to_list (_variables (program w)))
         (replicate (size (_variables (program w))) None)
         (λ d '(v, id), setitem d id (Some v)) w = (Ok d, w)
       ∧ length d = size (_variables (program w))
       ∧ ∀ v id, _variables (program w) !! v = Some id → d !! id = Some (Some v).
Proof.
  intros Hwf.
  destruct (constraints_variables_run (map_to_list (_variables (program w)))
              (replicate (size (_variables (program w))) None) w)
    as (d & Hrun & Hlen & Hd).
  - apply Forall_forall. intros [v i] Hin. simpl. rewrite length_replicate.
    apply elem_of_map_to_list in Hin. by apply (wf_variables w Hwf) in Hin as [_ ?].
  - by apply wf_variables_NoDup.
  - exists d. split; [done |]. split; [by rewrite Hlen, length_replicate |].
    intros v id Hv. apply Hd. by apply elem_of_map_to_list.
Qed.

(** One round of the second loop. *)
Lemma constraints_entry_run (d : list (option string)) (cs : list linear_function)
    (i j : nat) (value : Qc) (ci : linear_function) (dj : option string) (w : world) :
  cs !! i = Some ci → d !! j = Some dj →
  constraints_entry d cs (i, (j, value)) w
  = match symbolic_add ci (symbolic_mul value dj) with
    | Some sum => (Ok (<[i := sum]> cs), w)
    | None => (Raise TypeError, w)
    end.
Proof.
  intros Hci Hdj. unfold constraints_entry, getitem.
  rewrite run_bind, Hci. cbn [from_option mret M_ret].
  rewrite run_bind, Hdj. cbn [from_option mret M_ret]. rewrite run_bind.
  destruct (symbolic_add _ _) as [sum |]; [| done].
  cbn [from_option mret M_ret]. unfold setitem.
  rewrite decide_True; [done |]. by apply lookup_lt_Some in Hci.
Qed.

Lemma symbolic_add_mul (ci : linear_function) (value : Qc) (dj : option string) :
  ci ≠ PyNone →
  ∃ sum, symbolic_add ci (symbolic_mul value dj) = Some sum ∧ sum ≠ PyNone.
Proof.
  intros Hci. destruct ci as [| a | t c]; [done | |]; destruct dj as [v |]; simpl;
    eexists; (split; [reflexivity | done]).
Qed.

(** The second loop raises nothing on entries within the two lists. *)
Lemma constraints_entries_run (d : list (option string))
    (es : list (nat * (nat * Qc))) (cs : list linear_function) (w : world) :
  Forall (λ e, (e.1 < length cs)%nat ∧ (e.2.1 < length d)%nat) es →
  Forall (λ c, c ≠ PyNone) cs →
  ∃ cs', fold_each es cs (constraints_entry d) w = (Ok cs', w)
         ∧ length cs' = length cs ∧ Forall (λ c, c ≠ PyNone) cs'.
Proof.
  revert cs. induction es as [| [i [j value]] es IH]; intros cs Hes Hcs.
  { by exists cs. }
  apply Forall_cons in Hes as [[Hi Hj] Hes]. simpl in Hi, Hj.
  destruct (lookup_lt_is_Some_2 cs i Hi) as [ci Hci].
  destruct (lookup_lt_is_Some_2 d j Hj) as [dj Hdj].
  cbn [fold_each]. rewrite run_bind, (constraints_entry_run d cs i j value ci dj) by done.
  destruct (symbolic_add_mul ci value dj) as (sum & -> & Hsum).
  { rewrite Forall_forall in Hcs. apply Hcs. by eapply list_elem_of_lookup_2. }
  destruct (IH (<[i := sum]> cs)) as (cs' & Hrun & Hlen & Hcs').
  - rewrite length_insert. done.
  - apply Forall_insert; done.
  - exists cs'. split; [done |]. split; [by rewrite Hlen, length_insert | done].
Qed.

Lemma constraints_run (w : world) :
  wf w →
  ∃ d cs,
    fold_each (map_to_list (_variables (program w)))
      (replicate (size (_variables (program w))) None)
      (λ d '(v, id), setitem d id (Some v)) w = (Ok d, w)
    ∧ fold_each
        (zip (_constraints_matrix_i (program w))
             (zip (_constraints_matrix_j (program w))
                  (_constraints_matrix_values (program w))))
        (replicate (length (_constraints_bounds_min (program w))) (PyNumber 0))
        (constraints_entry d) w = (Ok cs, w)
    ∧ length cs = length (_constraints_bounds_min (program w))
    ∧ constraints w
      = (Ok (zip cs (zip (_constraints_bounds_min (program w))
                         (_constraints_bounds_max (program w)))), w).
Proof.
  intros Hwf.
  destruct (constraints_variables_wf w Hwf) as (d & Hd & Hlen & _).
  destruct (constraints_entries_run d
              (zip (_constraints_matrix_i (program w))
                   (zip (_constraints_matrix_j (program w))
                        (_constraints_matrix_values (program w))))
              (replicate (length (_constraints_bounds_min (program w))) (PyNumber 0)) w)
    as (cs & Hcs & Hlencs & _).
  - destruct (wf_matrix w Hwf) as (HI & HV & HFI & HFJ).
    apply Forall_forall. intros [i [j value]] Hin. simpl.
    rewrite length_replicate, Hlen.
    apply elem_of_zip_l in Hin as Hi. apply elem_of_zip_r, elem_of_zip_l in Hin.
    rewrite Forall_forall in HFI, HFJ. split; [by apply HFI | by apply HFJ].
  - by apply Forall_replicate.
  - exists d, cs. split; [done |]. split; [done |].
    split; [by rewrite Hlencs, length_replicate |].
    unfold constraints. rewrite run_bind. cbn [self].
    rewrite run_bind, Hd, run_bind, Hcs. done.
Qed.

(** X26: on a program that the invariant holds of, [constraints]
    raises nothing and changes nothing; it returns one triple for each
    constraint, with the two bounds that are stored for it. *)
Theorem constraints_bounds (w : world) :
  wf w →
  ∃ cs, constraints w = (Ok cs, w)
        ∧ cs.*2 = zip (_constraints_bounds_min (program w))
                      (_constraints_bounds_max (program w))
        ∧ length cs = length (_constraints_bounds_min (program w)).
Proof.
  intros Hwf. destruct (constraints_run w Hwf) as (d & cs & _ & _ & Hlen & Hrun).
  destruct (wf_constraints w Hwf) as [_ Hmax].
  eexists. split; [exact Hrun |]. split.
  - rewrite snd_zip; [done |]. rewrite length_zip_with. lia.
  - rewrite length_zip_with, length_zip_with. lia.
Qed.

Lemma constraints_bounds_witness :
  ∃ cs, constraints sample_program_2 = (Ok cs, sample_program_2)
        ∧ cs.*2 = zip (_constraints_bounds_min (program sample_program_2))
                      (_constraints_bounds_max (program sample_program_2))
        ∧ length cs = length (_constraints_bounds_min (program sample_program_2)).
Proof. apply (constraints_bounds sample_program_2). apply wf_sample_program_2. Defined.

(** The rounds of the earlier rows do not see a row added at the end. *)
Lemma constraints_entries_app (d : list (option string))
    (es : list (nat * (nat * Qc))) (cs : list linear_function) (x : linear_function)
    (w : world) :
  Forall (λ e, (e.1 < length cs)%nat) es →
  fold_each es (cs ++ [x]) (constraints_entry d) w
  = match fold_each es cs (constraints_entry d) w with
    | (Ok cs', w') => (Ok (cs' ++ [x]), w')
    | (Raise e, w') => (Raise e, w')
    end.
Proof.
  revert cs w. induction es as [| [i [j value]] es IH]; intros cs w Hes; [done |].
  apply Forall_cons in Hes as [Hi Hes]. simpl in Hi.
  cbn [fold_each]. rewrite !run_bind.
  unfold constraints_entry at 1 3. unfold getitem.
  rewrite !run_bind, lookup_app_l by done.
  destruct (cs !! i) as [ci |]; [| done]. cbn [from_option mret M_ret].
  rewrite !run_bind. destruct (d !! j) as [dj |]; [| done]. cbn [from_option mret M_ret].
  rewrite !run_bind. destruct (symbolic_add _ _) as [sum |]; [| done].
  cbn [from_option mret M_ret]. unfold setitem.
  rewrite length_app. simpl.
  rewrite !decide_True by lia. cbn [mret M_ret].
  rewrite insert_app_l by done. apply IH.
  rewrite length_insert. done.
Qed.

Lemma symbolic_add_row (m : gmap string Qc) (v : string) (q : Qc) :
  q ≠ 0 → m !! v = None →
  symbolic_add (row_value m) (symbolic_mul q (Some v)) = Some (row_value (<[v := q]> m)).
Proof.
  intros Hq Hv. unfold row_value, symbolic_mul.
  rewrite (decide_False (P := q = 0)) by done.
  rewrite (decide_False (P := <[v := q]> m = ∅)) by apply insert_non_empty.
  assert (0 + 0 = 0) as E by ring.
  destruct (decide (m = ∅)) as [-> | Hm]; simpl; rewrite E.
  - by rewrite insert_empty.
  - do 2 f_equal. apply map_eq. intros k. rewrite lookup_union_with.
    destruct (decide (k = v)) as [-> | Hne].
    + by rewrite Hv, lookup_singleton_eq, lookup_insert_eq.
    + rewrite lookup_singleton_ne, lookup_insert_ne by done.
      by destruct (m !! k).
Qed.

(** The rounds of the entries of a new row. *)
Lemma constraints_entries_row (d : list (option string)) (vars : gmap string nat)
    (terms : list (string * Qc)) (m : gmap string Qc) (cs : list linear_function)
    (w : world) :
  NoDup terms.*1 →
  Forall (λ term, term.2 ≠ 0 ∧ m !! term.1 = None
                  ∧ ∃ j, vars !! term.1 = Some j ∧ d !! j = Some (Some term.1)) terms →
  fold_each
    (zip (replicate (length terms) (length cs))
         (zip ((λ term, default 0%nat (vars !! term.1)) <$> terms) terms.*2))
    (cs ++ [row_value m]) (constraints_entry d) w
  = (Ok (cs ++ [row_value (m ∪ list_to_map terms)]), w).
Proof.
  revert m. induction terms as [| [v q] terms IH]; intros m Hnd Hterms.
  { simpl. by rewrite (right_id_L ∅ (∪)). }
  apply Forall_cons in Hterms as [(Hq & Hv & j & Hj & Hdj) Hterms]. simpl in Hq, Hv, Hj, Hdj.
  rewrite fmap_cons in Hnd. apply NoDup_cons in Hnd as [Hnotin Hnd]. simpl in Hnotin.
  cbn [length replicate fmap list_fmap zip zip_with fold_each fst snd].
  rewrite Hj. cbn [default].
  rewrite run_bind.
  rewrite (constraints_entry_run d _ _ _ _ (row_value m) (Some v)); [| | done]; last first.
  { by rewrite list_lookup_middle. }
  rewrite symbolic_add_row by done.
  replace (<[length cs := row_value (<[v := q]> m)]> (cs ++ [row_value m]))
    with (cs ++ [row_value (<[v := q]> m)]); last first.
  { rewrite insert_app_r_alt by done. by rewrite Nat.sub_diag. }
  rewrite IH; [| done |].
  - do 4 f_equal. cbn [list_to_map foldr]. simpl.
    rewrite <- insert_union_l. by rewrite insert_union_r.
  - apply Forall_forall. intros [v' q'] Hin. rewrite Forall_forall in Hterms.
    destruct (Hterms _ Hin) as (Hq' & Hv' & Hj'). simpl in *.
    split; [done |]. split; [| done].
    rewrite lookup_insert_ne; [done |]. intros ->. apply Hnotin.
    apply list_elem_of_fmap. by exists (v', q').
Qed.

(** X27: [constraints] after [add_constraint].  For an expression that
    is not zero, whose variables are variables of the program and
    have coefficients other than 0, the list of the constraints is
    the list there was before the call, followed by one triple: the
    expression without its constant term, and the two bounds that were
    given minus the constant term.  (An expression that is a constant
    only reads back as the integer 0.) *)
Theorem constraints_add_constraint (f : gmap string Qc) (c : Qc) (max min : option Qc)
    (name : option string) (w : world) :
  wf w →
  is_zero (Expression f c) = false →
  (∀ v, is_Some (f !! v) → is_Some (_variables (program w) !! v)) →
  (∀ v, f !! v ≠ Some 0) →
  ∃ cs w', constraints w = (Ok cs, w)
    ∧ add_constraint (Expression f c) max min name w = (Ok tt, w')
    ∧ constraints w'
      = (Ok (cs ++ [(row_value f, ((λ min, min - c) <$> min, (λ max, max - c) <$> max))]),
         w').
Proof.
  intros Hwf Hz Hreg Hnz.
  destruct (constraints_run w Hwf) as (d & cs & Hd & Hcs & Hlen & Hrun).
  destruct (constraints_variables_wf w Hwf) as (d' & Hd' & Hlend & Hdspec).
  rewrite Hd in Hd'. injection Hd' as <-.
  destruct (wf_matrix w Hwf) as (HI & HV & HFI & HFJ).
  destruct (wf_constraints w Hwf) as [_ Hmax].
  eexists _, _. split; [exact Hrun |].
  split; [by apply add_constraint_registered |].
  set (w' := {| program := _; heap := heap w |}).
  unfold constraints. rewrite run_bind. cbn [self]. rewrite run_bind.
  assert (_variables (program w') = _variables (program w)) as -> by done.
  assert (∀ (l : list (string * nat)) (d0 : list (option string)),
            fold_each l d0 (λ d '(v, id), setitem d id (Some v)) w'
                  = match fold_each l d0 (λ d '(v, id), setitem d id (Some v)) w with
                    | (r, _) => (r, w')
                    end) as Hframe.
  { clear. induction l as [| [v id] l IH]; intros d0; [done |].
    cbn [fold_each]. rewrite !run_bind. unfold setitem.
    destruct (decide _); [| done]. cbn [mret M_ret]. apply IH. }
  rewrite Hframe, Hd. rewrite run_bind.
  assert (∀ (es : list (nat * (nat * Qc))) (cs0 : list linear_function),
            fold_each es cs0 (constraints_entry d) w'
                    = match fold_each es cs0 (constraints_entry d) w with
                      | (r, _) => (r, w')
                      end) as Hframe2.
  { clear. induction es as [| [i [j value]] es IH]; intros cs0; [done |].
    cbn [fold_each]. rewrite !run_bind. unfold constraints_entry, getitem.
    rewrite !run_bind. destruct (cs0 !! i); [| done]. cbn [from_option mret M_ret].
    rewrite !run_bind. destruct (d !! j); [| done]. cbn [from_option mret M_ret].
    rewrite !run_bind. destruct (symbolic_add _ _); [| done].
    cbn [from_option mret M_ret]. unfold setitem.
    destruct (decide _); [| done]. cbn [mret M_ret]. apply IH. }
  rewrite Hframe2.
  subst w'. cbn [program _constraints_matrix_i _constraints_matrix_j
                 _constraints_matrix_values _constraints_bounds_min
                 _constraints_bounds_max
                 with_constraints_bounds_min with_constraints_bounds_max
                 with_constraints_matrix_values with_constraints_matrix_j
                 with_constraints_matrix_i with_constraints_name].
  rewrite !zip_with_app by (rewrite ?length_zip_with; lia).
  rewrite fold_each_app, run_bind.
  rewrite length_app. cbn [length].
  rewrite Nat.add_1_r, replicate_S_end.
  rewrite constraints_entries_app; last first.
  { rewrite length_replicate. apply Forall_forall. intros [i [j value]] Hin. simpl.
    apply elem_of_zip_l in Hin. rewrite Forall_forall in HFI. by apply HFI. }
  rewrite Hcs.
  pose proof (constraints_entries_row d (_variables (program w)) (map_to_list f) ∅ cs w)
    as Hrow.
  rewrite Hlen in Hrow. unfold row_value at 1 in Hrow. rewrite decide_True in Hrow by done.
  rewrite Hrow; last first.
  { apply Forall_forall. intros [v q] Hin. simpl. apply elem_of_map_to_list in Hin.
    split; [intros ->; by apply (Hnz v) |]. split; [done |].
    destruct (Hreg v) as [j Hj]; [by eexists |]. exists j. split; [done |].
    by apply Hdspec. }
  { apply NoDup_fst_map_to_list. }
  rewrite (left_id_L ∅ (∪)), list_to_map_to_list.
  cbn [mret M_ret]. do 2 f_equal.
  rewrite zip_with_app by (rewrite length_zip_with; lia). done.
Qed.

Lemma constraints_add_constraint_witness :
  ∃ cs w', constraints sample_program_2 = (Ok cs, sample_program_2)
    ∧ add_constraint (Expression {["x0" := Qc_of_Z 1]} (Qc_of_Z 2))
        (Some (Qc_of_Z 5)) None None sample_program_2 = (Ok tt, w')
    ∧ constraints w'
      = (Ok (cs ++ [(row_value {["x0" := Qc_of_Z 1]},
                     (None, Some (Qc_of_Z 5 - Qc_of_Z 2)))]), w').
Proof.
  apply (constraints_add_constraint {["x0" := Qc_of_Z 1]} (Qc_of_Z 2)
           (Some (Qc_of_Z 5)) None None sample_program_2).
  - apply wf_sample_program_2.
  - by vm_compute.
  - intros v [q Hq]. apply lookup_singleton_Some in Hq as [<- _]. by eexists.
  - intros v Hv. apply lookup_singleton_Some in Hv as [_ Hv]. discriminate.
Defined.

(** ** The names of the variables of dimension 1 *)

(** A list after assignments by index that agree wherever two of them
    meet. *)
Lemma assignments_lookup (ws : list (nat * string)) (l : list string) (i : nat) (s : string) :
  (∀ s', (i, s') ∈ ws → s' = s) →
  Forall (λ x, (x.1 < length l)%nat) ws →
  (i, s) ∈ ws ∨ l !! i = Some s →
  foldl (λ l x, <[x.1 := x.2]> l) l ws !! i = Some s.
Proof.
  revert l. induction ws as [| [j t] ws IH]; intros l Hcons Hlt Hin.
  { destruct Hin as [Hin | Hl]; [by apply elem_of_nil in Hin | done]. }
  apply Forall_cons in Hlt as [Hj Hlt]. simpl in Hj.
  cbn [foldl fst snd]. apply IH.
  - intros s' Hs'. apply Hcons. by right.
  - eapply Forall_impl; [exact Hlt |]. intros x Hx. by rewrite length_insert.
  - destruct (decide (j = i)) as [-> | Hne].
    + right. rewrite (Hcons t) by (by left). by apply list_lookup_insert_eq.
    + destruct Hin as [Hin | Hl].
      * apply elem_of_cons in Hin as [[= ? ?] | Hin]; [done | by left].
      * right. by rewrite list_lookup_insert_ne.
Qed.

Lemma assignments_length (ws : list (nat * string)) (l : list string) :
  length (foldl (λ l x, <[x.1 := x.2]> l) l ws) = length l.
Proof.
  revert l. induction ws as [| [j t] ws IH]; intros l; [done |].
  cbn [foldl]. by rewrite IH, length_insert.
Qed.

(** The loop of a [MIPVariable] of dimension 1 whose name is [name]. *)
Lemma update_variables_name_loop (name : string) (l : list (key * value)) (w : world) :
  Forall (λ x, ∃ i, variables_lookup (program w) x.2 = Some i
                    ∧ (i < length (_variables_name (program w)))%nat) l →
  for_each l (λ '(k, v),
      name ← from_option ((λ prefix, prefix +:+ "[" +:+ str k +:+ "]") <$> Some name)
                TypeError;
      p ← self;
      i ← from_option (variables_lookup p v) KeyError;
      l ← setitem (_variables_name p) i name;
      assign (with_variables_name l)) w
  = (Ok tt,
     {| program :=
          with_variables_name
            (foldl (λ l x, <[x.1 := x.2]> l) (_variables_name (program w))
               ((λ x, (default 0%nat (variables_lookup (program w) x.2),
                       name +:+ "[" +:+ str x.1 +:+ "]")) <$> l))
            (program w);
        heap := heap w |}).
Proof.
  revert w. induction l as [| [k v] l IH]; intros w Hl.
  { by destruct w as [[] h]. }
  apply Forall_cons in Hl as [(i & Hi & Hlt) Hl]. simpl in Hi.
  cbn [for_each]. rewrite run_bind. cbv beta iota.
  cbn [fmap option_fmap option_map from_option mret M_ret].
  rewrite run_bind. cbn [from_option mret M_ret]. rewrite run_bind. cbn [self]. rewrite run_bind, Hi. cbn [from_option mret M_ret].
  rewrite run_bind. unfold setitem. rewrite decide_True by done. cbn [mret M_ret].
  unfold assign at 1.
  rewrite IH.
  - cbn [fmap list_fmap foldl fst snd program heap]. rewrite Hi. cbn [default].
    by destruct w as [[] h].
  - eapply Forall_impl; [exact Hl |]. intros [k' v'] (i' & Hi' & Hlt'). simpl in *.
    exists i'. split.
    + by destruct v'.
    + destruct w as [[] h]. simpl in *. by rewrite length_insert.
Qed.

Lemma MIPVariable_update_variables_name_run (r : nat) (o : MIPVariable) (name : string)
    (w : world) :
  heap w !! r = Some o →
  _dim o = 1%Z →
  _mipvariable_name o = Some name →
  Forall (λ x, ∃ i, variables_lookup (program w) x.2 = Some i
                    ∧ (i < length (_variables_name (program w)))%nat)
    (map_to_list (_dict o)) →
  MIPVariable_update_variables_name r None w
  = (Ok tt,
     {| program :=
          with_variables_name
            (foldl (λ l x, <[x.1 := x.2]> l) (_variables_name (program w))
               ((λ x, (default 0%nat (variables_lookup (program w) x.2),
                       name +:+ "[" +:+ str x.1 +:+ "]")) <$> map_to_list (_dict o)))
            (program w);
        heap := heap w |}).
Proof.
  intros Hr Hdim Hname Hl. unfold MIPVariable_update_variables_name.
  rewrite run_bind. unfold object. rewrite Hr, Hname, decide_True by done.
  by apply update_variables_name_loop.
Qed.

(** The loop of [_update_variables_name] over [MIPVariable] objects of
    dimension 1. *)
Lemma update_variables_name_objects (rs : list nat) (w : world) :
  Forall (λ r, ∃ o name, heap w !! r = Some o ∧ _dim o = 1%Z
                         ∧ _mipvariable_name o = Some name
                         ∧ Forall (λ x, ∃ i, variables_lookup (program w) x.2 = Some i
                                     ∧ (i < length (_variables_name (program w)))%nat)
                             (map_to_list (_dict o))) rs →
  for_each rs (λ v, MIPVariable_update_variables_name v None) w
  = (Ok tt,
     {| program :=
          with_variables_name
            (foldl (λ l x, <[x.1 := x.2]> l) (_variables_name (program w))
               (rs ≫= λ r,
                  match heap w !! r with
                  | Some o =>
                      (λ x, (default 0%nat (variables_lookup (program w) x.2),
                             default "" (_mipvariable_name o) +:+ "[" +:+ str x.1 +:+ "]"))
                        <$> map_to_list (_dict o)
                  | None => []
                  end))
            (program w);
        heap := heap w |}).
Proof.
  revert w. induction rs as [| r rs IH]; intros w Hrs.
  { by destruct w as [[] h]. }
  apply Forall_cons in Hrs as [(o & name & Hr & Hdim & Hname & Hl) Hrs].
  cbn [for_each]. rewrite run_bind.
  rewrite (MIPVariable_update_variables_name_run r o name) by done.
  rewrite IH.
  - cbn [program heap]. rewrite bind_cons, foldl_app, Hr, Hname. cbn [default].
    by destruct w as [[] h].
  - eapply Forall_impl; [exact Hrs |]. intros r' (o' & name' & Hr' & Hdim' & Hname' & Hl').
    exists o', name'. cbn [program heap]. do 3 (split; [done |]).
    eapply Forall_impl; [exact Hl' |]. intros [k v] (i & Hi & Hlt). simpl in *.
    exists i. split; [by destruct v, w as [[] h] |].
    destruct w as [[] h]. simpl in *. by rewrite assignments_length.
Qed.

(** X28: the names [_update_variables_name] computes.  When every
    [MIPVariable] of the program has dimension 1, the call returns and
    changes nothing but the list of names, which has one name for each
    variable: the variable that a [MIPVariable] of the program holds
    under the key [k] is named by the name of the [MIPVariable]
    followed by [k] in brackets, and a variable that none of them
    holds has the empty name. *)
Theorem update_variables_name_names (w : world) :
  wf w →
  (∀ r o, r ∈ _mipvariables (program w) → heap w !! r = Some o → _dim o = 1%Z) →
  ∃ names,
    _update_variables_name w
    = (Ok tt, {| program := with_variables_name names (program w); heap := heap w |})
    ∧ length names = size (_variables (program w))
    ∧ (∀ r o k v i,
         r ∈ _mipvariables (program w) → heap w !! r = Some o →
         _dict o !! k = Some (Symbol v) → _variables (program w) !! v = Some i →
         ∃ name, _mipvariable_name o = Some name
                 ∧ names !! i = Some (name +:+ "[" +:+ str k +:+ "]"))
    ∧ (∀ v i,
         _variables (program w) !! v = Some i →
         (∀ r o k, r ∈ _mipvariables (program w) → heap w !! r = Some o →
                   _dict o !! k ≠ Some (Symbol v)) →
         names !! i = Some "").
Proof.
  intros Hwf Hdim. unfold _update_variables_name.
  rewrite run_bind. cbn [self]. rewrite run_bind. unfold assign at 1.
  set (w0 := {| program := with_variables_name _ (program w); heap := heap w |}).
  assert (_variables (program w0) = _variables (program w)) as Hvars by done.
  assert (_variables_name (program w0) = replicate (size (_variables (program w))) "")
    as Hnames by done.
  assert (∀ v, variables_lookup (program w0) v = variables_lookup (program w) v) as Hlook.
  { by intros []. }
  rewrite update_variables_name_objects; last first.
  { apply Forall_forall. intros r Hr.
    destruct (wf_mipvariables w Hwf r Hr) as (o & Ho & name & Hname).
    exists o, name. do 2 (split; [by eauto |]). split; [done |].
    apply Forall_forall. intros [k v] Hin. simpl. apply elem_of_map_to_list in Hin.
    destruct v as [v | r'].
    - destruct (wf_symbol w Hwf r o k v Ho Hin) as [_ [i Hi]]. exists i.
      split; [done |]. rewrite ?Hnames. simpl. rewrite length_replicate.
      by apply (wf_variables w Hwf) in Hi as [_ ?].
    - destruct (wf_object w Hwf r o k r' Ho Hin) as [Hne _]. by rewrite (Hdim r o) in Hne. }
  match goal with |- context [foldl _ _ ?x] => set (ws := x) end.
  assert (∀ i s, (i, s) ∈ ws ↔
            ∃ r o k v name, r ∈ _mipvariables (program w) ∧ heap w !! r = Some o
              ∧ _dict o !! k = Some (Symbol v) ∧ _variables (program w) !! v = Some i
              ∧ _mipvariable_name o = Some name
              ∧ s = name +:+ "[" +:+ str k +:+ "]") as Hws.
  { intros i s. unfold ws. rewrite list_elem_of_bind. split.
    - intros (r & Hin & Hr). change (heap w0) with (heap w) in Hin.
      destruct (wf_mipvariables w Hwf r Hr) as (o & Ho & name & Hname).
      rewrite Ho in Hin. apply list_elem_of_fmap in Hin as ([k v] & [= -> ->] & Hin).
      apply elem_of_map_to_list in Hin. simpl. rewrite Hname, Hlook. simpl.
      destruct v as [v | r'].
      + destruct (wf_symbol w Hwf r o k v Ho Hin) as [_ [i Hi]].
        exists r, o, k, v, name. simpl. by rewrite Hi.
      + destruct (wf_object w Hwf r o k r' Ho Hin) as [Hne _]. by rewrite (Hdim r o) in Hne.
    - intros (r & o & k & v & name & Hr & Ho & Hk & Hv & Hname & ->).
      exists r. split; [| done]. change (heap w0) with (heap w). rewrite Ho.
      apply list_elem_of_fmap. exists (k, Symbol v). cbv beta. cbn [fst snd].
      rewrite Hname, Hlook. simpl. rewrite Hv. split; [done |].
      by apply elem_of_map_to_list. }
  assert (Forall (λ x, (x.1 < length (_variables_name (program w0)))%nat) ws) as Hlt.
  { apply Forall_forall. intros [i s] Hin. simpl.
    apply Hws in Hin as (r & o & k & v & name & _ & _ & _ & Hv & _).
    rewrite length_replicate. by apply (wf_variables w Hwf) in Hv as [_ ?]. }
  eexists. split; [by destruct w as [[] h] |].
  split; [by rewrite assignments_length, Hnames, length_replicate |]. split.
  - intros r o k v i Hr Ho Hk Hv.
    destruct (wf_mipvariables w Hwf r Hr) as (o' & Ho' & name & Hname).
    rewrite Ho in Ho'. injection Ho' as <-.
    exists name. split; [done |]. apply assignments_lookup; [| done |].
    + intros s' Hs'. apply Hws in Hs' as (r' & o' & k' & v' & name' & _ & Ho' & Hk' & Hv' & Hname' & ->).
      apply (wf_variables w Hwf) in Hv as [-> _], Hv' as [-> _].
      destruct (wf_unique w Hwf _ _ _ _ _ _ _ Ho Hk Ho' Hk') as [<- <-].
      rewrite Ho in Ho'. injection Ho' as <-. rewrite Hname in Hname'. by injection Hname' as <-.
    + left. apply Hws. by exists r, o, k, v, name.
  - intros v i Hv Hnone. apply assignments_lookup; [| done |].
    + intros s' Hs'. apply Hws in Hs' as (r' & o' & k' & v' & name' & Hr' & Ho' & Hk' & Hv' & _).
      apply (wf_variables w Hwf) in Hv as [-> _], Hv' as [-> _].
      by destruct (Hnone r' o' k' Hr' Ho').
    + right. rewrite Hnames. apply lookup_replicate_2.
      by apply (wf_variables w Hwf) in Hv as [_ ?].
Qed.

Lemma update_variables_name_names_witness :
  ∃ names,
    (_update_variables_name sample_program_2).2
    = {| program := with_variables_name names (program sample_program_2);
         heap := heap sample_program_2 |}
    ∧ names !! 0%nat = Some "V0[0]" ∧ names !! 1%nat = Some "V0[1]".
Proof.
  destruct (update_variables_name_names sample_program_2) as (names & Hrun & _ & Hheld & _).
  - apply wf_sample_program_2.
  - intros r o Hr Ho. vm_compute in Hr. apply list_elem_of_singleton in Hr as ->.
    vm_compute in Ho. by injection Ho as <-.
  - assert (0%nat ∈ _mipvariables (program sample_program_2)) as Hin.
    { vm_compute. by left. }
    destruct (heap sample_program_2 !! 0%nat) as [o |] eqn:Ho; [| by vm_compute in Ho].
    exists names. rewrite Hrun. split; [done |]. split.
    + destruct (Hheld 0%nat o (KInt 0) "x0" 0%nat Hin Ho) as (name & Hname & Hn).
      * vm_compute in Ho. by injection Ho as <-.
      * by vm_compute.
      * vm_compute in Ho. injection Ho as <-. by injection Hname as <-.
    + destruct (Hheld 0%nat o (KInt 1) "x1" 1%nat Hin Ho) as (name & Hname & Hn).
      * vm_compute in Ho. by injection Ho as <-.
      * by vm_compute.
      * vm_compute in Ho. injection Ho as <-. by injection Hname as <-.
Defined.
